(** * SkBlurMask: the separable box blur, the summed-area-table blur and the
      blur styles of Skia's mask blur engine, embedded in Rocq.

    The development follows [SkBlurMask.cpp].  C [int]s are modelled as
    mathematical integers ([Z]); signed overflow is undefined in C and the
    model describes the executions that stay clear of it.  Unsigned values
    ([uint32_t], [uint8_t]) carry their wrap-around explicitly ([to_u32],
    [to_u8]).  A buffer is a [list Z]; a pointer into it is an index. *)

From Stdlib Require Import ZArith List Lia Bool SpecFloat.
From stdpp Require Import base list.

Local Open Scope Z_scope.

(** ** Machine integers *)

Definition to_u8 (z : Z) : Z := z mod 2 ^ 8.
Definition to_u32 (z : Z) : Z := z mod 2 ^ 32.

(** Modelled from the spec: [SkMath.h] / [SkTypes.h] are not among the
    sources; these are the helpers [SkBlurMask.cpp] calls, with the meaning
    their names and the spec give them (minimum, maximum, clamp to
    non-negative, clamp to an upper bound, narrowing to 8 bits). *)
Definition SkMin32 (a b : Z) : Z := if b <? a then b else a.
Definition SkMax32 (a b : Z) : Z := if a <? b then b else a.
Definition SkFastMin32 (value max : Z) : Z := if max <? value then max else value.
Definition SkClampPos (value : Z) : Z := if value <? 0 then 0 else value.
Definition SkClampMax (value max : Z) : Z :=
  if value <? 0 then 0 else if max <? value then max else value.
Definition SkToU8 (x : Z) : Z := to_u8 x.
Definition SkAbs32 (value : Z) : Z := if value <? 0 then - value else value.

(** ** Memory *)

(** [*p] and [*p = v] on a buffer.  C leaves accesses outside the buffer
    undefined; the model reads 0 there and drops the write, and the theorems
    below state the buffer sizes under which no such access happens. *)
Definition load (m : list Z) (p : Z) : Z :=
  if p <? 0 then 0 else default 0 (m !! Z.to_nat p).

Definition store (m : list Z) (p v : Z) : list Z :=
  if p <? 0 then m else <[Z.to_nat p := v]> m.

(** ** Loops *)

Section Loops.
Context {S : Type}.

(** [for (; cond(x, s); x += step) s = body(x, s);] with [fuel] bounding
    the number of iterations. *)
Fixpoint loop (fuel : nat) (cond : Z -> S -> bool) (step : Z)
         (body : Z -> S -> S) (x : Z) (s : S) : Z * S :=
  match fuel with
  | O => (x, s)
  | Datatypes.S k =>
      if cond x s then loop k cond step body (x + step) (body x s)
      else (x, s)
  end.

(** [for (; x < n; x += step)], for [step >= 1]: at most [n - x]
    iterations. *)
Definition for_lt (n step : Z) (body : Z -> S -> S) (x : Z) (s : S) : Z * S :=
  loop (Z.to_nat (n - x)) (fun x _ => x <? n) step body x s.

(** [for (; x >= lo; x -= step)], for [step >= 1]. *)
Definition for_ge (lo step : Z) (body : Z -> S -> S) (x : Z) (s : S) : Z * S :=
  loop (Z.to_nat (x - lo + 1)) (fun x _ => lo <=? x) (- step) body x s.

(** A macro body written out sixteen times / four times. *)
Definition x4 (b : S -> S) (s : S) : S := b (b (b (b s))).
Definition x16 (b : S -> S) (s : S) : S := x4 b (x4 b (x4 b (x4 b s))).
End Loops.

(** ** The box blur kernel *)

(** The locals of one row of [boxBlur] that the sliding window updates. *)
Record blur_row := {
  r_sum : Z;          (* uint32_t sum *)
  r_dptr : Z;         (* uint8_t* dptr, as an index into dst *)
  r_right : Z;        (* const uint8_t* right, as an index into src *)
  r_left : Z;         (* const uint8_t* left *)
  r_dst : list Z      (* the destination buffer *)
}.

(** The locals of one row of [boxBlurInterp]. *)
Record interp_row := {
  i_outer_sum : Z;    (* uint32_t outer_sum *)
  i_inner_sum : Z;    (* uint32_t inner_sum *)
  i_dptr : Z;
  i_right : Z;
  i_left : Z;
  i_dst : list Z
}.

(** What [boxBlur] and [boxBlurInterp] leave behind: the returned width, the
    destination buffer, and whether every end-of-row [SkASSERT] held. *)
Record blur_out := {
  out_width : Z;
  out_dst : list Z;
  out_asserts : bool
}.

Section BoxBlur.
(** [#ifndef SK_DISABLE_BLUR_ROUNDING]: the build flag that removes the
    rounding term. *)
Variable SK_DISABLE_BLUR_ROUNDING : bool.

Definition blur_half : Z :=
  if SK_DISABLE_BLUR_ROUNDING then 0 else Z.shiftl 1 23.

Section Row.
Variables (src : list Z) (scale dst_x_stride : Z).

(** [*dptr = (sum * scale + half) >> 24], in [uint32_t] arithmetic and
    narrowed to the [uint8_t] it is stored in. *)
Definition blur_px (sum : Z) : Z :=
  to_u8 (Z.shiftr (to_u32 (sum * scale + blur_half)) 24).

(** [*dptr = 0; dptr += dst_x_stride;] *)
Definition ZERO_ITER (st : blur_row) : blur_row :=
  {| r_sum := r_sum st;
     r_dptr := r_dptr st + dst_x_stride;
     r_right := r_right st;
     r_left := r_left st;
     r_dst := store (r_dst st) (r_dptr st) 0 |}.

Definition LEFT_BORDER_ITER (st : blur_row) : blur_row :=
  let sum := to_u32 (r_sum st + load src (r_right st)) in
  {| r_sum := sum;
     r_dptr := r_dptr st + dst_x_stride;
     r_right := r_right st + 1;
     r_left := r_left st;
     r_dst := store (r_dst st) (r_dptr st) (blur_px sum) |}.

Definition TRIVIAL_ITER (st : blur_row) : blur_row :=
  {| r_sum := r_sum st;
     r_dptr := r_dptr st + dst_x_stride;
     r_right := r_right st;
     r_left := r_left st;
     r_dst := store (r_dst st) (r_dptr st) (blur_px (r_sum st)) |}.

Definition CENTER_ITER (st : blur_row) : blur_row :=
  let sum := to_u32 (r_sum st + load src (r_right st)) in
  {| r_sum := to_u32 (sum - load src (r_left st));
     r_dptr := r_dptr st + dst_x_stride;
     r_right := r_right st + 1;
     r_left := r_left st + 1;
     r_dst := store (r_dst st) (r_dptr st) (blur_px sum) |}.

Definition RIGHT_BORDER_ITER (st : blur_row) : blur_row :=
  {| r_sum := to_u32 (r_sum st - load src (r_left st));
     r_dptr := r_dptr st + dst_x_stride;
     r_right := r_right st;
     r_left := r_left st + 1;
     r_dst := store (r_dst st) (r_dptr st) (blur_px (r_sum st)) |}.

(** The body of [for (int y = 0; y < height; ++y)], up to the
    [SkASSERT(sum == 0)] that ends it. *)
Definition boxBlur_row (leftRadius rightRadius width : Z)
           (src_off dst_off : Z) (dst : list Z) : blur_row :=
  let diameter := leftRadius + rightRadius in
  let border := SkMin32 width diameter in
  let st := {| r_sum := 0; r_dptr := dst_off;
               r_right := src_off; r_left := src_off; r_dst := dst |} in
  let '(_, st) := for_lt (rightRadius - leftRadius) 1 (fun _ => ZERO_ITER) 0 st in
  let x := 0 in
  let '(x, st) := for_lt (border - 16) 16 (fun _ => x16 LEFT_BORDER_ITER) x st in
  let '(x, st) := for_lt border 1 (fun _ => LEFT_BORDER_ITER) x st in
  let x := width in
  let '(x, st) := for_lt (diameter - 16) 16 (fun _ => x16 TRIVIAL_ITER) x st in
  let '(x, st) := for_lt diameter 1 (fun _ => TRIVIAL_ITER) x st in
  let x := diameter in
  let '(x, st) := for_lt (width - 16) 16 (fun _ => x16 CENTER_ITER) x st in
  let '(x, st) := for_lt width 1 (fun _ => CENTER_ITER) x st in
  let x := 0 in
  let '(x, st) := for_lt (border - 16) 16 (fun _ => x16 RIGHT_BORDER_ITER) x st in
  let '(x, st) := for_lt border 1 (fun _ => RIGHT_BORDER_ITER) x st in
  let '(_, st) := for_lt (leftRadius - rightRadius) 1 (fun _ => ZERO_ITER) 0 st in
  st.
End Row.

Definition boxBlur (src : list Z) (src_y_stride : Z) (dst : list Z)
           (leftRadius rightRadius width height : Z) (transpose : bool)
  : blur_out :=
  let diameter := leftRadius + rightRadius in
  let kernelSize := diameter + 1 in
  let scale := to_u32 (Z.quot (Z.shiftl 1 24) kernelSize) in
  let new_width := width + SkMax32 leftRadius rightRadius * 2 in
  let dst_x_stride := if transpose then height else 1 in
  let dst_y_stride := if transpose then 1 else new_width in
  let '(_, (dst, ok)) :=
    for_lt height 1
      (fun y '(dst, ok) =>
         let st := boxBlur_row src scale dst_x_stride
                     leftRadius rightRadius width
                     (y * src_y_stride) (y * dst_y_stride) dst in
         (r_dst st, ok && (r_sum st =? 0)))
      0 (dst, true) in
  {| out_width := new_width; out_dst := dst; out_asserts := ok |}.

(** *** The interpolating variant, [boxBlurInterp] *)

Section InterpRow.
Variables (src : list Z) (outer_scale inner_scale dst_x_stride : Z).

(** [(outer_sum * outer_scale + inner_sum * inner_scale + half) >> 24] *)
Definition interp_px (outer_sum inner_sum : Z) : Z :=
  to_u8 (Z.shiftr
           (to_u32 (outer_sum * outer_scale + inner_sum * inner_scale
                    + blur_half)) 24).

Definition INTERP_LEFT_BORDER_ITER (st : interp_row) : interp_row :=
  let inner_sum := i_outer_sum st in
  let outer_sum := to_u32 (i_outer_sum st + load src (i_right st)) in
  {| i_outer_sum := outer_sum;
     i_inner_sum := inner_sum;
     i_dptr := i_dptr st + dst_x_stride;
     i_right := i_right st + 1;
     i_left := i_left st;
     i_dst := store (i_dst st) (i_dptr st) (interp_px outer_sum inner_sum) |}.

Definition INTERP_TRIVIAL_ITER (st : interp_row) : interp_row :=
  {| i_outer_sum := i_outer_sum st;
     i_inner_sum := i_inner_sum st;
     i_dptr := i_dptr st + dst_x_stride;
     i_right := i_right st;
     i_left := i_left st;
     i_dst := store (i_dst st) (i_dptr st)
                (interp_px (i_outer_sum st) (i_inner_sum st)) |}.

Definition INTERP_CENTER_ITER (st : interp_row) : interp_row :=
  let inner_sum := to_u32 (i_outer_sum st - load src (i_left st)) in
  let outer_sum := to_u32 (i_outer_sum st + load src (i_right st)) in
  {| i_outer_sum := to_u32 (outer_sum - load src (i_left st));
     i_inner_sum := inner_sum;
     i_dptr := i_dptr st + dst_x_stride;
     i_right := i_right st + 1;
     i_left := i_left st + 1;
     i_dst := store (i_dst st) (i_dptr st) (interp_px outer_sum inner_sum) |}.

Definition INTERP_RIGHT_BORDER_ITER (st : interp_row) : interp_row :=
  let inner_sum := to_u32 (i_outer_sum st - load src (i_left st)) in
  {| i_outer_sum := inner_sum;
     i_inner_sum := inner_sum;
     i_dptr := i_dptr st + dst_x_stride;
     i_right := i_right st;
     i_left := i_left st + 1;
     i_dst := store (i_dst st) (i_dptr st)
                (interp_px (i_outer_sum st) inner_sum) |}.

(** The body of the row loop of [boxBlurInterp], up to its
    [SkASSERT(outer_sum == 0 && inner_sum == 0)]. *)
Definition boxBlurInterp_row (radius width : Z)
           (src_off dst_off : Z) (dst : list Z) : interp_row :=
  let diameter := radius * 2 in
  let border := SkMin32 width diameter in
  let st := {| i_outer_sum := 0; i_inner_sum := 0; i_dptr := dst_off;
               i_right := src_off; i_left := src_off; i_dst := dst |} in
  let x := 0 in
  let '(x, st) := for_lt (border - 16) 16 (fun _ => x16 INTERP_LEFT_BORDER_ITER) x st in
  let '(x, st) := for_lt border 1 (fun _ => INTERP_LEFT_BORDER_ITER) x st in
  let '(_, st) := for_lt diameter 1 (fun _ => INTERP_TRIVIAL_ITER) width st in
  let x := diameter in
  let '(x, st) := for_lt (width - 16) 16 (fun _ => x16 INTERP_CENTER_ITER) x st in
  let '(x, st) := for_lt width 1 (fun _ => INTERP_CENTER_ITER) x st in
  let x := 0 in
  let '(x, st) := for_lt (border - 16) 16 (fun _ => x16 INTERP_RIGHT_BORDER_ITER) x st in
  let '(x, st) := for_lt border 1 (fun _ => INTERP_RIGHT_BORDER_ITER) x st in
  st.
End InterpRow.

Definition boxBlurInterp (src : list Z) (src_y_stride : Z) (dst : list Z)
           (radius width height : Z) (transpose : bool) (outer_weight : Z)
  : blur_out :=
  let diameter := radius * 2 in
  let kernelSize := diameter + 1 in
  let inner_weight := 255 - outer_weight in
  let outer_weight := to_u8 (outer_weight + Z.shiftr outer_weight 7) in
  let inner_weight := inner_weight + Z.shiftr inner_weight 7 in
  let outer_scale := to_u32 (Z.quot (Z.shiftl outer_weight 16) kernelSize) in
  let inner_scale := to_u32 (Z.quot (Z.shiftl inner_weight 16) (kernelSize - 2)) in
  let new_width := width + diameter in
  let dst_x_stride := if transpose then height else 1 in
  let dst_y_stride := if transpose then 1 else new_width in
  let '(_, (dst, ok)) :=
    for_lt height 1
      (fun y '(dst, ok) =>
         let st := boxBlurInterp_row src outer_scale inner_scale dst_x_stride
                     radius width
                     (y * src_y_stride) (y * dst_y_stride) dst in
         (i_dst st,
          ok && ((i_outer_sum st =? 0) && (i_inner_sum st =? 0))))
      0 (dst, true) in
  {| out_width := new_width; out_dst := dst; out_asserts := ok |}.
End BoxBlur.

(** ** The summed-area table *)

(** Modelled from the spec: [SkTypes.h] is not among the sources;
    [SkIsAlign4(x)] tells whether the address [x] is a multiple of 4. *)
Definition SkIsAlign4 (x : Z) : bool := Z.land x 3 =? 0.

(** [memset(p, v, n)] on cells. *)
Fixpoint memset (m : list Z) (p v : Z) (n : nat) : list Z :=
  match n with
  | O => m
  | Datatypes.S k => memset (store m p v) (p + 1) v k
  end.

(** The locals of [build_sum_buffer]. *)
Record sum_state := {
  s_sum : list Z;     (* the buffer behind uint32_t sum[] *)
  s_sp : Z;           (* the moving pointer [sum], as an index *)
  s_src : Z;          (* the moving pointer [src], as an index *)
  s_X : Z;
  s_L : Z;
  s_C : Z
}.

Section BuildSumBuffer.
(** The address of the first byte of [src]: the first loop of each row
    runs until the byte pointer is 4-byte aligned. *)
Variable src_addr : Z.
Variables (src : list Z) (sumW : Z).

(** [X = *src++ + X; *sum++ = X;] *)
Definition FIRST_ROW_ITER (st : sum_state) : sum_state :=
  let X := to_u32 (load src (s_src st) + s_X st) in
  {| s_sum := store (s_sum st) (s_sp st) X;
     s_sp := s_sp st + 1;
     s_src := s_src st + 1;
     s_X := X; s_L := s_L st; s_C := s_C st |}.

(** [T = sum[-sumW]; X = *src++ + L + T - C; *sum++ = X; L = X; C = T;] *)
Definition SUM_ITER (st : sum_state) : sum_state :=
  let T := load (s_sum st) (s_sp st - sumW) in
  let X := to_u32 (load src (s_src st) + s_L st + T - s_C st) in
  {| s_sum := store (s_sum st) (s_sp st) X;
     s_sp := s_sp st + 1;
     s_src := s_src st + 1;
     s_X := X; s_L := X; s_C := T |}.

(** [*sum++ = 0;] *)
Definition ZERO_COLUMN (st : sum_state) : sum_state :=
  {| s_sum := store (s_sum st) (s_sp st) 0;
     s_sp := s_sp st + 1;
     s_src := s_src st;
     s_X := s_X st; s_L := s_L st; s_C := s_C st |}.

(** The body of [for (y = srcH - 1; y > 0; --y)]. *)
Definition sum_row (srcW srcRB : Z) (st : sum_state) : sum_state :=
  let st := {| s_sum := s_sum st; s_sp := s_sp st; s_src := s_src st;
               s_X := s_X st; s_L := 0; s_C := 0 |} in
  let st := ZERO_COLUMN st in
  let x := srcW - 1 in
  let '(x, st) :=
    loop (Z.to_nat (x + 1))
         (fun x st => negb (SkIsAlign4 (src_addr + s_src st)) && (0 <=? x))
         (-1) (fun _ => SUM_ITER) x st in
  let '(x, st) := for_ge 4 4 (fun _ => x4 SUM_ITER) x st in
  let '(x, st) := for_ge 0 1 (fun _ => SUM_ITER) x st in
  {| s_sum := s_sum st; s_sp := s_sp st; s_src := s_src st + srcRB;
     s_X := s_X st; s_L := s_L st; s_C := s_C st |}.
End BuildSumBuffer.

Definition build_sum_buffer (src_addr : Z) (sum : list Z) (srcW srcH : Z)
           (src : list Z) (srcRB : Z) : list Z :=
  let sumW := srcW + 1 in
  let srcRB := srcRB - srcW in
  let sum := memset sum 0 0 (Z.to_nat sumW) in
  let st := {| s_sum := sum; s_sp := sumW; s_src := 0;
               s_X := 0; s_L := 0; s_C := 0 |} in
  let st := ZERO_COLUMN st in
  let '(_, st) := for_ge 0 1 (fun _ => FIRST_ROW_ITER src) (srcW - 1) st in
  let st := {| s_sum := s_sum st; s_sp := s_sp st; s_src := s_src st + srcRB;
               s_X := s_X st; s_L := s_L st; s_C := s_C st |} in
  let '(_, st) :=
    for_ge 1 1 (fun _ => sum_row src_addr src sumW srcW srcRB) (srcH - 1) st in
  s_sum st.

(** ** Sampling the summed-area table *)

(** The locals of a row of the kernels. *)
Record kernel_row := {
  k_dst : list Z;     (* the buffer behind uint8_t dst[] *)
  k_dp : Z;           (* the moving pointer [dst] *)
  k_prev_x : Z;
  k_next_x : Z;
  k_i0 : Z; k_i1 : Z; k_i2 : Z; k_i3 : Z;
  k_i4 : Z; k_i5 : Z; k_i6 : Z; k_i7 : Z
}.

(** The locals of the loop over the rows. *)
Record kernel_rows := {
  kr_dst : list Z;
  kr_dp : Z;
  kr_prev_y : Z;
  kr_next_y : Z
}.

Definition enter_row (st : kernel_rows) (prev_x next_x : Z) : kernel_row :=
  {| k_dst := kr_dst st; k_dp := kr_dp st;
     k_prev_x := prev_x; k_next_x := next_x;
     k_i0 := 0; k_i1 := 0; k_i2 := 0; k_i3 := 0;
     k_i4 := 0; k_i5 := 0; k_i6 := 0; k_i7 := 0 |}.

(** [prev_y += 1; next_y += 1;] after a row. *)
Definition leave_row (st : kernel_rows) (row : kernel_row) : kernel_rows :=
  {| kr_dst := k_dst row; kr_dp := k_dp row;
     kr_prev_y := kr_prev_y st + 1; kr_next_y := kr_next_y st + 1 |}.

Section Kernel.
Variables (sum : list Z) (scale : Z).

(** [sum[a] + sum[b] - sum[c] - sum[d]] in [uint32_t]. *)
Definition four_corners (a b c d : Z) : Z :=
  to_u32 (load sum a + load sum b - load sum c - load sum d).

(** [SkToU8(tmp * scale >> 24)] *)
Definition kernel_px (tmp : Z) : Z :=
  SkToU8 (Z.shiftr (to_u32 (tmp * scale)) 24).

(** [*dst++ = v; prev_x += 1; next_x += 1;] *)
Definition emit_px (st : kernel_row) (v : Z) : kernel_row :=
  {| k_dst := store (k_dst st) (k_dp st) v; k_dp := k_dp st + 1;
     k_prev_x := k_prev_x st + 1; k_next_x := k_next_x st + 1;
     k_i0 := k_i0 st; k_i1 := k_i1 st; k_i2 := k_i2 st; k_i3 := k_i3 st;
     k_i4 := k_i4 st; k_i5 := k_i5 st; k_i6 := k_i6 st; k_i7 := k_i7 st |}.

Section Row.
Variables (sw py ny : Z).

(** The body of the inner loop of [kernel_clamped], which is also the
    "original version" quoted above [apply_kernel]. *)
Definition CLAMPED_ITER (st : kernel_row) : kernel_row :=
  let px := SkClampPos (k_prev_x st) in
  let nx := SkFastMin32 (k_next_x st) sw in
  let tmp := four_corners (px + py) (nx + ny) (nx + py) (px + ny) in
  emit_px st (kernel_px tmp).

(** The left-hand section of [apply_kernel]: [prev_x] is clamped to 0. *)
Definition KERNEL_LEFT_ITER (st : kernel_row) : kernel_row :=
  let px := 0 in
  let nx := k_next_x st in
  let tmp := four_corners (px + py) (nx + ny) (nx + py) (px + ny) in
  emit_px st (kernel_px tmp).

(** [i0 = prev_x + py; i1 = next_x + ny; i2 = next_x + py;
    i3 = prev_x + ny;] *)
Definition set_indices (st : kernel_row) : kernel_row :=
  {| k_dst := k_dst st; k_dp := k_dp st;
     k_prev_x := k_prev_x st; k_next_x := k_next_x st;
     k_i0 := k_prev_x st + py; k_i1 := k_next_x st + ny;
     k_i2 := k_next_x st + py; k_i3 := k_prev_x st + ny;
     k_i4 := k_i4 st; k_i5 := k_i5 st; k_i6 := k_i6 st; k_i7 := k_i7 st |}.

(** [tmp = sum[i0++] + sum[i1++] - sum[i2++] - sum[i3++];
    *dst++ = SkToU8(tmp * scale >> 24);] *)
Definition CENTER_SAMPLE (st : kernel_row) : kernel_row :=
  let tmp := four_corners (k_i0 st) (k_i1 st) (k_i2 st) (k_i3 st) in
  {| k_dst := store (k_dst st) (k_dp st) (kernel_px tmp);
     k_dp := k_dp st + 1;
     k_prev_x := k_prev_x st; k_next_x := k_next_x st;
     k_i0 := k_i0 st + 1; k_i1 := k_i1 st + 1;
     k_i2 := k_i2 st + 1; k_i3 := k_i3 st + 1;
     k_i4 := k_i4 st; k_i5 := k_i5 st; k_i6 := k_i6 st; k_i7 := k_i7 st |}.

(** [prev_x += n; next_x += n;] *)
Definition advance_x (n : Z) (st : kernel_row) : kernel_row :=
  {| k_dst := k_dst st; k_dp := k_dp st;
     k_prev_x := k_prev_x st + n; k_next_x := k_next_x st + n;
     k_i0 := k_i0 st; k_i1 := k_i1 st; k_i2 := k_i2 st; k_i3 := k_i3 st;
     k_i4 := k_i4 st; k_i5 := k_i5 st; k_i6 := k_i6 st; k_i7 := k_i7 st |}.

Definition KERNEL_CENTER_ITER (st : kernel_row) : kernel_row :=
  advance_x 1 (CENTER_SAMPLE st).

(** The body of the loop under [#if UNROLL_KERNEL_LOOP]. *)
Definition KERNEL_CENTER_ITER4 (st : kernel_row) : kernel_row :=
  advance_x 4 (x4 CENTER_SAMPLE st).

(** The right-hand section: [next_x] is clamped to [sw]. *)
Definition KERNEL_RIGHT_ITER (st : kernel_row) : kernel_row :=
  let px := k_prev_x st in
  let nx := sw in
  let tmp := four_corners (px + py) (nx + ny) (nx + py) (px + ny) in
  emit_px st (kernel_px tmp).

(** One row of [apply_kernel]: the left-hand section, where [prev_x] is
    clamped to 0; the center section, where neither [prev_x] nor
    [next_x] is clamped (unrolled under [UNROLL_KERNEL_LOOP]); the
    right-hand section, where [next_x] is clamped to [sw]. *)
Definition apply_kernel_row (UNROLL_KERNEL_LOOP : bool) (dw rx : Z)
           (row : kernel_row) : kernel_row :=
  let x := 0 in
  let '(x, row) := for_lt (2 * rx) 1 (fun _ => KERNEL_LEFT_ITER) x row in
  let row := set_indices row in
  let '(x, row) :=
    if UNROLL_KERNEL_LOOP
    then for_lt (dw - 2 * rx - 4) 4 (fun _ => KERNEL_CENTER_ITER4) x row
    else (x, row) in
  let '(x, row) :=
    for_lt (dw - 2 * rx) 1 (fun _ => KERNEL_CENTER_ITER) x row in
  let '(x, row) := for_lt dw 1 (fun _ => KERNEL_RIGHT_ITER) x row in
  row.
End Row.

(** This is the path for [apply_kernel] to be taken when the kernel is
    wider than the source image. *)
Definition kernel_clamped_rows (dst : list Z) (rx ry sw sh : Z) : kernel_rows :=
  let sumStride := sw + 1 in
  let dw := sw + 2 * rx in
  let dh := sh + 2 * ry in
  snd (for_lt dh 1
         (fun _ st =>
            let py := SkClampPos (kr_prev_y st) * sumStride in
            let ny := SkFastMin32 (kr_next_y st) sh * sumStride in
            let row := enter_row st (- 2 * rx) 1 in
            let '(_, row) :=
              for_lt dw 1 (fun _ => CLAMPED_ITER sw py ny) 0 row in
            leave_row st row)
         0 {| kr_dst := dst; kr_dp := 0;
              kr_prev_y := - 2 * ry; kr_next_y := 1 |}).

Definition apply_kernel_rows (UNROLL_KERNEL_LOOP : bool)
           (dst : list Z) (rx ry sw sh : Z) : kernel_rows :=
  let sumStride := sw + 1 in
  let dw := sw + 2 * rx in
  let dh := sh + 2 * ry in
  snd (for_lt dh 1
         (fun _ st =>
            let py := SkClampPos (kr_prev_y st) * sumStride in
            let ny := SkFastMin32 (kr_next_y st) sh * sumStride in
            let row := enter_row st (- 2 * rx) 1 in
            let row := apply_kernel_row sw py ny UNROLL_KERNEL_LOOP dw rx row in
            leave_row st row)
         0 {| kr_dst := dst; kr_dp := 0;
              kr_prev_y := - 2 * ry; kr_next_y := 1 |}).
End Kernel.

(** [uint32_t scale = (1 << 24) / ((2*rx + 1)*(2*ry + 1));] *)
Definition kernel_scale (rx ry : Z) : Z :=
  to_u32 (Z.quot (Z.shiftl 1 24) ((2 * rx + 1) * (2 * ry + 1))).

Definition kernel_clamped (dst : list Z) (rx ry : Z) (sum : list Z)
           (sw sh : Z) : list Z :=
  kr_dst (kernel_clamped_rows sum (kernel_scale rx ry) dst rx ry sw sh).

Definition apply_kernel (UNROLL_KERNEL_LOOP : bool) (dst : list Z)
           (rx ry : Z) (sum : list Z) (sw sh : Z) : list Z :=
  if sw <? 2 * rx then kernel_clamped dst rx ry sum sw sh
  else kr_dst (apply_kernel_rows sum (kernel_scale rx ry)
                 UNROLL_KERNEL_LOOP dst rx ry sw sh).

(** *** The interpolating kernels *)

Section KernelInterp.
Variables (sum : list Z) (outerScale innerScale : Z).

(** [SkToU8((outerSum * outerScale + innerSum * innerScale) >> 24)] *)
Definition kernel_interp_px (outerSum innerSum : Z) : Z :=
  SkToU8 (Z.shiftr (to_u32 (outerSum * outerScale + innerSum * innerScale)) 24).

Section Row.
Variables (sw py ny ipy iny : Z).

Definition INTERP_CLAMPED_ITER (st : kernel_row) : kernel_row :=
  let px := SkClampPos (k_prev_x st) in
  let nx := SkFastMin32 (k_next_x st) sw in
  let ipx := SkClampPos (k_prev_x st + 1) in
  let inx := SkClampMax (k_next_x st - 1) sw in
  let outerSum := four_corners sum (px + py) (nx + ny) (nx + py) (px + ny) in
  let innerSum :=
    four_corners sum (ipx + ipy) (inx + iny) (inx + ipy) (ipx + iny) in
  emit_px st (kernel_interp_px outerSum innerSum).

Definition INTERP_KERNEL_LEFT_ITER (st : kernel_row) : kernel_row :=
  let px := 0 in
  let nx := k_next_x st in
  let ipx := 0 in
  let inx := k_next_x st - 1 in
  let outerSum := four_corners sum (px + py) (nx + ny) (nx + py) (px + ny) in
  let innerSum :=
    four_corners sum (ipx + ipy) (inx + iny) (inx + ipy) (ipx + iny) in
  emit_px st (kernel_interp_px outerSum innerSum).

Definition set_indices_interp (st : kernel_row) : kernel_row :=
  {| k_dst := k_dst st; k_dp := k_dp st;
     k_prev_x := k_prev_x st; k_next_x := k_next_x st;
     k_i0 := k_prev_x st + py; k_i1 := k_next_x st + ny;
     k_i2 := k_next_x st + py; k_i3 := k_prev_x st + ny;
     k_i4 := k_prev_x st + 1 + ipy; k_i5 := k_next_x st - 1 + iny;
     k_i6 := k_next_x st - 1 + ipy; k_i7 := k_prev_x st + 1 + iny |}.

Definition INTERP_CENTER_SAMPLE (st : kernel_row) : kernel_row :=
  let outerSum := four_corners sum (k_i0 st) (k_i1 st) (k_i2 st) (k_i3 st) in
  let innerSum := four_corners sum (k_i4 st) (k_i5 st) (k_i6 st) (k_i7 st) in
  {| k_dst := store (k_dst st) (k_dp st) (kernel_interp_px outerSum innerSum);
     k_dp := k_dp st + 1;
     k_prev_x := k_prev_x st; k_next_x := k_next_x st;
     k_i0 := k_i0 st + 1; k_i1 := k_i1 st + 1;
     k_i2 := k_i2 st + 1; k_i3 := k_i3 st + 1;
     k_i4 := k_i4 st + 1; k_i5 := k_i5 st + 1;
     k_i6 := k_i6 st + 1; k_i7 := k_i7 st + 1 |}.

Definition INTERP_KERNEL_CENTER_ITER (st : kernel_row) : kernel_row :=
  advance_x 1 (INTERP_CENTER_SAMPLE st).

Definition INTERP_KERNEL_CENTER_ITER4 (st : kernel_row) : kernel_row :=
  advance_x 4 (x4 INTERP_CENTER_SAMPLE st).

Definition INTERP_KERNEL_RIGHT_ITER (st : kernel_row) : kernel_row :=
  let px := k_prev_x st in
  let nx := sw in
  let ipx := k_prev_x st + 1 in
  let inx := sw in
  let outerSum := four_corners sum (px + py) (nx + ny) (nx + py) (px + ny) in
  let innerSum :=
    four_corners sum (ipx + ipy) (inx + iny) (inx + ipy) (ipx + iny) in
  emit_px st (kernel_interp_px outerSum innerSum).
End Row.

Definition kernel_interp_clamped_rows (dst : list Z) (rx ry sw sh : Z)
  : kernel_rows :=
  let sumStride := sw + 1 in
  let dw := sw + 2 * rx in
  let dh := sh + 2 * ry in
  snd (for_lt dh 1
         (fun _ st =>
            let py := SkClampPos (kr_prev_y st) * sumStride in
            let ny := SkFastMin32 (kr_next_y st) sh * sumStride in
            let ipy := SkClampPos (kr_prev_y st + 1) * sumStride in
            let iny := SkClampMax (kr_next_y st - 1) sh * sumStride in
            let row := enter_row st (- 2 * rx) 1 in
            let '(_, row) :=
              for_lt dw 1 (fun _ => INTERP_CLAMPED_ITER sw py ny ipy iny) 0 row in
            leave_row st row)
         0 {| kr_dst := dst; kr_dp := 0;
              kr_prev_y := - 2 * ry; kr_next_y := 1 |}).

Definition apply_kernel_interp_rows (UNROLL_KERNEL_LOOP : bool)
           (dst : list Z) (rx ry sw sh : Z) : kernel_rows :=
  let sumStride := sw + 1 in
  let dw := sw + 2 * rx in
  let dh := sh + 2 * ry in
  snd (for_lt dh 1
         (fun _ st =>
            let py := SkClampPos (kr_prev_y st) * sumStride in
            let ny := SkFastMin32 (kr_next_y st) sh * sumStride in
            let ipy := SkClampPos (kr_prev_y st + 1) * sumStride in
            let iny := SkClampMax (kr_next_y st - 1) sh * sumStride in
            let row := enter_row st (- 2 * rx) 1 in
            let x := 0 in
            let '(x, row) :=
              for_lt (2 * rx) 1
                (fun _ => INTERP_KERNEL_LEFT_ITER py ny ipy iny) x row in
            let row := set_indices_interp py ny ipy iny row in
            let '(x, row) :=
              if UNROLL_KERNEL_LOOP
              then for_lt (dw - 2 * rx - 4) 4
                     (fun _ => INTERP_KERNEL_CENTER_ITER4) x row
              else (x, row) in
            let '(x, row) :=
              for_lt (dw - 2 * rx) 1 (fun _ => INTERP_KERNEL_CENTER_ITER) x row in
            let '(x, row) :=
              for_lt dw 1
                (fun _ => INTERP_KERNEL_RIGHT_ITER sw py ny ipy iny) x row in
            leave_row st row)
         0 {| kr_dst := dst; kr_dp := 0;
              kr_prev_y := - 2 * ry; kr_next_y := 1 |}).
End KernelInterp.

(** The two fixed-point weights of the interpolating kernels:
    [outerWeight += outerWeight >> 7; innerWeight += innerWeight >> 7;
     outerScale = (outerWeight << 16) / ((2*rx + 1)*(2*ry + 1));
     innerScale = (innerWeight << 16) / ((2*rx - 1)*(2*ry - 1));] *)
Definition kernel_outer_scale (rx ry outerWeight : Z) : Z :=
  let outerWeight := to_u32 (outerWeight + Z.shiftr outerWeight 7) in
  to_u32 (Z.quot (to_u32 (Z.shiftl outerWeight 16))
                 ((2 * rx + 1) * (2 * ry + 1))).

Definition kernel_inner_scale (rx ry outerWeight : Z) : Z :=
  let innerWeight := 255 - outerWeight in
  let innerWeight := innerWeight + Z.shiftr innerWeight 7 in
  to_u32 (Z.quot (Z.shiftl innerWeight 16) ((2 * rx - 1) * (2 * ry - 1))).

Definition kernel_interp_clamped (dst : list Z) (rx ry : Z) (sum : list Z)
           (sw sh outerWeight : Z) : list Z :=
  kr_dst (kernel_interp_clamped_rows sum
            (kernel_outer_scale rx ry outerWeight)
            (kernel_inner_scale rx ry outerWeight) dst rx ry sw sh).

Definition apply_kernel_interp (UNROLL_KERNEL_LOOP : bool) (dst : list Z)
           (rx ry : Z) (sum : list Z) (sw sh outerWeight : Z) : list Z :=
  if sw <? 2 * rx
  then kernel_interp_clamped dst rx ry sum sw sh outerWeight
  else kr_dst (apply_kernel_interp_rows sum
                 (kernel_outer_scale rx ry outerWeight)
                 (kernel_inner_scale rx ry outerWeight)
                 UNROLL_KERNEL_LOOP dst rx ry sw sh).

(** ** Blur styles *)

Inductive Style : Type :=
| kNormal_Style    (* fuzzy inside and outside *)
| kSolid_Style     (* solid inside, fuzzy outside *)
| kOuter_Style     (* nothing inside, fuzzy outside *)
| kInner_Style.    (* fuzzy inside, nothing outside *)

Inductive Quality : Type :=
| kLow_Quality
| kHigh_Quality.

(** Modelled from the spec: [SkColorPriv.h] and [SkMath.h] are not among the
    sources.  The spec gives the styles as [src + blur - src*blur/255]
    (solid), [dst*(255 - src)/255] (outer) and [blur*src/255] (inner); the
    helpers below are the fixed-point forms of these quotients that the
    source names: [SkMulDiv255Round] rounds [a*b/255] to the nearest
    integer, [SkAlpha255To256] maps a 0..255 alpha to a 0..256 scale and
    [SkAlphaMul] multiplies by such a scale and shifts by 8. *)
Definition SkMulDiv255Round (a b : Z) : Z :=
  let prod := a * b + 128 in
  Z.shiftr (prod + Z.shiftr prod 8) 8.

Definition SkAlpha255To256 (alpha : Z) : Z := alpha + 1.

Definition SkAlphaMul (value alpha256 : Z) : Z :=
  Z.shiftr (value * alpha256) 8.

(** The three per-pixel expressions of the styles. *)
Definition solid_px (s d : Z) : Z := SkToU8 (s + d - SkMulDiv255Round s d).

Definition outer_px (s d : Z) : Z :=
  if s =? 0 then d else SkToU8 (SkAlphaMul d (SkAlpha255To256 (255 - s))).

Definition inner_px (s blur : Z) : Z :=
  SkToU8 (SkAlphaMul blur (SkAlpha255To256 s)).

(** The moving pointers of [merge_src_with_blur] and [clamp_with_orig]. *)
Record style_state := {
  y_dst : list Z;     (* the buffer behind dst[] *)
  y_dp : Z;           (* dst *)
  y_sp : Z;           (* src *)
  y_bp : Z            (* blur *)
}.

Section Styles.
Variables (src blur : list Z).

(** [*dst = SkToU8(SkAlphaMul( *blur, SkAlpha255To256( *src )));
    dst += 1; src += 1; blur += 1;] *)
Definition MERGE_ITER (st : style_state) : style_state :=
  {| y_dst := store (y_dst st) (y_dp st)
                (inner_px (load src (y_sp st)) (load blur (y_bp st)));
     y_dp := y_dp st + 1; y_sp := y_sp st + 1; y_bp := y_bp st + 1 |}.

(** [dst += dstRB; src += srcRB; blur += blurRB;] *)
Definition skip_row (dstRB srcRB blurRB : Z) (st : style_state) : style_state :=
  {| y_dst := y_dst st; y_dp := y_dp st + dstRB;
     y_sp := y_sp st + srcRB; y_bp := y_bp st + blurRB |}.

Definition merge_src_with_blur (dst : list Z) (dst_off dstRB : Z)
           (src_off srcRB : Z) (blur_off blurRB : Z) (sw sh : Z) : list Z :=
  let dstRB := dstRB - sw in
  let srcRB := srcRB - sw in
  let blurRB := blurRB - sw in
  let '(_, st) :=
    for_ge 0 1
      (fun _ st =>
         let '(_, st) := for_ge 0 1 (fun _ => MERGE_ITER) (sw - 1) st in
         skip_row dstRB srcRB blurRB st)
      (sh - 1)
      {| y_dst := dst; y_dp := dst_off; y_sp := src_off; y_bp := blur_off |} in
  y_dst st.

(** [int s = *src; int d = *dst; *dst = SkToU8(s + d - SkMulDiv255Round(s, d));
    dst += 1; src += 1;] *)
Definition SOLID_ITER (st : style_state) : style_state :=
  {| y_dst := store (y_dst st) (y_dp st)
                (solid_px (load src (y_sp st)) (load (y_dst st) (y_dp st)));
     y_dp := y_dp st + 1; y_sp := y_sp st + 1; y_bp := y_bp st |}.

(** [if ( *src ) { *dst = SkToU8(SkAlphaMul( *dst, SkAlpha255To256(255 - *src))); }
    dst += 1; src += 1;] *)
Definition OUTER_ITER (st : style_state) : style_state :=
  {| y_dst := if load src (y_sp st) =? 0 then y_dst st
              else store (y_dst st) (y_dp st)
                     (outer_px (load src (y_sp st)) (load (y_dst st) (y_dp st)));
     y_dp := y_dp st + 1; y_sp := y_sp st + 1; y_bp := y_bp st |}.

Definition clamp_with_orig (dst : list Z) (dst_off dstRowBytes : Z)
           (src_off srcRowBytes : Z) (sw sh : Z) (style : Style) : list Z :=
  let '(_, st) :=
    for_ge 0 1
      (fun _ st =>
         let st :=
           match style with
           | kSolid_Style =>
               snd (for_ge 0 1 (fun _ => SOLID_ITER) (sw - 1) st)
           | kOuter_Style =>
               snd (for_ge 0 1 (fun _ => OUTER_ITER) (sw - 1) st)
           | _ => st    (* SkDEBUGFAIL("Unexpected blur style here") *)
           end in
         skip_row (dstRowBytes - sw) (srcRowBytes - sw) 0 st)
      (sh - 1)
      {| y_dst := dst; y_dp := dst_off; y_sp := src_off; y_bp := 0 |} in
  y_dst st.
End Styles.

(** ** Scalars *)

(** Modelled from the spec: [SkScalar.h] and [SkFloatingPoint.h] are not
    among the sources.  The spec has the radius a real number; the build
    this file follows has [SkScalar] a C [float], modelled as an IEEE-754
    binary32 value ([spec_float] with 24 bits of precision).  Conversions
    to [int] of values that are not finite are undefined in C and yield 0
    here. *)
Definition SkScalar : Type := spec_float.

Definition f32_of_Z (n : Z) : spec_float := binary_normalize 24 128 n 0 false.
Definition f32_add : spec_float -> spec_float -> spec_float := SFadd 24 128.
Definition f32_sub : spec_float -> spec_float -> spec_float := SFsub 24 128.
Definition f32_mul : spec_float -> spec_float -> spec_float := SFmul 24 128.
Definition f32_div : spec_float -> spec_float -> spec_float := SFdiv 24 128.
Definition f32_ltb : spec_float -> spec_float -> bool := SFltb.
Definition f32_opp : spec_float -> spec_float := SFopp.

(** The decimal literal [n / 10^k] as a [float]. *)
Definition f32_decimal (n : Z) (k : Z) : spec_float :=
  f32_div (f32_of_Z n) (f32_of_Z (10 ^ k)).

Definition f32_floor (x : spec_float) : Z :=
  match x with
  | S754_finite s m e =>
      let v := if s then Z.neg m else Z.pos m in
      if 0 <=? e then v * 2 ^ e else v / 2 ^ (- e)
  | _ => 0
  end.

Definition f32_ceil (x : spec_float) : Z := - f32_floor (f32_opp x).

(** [(int)x]: truncation toward zero. *)
Definition f32_trunc (x : spec_float) : Z :=
  match x with
  | S754_finite true _ _ => f32_ceil x
  | _ => f32_floor x
  end.

Definition SkIntToScalar (n : Z) : SkScalar := f32_of_Z n.
Definition SkFloatToScalar (x : spec_float) : SkScalar := x.
Definition SkScalarToFloat (x : SkScalar) : spec_float := x.
Definition SkScalarMul (a b : SkScalar) : SkScalar := f32_mul a b.
Definition SkScalarCeil (x : SkScalar) : Z := f32_ceil x.
Definition SkScalarFloorToInt (x : SkScalar) : Z := f32_floor x.
Definition SkScalarRound (x : SkScalar) : Z :=
  f32_floor (f32_add x (f32_decimal 5 1)).
Definition SkScalarRoundToInt (x : SkScalar) : Z := SkScalarRound x.

(** [#define kBlurRadiusFudgeFactor SkFloatToScalar( .57735f )] *)
Definition kBlurRadiusFudgeFactor : SkScalar :=
  SkFloatToScalar (f32_decimal 57735 5).

(** ** Masks *)

(** Modelled from the spec: [SkMask.h], [SkRect.h] and [SkPoint.h] are not
    among the sources.  A mask has integer bounds, a row stride, a format
    tag and a pixel buffer that may be absent; its image size is
    [rowBytes * height], reported as 0 when it is not positive or does not
    fit 31 bits. *)
Inductive Format : Type :=
| kBW_Format | kA8_Format | k3D_Format | kARGB32_Format | kLCD16_Format
| kLCD32_Format.

Definition Format_is_A8 (f : Format) : bool :=
  match f with kA8_Format => true | _ => false end.

Inductive CreateMode : Type :=
| kJustComputeBounds_CreateMode
| kJustRenderImage_CreateMode
| kComputeBoundsAndRenderImage_CreateMode.

Record Rect (A : Type) := mkRect {
  fLeft : A; fTop : A; fRight : A; fBottom : A
}.
Arguments mkRect {A}.
Arguments fLeft {A}.
Arguments fTop {A}.
Arguments fRight {A}.
Arguments fBottom {A}.

Definition SkIRect : Type := Rect Z.
Definition SkRect : Type := Rect SkScalar.

Definition irect_width (r : SkIRect) : Z := fRight r - fLeft r.
Definition irect_height (r : SkIRect) : Z := fBottom r - fTop r.
Definition rect_width (r : SkRect) : SkScalar := f32_sub (fRight r) (fLeft r).
Definition rect_height (r : SkRect) : SkScalar := f32_sub (fBottom r) (fTop r).

Record SkIPoint := mkPoint { fX : Z; fY : Z }.

Record SkMask := mkMask {
  fImage : option (list Z);   (* NULL or the pixels *)
  fBounds : SkIRect;
  fRowBytes : Z;              (* uint32_t *)
  fFormat : Format
}.

Definition computeImageSize (m : SkMask) : Z :=
  let size := irect_height (fBounds m) * fRowBytes m in
  if (0 <? size) && (size <? 2 ^ 31) then size else 0.

(** ** The heap *)

(** The buffers a blur call allocates, named after the variable that owns
    them, and the allocations and releases in the order they happen. *)
Inductive heap_block : Type :=
| blk_dp            (* dp = SkMask::AllocImage(dstSize) *)
| blk_tmpBuffer     (* SkAutoTMalloc<uint8_t> tmpBuffer(dstSize) *)
| blk_storage       (* SkAutoTMalloc<uint32_t> storage(storageW * storageH) *)
| blk_inner         (* dst->fImage = SkMask::AllocImage(srcSize) *)
| blk_profile       (* SkNEW_ARRAY(unsigned int, size) *)
| blk_scanline.     (* SkAutoTMalloc<uint8_t> horizontalScanline(dstWidth) *)

Definition heap_block_eqb (a b : heap_block) : bool :=
  match a, b with
  | blk_dp, blk_dp | blk_tmpBuffer, blk_tmpBuffer | blk_storage, blk_storage
  | blk_inner, blk_inner | blk_profile, blk_profile
  | blk_scanline, blk_scanline => true
  | _, _ => false
  end.

Inductive heap_event : Type :=
| ev_alloc (b : heap_block) (cells : Z)
| ev_free (b : heap_block).

(** The blocks still allocated after a sequence of events. *)
Fixpoint live_after (live : list heap_block) (evs : list heap_event) : list heap_block :=
  match evs with
  | [] => live
  | ev_alloc b _ :: evs' => live_after (live ++ [b]) evs'
  | ev_free b :: evs' =>
      live_after (filter (fun b' => negb (heap_block_eqb b b')) live) evs'
  end.

Definition live (evs : list heap_event) : list heap_block := live_after [] evs.

(** The calls to the blur kernels, in the order they happen. *)
Inductive kernel_call : Type :=
| call_boxBlur (leftRadius rightRadius : Z) (transpose : bool)
| call_boxBlurInterp (radius : Z) (transpose : bool) (outer_weight : Z)
| call_build_sum_buffer (srcW srcH : Z)
| call_apply_kernel (rx ry : Z)
| call_apply_kernel_interp (rx ry outerWeight : Z).

(** ** [SkBlurMask::Blur] *)

Definition get_adjusted_radii (passRadius : SkScalar) : Z * Z :=
  let hiRadius := SkScalarCeil passRadius in
  let loRadius := hiRadius in
  if f32_ltb (SkFloatToScalar (f32_decimal 5 1))
             (f32_sub (SkIntToScalar hiRadius) passRadius)
  then (hiRadius - 1, hiRadius)
  else (loRadius, hiRadius).

(** What [Blur] hands back: the returned flag, the fields of [*dst], the
    point behind [margin] (absent when the pointer is NULL), and, as ghost
    state, the heap events and kernel calls of the call. *)
Record blur_result := {
  br_ret : bool;
  br_dst : SkMask;
  br_margin : option SkIPoint;
  br_heap : list heap_event;
  br_calls : list kernel_call
}.

(** The first locals of [Blur]. *)

(** [if (radius < SkIntToScalar(3)) quality = kLow_Quality;] *)
Definition Blur_quality (radius : SkScalar) (quality : Quality) : Quality :=
  if f32_ltb radius (SkIntToScalar 3) then kLow_Quality else quality.

(** [int passCount = (kHigh_Quality == quality) ? 3 : 1;] *)
Definition passCount_of (quality : Quality) : Z :=
  match quality with
  | kHigh_Quality => 3
  | kLow_Quality => 1
  end.

(** [SkScalar passRadius = (kHigh_Quality == quality) ?
      SkScalarMul(radius, kBlurRadiusFudgeFactor) : radius;] *)
Definition passRadius_of (radius : SkScalar) (quality : Quality) : SkScalar :=
  match quality with
  | kHigh_Quality => SkScalarMul radius kBlurRadiusFudgeFactor
  | kLow_Quality => radius
  end.

(** [255 - SkScalarRound((SkIntToScalar(rx) - passRadius) * 255)] *)
Definition outerWeight_of (rx : Z) (passRadius : SkScalar) : Z :=
  255 - SkScalarRound
          (f32_mul (f32_sub (SkIntToScalar rx) passRadius) (f32_of_Z 255)).

(** [margin->set(x, y)] through a pointer that may be NULL. *)
Definition set_margin (margin : option SkIPoint) (x y : Z) : option SkIPoint :=
  match margin with
  | Some _ => Some (mkPoint x y)
  | None => None
  end.

Section Blur.
(** Build flags. *)
Variables (SK_DISABLE_BLUR_ROUNDING UNROLL_KERNEL_LOOP : bool).
(** What the allocator returns: the address of each heap_block and the bytes
    found in it, which C leaves unspecified. *)
Variable addr_of : heap_block -> Z.
Variable junk : heap_block -> nat -> Z.
(** The address of the pixels of the source mask. *)
Variable src_addr : Z.

Definition fresh (b : heap_block) (cells : Z) : list Z :=
  map (junk b) (seq 0 (Z.to_nat cells)).

(** The branch [if (separable)]: two buffers, [tp] and [dp], swapped by
    each pass.  Returns the final [dp] and the calls made. *)
Definition Blur_separable (sp : list Z) (srcRowBytes : Z) (tp dp : list Z)
           (sw sh : Z) (quality : Quality) (passRadius : SkScalar)
           (rx ry outerWeight : Z) : list Z * list kernel_call :=
  let w := sw in
  let h := sh in
  let bb := boxBlur SK_DISABLE_BLUR_ROUNDING in
  let bi := boxBlurInterp SK_DISABLE_BLUR_ROUNDING in
  if outerWeight =? 255 then
    let '(loRadius, hiRadius) := get_adjusted_radii passRadius in
    match quality with
    | kHigh_Quality =>
        (* Do three X blurs, with a transpose on the final one. *)
        let o := bb sp srcRowBytes tp loRadius hiRadius w h false in
        let tp := out_dst o in let w := out_width o in
        let o := bb tp w dp hiRadius loRadius w h false in
        let dp := out_dst o in let w := out_width o in
        let o := bb dp w tp hiRadius hiRadius w h true in
        let tp := out_dst o in let w := out_width o in
        (* Do three Y blurs, with a transpose on the final one. *)
        let o := bb tp h dp loRadius hiRadius h w false in
        let dp := out_dst o in let h := out_width o in
        let o := bb dp h tp hiRadius loRadius h w false in
        let tp := out_dst o in let h := out_width o in
        let o := bb tp h dp hiRadius hiRadius h w true in
        let dp := out_dst o in
        (dp, [call_boxBlur loRadius hiRadius false;
              call_boxBlur hiRadius loRadius false;
              call_boxBlur hiRadius hiRadius true;
              call_boxBlur loRadius hiRadius false;
              call_boxBlur hiRadius loRadius false;
              call_boxBlur hiRadius hiRadius true])
    | kLow_Quality =>
        let o := bb sp srcRowBytes tp rx rx w h true in
        let tp := out_dst o in let w := out_width o in
        let o := bb tp h dp ry ry h w true in
        let dp := out_dst o in
        (dp, [call_boxBlur rx rx true; call_boxBlur ry ry true])
    end
  else
    match quality with
    | kHigh_Quality =>
        let o := bi sp srcRowBytes tp rx w h false outerWeight in
        let tp := out_dst o in let w := out_width o in
        let o := bi tp w dp rx w h false outerWeight in
        let dp := out_dst o in let w := out_width o in
        let o := bi dp w tp rx w h true outerWeight in
        let tp := out_dst o in let w := out_width o in
        let o := bi tp h dp ry h w false outerWeight in
        let dp := out_dst o in let h := out_width o in
        let o := bi dp h tp ry h w false outerWeight in
        let tp := out_dst o in let h := out_width o in
        let o := bi tp h dp ry h w true outerWeight in
        let dp := out_dst o in
        (dp, [call_boxBlurInterp rx false outerWeight;
              call_boxBlurInterp rx false outerWeight;
              call_boxBlurInterp rx true outerWeight;
              call_boxBlurInterp ry false outerWeight;
              call_boxBlurInterp ry false outerWeight;
              call_boxBlurInterp ry true outerWeight])
    | kLow_Quality =>
        let o := bi sp srcRowBytes tp rx w h true outerWeight in
        let tp := out_dst o in let w := out_width o in
        let o := bi tp h dp ry h w true outerWeight in
        let dp := out_dst o in
        (dp, [call_boxBlurInterp rx true outerWeight;
              call_boxBlurInterp ry true outerWeight])
    end.

(** One pass of the summed-area-table path: build the table of [src],
    then sample it into [dst]. *)
Definition sat_pass (sumBuffer : list Z) (src : list Z) (addr : Z)
           (sw sh srcRB : Z) (dst : list Z) (rx ry outerWeight : Z)
  : list Z * list Z * list kernel_call :=
  let sumBuffer := build_sum_buffer addr sumBuffer sw sh src srcRB in
  if outerWeight =? 255
  then (sumBuffer,
        apply_kernel UNROLL_KERNEL_LOOP dst rx ry sumBuffer sw sh,
        [call_build_sum_buffer sw sh; call_apply_kernel rx ry])
  else (sumBuffer,
        apply_kernel_interp UNROLL_KERNEL_LOOP dst rx ry sumBuffer sw sh
          outerWeight,
        [call_build_sum_buffer sw sh;
         call_apply_kernel_interp rx ry outerWeight]).

(** The branch [else] of [if (separable)].  Returns the final [dp], the
    heap events of the branch and the calls made. *)
Definition Blur_sat (sp : list Z) (srcRowBytes : Z) (dp : list Z)
           (dstSize sw sh : Z) (quality : Quality) (passCount : Z)
           (rx ry outerWeight : Z)
  : list Z * list heap_event * list kernel_call :=
  let storageW := sw + 2 * (passCount - 1) * rx + 1 in
  let storageH := sh + 2 * (passCount - 1) * ry + 1 in
  let sumBuffer := fresh blk_storage (storageW * storageH) in
  (* pass1: sp is source, dp is destination *)
  let '(sumBuffer, dp, calls1) :=
    sat_pass sumBuffer sp src_addr sw sh srcRowBytes dp rx ry outerWeight in
  match quality with
  | kHigh_Quality =>
      (* pass2: dp is source, tmpBuffer is destination *)
      let tmp_sw := sw + 2 * rx in
      let tmp_sh := sh + 2 * ry in
      let tmpBuffer := fresh blk_tmpBuffer dstSize in
      let '(sumBuffer, tmpBuffer, calls2) :=
        sat_pass sumBuffer dp (addr_of blk_dp) tmp_sw tmp_sh tmp_sw
          tmpBuffer rx ry outerWeight in
      (* pass3: tmpBuffer is source, dp is destination *)
      let tmp_sw := tmp_sw + 2 * rx in
      let tmp_sh := tmp_sh + 2 * ry in
      let '(sumBuffer, dp, calls3) :=
        sat_pass sumBuffer tmpBuffer (addr_of blk_tmpBuffer) tmp_sw tmp_sh
          tmp_sw dp rx ry outerWeight in
      (dp,
       [ev_alloc blk_storage (storageW * storageH);
        ev_alloc blk_tmpBuffer dstSize;
        ev_free blk_tmpBuffer; ev_free blk_storage],
       calls1 ++ calls2 ++ calls3)
  | kLow_Quality =>
      (dp,
       [ev_alloc blk_storage (storageW * storageH); ev_free blk_storage],
       calls1)
  end.

(** [SkBlurMask::Blur].  The [int]s of the function ([rx], [padx], [pady],
    the sides of the output rectangle) are integers here.  Where one of them
    does not fit 32 bits the C code overflows and its behaviour is not
    defined: such calls are outside this model. *)
Definition Blur (dst : SkMask) (src : SkMask) (radius : SkScalar)
           (style : Style) (quality : Quality) (margin : option SkIPoint)
           (separable : bool) : blur_result :=
  if negb (Format_is_A8 (fFormat src)) then
    {| br_ret := false; br_dst := dst; br_margin := margin;
       br_heap := []; br_calls := [] |}
  else
  (* Force high quality off for small radii (performance) *)
  let quality := Blur_quality radius quality in
  (* highQuality: use three box blur passes as a cheap way to
     approximate a Gaussian blur *)
  let passCount := passCount_of quality in
  let passRadius := passRadius_of radius quality in
  let rx := SkScalarCeil passRadius in
  let outerWeight := outerWeight_of rx passRadius in
  if rx <=? 0 then
    {| br_ret := false; br_dst := dst; br_margin := margin;
       br_heap := []; br_calls := [] |}
  else
  let ry := rx in    (* only do square blur for now *)
  let padx := passCount * rx in
  let pady := passCount * ry in
  let margin := set_margin margin padx pady in
  let bounds := mkRect (fLeft (fBounds src) - padx) (fTop (fBounds src) - pady)
                       (fRight (fBounds src) + padx)
                       (fBottom (fBounds src) + pady) in
  let dst := {| fImage := None; fBounds := bounds;
                fRowBytes := to_u32 (irect_width bounds);
                fFormat := kA8_Format |} in
  let restore (d : SkMask) : SkMask :=
    match style with
    | kInner_Style =>
        (* restore trimmed bounds *)
        {| fImage := fImage d; fBounds := fBounds src;
           fRowBytes := fRowBytes src; fFormat := fFormat d |}
    | _ => d
    end in
  match fImage src with
  | None =>
      {| br_ret := true; br_dst := restore dst; br_margin := margin;
         br_heap := []; br_calls := [] |}
  | Some sp =>
      let dstSize := computeImageSize dst in
      if dstSize =? 0 then
        (* too big to allocate, abort *)
        {| br_ret := false; br_dst := dst; br_margin := margin;
           br_heap := []; br_calls := [] |}
      else
      let sw := irect_width (fBounds src) in
      let sh := irect_height (fBounds src) in
      let dp := fresh blk_dp dstSize in
      (* build the blurry destination *)
      let '(dp, heap, calls) :=
        if separable then
          let tp := fresh blk_tmpBuffer dstSize in
          let '(dp, calls) :=
            Blur_separable sp (fRowBytes src) tp dp sw sh quality passRadius
              rx ry outerWeight in
          (dp,
           [ev_alloc blk_dp dstSize; ev_alloc blk_tmpBuffer dstSize;
            ev_free blk_tmpBuffer],
           calls)
        else
          let '(dp, heap, calls) :=
            Blur_sat sp (fRowBytes src) dp dstSize sw sh quality passCount
              rx ry outerWeight in
          (dp, ev_alloc blk_dp dstSize :: heap, calls) in
      let offset := passCount * (rx + ry * fRowBytes dst) in
      match style with
      | kInner_Style =>
          (* now we allocate the "real" dst, mirror the size of src *)
          let srcSize := computeImageSize src in
          if srcSize =? 0 then
            (* too big to allocate, abort; the guard on dp frees it *)
            {| br_ret := false;
               br_dst := {| fImage := Some dp; fBounds := fBounds dst;
                            fRowBytes := fRowBytes dst;
                            fFormat := fFormat dst |};
               br_margin := margin;
               br_heap := heap ++ [ev_free blk_dp];
               br_calls := calls |}
          else
          let image :=
            merge_src_with_blur sp dp (fresh blk_inner srcSize)
              0 (fRowBytes src) 0 (fRowBytes src)
              offset (fRowBytes dst) sw sh in
          {| br_ret := true;
             br_dst := restore {| fImage := Some image; fBounds := fBounds dst;
                                  fRowBytes := fRowBytes dst;
                                  fFormat := fFormat dst |};
             br_margin := margin;
             br_heap := heap ++ [ev_alloc blk_inner srcSize; ev_free blk_dp];
             br_calls := calls |}
      | kNormal_Style =>
          {| br_ret := true;
             br_dst := {| fImage := Some dp; fBounds := fBounds dst;
                          fRowBytes := fRowBytes dst; fFormat := fFormat dst |};
             br_margin := margin; br_heap := heap; br_calls := calls |}
      | _ =>
          let dp :=
            clamp_with_orig sp dp offset (fRowBytes dst)
              0 (fRowBytes src) sw sh style in
          {| br_ret := true;
             br_dst := {| fImage := Some dp; fBounds := fBounds dst;
                          fRowBytes := fRowBytes dst; fFormat := fFormat dst |};
             br_margin := margin; br_heap := heap; br_calls := calls |}
      end
  end.

(** The two public entry points. *)
Definition BlurSeparable dst src radius style quality margin : blur_result :=
  Blur dst src radius style quality margin true.

Definition Blur6 dst src radius style quality margin : blur_result :=
  Blur dst src radius style quality margin false.
End Blur.

(** ** [SkBlurMask::BlurRect] *)

(** [float] literals of the source. *)
Definition f32_1_5 : spec_float := f32_decimal 15 1.
Definition f32_0_5 : spec_float := f32_decimal 5 1.

Definition gaussianIntegral (x : spec_float) : spec_float :=
  if f32_ltb f32_1_5 x then f32_of_Z 0
  else if f32_ltb x (f32_opp f32_1_5) then f32_of_Z 1
  else
    let x2 := f32_mul x x in
    let x3 := f32_mul x2 x in
    if f32_ltb f32_0_5 x then
      f32_sub (f32_decimal 5625 4)
        (f32_add (f32_sub (f32_div x3 (f32_of_Z 6))
                          (f32_mul (f32_mul (f32_of_Z 3) x2) (f32_decimal 25 2)))
                 (f32_mul (f32_decimal 1125 3) x))
    else if f32_ltb (f32_opp f32_0_5) x then
      f32_sub f32_0_5
        (f32_sub (f32_mul (f32_decimal 75 2) x) (f32_div x3 (f32_of_Z 3)))
    else
      f32_add (f32_decimal 4375 4)
        (f32_sub (f32_sub (f32_div (f32_opp x3) (f32_of_Z 6))
                          (f32_mul (f32_mul (f32_of_Z 3) x2) (f32_decimal 25 2)))
                 (f32_mul (f32_decimal 1125 3) x)).

(** Compute the size of the array allocated for the profile. *)
Definition compute_profile_size (radius : SkScalar) : Z :=
  SkScalarRoundToInt (f32_mul radius (f32_of_Z 3)).

(** [(uint8_t) x] for a [float]. *)
Definition f32_to_u8 (x : spec_float) : Z := to_u8 (f32_trunc x).

(** [compute_profile] fills the array it allocates, which is passed in
    here with its [size] cells.  For a size below 1 the C code stores
    [profile[0]] outside the array it allocated; that store is dropped
    here: profiles of a size below 1 are outside this model. *)
Definition compute_profile (profile : list Z) (radius : SkScalar) : list Z :=
  let size := compute_profile_size radius in
  let center := Z.shiftr size 1 in
  let invr := f32_div (f32_of_Z 1) radius in
  let profile := store profile 0 255 in
  snd (for_lt size 1
         (fun x profile =>
            let scaled_x :=
              f32_mul (f32_sub (f32_of_Z (center - x)) f32_0_5) invr in
            let gi := gaussianIntegral scaled_x in
            store profile x (255 - f32_to_u8 (f32_mul (f32_of_Z 255) gi)))
         1 profile).

Definition profile_lookup (profile : list Z) (loc blurred_width sharp_width : Z)
  : Z :=
  (* how far are we from the original edge? *)
  let dx := SkAbs32 (Z.shiftl loc 1 + 1 - blurred_width) - sharp_width in
  let ox := Z.shiftr dx 1 in
  let ox := if ox <? 0 then 0 else ox in
  load profile ox.

Section BlurRect.
Variable junk : heap_block -> nat -> Z.

(** One sample of the blurred edge: from the profile when it fits in the
    side of length [s], from [gaussianIntegral] otherwise. *)
Definition edge_sample (profile : list Z) (profile_size : Z)
           (radius : spec_float) (s loc blurred sharp : Z) : Z :=
  if profile_size <=? s then profile_lookup profile loc blurred sharp
  else
    let span := f32_div (f32_of_Z s) radius in
    let gi := f32_sub f32_1_5
                (f32_div (f32_add (f32_of_Z loc) f32_0_5) radius) in
    f32_to_u8 (f32_mul (f32_of_Z 255)
                 (f32_sub (gaussianIntegral gi)
                          (gaussianIntegral (f32_add gi span)))).

(** [memcpy(dst + d, src + s, n)] and [memset(dst + d, 0, n)], row by row. *)
Definition copy_cells (dst : list Z) (d : Z) (src : list Z) (s n : Z) : list Z :=
  snd (for_lt n 1 (fun i dst => store dst (d + i) (load src (s + i))) 0 dst).

Definition BlurRect (dst : SkMask) (src : SkRect) (provided_radius : SkScalar)
           (style : Style) (margin : option SkIPoint) (createMode : CreateMode)
  : blur_result :=
  let radius := SkScalarToFloat (SkScalarMul provided_radius kBlurRadiusFudgeFactor) in
  (* adjust blur radius to match interpretation from boxfilter code *)
  let radius := f32_mul (f32_add radius f32_0_5) (f32_of_Z 2) in
  let profile_size := compute_profile_size radius in
  let pad := Z.quot profile_size 2 in
  let margin := set_margin margin pad pad in
  let fpad := f32_of_Z pad in
  let bounds := mkRect (SkScalarRoundToInt (f32_sub (fLeft src) fpad))
                       (SkScalarRoundToInt (f32_sub (fTop src) fpad))
                       (SkScalarRoundToInt (f32_add (fRight src) fpad))
                       (SkScalarRoundToInt (f32_add (fBottom src) fpad)) in
  let trimmed := mkRect (SkScalarRoundToInt (fLeft src))
                        (SkScalarRoundToInt (fTop src))
                        (SkScalarRoundToInt (fRight src))
                        (SkScalarRoundToInt (fBottom src)) in
  let dst := {| fImage := None; fBounds := bounds;
                fRowBytes := to_u32 (irect_width bounds);
                fFormat := kA8_Format |} in
  let sw := SkScalarFloorToInt (rect_width src) in
  let sh := SkScalarFloorToInt (rect_height src) in
  match createMode with
  | kJustComputeBounds_CreateMode =>
      let dst :=
        match style with
        | kInner_Style =>
            (* restore trimmed bounds *)
            {| fImage := fImage dst; fBounds := trimmed;
               fRowBytes := to_u32 sw; fFormat := fFormat dst |}
        | _ => dst
        end in
      {| br_ret := true; br_dst := dst; br_margin := margin;
         br_heap := []; br_calls := [] |}
  | _ =>
      let profile :=
        compute_profile (map (junk blk_profile) (seq 0 (Z.to_nat profile_size)))
          radius in
      let dstSize := computeImageSize dst in
      if dstSize =? 0 then
        (* too big to allocate, abort *)
        {| br_ret := false; br_dst := dst; br_margin := margin;
           br_heap := [ev_alloc blk_profile profile_size; ev_free blk_profile];
           br_calls := [] |}
      else
      let dp := map (junk blk_dp) (seq 0 (Z.to_nat dstSize)) in
      let dstHeight := irect_height (fBounds dst) in
      let dstWidth := irect_width (fBounds dst) in
      (* nearest odd number less than the profile size represents the
         center of the (2x scaled) profile *)
      let center := Z.land profile_size (Z.lnot 1) - 1 in
      let w := sw - center in
      let h := sh - center in
      let horizontalScanline :=
        snd (for_lt dstWidth 1
               (fun x hs =>
                  store hs x
                    (to_u8 (edge_sample profile profile_size radius
                              sw x dstWidth w)))
               0 (map (junk blk_scanline) (seq 0 (Z.to_nat dstWidth)))) in
      let '(dp, _) :=
        snd (for_lt dstHeight 1
               (fun y '(dp, outptr) =>
                  let profile_y :=
                    edge_sample profile profile_size radius sh y dstHeight h in
                  snd (for_lt dstWidth 1
                         (fun x '(dp, outptr) =>
                            let maskval :=
                              SkMulDiv255Round (load horizontalScanline x)
                                profile_y in
                            (store dp outptr (to_u8 maskval), outptr + 1))
                         0 (dp, outptr)))
               0 (dp, 0)) in
      let heap := [ev_alloc blk_profile profile_size;
                   ev_alloc blk_dp dstSize;
                   ev_alloc blk_scanline dstWidth] in
      match style with
      | kInner_Style =>
          (* now we allocate the "real" dst, mirror the size of src *)
          let srcSize := f32_trunc (f32_mul (rect_width src) (rect_height src)) in
          if srcSize =? 0 then
            (* too big to allocate, abort *)
            {| br_ret := false;
               br_dst := {| fImage := Some dp; fBounds := fBounds dst;
                            fRowBytes := fRowBytes dst; fFormat := fFormat dst |};
               br_margin := margin;
               br_heap := heap ++ [ev_free blk_scanline; ev_free blk_profile];
               br_calls := [] |}
          else
          let image :=
            snd (for_lt sh 1
                   (fun y image =>
                      copy_cells image (y * sw) dp ((y + pad) * dstWidth + pad) sw)
                   0 (map (junk blk_inner) (seq 0 (Z.to_nat srcSize)))) in
          {| br_ret := true;
             br_dst := {| fImage := Some image; fBounds := trimmed;
                          fRowBytes := to_u32 sw; fFormat := fFormat dst |};
             br_margin := margin;
             br_heap := heap ++ [ev_alloc blk_inner srcSize; ev_free blk_dp;
                                 ev_free blk_scanline; ev_free blk_profile];
             br_calls := [] |}
      | kOuter_Style =>
          let dp :=
            snd (for_lt (dstHeight - pad) 1
                   (fun y dp => memset dp (y * dstWidth + pad) 0 (Z.to_nat sw))
                   pad dp) in
          {| br_ret := true;
             br_dst := {| fImage := Some dp; fBounds := fBounds dst;
                          fRowBytes := fRowBytes dst; fFormat := fFormat dst |};
             br_margin := margin;
             br_heap := heap ++ [ev_free blk_scanline; ev_free blk_profile];
             br_calls := [] |}
      | _ =>
          (* normal and solid styles are the same for analytic rect blurs *)
          {| br_ret := true;
             br_dst := {| fImage := Some dp; fBounds := fBounds dst;
                          fRowBytes := fRowBytes dst; fFormat := fFormat dst |};
             br_margin := margin;
             br_heap := heap ++ [ev_free blk_scanline; ev_free blk_profile];
             br_calls := [] |}
      end
  end.
End BlurRect.

(** * Specification vocabulary *)

(** The bodies of a loop that reads its loop variable, at
    [x, x+1, ..., x+k-1], in this order. *)
Fixpoint iter_from {S : Type} (body : Z -> S -> S) (k : nat) (x : Z) (s : S) : S :=
  match k with
  | O => s
  | Datatypes.S k' => iter_from body k' (x + 1) (body x s)
  end.

(** A buffer of [uint8_t]. *)
Definition bytes (m : list Z) : Prop := Forall (fun b => 0 <= b <= 255) m.

(** The sum of the [n] cells of [m] that start at index [p]. *)
Fixpoint sum_range (m : list Z) (p : Z) (n : nat) : Z :=
  match n with
  | O => 0
  | Datatypes.S k => sum_range m p k + load m (p + Z.of_nat k)
  end.

(** The sum of the cells of [m] from index [a] up to, not including, [p]. *)
Definition prefix_sum (m : list Z) (a p : Z) : Z :=
  sum_range m a (Z.to_nat (p - a)).

(** What the sliding window of [boxBlur] holds: the cells between [left]
    and [right], for pointers that started at [a]. *)
Definition row_inv (src : list Z) (a : Z) (st : blur_row) : Prop :=
  a <= r_left st /\ a <= r_right st /\
  r_sum st = to_u32 (prefix_sum src a (r_right st) - prefix_sum src a (r_left st)).

(** Where the pointers stand after [n] rounds of a body that advances
    [right] by [dr], [left] by [dl] and [dptr] by [stride]. *)
Definition moved (stride dr dl : Z) (n : nat) (st st' : blur_row) : Prop :=
  r_right st' = r_right st + dr * Z.of_nat n /\
  r_left st' = r_left st + dl * Z.of_nat n /\
  r_dptr st' = r_dptr st + stride * Z.of_nat n.

(** The same two facts for the outer window of [boxBlurInterp]. *)
Definition interp_inv (src : list Z) (a : Z) (st : interp_row) : Prop :=
  a <= i_left st /\ a <= i_right st /\
  i_outer_sum st
  = to_u32 (prefix_sum src a (i_right st) - prefix_sum src a (i_left st)).

Definition interp_moved (stride dr dl : Z) (n : nat) (st st' : interp_row) : Prop :=
  i_right st' = i_right st + dr * Z.of_nat n /\
  i_left st' = i_left st + dl * Z.of_nat n /\
  i_dptr st' = i_dptr st + stride * Z.of_nat n.

(** Writing the values [vs] one after the other, [stride] cells apart,
    starting at index [p]. *)
Fixpoint write_strided (dst : list Z) (p stride : Z) (vs : list Z) : list Z :=
  match vs with
  | [] => dst
  | v :: vs' => write_strided (store dst p v) (p + stride) stride vs'
  end.

(** The values a loop body [b] emits in its first [n] rounds, when round
    [i] emits [v] of the state it starts from. *)
Definition emitted {S : Type} (b : S -> S) (v : S -> Z) (n : nat) (s : S) : list Z :=
  map (fun i => v (Nat.iter i b s)) (seq 0 n).

(** The 1-D box filter the spec describes.  The window that ends at column
    [j] covers the source columns [j - diameter .. j]; columns outside
    [0, width) count as zero. *)
Definition window_sum (src : list Z) (row width diameter j : Z) : Z :=
  let lo := Z.max 0 (j - diameter) in
  let hi := Z.min j (width - 1) in
  sum_range src (row + lo) (Z.to_nat (hi - lo + 1)).

(** [(sum * scale + half) >> 24] with [scale = (1 << 24) / kernelSize]. *)
Definition box_average (SK_DISABLE_BLUR_ROUNDING : bool) (kernelSize sum : Z) : Z :=
  Z.shiftr (sum * (Z.shiftl 1 24 / kernelSize)
            + blur_half SK_DISABLE_BLUR_ROUNDING) 24.

(** Column [k] of an output row of [boxBlur]: [rightRadius - leftRadius]
    zeros when that is positive, then the [width + diameter] box averages,
    then [leftRadius - rightRadius] zeros when that is positive. *)
Definition boxBlur_column (SK_DISABLE_BLUR_ROUNDING : bool) (src : list Z)
           (row leftRadius rightRadius width k : Z) : Z :=
  let diameter := leftRadius + rightRadius in
  let j := k - Z.max 0 (rightRadius - leftRadius) in
  if (j <? 0) || (width + diameter <=? j) then 0
  else box_average SK_DISABLE_BLUR_ROUNDING (diameter + 1)
         (window_sum src row width diameter j).

(** The cell of the destination that holds column [k] of row [y]. *)
Definition boxBlur_index (transpose : bool) (new_width height y k : Z) : Z :=
  if transpose then y + k * height else y * new_width + k.

(** A state of the sliding window whose pointers are known. *)
Definition window_at (src : list Z) (a : Z) (st : blur_row) (L R : Z) : Prop :=
  row_inv src a st /\ r_left st = L /\ r_right st = R.

(** The values the five loop bodies of [boxBlur] store. *)
Definition ZERO_value (st : blur_row) : Z := 0.
Definition LEFT_BORDER_value (flag : bool) (src : list Z) (scale : Z)
           (st : blur_row) : Z :=
  blur_px flag scale (to_u32 (r_sum st + load src (r_right st))).
Definition TRIVIAL_value (flag : bool) (scale : Z) (st : blur_row) : Z :=
  blur_px flag scale (r_sum st).

(** The sum of the [w] x [h] top-left corner of an image whose rows are
    [rb] bytes apart. *)
Fixpoint rect_sum (src : list Z) (rb : Z) (w h : nat) : Z :=
  match h with
  | O => 0
  | Datatypes.S h' => rect_sum src rb w h' + sum_range src (Z.of_nat h' * rb) w
  end.

(** The sum of the rectangle of columns [x0 .. x1-1] and rows
    [y0 .. y0+h-1]. *)
Fixpoint region_sum (src : list Z) (rb : Z) (x0 : nat) (w : nat) (y0 : nat)
         (h : nat) : Z :=
  match h with
  | O => 0
  | Datatypes.S h' =>
      region_sum src rb x0 w y0 h'
      + sum_range src (Z.of_nat (y0 + h') * rb + Z.of_nat x0) w
  end.

(** Rows [0 .. rows] of the table hold the prefix sums, modulo 2^32. *)
Definition table_rows (buf src : list Z) (sumW rb : Z) (rows : nat) : Prop :=
  forall i j : nat,
    (j <= rows)%nat -> Z.of_nat i < sumW ->
    load buf (Z.of_nat j * sumW + Z.of_nat i) = to_u32 (rect_sum src rb i j).

(** [build_sum_buffer] when it is about to start row [m] of the source. *)
Definition row_start (len : nat) (src : list Z) (sumW rb : Z) (m : nat)
           (st : sum_state) : Prop :=
  length (s_sum st) = len /\
  s_sp st = (Z.of_nat m + 1) * sumW /\
  s_src st = Z.of_nat m * rb /\
  table_rows (s_sum st) src sumW rb m.

(** ... and when it has done [k] cells of that row. *)
Definition row_partial (len : nat) (src : list Z) (sumW rb : Z) (m k : nat)
           (st : sum_state) : Prop :=
  length (s_sum st) = len /\
  s_sp st = (Z.of_nat m + 1) * sumW + 1 + Z.of_nat k /\
  s_src st = Z.of_nat m * rb + Z.of_nat k /\
  s_L st = to_u32 (rect_sum src rb k (Datatypes.S m)) /\
  s_C st = to_u32 (rect_sum src rb k m) /\
  table_rows (s_sum st) src sumW rb m /\
  (forall i : nat, (i <= k)%nat ->
     load (s_sum st) ((Z.of_nat m + 1) * sumW + Z.of_nat i)
     = to_u32 (rect_sum src rb i (Datatypes.S m))).

(** The first row keeps its running sum in [X]. *)
Definition first_partial (len : nat) (src : list Z) (sumW rb : Z) (k : nat)
           (st : sum_state) : Prop :=
  length (s_sum st) = len /\
  s_sp st = sumW + 1 + Z.of_nat k /\
  s_src st = Z.of_nat k /\
  s_X st = to_u32 (sum_range src 0 k) /\
  table_rows (s_sum st) src sumW rb 0 /\
  (forall i : nat, (i <= k)%nat ->
     load (s_sum st) (sumW + Z.of_nat i)
     = to_u32 (rect_sum src rb i 1)).

(** The box blur read off the summed-area table, as the spec words it: the
    window of output pixel [(x, y)] spans the table columns [x - 2rx] and
    [x + 1] and the rows [y - 2ry] and [y + 1], clamped to [0, sw] and
    [0, sh]; the pixel is the four-corner sum times
    [(1 << 24) / ((2rx+1)(2ry+1))], shifted right by 24. *)
Definition kernel_reference_px (sum : list Z) (rx ry sw sh x y : Z) : Z :=
  let x0 := Z.max 0 (x - 2 * rx) in
  let x1 := Z.min (x + 1) sw in
  let y0 := Z.max 0 (y - 2 * ry) in
  let y1 := Z.min (y + 1) sh in
  let at_ (yy xx : Z) := load sum (yy * (sw + 1) + xx) in
  let tmp := to_u32 (at_ y0 x0 + at_ y1 x1 - at_ y0 x1 - at_ y1 x0) in
  let scale := Z.shiftl 1 24 / ((2 * rx + 1) * (2 * ry + 1)) in
  SkToU8 (Z.shiftr (to_u32 (tmp * scale)) 24).

(** Two row states that agree on what the caller sees. *)
Definition same_px (st st' : kernel_row) : Prop :=
  k_dst st = k_dst st' /\ k_dp st = k_dp st' /\
  k_prev_x st = k_prev_x st' /\ k_next_x st = k_next_x st'.

(** The running indices of the center section agree with the window. *)
Definition synced (py ny : Z) (st : kernel_row) : Prop :=
  k_i0 st = k_prev_x st + py /\ k_i1 st = k_next_x st + ny /\
  k_i2 st = k_next_x st + py /\ k_i3 st = k_prev_x st + ny.

(** The value [CLAMPED_ITER] stores. *)
Definition CLAMPED_value (sum : list Z) (scale sw py ny : Z) (st : kernel_row) : Z :=
  let px := SkClampPos (k_prev_x st) in
  let nx := SkFastMin32 (k_next_x st) sw in
  kernel_px scale (four_corners sum (px + py) (nx + ny) (nx + py) (px + ny)).

(** The loop over the rows of the kernels when it is about to start row
    [m]. *)
Definition rows_at (len : nat) (dw ry : Z) (m : Z) (st : kernel_rows) : Prop :=
  length (kr_dst st) = len /\ kr_dp st = m * dw /\
  kr_prev_y st = - 2 * ry + m /\ kr_next_y st = 1 + m.

(** [a * b / 255], rounded to the nearest integer. *)
Definition round_div255 (a b : Z) : Z := (a * b + 127) / 255.

(** The check of a property of two bytes on all 65536 pairs. *)
Definition all_bytes2 (P : Z -> Z -> bool) : bool :=
  forallb (fun a => forallb (fun b => P (Z.of_nat a) (Z.of_nat b)) (seq 0 256))
          (seq 0 256).

(** The moving pointers of a style pass after [n] pixels of a row. *)
Definition style_moved (db : Z) (n : nat) (st st' : style_state) : Prop :=
  length (y_dst st') = length (y_dst st) /\
  y_dp st' = y_dp st + Z.of_nat n /\
  y_sp st' = y_sp st + Z.of_nat n /\
  y_bp st' = y_bp st + db * Z.of_nat n.

(** ** The vocabulary of [Blur] *)

(** The pass count, per-pass radius, integer radius and margin that [Blur]
    derives from the radius and quality it is called with. *)
Definition Blur_passCount (radius : SkScalar) (quality : Quality) : Z :=
  passCount_of (Blur_quality radius quality).

Definition Blur_passRadius (radius : SkScalar) (quality : Quality) : SkScalar :=
  passRadius_of radius (Blur_quality radius quality).

Definition Blur_rx (radius : SkScalar) (quality : Quality) : Z :=
  SkScalarCeil (Blur_passRadius radius quality).

Definition Blur_outerWeight (radius : SkScalar) (quality : Quality) : Z :=
  outerWeight_of (Blur_rx radius quality) (Blur_passRadius radius quality).

Definition Blur_margin (radius : SkScalar) (quality : Quality) : Z :=
  Blur_passCount radius quality * Blur_rx radius quality.

(** A rectangle grown by [dx] and [dy] on every side. *)
Definition outset (r : SkIRect) (dx dy : Z) : SkIRect :=
  mkRect (fLeft r - dx) (fTop r - dy) (fRight r + dx) (fBottom r + dy).

(** The output mask as [Blur] sets it up before it looks at the pixels. *)
Definition Blur_header (src : SkMask) (radius : SkScalar) (quality : Quality)
  : SkMask :=
  let m := Blur_margin radius quality in
  {| fImage := None;
     fBounds := outset (fBounds src) m m;
     fRowBytes := to_u32 (irect_width (outset (fBounds src) m m));
     fFormat := kA8_Format |}.

Definition is_inner (style : Style) : bool :=
  match style with kInner_Style => true | _ => false end.

(** Calls to the separable kernels, and calls that sample the table. *)
Definition is_box_call (c : kernel_call) : bool :=
  match c with
  | call_boxBlur _ _ _ | call_boxBlurInterp _ _ _ => true
  | _ => false
  end.

Definition is_kernel_call (c : kernel_call) : bool :=
  match c with
  | call_apply_kernel _ _ | call_apply_kernel_interp _ _ _ => true
  | _ => false
  end.

(** The rectangle of a [BlurRect] call, rounded. *)
Definition round_rect (r : SkRect) : SkIRect :=
  mkRect (SkScalarRoundToInt (fLeft r)) (SkScalarRoundToInt (fTop r))
         (SkScalarRoundToInt (fRight r)) (SkScalarRoundToInt (fBottom r)).

(** The profile size and padding [BlurRect] derives from its radius. *)
Definition BlurRect_radius (provided_radius : SkScalar) : spec_float :=
  f32_mul (f32_add (SkScalarToFloat
                      (SkScalarMul provided_radius kBlurRadiusFudgeFactor))
                   f32_0_5)
          (f32_of_Z 2).

Definition BlurRect_pad (provided_radius : SkScalar) : Z :=
  Z.quot (compute_profile_size (BlurRect_radius provided_radius)) 2.

(** The rectangle grown by the padding, then rounded. *)
Definition outset_round_rect (r : SkRect) (pad : Z) : SkIRect :=
  mkRect (SkScalarRoundToInt (f32_sub (fLeft r) (f32_of_Z pad)))
         (SkScalarRoundToInt (f32_sub (fTop r) (f32_of_Z pad)))
         (SkScalarRoundToInt (f32_add (fRight r) (f32_of_Z pad)))
         (SkScalarRoundToInt (f32_add (fBottom r) (f32_of_Z pad))).

(** The sizes [Blur] computes are usable: it computes the size of the
    output only when the source has pixels, and the size of the source only
    for the inner style. *)
Definition Blur_sizes_ok (src : SkMask) (radius : SkScalar) (style : Style)
           (quality : Quality) : bool :=
  match fImage src with
  | None => true
  | Some _ =>
      negb (computeImageSize (Blur_header src radius quality) =? 0)
      && negb (is_inner style && (computeImageSize src =? 0))
  end.

(** The blur stage of [Blur]: what it allocates and releases. *)
Definition stage_heap (separable : bool) (quality : Quality)
           (dstSize storage : Z) : list heap_event :=
  if separable
  then [ev_alloc blk_dp dstSize; ev_alloc blk_tmpBuffer dstSize;
        ev_free blk_tmpBuffer]
  else match quality with
       | kHigh_Quality =>
           [ev_alloc blk_dp dstSize; ev_alloc blk_storage storage;
            ev_alloc blk_tmpBuffer dstSize;
            ev_free blk_tmpBuffer; ev_free blk_storage]
       | kLow_Quality =>
           [ev_alloc blk_dp dstSize; ev_alloc blk_storage storage;
            ev_free blk_storage]
       end.

(** ** Sample inputs *)

(** A 4x4 mask of opaque pixels, [rowBytes = 4], with its top-left corner at
    the origin. *)
Definition mask_4x4_opaque : SkMask :=
  {| fImage := Some (repeat 255 16);
     fBounds := mkRect 0 0 4 4;
     fRowBytes := 4;
     fFormat := kA8_Format |}.

(** The same bounds without pixels. *)
Definition mask_4x4_null : SkMask :=
  {| fImage := None;
     fBounds := mkRect 0 0 4 4;
     fRowBytes := 4;
     fFormat := kA8_Format |}.

(** An output mask before the call. *)
Definition mask_blank : SkMask :=
  {| fImage := None;
     fBounds := mkRect 0 0 0 0;
     fRowBytes := 0;
     fFormat := kBW_Format |}.

(** What the 4x4 opaque mask becomes under the summed-area-table blur of
    radius 1. *)
Definition blurred_4x4_sat : list Z :=
  [ 28;  56;  84;  84;  56;  28;
    56; 113; 169; 169; 113;  56;
    84; 169; 254; 254; 169;  84;
    84; 169; 254; 254; 169;  84;
    56; 113; 169; 169; 113;  56;
    28;  56;  84;  84;  56;  28].

(** ... and under the separable box blur of radius 1. *)
Definition blurred_4x4_separable : list Z :=
  [ 28;  57;  85;  85;  57;  28;
    57; 113; 170; 170; 113;  57;
    85; 170; 255; 255; 170;  85;
    85; 170; 255; 255; 170;  85;
    57; 113; 170; 170; 113;  57;
    28;  57;  85;  85;  57;  28].

(** A 3x4 image stored with a row stride of 4. *)
Definition image_3x4 : list Z :=
  [1; 2; 3; 7;  4; 5; 6; 7;  1; 1; 1; 7;  2; 2; 2; 7].

(** ** The vocabulary of [boxBlurInterp] *)

(** The two weights [boxBlurInterp] and the interpolating kernels derive from
    their [outer_weight]: [inner_weight = 255 - outer_weight], then each is
    rounded up by its top bit.  In [boxBlurInterp] the outer weight is a
    [uint8_t]. *)
Definition interp_outer_weight (outer_weight : Z) : Z :=
  to_u8 (outer_weight + Z.shiftr outer_weight 7).

Definition interp_inner_weight (outer_weight : Z) : Z :=
  255 - outer_weight + Z.shiftr (255 - outer_weight) 7.

(** [(outer_sum * outer_scale + inner_sum * inner_scale + half) >> 24] with
    [outer_scale = (outer_weight << 16) / kernelSize] and
    [inner_scale = (inner_weight << 16) / (kernelSize - 2)]. *)
Definition interp_average (SK_DISABLE_BLUR_ROUNDING : bool)
           (radius outer_weight outer_sum inner_sum : Z) : Z :=
  Z.shiftr (outer_sum
              * (Z.shiftl (interp_outer_weight outer_weight) 16
                 / (2 * radius + 1))
            + inner_sum
              * (Z.shiftl (interp_inner_weight outer_weight) 16
                 / (2 * radius - 1))
            + blur_half SK_DISABLE_BLUR_ROUNDING) 24.

(** The inner window of column [j]: the outer window [j - diameter .. j]
    without its two end columns.  In the columns [width <= j < diameter] of
    a row narrower than the diameter the code does not update [inner_sum],
    which stays at the sum of the first [width - 1] pixels. *)
Definition inner_window_sum (src : list Z) (row width diameter j : Z) : Z :=
  if (width <=? j) && (j <? diameter)
  then sum_range src row (Z.to_nat (width - 1))
  else
    let lo := Z.max 0 (j - diameter + 1) in
    let hi := Z.min (j - 1) (width - 1) in
    sum_range src (row + lo) (Z.to_nat (hi - lo + 1)).

(** Column [k] of an output row of [boxBlurInterp]. *)
Definition boxBlurInterp_column (SK_DISABLE_BLUR_ROUNDING : bool)
           (src : list Z) (row radius width outer_weight k : Z) : Z :=
  interp_average SK_DISABLE_BLUR_ROUNDING radius outer_weight
    (window_sum src row width (2 * radius) k)
    (inner_window_sum src row width (2 * radius) k).

(** A state of the two sliding windows whose pointers are known. *)
Definition interp_at (src : list Z) (a : Z) (st : interp_row) (L R : Z) : Prop :=
  interp_inv src a st /\ i_left st = L /\ i_right st = R.

(** The values the four loop bodies of [boxBlurInterp] store. *)
Definition INTERP_LEFT_value (flag : bool) (src : list Z) (oscale iscale : Z)
           (st : interp_row) : Z :=
  interp_px flag oscale iscale
    (to_u32 (i_outer_sum st + load src (i_right st))) (i_outer_sum st).

Definition INTERP_TRIVIAL_value (flag : bool) (oscale iscale : Z)
           (st : interp_row) : Z :=
  interp_px flag oscale iscale (i_outer_sum st) (i_inner_sum st).

Definition INTERP_CENTER_value (flag : bool) (src : list Z) (oscale iscale : Z)
           (st : interp_row) : Z :=
  interp_px flag oscale iscale
    (to_u32 (i_outer_sum st + load src (i_right st)))
    (to_u32 (i_outer_sum st - load src (i_left st))).

Definition INTERP_RIGHT_value (flag : bool) (src : list Z) (oscale iscale : Z)
           (st : interp_row) : Z :=
  interp_px flag oscale iscale
    (i_outer_sum st) (to_u32 (i_outer_sum st - load src (i_left st))).

(** ** The vocabulary of the interpolating kernels *)

(** The eight running indices of the center section agree with the two
    windows. *)
Definition synced_interp (py ny ipy iny : Z) (st : kernel_row) : Prop :=
  synced py ny st /\
  k_i4 st = k_prev_x st + 1 + ipy /\ k_i5 st = k_next_x st - 1 + iny /\
  k_i6 st = k_next_x st - 1 + ipy /\ k_i7 st = k_prev_x st + 1 + iny.

(** The value [INTERP_CLAMPED_ITER] stores. *)
Definition INTERP_CLAMPED_value (sum : list Z) (outerScale innerScale : Z)
           (sw py ny ipy iny : Z) (st : kernel_row) : Z :=
  let px := SkClampPos (k_prev_x st) in
  let nx := SkFastMin32 (k_next_x st) sw in
  let ipx := SkClampPos (k_prev_x st + 1) in
  let inx := SkClampMax (k_next_x st - 1) sw in
  kernel_interp_px outerScale innerScale
    (four_corners sum (px + py) (nx + ny) (nx + py) (px + ny))
    (four_corners sum (ipx + ipy) (inx + iny) (inx + ipy) (ipx + iny)).

(** The interpolating blur read off the summed-area table: the outer window
    of output pixel [(x, y)] is the one of [kernel_reference_px]; the inner
    window is one column and one row smaller on every side, between the
    table columns [x - 2rx + 1] and [x] and the rows [y - 2ry + 1] and [y],
    clamped to [0, sw] and [0, sh]. *)
Definition kernel_interp_reference_px (sum : list Z)
           (rx ry sw sh outerWeight x y : Z) : Z :=
  let x0 := Z.max 0 (x - 2 * rx) in
  let x1 := Z.min (x + 1) sw in
  let y0 := Z.max 0 (y - 2 * ry) in
  let y1 := Z.min (y + 1) sh in
  let ix0 := Z.max 0 (x - 2 * rx + 1) in
  let ix1 := Z.min x sw in
  let iy0 := Z.max 0 (y - 2 * ry + 1) in
  let iy1 := Z.min y sh in
  let at_ (yy xx : Z) := load sum (yy * (sw + 1) + xx) in
  let outerSum := to_u32 (at_ y0 x0 + at_ y1 x1 - at_ y0 x1 - at_ y1 x0) in
  let innerSum :=
    to_u32 (at_ iy0 ix0 + at_ iy1 ix1 - at_ iy0 ix1 - at_ iy1 ix0) in
  let outerScale :=
    Z.shiftl (outerWeight + Z.shiftr outerWeight 7) 16
    / ((2 * rx + 1) * (2 * ry + 1)) in
  let innerScale :=
    Z.shiftl (255 - outerWeight + Z.shiftr (255 - outerWeight) 7) 16
    / ((2 * rx - 1) * (2 * ry - 1)) in
  SkToU8 (Z.shiftr (to_u32 (outerSum * outerScale + innerSum * innerScale)) 24).

(** ** The two-dimensional box filter *)

(** The sum of the source pixels under the [(2rx+1) x (2ry+1)] window of
    output pixel [(x, y)]: the source columns [x - 2rx .. x] and rows
    [y - 2ry .. y] that lie inside the [sw x sh] image. *)
Definition window_sum_2d (src : list Z) (rb rx ry sw sh x y : Z) : Z :=
  let x0 := Z.max 0 (x - 2 * rx) in
  let x1 := Z.min (x + 1) sw in
  let y0 := Z.max 0 (y - 2 * ry) in
  let y1 := Z.min (y + 1) sh in
  region_sum src rb (Z.to_nat x0) (Z.to_nat (x1 - x0))
             (Z.to_nat y0) (Z.to_nat (y1 - y0)).

(** ** The pixels [Blur] computes *)

(** The sum of [f p], [f (p + 1)], ..., [f (p + n - 1)]. *)
Fixpoint sum_of (f : Z -> Z) (p : Z) (n : nat) : Z :=
  match n with
  | O => 0
  | Datatypes.S k => sum_of f p k + f (p + Z.of_nat k)
  end.

(** The separable box filter: the rows are averaged first, then the
    columns of the result; output pixel [(x, y)] averages the row-filtered
    values of column [x] under the vertical window of [y]. *)
Definition separable_blur_px (SK_DISABLE_BLUR_ROUNDING : bool) (src : list Z)
           (rb rx ry sw sh x y : Z) : Z :=
  let lo := Z.max 0 (y - 2 * ry) in
  let hi := Z.min y (sh - 1) in
  box_average SK_DISABLE_BLUR_ROUNDING (2 * ry + 1)
    (sum_of (fun j => boxBlur_column SK_DISABLE_BLUR_ROUNDING src (j * rb)
                        rx rx sw x)
            lo (Z.to_nat (hi - lo + 1))).

(** The buffer [dp] of [Blur] after the blur stage, before the style is
    applied, for a source with pixels [sp]. *)
Definition Blur_blurred (SK_DISABLE_BLUR_ROUNDING UNROLL_KERNEL_LOOP : bool)
           (addr_of : heap_block -> Z) (junk : heap_block -> nat -> Z)
           (src_addr : Z) (src : SkMask) (sp : list Z) (radius : SkScalar)
           (quality : Quality) (separable : bool) : list Z :=
  let q := Blur_quality radius quality in
  let rx := Blur_rx radius quality in
  let ow := Blur_outerWeight radius quality in
  let dstSize := computeImageSize (Blur_header src radius quality) in
  let sw := irect_width (fBounds src) in
  let sh := irect_height (fBounds src) in
  let dp := fresh junk blk_dp dstSize in
  if separable
  then fst (Blur_separable SK_DISABLE_BLUR_ROUNDING sp (fRowBytes src)
              (fresh junk blk_tmpBuffer dstSize) dp sw sh q
              (Blur_passRadius radius quality) rx rx ow)
  else fst (fst (Blur_sat UNROLL_KERNEL_LOOP addr_of junk src_addr sp
                   (fRowBytes src) dp dstSize sw sh q
                   (Blur_passCount radius quality) rx rx ow)).

(** Where the source window starts in the output of [Blur]:
    [passCount * (rx + ry * dst->fRowBytes)]. *)
Definition Blur_offset (src : SkMask) (radius : SkScalar) (quality : Quality)
  : Z :=
  Blur_passCount radius quality
  * (Blur_rx radius quality
     + Blur_rx radius quality * fRowBytes (Blur_header src radius quality)).

(** The image [Blur] hands back when it succeeds on a source with pixels:
    the blurred buffer, with the style applied. *)
Definition Blur_styled (junk : heap_block -> nat -> Z) (src : SkMask)
           (sp blurred : list Z) (radius : SkScalar) (quality : Quality)
           (style : Style) : list Z :=
  let sw := irect_width (fBounds src) in
  let sh := irect_height (fBounds src) in
  let rowBytes := fRowBytes (Blur_header src radius quality) in
  let offset := Blur_offset src radius quality in
  match style with
  | kNormal_Style => blurred
  | kInner_Style =>
      merge_src_with_blur sp blurred
        (fresh junk blk_inner (computeImageSize src))
        0 (fRowBytes src) 0 (fRowBytes src) offset rowBytes sw sh
  | _ =>
      clamp_with_orig sp blurred offset rowBytes 0 (fRowBytes src) sw sh style
  end.

(** ** The vocabulary of [BlurRect] *)

Definition BlurRect_profile_size (provided_radius : SkScalar) : Z :=
  compute_profile_size (BlurRect_radius provided_radius).

(** The profile [BlurRect] computes, in an array the allocator hands out. *)
Definition BlurRect_profile (junk : heap_block -> nat -> Z)
           (provided_radius : SkScalar) : list Z :=
  compute_profile
    (map (junk blk_profile)
         (seq 0 (Z.to_nat (BlurRect_profile_size provided_radius))))
    (BlurRect_radius provided_radius).

(** [int center = ( profile_size & ~1 ) - 1;] *)
Definition BlurRect_center (provided_radius : SkScalar) : Z :=
  Z.land (BlurRect_profile_size provided_radius) (Z.lnot 1) - 1.

(** The output rectangle and the integer size of the source rectangle. *)
Definition BlurRect_bounds (src : SkRect) (provided_radius : SkScalar)
  : SkIRect :=
  outset_round_rect src (BlurRect_pad provided_radius).

Definition BlurRect_sw (src : SkRect) : Z := SkScalarFloorToInt (rect_width src).
Definition BlurRect_sh (src : SkRect) : Z := SkScalarFloorToInt (rect_height src).

(** The weight of column [x], as stored in [horizontalScanline], and the
    weight [profile_y] of row [y]. *)
Definition BlurRect_weight_x (junk : heap_block -> nat -> Z) (src : SkRect)
           (provided_radius : SkScalar) (x : Z) : Z :=
  to_u8 (edge_sample (BlurRect_profile junk provided_radius)
           (BlurRect_profile_size provided_radius)
           (BlurRect_radius provided_radius)
           (BlurRect_sw src) x
           (irect_width (BlurRect_bounds src provided_radius))
           (BlurRect_sw src - BlurRect_center provided_radius)).

Definition BlurRect_weight_y (junk : heap_block -> nat -> Z) (src : SkRect)
           (provided_radius : SkScalar) (y : Z) : Z :=
  edge_sample (BlurRect_profile junk provided_radius)
    (BlurRect_profile_size provided_radius)
    (BlurRect_radius provided_radius)
    (BlurRect_sh src) y
    (irect_height (BlurRect_bounds src provided_radius))
    (BlurRect_sh src - BlurRect_center provided_radius).

(** The pixel [(x, y)] of the blurred rectangle: the product of the two
    weights, [SkMulDiv255Round]ed and stored in a byte. *)
Definition BlurRect_px (junk : heap_block -> nat -> Z) (src : SkRect)
           (provided_radius : SkScalar) (x y : Z) : Z :=
  to_u8 (SkMulDiv255Round (BlurRect_weight_x junk src provided_radius x)
                          (BlurRect_weight_y junk src provided_radius y)).

(** ** The passes of [Blur] *)

(** Whether a value fits an [int], and whether the [int]s that [Blur]
    computes before it looks at the pixels do, for a source with the bounds
    [bounds], the integer radius [rx] and the padding [m]: the radius, the
    padding, the four sides of the output rectangle and its width and
    height.  Where one of them does not, the C code overflows and what it
    does is not defined. *)
Definition int_fits (z : Z) : Prop := - 2 ^ 31 <= z < 2 ^ 31.

Definition ints_fit (bounds : SkIRect) (rx m : Z) : Prop :=
  let out := outset bounds m m in
  int_fits rx /\ int_fits m
  /\ int_fits (fLeft out) /\ int_fits (fTop out)
  /\ int_fits (fRight out) /\ int_fits (fBottom out)
  /\ int_fits (irect_width out) /\ int_fits (irect_height out).

Definition Blur_ints_fit (src : SkMask) (radius : SkScalar) (quality : Quality)
  : Prop :=
  ints_fit (fBounds src) (Blur_rx radius quality) (Blur_margin radius quality).

(** Whether the conversions of a [float] to [int] that [BlurRect] makes
    before it looks at the create mode are defined in C: the value is finite
    and, once floored, fits an [int].  [SkScalarRoundToInt] floors its
    argument plus one half. *)
Definition floor_defined (x : spec_float) : Prop :=
  match x with
  | S754_finite _ _ _ | S754_zero _ => int_fits (f32_floor x)
  | _ => False
  end.

Definition round_defined (x : SkScalar) : Prop :=
  floor_defined (f32_add x (f32_decimal 5 1)).

Definition BlurRect_ints_fit (src : SkRect) (provided_radius : SkScalar)
  : Prop :=
  let pad := f32_of_Z (BlurRect_pad provided_radius) in
  round_defined (f32_mul (BlurRect_radius provided_radius) (f32_of_Z 3))
  /\ round_defined (f32_sub (fLeft src) pad)
  /\ round_defined (f32_sub (fTop src) pad)
  /\ round_defined (f32_add (fRight src) pad)
  /\ round_defined (f32_add (fBottom src) pad)
  /\ round_defined (fLeft src) /\ round_defined (fTop src)
  /\ round_defined (fRight src) /\ round_defined (fBottom src)
  /\ floor_defined (rect_width src) /\ floor_defined (rect_height src).

(** The pixel of a mask at the point [(x, y)] of the plane its bounds are
    in: row [y - fTop], column [x - fLeft] of the image. *)
Definition mask_pixel (m : SkMask) (x y : Z) : option Z :=
  match fImage m with
  | Some img =>
      Some (load img ((y - fTop (fBounds m)) * fRowBytes m
                      + (x - fLeft (fBounds m))))
  | None => None
  end.

(** The passes along one axis of the separable blur: [passCount] calls, the
    last of which transposes.  With a whole per-pass radius (outer weight
    255) they are calls to [boxBlur], with the pair of radii of
    [get_adjusted_radii] in the order lo-hi, hi-lo, hi-hi when there are
    three and with the integer radius when there is one; otherwise they are
    calls to [boxBlurInterp] with the integer radius and the outer
    weight. *)
Definition axis_passes (passCount : Z) (passRadius : SkScalar)
           (rx outerWeight : Z) : list kernel_call :=
  if outerWeight =? 255 then
    if passCount =? 1 then [call_boxBlur rx rx true]
    else
      let lo := fst (get_adjusted_radii passRadius) in
      let hi := snd (get_adjusted_radii passRadius) in
      [call_boxBlur lo hi false; call_boxBlur hi lo false;
       call_boxBlur hi hi true]
  else
    repeat (call_boxBlurInterp rx false outerWeight) (Z.to_nat (passCount - 1))
    ++ [call_boxBlurInterp rx true outerWeight].

(** The separable blur: the passes along x, then the passes along y. *)
Definition separable_passes (passCount : Z) (passRadius : SkScalar)
           (rx outerWeight : Z) : list kernel_call :=
  axis_passes passCount passRadius rx outerWeight
  ++ axis_passes passCount passRadius rx outerWeight.

(** The blur through the summed-area table: [passCount] passes, each of
    which builds the table of the image it is given and samples it with the
    radii [rx] and [rx]; pass [k] works on an image that has grown by
    [2 * k * rx] in both directions. *)
Definition table_passes (passCount rx outerWeight sw sh : Z)
  : list kernel_call :=
  flat_map
    (fun k : nat =>
       [call_build_sum_buffer (sw + 2 * Z.of_nat k * rx)
                              (sh + 2 * Z.of_nat k * rx);
        if outerWeight =? 255 then call_apply_kernel rx rx
        else call_apply_kernel_interp rx rx outerWeight])
    (seq 0 (Z.to_nat passCount)).

(** Running the calls of the separable blur.  The buffers [tp] and [dp]
    take turns as destination, starting with [tp]; each call reads what
    the call before it wrote, with the width it returned as row stride; a
    transposing call swaps the roles of width and height. *)
Record pass_state := {
  ps_src : list Z;      (* what the next call reads *)
  ps_stride : Z;
  ps_w : Z;
  ps_h : Z;
  ps_tp : list Z;
  ps_dp : list Z;
  ps_into_tp : bool     (* the next call writes [tp] *)
}.

Definition pass_done (st : pass_state) (transpose : bool) (o : blur_out)
  : pass_state :=
  {| ps_src := out_dst o;
     ps_stride := if transpose then ps_h st else out_width o;
     ps_w := if transpose then ps_h st else out_width o;
     ps_h := if transpose then out_width o else ps_h st;
     ps_tp := if ps_into_tp st then out_dst o else ps_tp st;
     ps_dp := if ps_into_tp st then ps_dp st else out_dst o;
     ps_into_tp := negb (ps_into_tp st) |}.

Definition run_box_call (SK_DISABLE_BLUR_ROUNDING : bool) (st : pass_state)
           (c : kernel_call) : pass_state :=
  let dst := if ps_into_tp st then ps_tp st else ps_dp st in
  match c with
  | call_boxBlur l r transpose =>
      pass_done st transpose
        (boxBlur SK_DISABLE_BLUR_ROUNDING (ps_src st) (ps_stride st) dst
           l r (ps_w st) (ps_h st) transpose)
  | call_boxBlurInterp radius transpose outer_weight =>
      pass_done st transpose
        (boxBlurInterp SK_DISABLE_BLUR_ROUNDING (ps_src st) (ps_stride st) dst
           radius (ps_w st) (ps_h st) transpose outer_weight)
  | _ => st
  end.

(** Running the calls of the table blur.  [call_build_sum_buffer] builds
    the table of the current image; a sampling call writes its output into
    [dp] and [tmpBuffer] in turn, starting with [dp], and its output, whose
    rows are [2 * rx] wider, is the image of the next pass. *)
Record table_state := {
  ts_src : list Z;
  ts_addr : Z;
  ts_rb : Z;
  ts_sw : Z;
  ts_sh : Z;
  ts_sum : list Z;
  ts_dp : list Z;
  ts_tmp : list Z;
  ts_into_dp : bool
}.

Definition sampled (addr_of : heap_block -> Z) (st : table_state) (rx : Z)
           (out : list Z) : table_state :=
  {| ts_src := out;
     ts_addr := addr_of (if ts_into_dp st then blk_dp else blk_tmpBuffer);
     ts_rb := ts_sw st + 2 * rx;
     ts_sw := ts_sw st;
     ts_sh := ts_sh st;
     ts_sum := ts_sum st;
     ts_dp := if ts_into_dp st then out else ts_dp st;
     ts_tmp := if ts_into_dp st then ts_tmp st else out;
     ts_into_dp := negb (ts_into_dp st) |}.

Definition run_table_call (UNROLL_KERNEL_LOOP : bool)
           (addr_of : heap_block -> Z) (st : table_state) (c : kernel_call)
  : table_state :=
  let dst := if ts_into_dp st then ts_dp st else ts_tmp st in
  match c with
  | call_build_sum_buffer srcW srcH =>
      {| ts_src := ts_src st; ts_addr := ts_addr st; ts_rb := ts_rb st;
         ts_sw := srcW; ts_sh := srcH;
         ts_sum := build_sum_buffer (ts_addr st) (ts_sum st) srcW srcH
                     (ts_src st) (ts_rb st);
         ts_dp := ts_dp st; ts_tmp := ts_tmp st;
         ts_into_dp := ts_into_dp st |}
  | call_apply_kernel rx ry =>
      sampled addr_of st rx
        (apply_kernel UNROLL_KERNEL_LOOP dst rx ry (ts_sum st)
           (ts_sw st) (ts_sh st))
  | call_apply_kernel_interp rx ry outerWeight =>
      sampled addr_of st rx
        (apply_kernel_interp UNROLL_KERNEL_LOOP dst rx ry (ts_sum st)
           (ts_sw st) (ts_sh st) outerWeight)
  | _ => st
  end.

(** The image a list of calls leaves, for a source [sp] of [sw] x [sh]
    pixels and the buffers the allocator hands out. *)
Definition run_passes (SK_DISABLE_BLUR_ROUNDING UNROLL_KERNEL_LOOP : bool)
           (addr_of : heap_block -> Z) (junk : heap_block -> nat -> Z)
           (src_addr : Z) (separable : bool) (sp : list Z)
           (srcRowBytes sw sh dstSize storageSize : Z)
           (calls : list kernel_call) : list Z :=
  if separable then
    ps_src (fold_left (run_box_call SK_DISABLE_BLUR_ROUNDING) calls
              {| ps_src := sp; ps_stride := srcRowBytes;
                 ps_w := sw; ps_h := sh;
                 ps_tp := fresh junk blk_tmpBuffer dstSize;
                 ps_dp := fresh junk blk_dp dstSize;
                 ps_into_tp := true |})
  else
    ts_src (fold_left (run_table_call UNROLL_KERNEL_LOOP addr_of) calls
              {| ts_src := sp; ts_addr := src_addr; ts_rb := srcRowBytes;
                 ts_sw := sw; ts_sh := sh;
                 ts_sum := fresh junk blk_storage storageSize;
                 ts_dp := fresh junk blk_dp dstSize;
                 ts_tmp := fresh junk blk_tmpBuffer dstSize;
                 ts_into_dp := true |}).

(** * Verification *)

(** ** Counted loops run their body the expected number of times *)

Section LoopFacts.
Context {S : Type}.
Implicit Types (b : S -> S) (s : S).

Lemma iter_succ_r b (n : nat) s :
  Nat.iter (Datatypes.S n) b s = Nat.iter n b (b s).
Proof. induction n; simpl in *; congruence. Qed.

Lemma iter_plus b (n m : nat) s :
  Nat.iter (n + m) b s = Nat.iter n b (Nat.iter m b s).
Proof. induction n; simpl; congruence. Qed.

Lemma x4_iter b s : x4 b s = Nat.iter 4 b s.
Proof. reflexivity. Qed.

Lemma x16_iter b s : x16 b s = Nat.iter 16 b s.
Proof. reflexivity. Qed.

(** The plain loop [for (; x < n; ++x) b]. *)
Lemma for_lt_iter b n x s :
  for_lt n 1 (fun _ => b) x s
  = (Z.max x n, Nat.iter (Z.to_nat (n - x)) b s).
Proof.
  unfold for_lt.
  remember (Z.to_nat (n - x)) as fuel eqn:Hf.
  revert x s Hf.
  induction fuel as [|k IH]; intros x s Hf.
  - simpl. f_equal. lia.
  - cbn [loop].
    destruct (Z.ltb_spec x n) as [Hlt|Hge]; [|lia].
    rewrite IH by lia.
    rewrite iter_succ_r. f_equal. lia.
Qed.

(** The loop with the body written out [k] times,
    [for (; x < n - k; x += k) { b; ...; b }], runs [b] a multiple of [k]
    times and leaves the rest to the loop that follows it. *)
Lemma for_lt_unrolled (k : nat) bk b n x s :
  (0 < k)%nat ->
  (forall s, bk s = Nat.iter k b s) ->
  exists (m : nat) (x' : Z),
    for_lt (n - Z.of_nat k) (Z.of_nat k) (fun _ => bk) x s
    = (x', Nat.iter m b s)
    /\ x' = x + Z.of_nat m
    /\ (m + Z.to_nat (n - x') = Z.to_nat (n - x))%nat.
Proof.
  intros Hk Hbk. unfold for_lt.
  remember (Z.to_nat (n - Z.of_nat k - x)) as fuel eqn:Hf.
  assert (Hfuel : (Z.to_nat (n - Z.of_nat k - x) <= fuel)%nat) by lia.
  clear Hf. revert x s Hfuel.
  induction fuel as [|f IH]; intros x s Hfuel.
  - exists 0%nat, x. simpl. repeat split; lia.
  - cbn [loop].
    destruct (Z.ltb_spec x (n - Z.of_nat k)) as [Hlt|Hge].
    + destruct (IH (x + Z.of_nat k) (bk s)) as (m & x' & Heq & Hx & Hm); [lia|].
      exists (m + k)%nat, x'. split; [|split].
      * rewrite Heq, Hbk, iter_plus. reflexivity.
      * lia.
      * lia.
    + exists 0%nat, x. repeat split; lia.
Qed.

(** An unrolled loop followed by its remainder loop is the plain loop. *)
Lemma for_lt_unroll16 b n x s :
  (let '(x1, s1) := for_lt (n - 16) 16 (fun _ => x16 b) x s in
   for_lt n 1 (fun _ => b) x1 s1)
  = for_lt n 1 (fun _ => b) x s.
Proof.
  destruct (for_lt_unrolled 16 (x16 b) b n x s) as (m & x' & Heq & Hx & Hm);
    [lia | apply x16_iter |].
  change (Z.of_nat 16) with 16 in Heq. rewrite Heq.
  rewrite !for_lt_iter, <- Hm, Nat.add_comm, iter_plus.
  f_equal. lia.
Qed.

Lemma for_lt_unroll4 b n x s :
  (let '(x1, s1) := for_lt (n - 4) 4 (fun _ => x4 b) x s in
   for_lt n 1 (fun _ => b) x1 s1)
  = for_lt n 1 (fun _ => b) x s.
Proof.
  destruct (for_lt_unrolled 4 (x4 b) b n x s) as (m & x' & Heq & Hx & Hm);
    [lia | apply x4_iter |].
  change (Z.of_nat 4) with 4 in Heq. rewrite Heq.
  rewrite !for_lt_iter, <- Hm, Nat.add_comm, iter_plus.
  f_equal. lia.
Qed.

(** The same for any body [b4] that amounts to four rounds of [b]. *)
Lemma for_lt_unroll4_as b b4 n x s :
  (forall s, b4 s = Nat.iter 4 b s) ->
  (let '(x1, s1) := for_lt (n - 4) 4 (fun _ => b4) x s in
   for_lt n 1 (fun _ => b) x1 s1)
  = for_lt n 1 (fun _ => b) x s.
Proof.
  intros H4.
  destruct (for_lt_unrolled 4 b4 b n x s) as (m & x' & Heq & Hx & Hm);
    [lia | exact H4 |].
  change (Z.of_nat 4) with 4 in Heq. rewrite Heq.
  rewrite !for_lt_iter, <- Hm, Nat.add_comm, iter_plus.
  f_equal. lia.
Qed.

Lemma for_lt_iter_from body n x s :
  for_lt n 1 body x s
  = (Z.max x n, iter_from body (Z.to_nat (n - x)) x s).
Proof.
  unfold for_lt.
  remember (Z.to_nat (n - x)) as fuel eqn:Hf.
  revert x s Hf.
  induction fuel as [|k IH]; intros x s Hf.
  - simpl. f_equal. lia.
  - cbn [loop iter_from].
    destruct (Z.ltb_spec x n) as [Hlt|Hge]; [|lia].
    rewrite IH by lia. f_equal. lia.
Qed.

Lemma iter_from_snoc body (k : nat) x s :
  iter_from body (Datatypes.S k) x s
  = body (x + Z.of_nat k) (iter_from body k x s).
Proof.
  revert x s. induction k as [|k IH]; intros x s.
  - simpl. f_equal. lia.
  - change (iter_from body (Datatypes.S (Datatypes.S k)) x s)
      with (iter_from body (Datatypes.S k) (x + 1) (body x s)).
    rewrite IH. cbn [iter_from]. f_equal. lia.
Qed.
End LoopFacts.

(** ** Arithmetic modulo 2^32 *)

Lemma to_u32_idem z : to_u32 (to_u32 z) = to_u32 z.
Proof. unfold to_u32. apply Z.mod_mod. lia. Qed.

Lemma to_u32_add_l a b : to_u32 (to_u32 a + b) = to_u32 (a + b).
Proof. unfold to_u32. apply Zplus_mod_idemp_l. Qed.

Lemma to_u32_sub_l a b : to_u32 (to_u32 a - b) = to_u32 (a - b).
Proof. unfold to_u32. apply Zminus_mod_idemp_l. Qed.

Lemma to_u32_small z : 0 <= z < 2 ^ 32 -> to_u32 z = z.
Proof. intros. unfold to_u32. apply Z.mod_small. lia. Qed.

Lemma to_u32_range z : 0 <= to_u32 z < 2 ^ 32.
Proof. unfold to_u32. apply Z.mod_pos_bound. lia. Qed.

Lemma prefix_sum_same m a : prefix_sum m a a = 0.
Proof. unfold prefix_sum. rewrite Z.sub_diag. reflexivity. Qed.

Lemma prefix_sum_succ m a p :
  a <= p -> prefix_sum m a (p + 1) = prefix_sum m a p + load m p.
Proof.
  intros Hp. unfold prefix_sum.
  replace (Z.to_nat (p + 1 - a)) with (Datatypes.S (Z.to_nat (p - a))) by lia.
  cbn [sum_range]. do 2 f_equal. lia.
Qed.

(** ** The sliding window of [boxBlur] *)

Section RowFacts.
Variables (flag : bool) (src : list Z) (scale stride : Z).

Local Abbreviation ZERO := (ZERO_ITER stride).
Local Abbreviation LEFT := (LEFT_BORDER_ITER flag src scale stride).
Local Abbreviation TRIVIAL := (TRIVIAL_ITER flag scale stride).
Local Abbreviation CENTER := (CENTER_ITER flag src scale stride).
Local Abbreviation RIGHT := (RIGHT_BORDER_ITER flag src scale stride).

(** The row of [boxBlur] with every loop, unrolled or not, as an iterate
    of its macro body. *)
Lemma boxBlur_row_iter l r w so doff dst :
  boxBlur_row flag src scale stride l r w so doff dst
  = Nat.iter (Z.to_nat (l - r)) ZERO
      (Nat.iter (Z.to_nat (SkMin32 w (l + r))) RIGHT
         (Nat.iter (Z.to_nat (w - (l + r))) CENTER
            (Nat.iter (Z.to_nat (l + r - w)) TRIVIAL
               (Nat.iter (Z.to_nat (SkMin32 w (l + r))) LEFT
                  (Nat.iter (Z.to_nat (r - l)) ZERO
                     {| r_sum := 0; r_dptr := doff; r_right := so;
                        r_left := so; r_dst := dst |}))))).
Proof.
  unfold boxBlur_row.
  rewrite for_lt_iter.
  repeat match goal with
  | |- context [for_lt (?n - 16) 16 (fun _ => x16 ?b) ?x ?s] =>
      let m := fresh "m" in let x' := fresh "x'" in
      let Heq := fresh "Heq" in let Hx := fresh "Hx" in
      let Hm := fresh "Hm" in
      destruct (for_lt_unrolled 16 (x16 b) b n x s)
        as (m & x' & Heq & Hx & Hm); [lia | apply x16_iter |];
      change (Z.of_nat 16) with 16 in Heq; rewrite Heq; clear Heq;
      rewrite for_lt_iter, <- iter_plus;
      replace (Z.to_nat (n - x') + m)%nat with (Z.to_nat (n - x)) by lia;
      clear Hm Hx
  end.
  rewrite for_lt_iter.
  rewrite !Z.sub_0_r. reflexivity.
Qed.

Lemma row_inv_ZERO a st : row_inv src a st -> row_inv src a (ZERO st).
Proof. intros H. exact H. Qed.

Lemma row_inv_TRIVIAL a st : row_inv src a st -> row_inv src a (TRIVIAL st).
Proof. intros H. exact H. Qed.

Lemma row_inv_LEFT a st : row_inv src a st -> row_inv src a (LEFT st).
Proof.
  intros (Hl & Hr & Hs). unfold row_inv; cbn [r_sum r_left r_right r_dptr r_dst LEFT_BORDER_ITER CENTER_ITER RIGHT_BORDER_ITER].
  repeat split; try lia.
  rewrite prefix_sum_succ by lia. rewrite Hs, to_u32_add_l.
  f_equal. lia.
Qed.

Lemma row_inv_CENTER a st : row_inv src a st -> row_inv src a (CENTER st).
Proof.
  intros (Hl & Hr & Hs). unfold row_inv; cbn [r_sum r_left r_right r_dptr r_dst LEFT_BORDER_ITER CENTER_ITER RIGHT_BORDER_ITER].
  repeat split; try lia.
  rewrite !prefix_sum_succ by lia.
  rewrite to_u32_sub_l, Hs, <- Z.add_sub_assoc, to_u32_add_l. f_equal. lia.
Qed.

Lemma row_inv_RIGHT a st : row_inv src a st -> row_inv src a (RIGHT st).
Proof.
  intros (Hl & Hr & Hs). unfold row_inv; cbn [r_sum r_left r_right r_dptr r_dst LEFT_BORDER_ITER CENTER_ITER RIGHT_BORDER_ITER].
  repeat split; try lia.
  rewrite prefix_sum_succ by lia.
  rewrite Hs, to_u32_sub_l. f_equal. lia.
Qed.

Lemma iter_inv {S : Type} (I : S -> Prop) (b : S -> S) :
  (forall s, I s -> I (b s)) -> forall n s, I s -> I (Nat.iter n b s).
Proof. intros Hb n s Hs. induction n; simpl; auto. Qed.

Lemma iter_ZERO_moved n st : moved stride 0 0 n st (Nat.iter n ZERO st).
Proof.
  unfold moved. induction n as [|n IH]; [cbn; lia|].
  destruct IH as (? & ? & ?). rewrite Nat.iter_succ.
  cbn [r_right r_left r_dptr ZERO_ITER TRIVIAL_ITER
       LEFT_BORDER_ITER CENTER_ITER RIGHT_BORDER_ITER].
  lia.
Qed.

Lemma iter_TRIVIAL_moved n st : moved stride 0 0 n st (Nat.iter n TRIVIAL st).
Proof.
  unfold moved. induction n as [|n IH]; [cbn; lia|].
  destruct IH as (? & ? & ?). rewrite Nat.iter_succ.
  cbn [r_right r_left r_dptr ZERO_ITER TRIVIAL_ITER
       LEFT_BORDER_ITER CENTER_ITER RIGHT_BORDER_ITER].
  lia.
Qed.

Lemma iter_LEFT_moved n st : moved stride 1 0 n st (Nat.iter n LEFT st).
Proof.
  unfold moved. induction n as [|n IH]; [cbn; lia|].
  destruct IH as (? & ? & ?). rewrite Nat.iter_succ.
  cbn [r_right r_left r_dptr ZERO_ITER TRIVIAL_ITER
       LEFT_BORDER_ITER CENTER_ITER RIGHT_BORDER_ITER].
  lia.
Qed.

Lemma iter_CENTER_moved n st : moved stride 1 1 n st (Nat.iter n CENTER st).
Proof.
  unfold moved. induction n as [|n IH]; [cbn; lia|].
  destruct IH as (? & ? & ?). rewrite Nat.iter_succ.
  cbn [r_right r_left r_dptr ZERO_ITER TRIVIAL_ITER
       LEFT_BORDER_ITER CENTER_ITER RIGHT_BORDER_ITER].
  lia.
Qed.

Lemma iter_RIGHT_moved n st : moved stride 0 1 n st (Nat.iter n RIGHT st).
Proof.
  unfold moved. induction n as [|n IH]; [cbn; lia|].
  destruct IH as (? & ? & ?). rewrite Nat.iter_succ.
  cbn [r_right r_left r_dptr ZERO_ITER TRIVIAL_ITER
       LEFT_BORDER_ITER CENTER_ITER RIGHT_BORDER_ITER].
  lia.
Qed.

(** Every cell that entered the window has left it when the row ends. *)
Lemma boxBlur_row_sum_zero l r w so doff dst :
  r_sum (boxBlur_row flag src scale stride l r w so doff dst) = 0.
Proof.
  rewrite boxBlur_row_iter.
  set (st0 := {| r_sum := 0; r_dptr := doff; r_right := so;
                 r_left := so; r_dst := dst |}).
  set (s1 := Nat.iter (Z.to_nat (r - l)) ZERO st0).
  set (s2 := Nat.iter (Z.to_nat (SkMin32 w (l + r))) LEFT s1).
  set (s3 := Nat.iter (Z.to_nat (l + r - w)) TRIVIAL s2).
  set (s4 := Nat.iter (Z.to_nat (w - (l + r))) CENTER s3).
  set (s5 := Nat.iter (Z.to_nat (SkMin32 w (l + r))) RIGHT s4).
  set (s6 := Nat.iter (Z.to_nat (l - r)) ZERO s5).
  assert (I0 : row_inv src so st0).
  { unfold row_inv, st0; cbn [r_sum r_left r_right]. rewrite Z.sub_diag. repeat split; lia. }
  assert (I6 : row_inv src so s6).
  { repeat (first [ apply (iter_inv _ _ (row_inv_ZERO so))
                  | apply (iter_inv _ _ (row_inv_LEFT so))
                  | apply (iter_inv _ _ (row_inv_TRIVIAL so))
                  | apply (iter_inv _ _ (row_inv_CENTER so))
                  | apply (iter_inv _ _ (row_inv_RIGHT so)) ]).
    exact I0. }
  destruct I6 as (_ & _ & Hs). rewrite Hs.
  pose proof (iter_ZERO_moved (Z.to_nat (r - l)) st0) as (R1 & L1 & _).
  pose proof (iter_LEFT_moved (Z.to_nat (SkMin32 w (l + r))) s1) as (R2 & L2 & _).
  pose proof (iter_TRIVIAL_moved (Z.to_nat (l + r - w)) s2) as (R3 & L3 & _).
  pose proof (iter_CENTER_moved (Z.to_nat (w - (l + r))) s3) as (R4 & L4 & _).
  pose proof (iter_RIGHT_moved (Z.to_nat (SkMin32 w (l + r))) s4) as (R5 & L5 & _).
  pose proof (iter_ZERO_moved (Z.to_nat (l - r)) s5) as (R6 & L6 & _).
  fold s1 in R1, L1. fold s2 in R2, L2. fold s3 in R3, L3.
  fold s4 in R4, L4. fold s5 in R5, L5. fold s6 in R6, L6.
  assert (R0 : r_right st0 = r_left st0) by reflexivity.
  replace (r_right s6) with (r_left s6) by lia.
  rewrite Z.sub_diag. reflexivity.
Qed.
End RowFacts.

(** ** The two sliding windows of [boxBlurInterp] *)

Section InterpRowFacts.
Variables (flag : bool) (src : list Z) (oscale iscale stride : Z).

Local Abbreviation ILEFT := (INTERP_LEFT_BORDER_ITER flag src oscale iscale stride).
Local Abbreviation ITRIVIAL := (INTERP_TRIVIAL_ITER flag oscale iscale stride).
Local Abbreviation ICENTER := (INTERP_CENTER_ITER flag src oscale iscale stride).
Local Abbreviation IRIGHT := (INTERP_RIGHT_BORDER_ITER flag src oscale iscale stride).

Lemma boxBlurInterp_row_iter radius w so doff dst :
  boxBlurInterp_row flag src oscale iscale stride radius w so doff dst
  = Nat.iter (Z.to_nat (SkMin32 w (radius * 2))) IRIGHT
      (Nat.iter (Z.to_nat (w - radius * 2)) ICENTER
         (Nat.iter (Z.to_nat (radius * 2 - w)) ITRIVIAL
            (Nat.iter (Z.to_nat (SkMin32 w (radius * 2))) ILEFT
               {| i_outer_sum := 0; i_inner_sum := 0; i_dptr := doff;
                  i_right := so; i_left := so; i_dst := dst |}))).
Proof.
  unfold boxBlurInterp_row.
  repeat match goal with
  | |- context [for_lt (?n - 16) 16 (fun _ => x16 ?b) ?x ?s] =>
      let m := fresh "m" in let x' := fresh "x'" in
      let Heq := fresh "Heq" in let Hx := fresh "Hx" in
      let Hm := fresh "Hm" in
      destruct (for_lt_unrolled 16 (x16 b) b n x s)
        as (m & x' & Heq & Hx & Hm); [lia | apply x16_iter |];
      change (Z.of_nat 16) with 16 in Heq; rewrite Heq; clear Heq;
      rewrite for_lt_iter, <- iter_plus;
      replace (Z.to_nat (n - x') + m)%nat with (Z.to_nat (n - x)) by lia;
      clear Hm Hx
  | |- context [for_lt ?n 1 (fun _ => ?b) ?x ?s] =>
      rewrite (for_lt_iter b n x s)
  end.
  rewrite !Z.sub_0_r. reflexivity.
Qed.

Lemma interp_inv_LEFT a st : interp_inv src a st -> interp_inv src a (ILEFT st).
Proof.
  intros (Hl & Hr & Hs). unfold interp_inv.
  cbn [i_outer_sum i_left i_right INTERP_LEFT_BORDER_ITER].
  repeat split; try lia.
  rewrite prefix_sum_succ by lia. rewrite Hs, to_u32_add_l.
  f_equal. lia.
Qed.

Lemma interp_inv_TRIVIAL a st :
  interp_inv src a st -> interp_inv src a (ITRIVIAL st).
Proof. intros H. exact H. Qed.

Lemma interp_inv_CENTER a st :
  interp_inv src a st -> interp_inv src a (ICENTER st).
Proof.
  intros (Hl & Hr & Hs). unfold interp_inv.
  cbn [i_outer_sum i_left i_right INTERP_CENTER_ITER].
  repeat split; try lia.
  rewrite !prefix_sum_succ by lia.
  rewrite to_u32_sub_l, Hs, <- Z.add_sub_assoc, to_u32_add_l. f_equal. lia.
Qed.

Lemma interp_inv_RIGHT a st :
  interp_inv src a st -> interp_inv src a (IRIGHT st).
Proof.
  intros (Hl & Hr & Hs). unfold interp_inv.
  cbn [i_outer_sum i_left i_right INTERP_RIGHT_BORDER_ITER].
  repeat split; try lia.
  rewrite prefix_sum_succ by lia.
  rewrite Hs, to_u32_sub_l. f_equal. lia.
Qed.

Ltac interp_moved_tac :=
  let n := fresh "n" in let IH := fresh "IH" in
  unfold interp_moved; intros n; induction n as [|n IH]; intros;
  [ cbn; lia
  | destruct IH as (? & ? & ?); rewrite Nat.iter_succ;
    cbn [i_right i_left i_dptr INTERP_LEFT_BORDER_ITER INTERP_TRIVIAL_ITER
         INTERP_CENTER_ITER INTERP_RIGHT_BORDER_ITER];
    lia ].

Lemma iter_ILEFT_moved st n : interp_moved stride 1 0 n st (Nat.iter n ILEFT st).
Proof. revert n. interp_moved_tac. Qed.

Lemma iter_ITRIVIAL_moved st n :
  interp_moved stride 0 0 n st (Nat.iter n ITRIVIAL st).
Proof. revert n. interp_moved_tac. Qed.

Lemma iter_ICENTER_moved st n :
  interp_moved stride 1 1 n st (Nat.iter n ICENTER st).
Proof. revert n. interp_moved_tac. Qed.

Lemma iter_IRIGHT_moved st n :
  interp_moved stride 0 1 n st (Nat.iter n IRIGHT st).
Proof. revert n. interp_moved_tac. Qed.

(** The right border leaves the two sums equal. *)
Lemma iter_IRIGHT_inner n st :
  (0 < n)%nat ->
  i_inner_sum (Nat.iter n IRIGHT st) = i_outer_sum (Nat.iter n IRIGHT st).
Proof.
  destruct n as [|n]; [lia|]. intros _.
  rewrite Nat.iter_succ. reflexivity.
Qed.

Lemma iter_ITRIVIAL_inner n st :
  i_inner_sum (Nat.iter n ITRIVIAL st) = i_inner_sum st.
Proof. induction n as [|n IH]; [reflexivity|]. rewrite Nat.iter_succ. exact IH. Qed.

Lemma boxBlurInterp_row_outer_zero radius w so doff dst :
  i_outer_sum
    (boxBlurInterp_row flag src oscale iscale stride radius w so doff dst) = 0.
Proof.
  rewrite boxBlurInterp_row_iter.
  set (st0 := {| i_outer_sum := 0; i_inner_sum := 0; i_dptr := doff;
                 i_right := so; i_left := so; i_dst := dst |}).
  set (s1 := Nat.iter (Z.to_nat (SkMin32 w (radius * 2))) ILEFT st0).
  set (s2 := Nat.iter (Z.to_nat (radius * 2 - w)) ITRIVIAL s1).
  set (s3 := Nat.iter (Z.to_nat (w - radius * 2)) ICENTER s2).
  set (s4 := Nat.iter (Z.to_nat (SkMin32 w (radius * 2))) IRIGHT s3).
  assert (I0 : interp_inv src so st0).
  { unfold interp_inv, st0; cbn [i_outer_sum i_left i_right].
    rewrite Z.sub_diag. repeat split; lia. }
  assert (I4 : interp_inv src so s4).
  { repeat (first [ apply (iter_inv _ _ (interp_inv_LEFT so))
                  | apply (iter_inv _ _ (interp_inv_TRIVIAL so))
                  | apply (iter_inv _ _ (interp_inv_CENTER so))
                  | apply (iter_inv _ _ (interp_inv_RIGHT so)) ]).
    exact I0. }
  destruct I4 as (_ & _ & Hs). rewrite Hs.
  pose proof (iter_ILEFT_moved st0 (Z.to_nat (SkMin32 w (radius * 2)))) as (R1 & L1 & _).
  pose proof (iter_ITRIVIAL_moved s1 (Z.to_nat (radius * 2 - w))) as (R2 & L2 & _).
  pose proof (iter_ICENTER_moved s2 (Z.to_nat (w - radius * 2))) as (R3 & L3 & _).
  pose proof (iter_IRIGHT_moved s3 (Z.to_nat (SkMin32 w (radius * 2)))) as (R4 & L4 & _).
  fold s1 in R1, L1. fold s2 in R2, L2. fold s3 in R3, L3. fold s4 in R4, L4.
  assert (R0 : i_right st0 = i_left st0) by reflexivity.
  replace (i_right s4) with (i_left s4) by lia.
  rewrite Z.sub_diag. reflexivity.
Qed.

(** For a radius of at least 1 the inner sum ends at zero as well: either
    the right border ran and copied the outer sum, or no loop that touches
    the sums ran at all. *)
Lemma boxBlurInterp_row_inner_zero radius w so doff dst :
  1 <= radius ->
  i_inner_sum
    (boxBlurInterp_row flag src oscale iscale stride radius w so doff dst) = 0.
Proof.
  intros Hr.
  destruct (Z.lt_ge_cases 0 (SkMin32 w (radius * 2))) as [Hb|Hb].
  - pose proof (boxBlurInterp_row_outer_zero radius w so doff dst) as Ho.
    rewrite boxBlurInterp_row_iter in *.
    rewrite iter_IRIGHT_inner by lia. exact Ho.
  - rewrite boxBlurInterp_row_iter.
    assert (Hw : w <= 0) by (unfold SkMin32 in Hb; destruct (Z.ltb_spec (radius * 2) w); lia).
    replace (Z.to_nat (SkMin32 w (radius * 2))) with 0%nat by lia.
    replace (Z.to_nat (w - radius * 2)) with 0%nat by lia.
    cbn [Nat.iter nat_rect].
    rewrite iter_ITRIVIAL_inner. reflexivity.
Qed.
End InterpRowFacts.

(** ** The end-of-row assertions of the two kernels *)

Lemma iter_from_asserts {A : Type} (row : Z -> A -> A) (chk : Z -> A -> bool)
      (k : nat) (x : Z) (d : A) :
  (forall y d, chk y d = true) ->
  snd (iter_from (fun y '(d, ok) => (row y d, ok && chk y d)) k x (d, true))
  = true.
Proof.
  intros Hchk. revert x d.
  induction k as [|k IH]; intros x d; [reflexivity|].
  cbn [iter_from]. rewrite Hchk. cbn [andb]. apply IH.
Qed.

Lemma for_lt_asserts {A : Type} (row : Z -> A -> A) (chk : Z -> A -> bool)
      (n x : Z) (d : A) :
  (forall y d, chk y d = true) ->
  snd (snd (for_lt n 1 (fun y '(d, ok) => (row y d, ok && chk y d)) x (d, true)))
  = true.
Proof.
  intros Hchk. rewrite for_lt_iter_from. cbn [snd].
  apply iter_from_asserts, Hchk.
Qed.

Lemma boxBlur_asserts_hold flag src src_y_stride dst l r width height transpose :
  out_asserts (boxBlur flag src src_y_stride dst l r width height transpose)
  = true.
Proof.
  unfold boxBlur.
  match goal with
  | |- context [for_lt ?n 1 ?body ?x (dst, true)] =>
      assert (H : snd (snd (for_lt n 1 body x (dst, true))) = true);
      [ | destruct (for_lt n 1 body x (dst, true)) as [x' [d' ok']]; exact H ]
  end.
  apply (for_lt_asserts
    (fun y d => r_dst (boxBlur_row flag src
       (to_u32 (Z.quot (Z.shiftl 1 24) (l + r + 1)))
       (if transpose then height else 1) l r width
       (y * src_y_stride)
       (y * (if transpose then 1 else width + SkMax32 l r * 2)) d))
    (fun y d => r_sum (boxBlur_row flag src
       (to_u32 (Z.quot (Z.shiftl 1 24) (l + r + 1)))
       (if transpose then height else 1) l r width
       (y * src_y_stride)
       (y * (if transpose then 1 else width + SkMax32 l r * 2)) d) =? 0)).
  intros y d. rewrite boxBlur_row_sum_zero. reflexivity.
Qed.

Lemma boxBlurInterp_asserts_hold flag src src_y_stride dst radius width height
      transpose outer_weight :
  1 <= radius ->
  out_asserts (boxBlurInterp flag src src_y_stride dst radius width height
                 transpose outer_weight) = true.
Proof.
  intros Hr.
  unfold boxBlurInterp.
  match goal with
  | |- context [for_lt ?n 1 ?body ?x (dst, true)] =>
      assert (H : snd (snd (for_lt n 1 body x (dst, true))) = true);
      [ | destruct (for_lt n 1 body x (dst, true)) as [x' [d' ok']]; exact H ]
  end.
  match goal with
  | |- context [for_lt _ 1 (fun y '(dst, ok) => (i_dst (@?row y dst), _))] =>
      apply (for_lt_asserts
        (fun y d => i_dst (row y d))
        (fun y d => (i_outer_sum (row y d) =? 0) && (i_inner_sum (row y d) =? 0)))
  end.
  intros y d. cbv beta.
  rewrite boxBlurInterp_row_outer_zero, boxBlurInterp_row_inner_zero by lia.
  reflexivity.
Qed.

(** ** Memory facts *)

Lemma load_store_eq m p v :
  0 <= p < Z.of_nat (length m) -> load (store m p v) p = v.
Proof.
  intros Hp. unfold load, store.
  destruct (Z.ltb_spec p 0); [lia|].
  rewrite list_lookup_insert_eq by lia. reflexivity.
Qed.

Lemma load_store_ne m p q v : p <> q -> load (store m p v) q = load m q.
Proof.
  intros Hpq. unfold load, store.
  destruct (Z.ltb_spec p 0); [reflexivity|].
  destruct (Z.ltb_spec q 0); [reflexivity|].
  rewrite list_lookup_insert_ne by lia. reflexivity.
Qed.

Lemma length_store m p v : length (store m p v) = length m.
Proof. unfold store. destruct (p <? 0); [reflexivity | apply length_insert]. Qed.

Lemma length_write_strided vs : forall dst p stride,
  length (write_strided dst p stride vs) = length dst.
Proof.
  induction vs as [|v vs IH]; intros dst p stride; cbn [write_strided].
  - reflexivity.
  - rewrite IH. apply length_store.
Qed.

Lemma write_strided_app vs1 : forall vs2 dst p stride,
  write_strided dst p stride (vs1 ++ vs2)
  = write_strided (write_strided dst p stride vs1)
      (p + stride * Z.of_nat (length vs1)) stride vs2.
Proof.
  induction vs1 as [|v vs1 IH]; intros vs2 dst p stride.
  - cbn. f_equal. lia.
  - cbn [app write_strided length]. rewrite IH. f_equal. lia.
Qed.

Lemma load_write_strided_frame vs : forall dst p stride q,
  (forall i, (i < length vs)%nat -> q <> p + stride * Z.of_nat i) ->
  load (write_strided dst p stride vs) q = load dst q.
Proof.
  induction vs as [|v vs IH]; intros dst p stride q Hq; cbn [write_strided].
  - reflexivity.
  - rewrite IH.
    + apply load_store_ne. specialize (Hq 0%nat). cbn [length] in Hq. lia.
    + intros i Hi. specialize (Hq (Datatypes.S i)). cbn [length] in Hq. lia.
Qed.

Lemma load_write_strided_hit vs : forall dst p stride (i : nat),
  1 <= stride -> 0 <= p ->
  (i < length vs)%nat ->
  p + stride * Z.of_nat i < Z.of_nat (length dst) ->
  load (write_strided dst p stride vs) (p + stride * Z.of_nat i) = nth i vs 0.
Proof.
  induction vs as [|v vs IH]; intros dst p stride i Hs Hp Hi Hlen;
    cbn [length] in Hi; [lia|].
  cbn [write_strided].
  destruct i as [|i].
  - rewrite load_write_strided_frame.
    + replace (p + stride * Z.of_nat 0) with p by lia.
      apply load_store_eq. lia.
    + intros j _. nia.
  - replace (p + stride * Z.of_nat (Datatypes.S i))
      with (p + stride + stride * Z.of_nat i) by lia.
    cbn [nth]. apply IH; try lia.
    rewrite length_store. nia.
Qed.

Lemma emitted_length {S : Type} (b : S -> S) v n s :
  length (emitted b v n s) = n.
Proof. unfold emitted. rewrite length_map. apply length_seq. Qed.

Lemma nth_map_seq (f : nat -> Z) (n : nat) : forall (a i : nat),
  (i < n)%nat -> nth i (map f (seq a n)) 0 = f (a + i)%nat.
Proof.
  induction n as [|n IH]; intros a i Hi; [lia|].
  cbn [seq map]. destruct i as [|i]; cbn [nth].
  - f_equal. lia.
  - rewrite IH by lia. f_equal. lia.
Qed.

Lemma emitted_nth {S : Type} (b : S -> S) v n s (i : nat) :
  (i < n)%nat -> nth i (emitted b v n s) 0 = v (Nat.iter i b s).
Proof.
  intros Hi. unfold emitted.
  rewrite (nth_map_seq (fun i => v (Nat.iter i b s))) by lia.
  reflexivity.
Qed.

Lemma emitted_succ {S : Type} (b : S -> S) v n s :
  emitted b v (Datatypes.S n) s = emitted b v n s ++ [v (Nat.iter n b s)].
Proof.
  unfold emitted. rewrite seq_S, map_app. reflexivity.
Qed.

(** ** What a loop that stores one cell per round writes *)

Section Emit.
(** A loop state with a destination buffer [buf] and a pointer [ptr] into
    it; a body [b] that stores [v] at the pointer and advances it by
    [stride]. *)
Context {S : Type}.
Variables (ptr : S -> Z) (buf : S -> list Z).
Variables (stride : Z) (b : S -> S) (v : S -> Z).
Hypothesis Hptr : forall st, ptr (b st) = ptr st + stride.
Hypothesis Hbuf : forall st, buf (b st) = store (buf st) (ptr st) (v st).

Lemma iter_dptr n st :
  ptr (Nat.iter n b st) = ptr st + stride * Z.of_nat n.
Proof.
  induction n as [|n IH]; [cbn; lia|].
  rewrite Nat.iter_succ, Hptr, IH. lia.
Qed.

Lemma iter_emitted n st :
  buf (Nat.iter n b st)
  = write_strided (buf st) (ptr st) stride (emitted b v n st).
Proof.
  induction n as [|n IH]; [reflexivity|].
  rewrite Nat.iter_succ, Hbuf, IH, iter_dptr, emitted_succ.
  rewrite write_strided_app, emitted_length. reflexivity.
Qed.

(** The loop continues a row that already holds [vs]. *)
Lemma iter_emit_after dst doff n st vs :
  buf st = write_strided dst doff stride vs ->
  ptr st = doff + stride * Z.of_nat (length vs) ->
  buf (Nat.iter n b st)
  = write_strided dst doff stride (vs ++ emitted b v n st)
  /\ ptr (Nat.iter n b st)
    = doff + stride * Z.of_nat (length (vs ++ emitted b v n st)).
Proof.
  intros Hd Hp. split.
  - rewrite iter_emitted, write_strided_app, Hd, Hp. reflexivity.
  - rewrite iter_dptr, Hp, length_app, emitted_length. lia.
Qed.
End Emit.

(** ** Sums of bytes *)

Lemma load_byte m p : bytes m -> 0 <= load m p <= 255.
Proof.
  intros Hm. unfold load.
  destruct (p <? 0); [lia|].
  destruct (m !! Z.to_nat p) as [b|] eqn:E; cbn; [|lia].
  unfold bytes in Hm. rewrite Forall_forall in Hm.
  apply Hm. eapply list_elem_of_lookup_2. exact E.
Qed.

Lemma sum_range_bound m p n :
  bytes m -> 0 <= sum_range m p n <= 255 * Z.of_nat n.
Proof.
  intros Hm. induction n as [|n IH]; cbn [sum_range]; [lia|].
  pose proof (load_byte m (p + Z.of_nat n) Hm). lia.
Qed.

Lemma sum_range_app m p (n k : nat) :
  sum_range m p (n + k) = sum_range m p n + sum_range m (p + Z.of_nat n) k.
Proof.
  induction k as [|k IH].
  - rewrite Nat.add_0_r. cbn. lia.
  - replace (n + Datatypes.S k)%nat with (Datatypes.S (n + k)) by lia.
    cbn [sum_range]. rewrite IH. replace (p + Z.of_nat (n + k)) with (p + Z.of_nat n + Z.of_nat k) by lia.
    lia.
Qed.

Lemma prefix_sum_diff m a l r :
  a <= l <= r ->
  prefix_sum m a r - prefix_sum m a l = sum_range m l (Z.to_nat (r - l)).
Proof.
  intros H. unfold prefix_sum.
  replace (Z.to_nat (r - a)) with (Z.to_nat (l - a) + Z.to_nat (r - l))%nat by lia.
  rewrite sum_range_app. replace (a + Z.of_nat (Z.to_nat (l - a))) with l by lia.
  lia.
Qed.

(** ** The fixed-point average does not overflow *)

Lemma blur_half_range flag : 0 <= blur_half flag <= 2 ^ 23.
Proof.
  unfold blur_half. destruct flag; [lia|].
  change (Z.shiftl 1 23) with (2 ^ 23). lia.
Qed.

Lemma scale_range ks : 1 <= ks -> 0 <= 2 ^ 24 / ks <= 2 ^ 24 /\ ks * (2 ^ 24 / ks) <= 2 ^ 24.
Proof.
  intros Hks. split.
  - split; [apply Z.div_pos; lia|].
    apply Z.div_le_upper_bound; nia.
  - apply Z.mul_div_le. lia.
Qed.

Lemma blur_px_exact flag ks S :
  1 <= ks -> 0 <= S <= 255 * ks ->
  blur_px flag (to_u32 (Z.quot (Z.shiftl 1 24) ks)) (to_u32 S)
  = box_average flag ks S.
Proof.
  intros Hks HS. unfold blur_px, box_average.
  change (Z.shiftl 1 24) with (2 ^ 24).
  rewrite Z.quot_div_nonneg by lia.
  destruct (scale_range ks Hks) as [[Hsc0 Hsc1] Hmul].
  pose proof (blur_half_range flag) as Hh.
  set (sc := 2 ^ 24 / ks) in *.
  rewrite (to_u32_small sc) by lia.
  assert (Hprod : to_u32 S * sc = S * sc /\ 0 <= S * sc <= 255 * 2 ^ 24).
  { destruct (Z.eq_dec sc 0) as [-> | Hnz].
    - rewrite !Z.mul_0_r. lia.
    - assert (ks <= 2 ^ 24).
      { destruct (Z.le_gt_cases ks (2 ^ 24)) as [|Hgt]; [assumption|].
        exfalso. apply Hnz. unfold sc. apply Z.div_small. lia. }
      rewrite to_u32_small by lia. split; [reflexivity|]. nia. }
  destruct Hprod as [-> Hp].
  rewrite to_u32_small by lia.
  rewrite Z.shiftr_div_pow2 by lia.
  unfold to_u8. apply Z.mod_small.
  split; [apply Z.div_pos; lia|].
  apply Z.div_lt_upper_bound; lia.
Qed.

(** ** One row of [boxBlur], column by column *)

Section RowValues.
Variables (flag : bool) (src : list Z) (stride : Z).
Variables (l r w so doff : Z) (dst : list Z).
Hypotheses (Hl : 0 <= l) (Hr : 0 <= r) (Hw : 0 <= w) (Hsrc : bytes src).

Let d := l + r.
Let scale := to_u32 (Z.quot (Z.shiftl 1 24) (d + 1)).

Local Abbreviation ZERO := (ZERO_ITER stride).
Local Abbreviation LEFT := (LEFT_BORDER_ITER flag src scale stride).
Local Abbreviation TRIVIAL := (TRIVIAL_ITER flag scale stride).
Local Abbreviation CENTER := (CENTER_ITER flag src scale stride).
Local Abbreviation RIGHT := (RIGHT_BORDER_ITER flag src scale stride).
Local Abbreviation vLEFT := (LEFT_BORDER_value flag src scale).
Local Abbreviation vTRIVIAL := (TRIVIAL_value flag scale).
Local Abbreviation at_ := (window_at src so).

Let c0 := Z.to_nat (r - l).
Let c1 := Z.to_nat (SkMin32 w d).
Let c2 := Z.to_nat (d - w).
Let c3 := Z.to_nat (w - d).
Let c5 := Z.to_nat (l - r).

Let s0 := {| r_sum := 0; r_dptr := doff; r_right := so; r_left := so;
             r_dst := dst |}.
Let s1 := Nat.iter c0 ZERO s0.
Let s2 := Nat.iter c1 LEFT s1.
Let s3 := Nat.iter c2 TRIVIAL s2.
Let s4 := Nat.iter c3 CENTER s3.
Let s5 := Nat.iter c1 RIGHT s4.
Let s6 := Nat.iter c5 ZERO s5.

Lemma boxBlur_row_s6 :
  boxBlur_row flag src scale stride l r w so doff dst = s6.
Proof. apply boxBlur_row_iter. Qed.

(** *** Where the window stands *)

Lemma at_iter_ZERO n st L R : at_ st L R -> at_ (Nat.iter n ZERO st) L R.
Proof.
  intros (I & HL & HR).
  pose proof (iter_ZERO_moved stride n st) as (R1 & L1 & _).
  split; [apply iter_inv; [apply row_inv_ZERO | exact I] | lia].
Qed.

Lemma at_iter_TRIVIAL n st L R : at_ st L R -> at_ (Nat.iter n TRIVIAL st) L R.
Proof.
  intros (I & HL & HR).
  pose proof (iter_TRIVIAL_moved flag scale stride n st) as (R1 & L1 & _).
  split; [apply iter_inv; [apply row_inv_TRIVIAL | exact I] | lia].
Qed.

Lemma at_iter_LEFT n st L R :
  at_ st L R -> at_ (Nat.iter n LEFT st) L (R + Z.of_nat n).
Proof.
  intros (I & HL & HR).
  pose proof (iter_LEFT_moved flag src scale stride n st) as (R1 & L1 & _).
  split; [apply iter_inv; [apply row_inv_LEFT | exact I] | lia].
Qed.

Lemma at_iter_CENTER n st L R :
  at_ st L R -> at_ (Nat.iter n CENTER st) (L + Z.of_nat n) (R + Z.of_nat n).
Proof.
  intros (I & HL & HR).
  pose proof (iter_CENTER_moved flag src scale stride n st) as (R1 & L1 & _).
  split; [apply iter_inv; [apply row_inv_CENTER | exact I] | lia].
Qed.

Lemma at_iter_RIGHT n st L R :
  at_ st L R -> at_ (Nat.iter n RIGHT st) (L + Z.of_nat n) R.
Proof.
  intros (I & HL & HR).
  pose proof (iter_RIGHT_moved flag src scale stride n st) as (R1 & L1 & _).
  split; [apply iter_inv; [apply row_inv_RIGHT | exact I] | lia].
Qed.

Lemma at_sum st L R :
  at_ st L R -> so <= L <= R ->
  r_sum st = to_u32 (sum_range src L (Z.to_nat (R - L))).
Proof.
  intros ((_ & _ & Hs) & HL & HR) H. subst L R.
  rewrite Hs, prefix_sum_diff by lia. reflexivity.
Qed.

Lemma at_s0 : at_ s0 so so.
Proof.
  unfold window_at, row_inv, s0; cbn [r_sum r_left r_right].
  rewrite Z.sub_diag. repeat split; lia.
Qed.

Lemma at_s1 : at_ s1 so so.
Proof. apply at_iter_ZERO, at_s0. Qed.

Lemma at_s2 : at_ s2 so (so + Z.of_nat c1).
Proof. apply at_iter_LEFT, at_s1. Qed.

Lemma at_s3 : at_ s3 so (so + Z.of_nat c1).
Proof. apply at_iter_TRIVIAL, at_s2. Qed.

Lemma at_s4 : at_ s4 (so + Z.of_nat c3) (so + Z.of_nat c1 + Z.of_nat c3).
Proof. apply at_iter_CENTER, at_s3. Qed.

(** *** The values of the four averaging loops *)

Lemma sum_step st L R :
  at_ st L R -> so <= L <= R ->
  to_u32 (r_sum st + load src (r_right st))
  = to_u32 (sum_range src L (Z.to_nat (R - L) + 1)).
Proof.
  intros Hat H. rewrite (at_sum st L R Hat H), to_u32_add_l.
  destruct Hat as (_ & _ & HR). rewrite HR.
  rewrite sum_range_app. cbn [sum_range].
  do 2 f_equal. replace (L + Z.of_nat (Z.to_nat (R - L)) + Z.of_nat 0) with R by lia.
  lia.
Qed.

Lemma c1_le_d : Z.of_nat c1 <= d /\ Z.of_nat c1 <= w.
Proof.
  unfold c1, SkMin32, d in *. destruct (Z.ltb_spec (l + r) w); lia.
Qed.

Lemma value_LEFT (i : nat) :
  (i < c1)%nat ->
  vLEFT (Nat.iter i LEFT s1)
  = box_average flag (d + 1) (sum_range src so (i + 1)).
Proof.
  intros Hi. unfold LEFT_BORDER_value.
  pose proof c1_le_d.
  rewrite (sum_step _ so (so + Z.of_nat i)) by (try apply at_iter_LEFT, at_s1; lia).
  replace (Z.to_nat (so + Z.of_nat i - so) + 1)%nat with (i + 1)%nat by lia.
  apply blur_px_exact; [unfold d; lia|].
  pose proof (sum_range_bound src so (i + 1) Hsrc). lia.
Qed.

Lemma value_TRIVIAL (i : nat) :
  vTRIVIAL (Nat.iter i TRIVIAL s2)
  = box_average flag (d + 1) (sum_range src so c1).
Proof.
  unfold TRIVIAL_value.
  pose proof c1_le_d.
  rewrite (at_sum _ so (so + Z.of_nat c1)) by (try apply at_iter_TRIVIAL, at_s2; lia).
  replace (Z.to_nat (so + Z.of_nat c1 - so)) with c1 by lia.
  apply blur_px_exact; [unfold d; lia|].
  pose proof (sum_range_bound src so c1 Hsrc). lia.
Qed.

Lemma value_CENTER (i : nat) :
  vLEFT (Nat.iter i CENTER s3)
  = box_average flag (d + 1) (sum_range src (so + Z.of_nat i) (c1 + 1)).
Proof.
  unfold LEFT_BORDER_value.
  pose proof c1_le_d.
  rewrite (sum_step _ (so + Z.of_nat i) (so + Z.of_nat c1 + Z.of_nat i))
    by (try apply at_iter_CENTER, at_s3; lia).
  replace (Z.to_nat (so + Z.of_nat c1 + Z.of_nat i - (so + Z.of_nat i)) + 1)%nat
    with (c1 + 1)%nat by lia.
  apply blur_px_exact; [unfold d; lia|].
  pose proof (sum_range_bound src (so + Z.of_nat i) (c1 + 1) Hsrc). lia.
Qed.

Lemma value_RIGHT (i : nat) :
  (i <= c1)%nat ->
  vTRIVIAL (Nat.iter i RIGHT s4)
  = box_average flag (d + 1)
      (sum_range src (so + Z.of_nat c3 + Z.of_nat i) (c1 - i)).
Proof.
  intros Hi. unfold TRIVIAL_value.
  pose proof c1_le_d.
  rewrite (at_sum _ (so + Z.of_nat c3 + Z.of_nat i)
             (so + Z.of_nat c1 + Z.of_nat c3))
    by (try apply at_iter_RIGHT, at_s4; lia).
  replace (Z.to_nat (so + Z.of_nat c1 + Z.of_nat c3
                     - (so + Z.of_nat c3 + Z.of_nat i)))
    with (c1 - i)%nat by lia.
  apply blur_px_exact; [unfold d; lia|].
  pose proof (sum_range_bound src (so + Z.of_nat c3 + Z.of_nat i) (c1 - i) Hsrc).
  lia.
Qed.

(** *** The row as the list of values it stores *)

Let vals : list Z :=
  ((((emitted ZERO ZERO_value c0 s0
      ++ emitted LEFT vLEFT c1 s1)
     ++ emitted TRIVIAL vTRIVIAL c2 s2)
    ++ emitted CENTER vLEFT c3 s3)
   ++ emitted RIGHT vTRIVIAL c1 s4)
  ++ emitted ZERO ZERO_value c5 s5.

Lemma row_dst :
  r_dst s6 = write_strided dst doff stride vals.
Proof.
  assert (H1 : r_dst s1 = write_strided dst doff stride
                 (emitted ZERO ZERO_value c0 s0)
               /\ r_dptr s1 = doff + stride * Z.of_nat
                 (length (emitted ZERO ZERO_value c0 s0))).
  { split.
    - apply (iter_emitted r_dptr r_dst stride ZERO ZERO_value); reflexivity.
    - rewrite emitted_length.
      apply (iter_dptr r_dptr stride ZERO); reflexivity. }
  destruct H1 as [D1 P1].
  destruct (iter_emit_after r_dptr r_dst stride LEFT vLEFT
              ltac:(reflexivity) ltac:(reflexivity) dst doff c1 s1 _ D1 P1)
    as [D2 P2].
  destruct (iter_emit_after r_dptr r_dst stride TRIVIAL vTRIVIAL
              ltac:(reflexivity) ltac:(reflexivity) dst doff c2 s2 _ D2 P2)
    as [D3 P3].
  destruct (iter_emit_after r_dptr r_dst stride CENTER vLEFT
              ltac:(reflexivity) ltac:(reflexivity) dst doff c3 s3 _ D3 P3)
    as [D4 P4].
  destruct (iter_emit_after r_dptr r_dst stride RIGHT vTRIVIAL
              ltac:(reflexivity) ltac:(reflexivity) dst doff c1 s4 _ D4 P4)
    as [D5 P5].
  destruct (iter_emit_after r_dptr r_dst stride ZERO ZERO_value
              ltac:(reflexivity) ltac:(reflexivity) dst doff c5 s5 _ D5 P5)
    as [D6 P6].
  exact D6.
Qed.

Lemma counts :
  Z.of_nat c0 = Z.max 0 (r - l) /\ Z.of_nat c1 = Z.min w d /\
  Z.of_nat c2 = Z.max 0 (d - w) /\ Z.of_nat c3 = Z.max 0 (w - d) /\
  Z.of_nat c5 = Z.max 0 (l - r).
Proof.
  unfold c0, c1, c2, c3, c5, SkMin32.
  destruct (Z.ltb_spec d w); lia.
Qed.

Lemma vals_length : Z.of_nat (length vals) = w + 2 * Z.max l r.
Proof.
  unfold vals. rewrite !length_app, !emitted_length.
  pose proof counts. unfold d in *. lia.
Qed.

Ltac locate :=
  unfold vals;
  repeat rewrite app_nth1 by (rewrite ?length_app, ?emitted_length; lia);
  try rewrite app_nth2 by (rewrite ?length_app, ?emitted_length; lia);
  rewrite ?length_app, ?emitted_length;
  rewrite emitted_nth by lia.

Lemma vals_nth (k : nat) :
  (k < length vals)%nat ->
  nth k vals 0 = boxBlur_column flag src so l r w (Z.of_nat k).
Proof.
  intros Hk.
  pose proof vals_length as Hlen.
  pose proof counts as (E0 & E1 & E2 & E3 & E5).
  unfold boxBlur_column. fold d.
  set (j := Z.of_nat k - Z.max 0 (r - l)).
  destruct (Nat.lt_ge_cases k c0) as [K0|K0].
  { locate. unfold ZERO_value.
    destruct (Z.ltb_spec j 0); [reflexivity | unfold j in *; lia]. }
  destruct (Nat.lt_ge_cases k (c0 + c1)) as [K1|K1].
  { locate. rewrite value_LEFT by lia.
    destruct (Z.ltb_spec j 0); [unfold j in *; lia|].
    destruct (Z.leb_spec (w + d) j); [unfold j, d in *; lia|].
    cbn [orb]. f_equal. unfold window_sum.
    replace (Z.max 0 (j - d)) with 0 by (unfold j in *; lia).
    replace (Z.min j (w - 1)) with j by (unfold j in *; lia).
    rewrite Z.add_0_r. f_equal. unfold j. lia. }
  destruct (Nat.lt_ge_cases k (c0 + c1 + c2)) as [K2|K2].
  { locate. rewrite value_TRIVIAL.
    destruct (Z.ltb_spec j 0); [unfold j in *; lia|].
    destruct (Z.leb_spec (w + d) j); [unfold j, d in *; lia|].
    cbn [orb]. f_equal. unfold window_sum.
    replace (Z.max 0 (j - d)) with 0 by (unfold j in *; lia).
    replace (Z.min j (w - 1)) with (w - 1) by (unfold j in *; lia).
    rewrite Z.add_0_r. f_equal. lia. }
  destruct (Nat.lt_ge_cases k (c0 + c1 + c2 + c3)) as [K3|K3].
  { locate. rewrite value_CENTER.
    destruct (Z.ltb_spec j 0); [unfold j in *; lia|].
    destruct (Z.leb_spec (w + d) j); [unfold j, d in *; lia|].
    cbn [orb]. f_equal. unfold window_sum.
    replace (Z.max 0 (j - d)) with (j - d) by (unfold j in *; lia).
    replace (Z.min j (w - 1)) with j by (unfold j in *; lia).
    f_equal; unfold j; lia. }
  destruct (Nat.lt_ge_cases k (c0 + c1 + c2 + c3 + c1)) as [K4|K4].
  { locate. rewrite value_RIGHT by lia.
    destruct (Z.ltb_spec j 0); [unfold j in *; lia|].
    destruct (Z.leb_spec (w + d) j); [unfold j, d in *; lia|].
    cbn [orb]. f_equal. unfold window_sum.
    replace (Z.max 0 (j - d)) with (j - d) by (unfold j in *; lia).
    replace (Z.min j (w - 1)) with (w - 1) by (unfold j in *; lia).
    f_equal; unfold j; lia. }
  locate. unfold ZERO_value.
  destruct (Z.ltb_spec j 0); [reflexivity|].
  destruct (Z.leb_spec (w + d) j); [reflexivity | unfold j, d in *; lia].
Qed.

(** The row, as the caller sees it: the cells [doff + stride * k] hold the
    columns of the filtered row, every other cell is untouched. *)
Lemma boxBlur_row_spec :
  1 <= stride -> 0 <= doff ->
  doff + stride * (w + 2 * Z.max l r - 1) < Z.of_nat (length dst) ->
  let st := boxBlur_row flag src scale stride l r w so doff dst in
  length (r_dst st) = length dst
  /\ (forall k, 0 <= k < w + 2 * Z.max l r ->
      load (r_dst st) (doff + stride * k)
      = boxBlur_column flag src so l r w k)
  /\ (forall p, (forall k, 0 <= k < w + 2 * Z.max l r -> p <> doff + stride * k) ->
      load (r_dst st) p = load dst p).
Proof.
  intros Hs Hd Hlen st. unfold st. rewrite boxBlur_row_s6, row_dst.
  pose proof vals_length as Hv.
  split; [apply length_write_strided|]. split.
  - intros k Hk.
    replace k with (Z.of_nat (Z.to_nat k)) by lia.
    rewrite load_write_strided_hit; try lia.
    + apply vals_nth. lia.
    + nia.
  - intros p Hp. apply load_write_strided_frame.
    intros i Hi. apply Hp. lia.
Qed.
End RowValues.

(** ** All the rows of [boxBlur] *)

Lemma SkMax32_max a b : SkMax32 a b = Z.max a b.
Proof. unfold SkMax32. destruct (Z.ltb_spec a b); lia. Qed.

Lemma SkMin32_min a b : SkMin32 a b = Z.min a b.
Proof. unfold SkMin32. destruct (Z.ltb_spec b a); lia. Qed.

(** Two cells of the destination coincide only for the same row. *)
Lemma boxBlur_index_row transpose nw h y k y' k' :
  0 <= y < h -> 0 <= y' < h -> 0 <= k < nw -> 0 <= k' < nw ->
  boxBlur_index transpose nw h y k = boxBlur_index transpose nw h y' k' ->
  y = y'.
Proof.
  intros Hy Hy' Hk Hk'. unfold boxBlur_index.
  destruct transpose; intros E.
  - assert (k = k') by nia. nia.
  - nia.
Qed.

Lemma boxBlur_spec flag src src_y_stride dst l r width height transpose :
  0 <= l -> 0 <= r -> 1 <= width -> 1 <= height ->
  bytes src ->
  (width + 2 * Z.max l r) * height <= Z.of_nat (length dst) ->
  let out := boxBlur flag src src_y_stride dst l r width height transpose in
  out_width out = width + 2 * Z.max l r
  /\ length (out_dst out) = length dst
  /\ forall y k,
       0 <= y < height -> 0 <= k < width + 2 * Z.max l r ->
       load (out_dst out)
            (boxBlur_index transpose (width + 2 * Z.max l r) height y k)
       = boxBlur_column flag src (y * src_y_stride) l r width k.
Proof.
  intros Hl Hr Hw Hh Hsrc Hlen.
  set (nw := width + 2 * Z.max l r) in *.
  unfold boxBlur.
  rewrite SkMax32_max. replace (width + Z.max l r * 2) with nw by (unfold nw; lia).
  match goal with
  | |- context [for_lt ?n 1 ?body ?x (dst, true)] => set (B := body)
  end.
  rewrite for_lt_iter_from. rewrite Z.sub_0_r.
  assert (Hrows : forall m : nat,
    (m <= Z.to_nat height)%nat ->
    let D := fst (iter_from B m 0 (dst, true)) in
    length D = length dst
    /\ forall y k, 0 <= y < Z.of_nat m -> 0 <= k < nw ->
         load D (boxBlur_index transpose nw height y k)
         = boxBlur_column flag src (y * src_y_stride) l r width k).
  { induction m as [|m IH]; intros Hm.
    - cbn. split; [reflexivity | intros; lia].
    - specialize (IH ltac:(lia)). cbv zeta in IH |- *.
      rewrite iter_from_snoc.
      destruct (iter_from B m 0 (dst, true)) as [D ok]. cbn [fst] in IH.
      destruct IH as [IHlen IHpx].
      unfold B at 1. cbn [fst]. rewrite Z.add_0_l.
      set (stride := if transpose then height else 1).
      set (doff := Z.of_nat m * (if transpose then 1 else nw)).
      destruct (boxBlur_row_spec flag src stride l r width
                  (Z.of_nat m * src_y_stride) doff D)
        as (Rlen & Rhit & Rframe); try assumption; try lia.
      { unfold stride. destruct transpose; lia. }
      { unfold doff. destruct transpose; nia. }
      { fold nw. rewrite IHlen. unfold doff, stride. destruct transpose; nia. }
      fold nw in Rhit, Rframe.
      split; [congruence|].
      intros y k Hy Hk.
      destruct (Z.eq_dec y (Z.of_nat m)) as [-> | Hne].
      + rewrite <- Rhit by lia. f_equal.
        unfold boxBlur_index, doff, stride. destruct transpose; lia.
      + rewrite Rframe; [apply IHpx; lia|].
        intros k' Hk' E. apply Hne.
        apply (boxBlur_index_row transpose nw height y k (Z.of_nat m) k');
          try lia.
        rewrite E. unfold boxBlur_index, doff, stride. destruct transpose; lia. }
  specialize (Hrows (Z.to_nat height) ltac:(lia)). cbv zeta in Hrows.
  destruct (iter_from B (Z.to_nat height) 0 (dst, true)) as [D ok].
  cbn [fst] in Hrows. cbn [out_width out_dst].
  destruct Hrows as [HDlen HDpx].
  split; [reflexivity|]. split; [exact HDlen|].
  intros y k Hy Hk. apply HDpx; lia.
Qed.

(** ** Loops that count down *)

Section DownLoops.
Context {S : Type}.
Implicit Types (b : S -> S) (s : S).

(** [for (; x >= lo; --x) b] *)
Lemma for_ge_iter b lo x s :
  for_ge lo 1 (fun _ => b) x s
  = (Z.min x (lo - 1), Nat.iter (Z.to_nat (x - lo + 1)) b s).
Proof.
  unfold for_ge.
  remember (Z.to_nat (x - lo + 1)) as fuel eqn:Hf.
  revert x s Hf.
  induction fuel as [|k IH]; intros x s Hf.
  - simpl. f_equal. lia.
  - cbn [loop].
    destruct (Z.leb_spec lo x) as [Hle|Hgt]; [|lia].
    rewrite IH by lia. rewrite iter_succ_r. f_equal. lia.
Qed.

(** A loop that may stop early, [for (; c(s) && x >= 0; x--) b]: it runs
    [b] some number of times, at most [x + 1]. *)
Lemma loop_down_early (c : S -> bool) b fuel x s :
  exists m : nat,
    loop fuel (fun x s => c s && (0 <=? x)) (-1) (fun _ => b) x s
    = (x - Z.of_nat m, Nat.iter m b s)
    /\ Z.of_nat m <= Z.max 0 (x + 1).
Proof.
  revert x s. induction fuel as [|k IH]; intros x s.
  - exists 0%nat. cbn. split; [f_equal; lia | lia].
  - cbn [loop].
    destruct (c s && (0 <=? x)) eqn:E.
    + apply andb_true_iff in E. destruct E as [_ E].
      apply Z.leb_le in E.
      destruct (IH (x + -1) (b s)) as (m & Heq & Hm).
      exists (Datatypes.S m). rewrite Heq, iter_succ_r.
      split; [f_equal; lia | lia].
    + exists 0%nat. cbn. split; [f_equal; lia | lia].
Qed.

(** The loop with the body written out [k] times,
    [for (; x >= k; x -= k) { b; ...; b }]. *)
Lemma for_ge_unrolled (k : nat) bk b x s :
  (0 < k)%nat ->
  (forall s, bk s = Nat.iter k b s) ->
  exists m : nat,
    for_ge (Z.of_nat k) (Z.of_nat k) (fun _ => bk) x s
    = (x - Z.of_nat m, Nat.iter m b s)
    /\ Z.of_nat m <= Z.max 0 (x + 1).
Proof.
  intros Hk Hbk. unfold for_ge.
  generalize (Z.to_nat (x - Z.of_nat k + 1)) as fuel.
  intros fuel. revert x s.
  induction fuel as [|f IH]; intros x s.
  - exists 0%nat. cbn. split; [f_equal; lia | lia].
  - cbn [loop].
    destruct (Z.leb_spec (Z.of_nat k) x) as [Hle|Hgt].
    + destruct (IH (x + - Z.of_nat k) (bk s)) as (m & Heq & Hm).
      exists (m + k)%nat. rewrite Heq, Hbk, iter_plus.
      split; [f_equal; lia | lia].
    + exists 0%nat. cbn. split; [f_equal; lia | lia].
Qed.
End DownLoops.

(** ** The rows of [build_sum_buffer] *)

Section SumRow.
Variables (src_addr : Z) (src : list Z) (sumW : Z).

(** The three loops of a row (up to the alignment boundary, four at a
    time, the rest) run the body once per source column. *)
Lemma sum_row_iter srcW srcRB st :
  sum_row src_addr src sumW srcW srcRB st
  = let st1 := Nat.iter (Z.to_nat srcW) (SUM_ITER src sumW)
                 (ZERO_COLUMN
                    {| s_sum := s_sum st; s_sp := s_sp st; s_src := s_src st;
                       s_X := s_X st; s_L := 0; s_C := 0 |}) in
    {| s_sum := s_sum st1; s_sp := s_sp st1; s_src := s_src st1 + srcRB;
       s_X := s_X st1; s_L := s_L st1; s_C := s_C st1 |}.
Proof.
  unfold sum_row.
  set (st0 := ZERO_COLUMN _).
  destruct (loop_down_early
              (fun st => negb (SkIsAlign4 (src_addr + s_src st)))
              (SUM_ITER src sumW) (Z.to_nat (srcW - 1 + 1)) (srcW - 1) st0)
    as (m1 & E1 & H1).
  rewrite E1.
  destruct (for_ge_unrolled 4 (x4 (SUM_ITER src sumW)) (SUM_ITER src sumW)
              (srcW - 1 - Z.of_nat m1)
              (Nat.iter m1 (SUM_ITER src sumW) st0))
    as (m2 & E2 & H2); [lia | apply x4_iter |].
  change (Z.of_nat 4) with 4 in E2. rewrite E2.
  rewrite for_ge_iter, <- !iter_plus.
  replace (Z.to_nat (srcW - 1 - Z.of_nat m1 - Z.of_nat m2 - 0 + 1) + m2 + m1)%nat
    with (Z.to_nat srcW) by lia.
  reflexivity.
Qed.
End SumRow.

(** The table does not depend on where the source bytes live. *)
Lemma sum_row_addr a a' src sumW srcW srcRB st :
  sum_row a src sumW srcW srcRB st = sum_row a' src sumW srcW srcRB st.
Proof. rewrite !sum_row_iter. reflexivity. Qed.

Lemma iter_sum_row_addr a a' src sumW srcW srcRB (n : nat) st :
  Nat.iter n (sum_row a src sumW srcW srcRB) st
  = Nat.iter n (sum_row a' src sumW srcW srcRB) st.
Proof.
  induction n as [|n IH]; [reflexivity|].
  rewrite !Nat.iter_succ, IH. apply sum_row_addr.
Qed.

Lemma build_sum_buffer_addr a a' sum srcW srcH src srcRB :
  build_sum_buffer a sum srcW srcH src srcRB
  = build_sum_buffer a' sum srcW srcH src srcRB.
Proof.
  unfold build_sum_buffer.
  destruct (for_ge 0 1 _ _ _) as [x st].
  rewrite !for_ge_iter.
  f_equal. apply iter_sum_row_addr.
Qed.

Lemma build_sum_buffer_iter a sum srcW srcH src srcRB :
  build_sum_buffer a sum srcW srcH src srcRB
  = let first := Nat.iter (Z.to_nat srcW) (FIRST_ROW_ITER src)
                   (ZERO_COLUMN
                      {| s_sum := memset sum 0 0 (Z.to_nat (srcW + 1));
                         s_sp := srcW + 1; s_src := 0;
                         s_X := 0; s_L := 0; s_C := 0 |}) in
    s_sum (Nat.iter (Z.to_nat (srcH - 1))
             (sum_row a src (srcW + 1) srcW (srcRB - srcW))
             {| s_sum := s_sum first; s_sp := s_sp first;
                s_src := s_src first + (srcRB - srcW);
                s_X := s_X first; s_L := s_L first; s_C := s_C first |}).
Proof.
  unfold build_sum_buffer.
  rewrite !for_ge_iter.
  replace (Z.to_nat (srcW - 1 - 0 + 1)) with (Z.to_nat srcW) by lia.
  replace (Z.to_nat (srcH - 1 - 1 + 1)) with (Z.to_nat (srcH - 1)) by lia.
  reflexivity.
Qed.

(** ** The summed-area table holds the prefix sums *)

Lemma to_u32_mix a l t c :
  to_u32 (a + to_u32 l + to_u32 t - to_u32 c) = to_u32 (a + l + t - c).
Proof.
  unfold to_u32.
  rewrite (Z.mod_eq l), (Z.mod_eq t), (Z.mod_eq c) by lia.
  replace (a + (l - 2 ^ 32 * (l / 2 ^ 32)) + (t - 2 ^ 32 * (t / 2 ^ 32))
           - (c - 2 ^ 32 * (c / 2 ^ 32)))
    with (a + l + t - c
          + (- (l / 2 ^ 32) - t / 2 ^ 32 + c / 2 ^ 32) * 2 ^ 32) by ring.
  apply Z_mod_plus_full.
Qed.

Lemma to_u32_add_r a b : to_u32 (a + to_u32 b) = to_u32 (a + b).
Proof. unfold to_u32. apply Zplus_mod_idemp_r. Qed.

Lemma rect_sum_0_l src rb h : rect_sum src rb 0 h = 0.
Proof. induction h as [|h IH]; cbn [rect_sum sum_range]; lia. Qed.

Lemma memset_write_strided m p v n :
  memset m p v n = write_strided m p 1 (repeat v n).
Proof.
  revert m p. induction n as [|n IH]; intros m p; cbn; [reflexivity|].
  apply IH.
Qed.

Lemma nth_repeat_lt (v : Z) (n i : nat) : (i < n)%nat -> nth i (repeat v n) 0 = v.
Proof.
  revert i. induction n as [|n IH]; intros i Hi; [lia|].
  destruct i; cbn; [reflexivity | apply IH; lia].
Qed.

Section SumBuffer.
Variables (a : Z) (src : list Z) (srcW srcH srcRB : Z) (sum : list Z).
Hypotheses (HW : 0 <= srcW) (HH : 1 <= srcH).
Hypothesis Hlen : (srcW + 1) * (srcH + 1) <= Z.of_nat (length sum).

Let sumW := srcW + 1.
Let rb := srcRB.
Let len := length sum.

Local Abbreviation FIRST := (FIRST_ROW_ITER src).
Local Abbreviation ITER := (SUM_ITER src sumW).

(** *** The first two rows of the table *)

Let st0 := ZERO_COLUMN
             {| s_sum := memset sum 0 0 (Z.to_nat (srcW + 1));
                s_sp := srcW + 1; s_src := 0; s_X := 0; s_L := 0; s_C := 0 |}.

Lemma first_partial_0 : first_partial len src sumW rb 0 st0.
Proof.
  unfold first_partial, st0, ZERO_COLUMN; cbn [s_sum s_sp s_src s_X].
  rewrite memset_write_strided.
  assert (Hz : forall i : nat, Z.of_nat i < sumW ->
            load (store (write_strided sum 0 1 (repeat 0 (Z.to_nat (srcW + 1))))
                        (srcW + 1) 0) (Z.of_nat i) = 0).
  { intros i Hi. rewrite load_store_ne by (unfold sumW in *; lia).
    replace (Z.of_nat i) with (0 + 1 * Z.of_nat i) by lia.
    unfold sumW in *.
    rewrite load_write_strided_hit;
      [ apply nth_repeat_lt; lia | lia | lia
      | rewrite repeat_length; lia | nia ]. }
  repeat split.
  - rewrite length_store, length_write_strided. reflexivity.
  - unfold sumW. lia.
  - intros i j Hj Hi. assert (j = 0%nat) by lia. subst j.
    cbn [rect_sum]. rewrite Z.mul_0_l, Z.add_0_l. apply Hz, Hi.
  - intros i Hi. assert (i = 0%nat) by lia. subst i.
    rewrite rect_sum_0_l. rewrite Z.add_0_r.
    apply load_store_eq.
    rewrite length_write_strided. unfold sumW in *. nia.
Qed.

Lemma first_partial_step (k : nat) st :
  Z.of_nat k < srcW ->
  first_partial len src sumW rb k st ->
  first_partial len src sumW rb (Datatypes.S k) (FIRST st).
Proof.
  intros Hk (Hl & Hsp & Hsrc & HX & Htab & Hrow).
  unfold first_partial, FIRST_ROW_ITER; cbn [s_sum s_sp s_src s_X].
  assert (Hin : 0 <= s_sp st < Z.of_nat (length (s_sum st))).
  { rewrite Hl, Hsp. unfold len, sumW in *. nia. }
  repeat split.
  - rewrite length_store. exact Hl.
  - lia.
  - lia.
  - rewrite HX, Hsrc, to_u32_add_r. f_equal. cbn [sum_range].
    rewrite Z.add_0_l. lia.
  - intros i j Hj Hi. rewrite load_store_ne; [apply Htab; assumption|].
    rewrite Hsp. unfold sumW in *. nia.
  - intros i Hi.
    destruct (Nat.eq_dec i (Datatypes.S k)) as [-> | Hne].
    + replace (sumW + Z.of_nat (Datatypes.S k)) with (s_sp st) by lia.
      rewrite load_store_eq by exact Hin.
      rewrite HX, Hsrc, to_u32_add_r. f_equal.
      cbn [rect_sum sum_range].
      change (Z.of_nat 0) with 0. rewrite Z.mul_0_l, !Z.add_0_l. lia.
    + rewrite load_store_ne by lia. apply Hrow. lia.
Qed.

Lemma first_partial_iter (k : nat) :
  Z.of_nat k <= srcW ->
  first_partial len src sumW rb k (Nat.iter k FIRST st0).
Proof.
  induction k as [|k IH]; intros Hk.
  - apply first_partial_0.
  - rewrite Nat.iter_succ. apply first_partial_step; [lia|]. apply IH. lia.
Qed.

Lemma first_row_start :
  let first := Nat.iter (Z.to_nat srcW) FIRST st0 in
  row_start len src sumW rb 1
    {| s_sum := s_sum first; s_sp := s_sp first;
       s_src := s_src first + (srcRB - srcW);
       s_X := s_X first; s_L := s_L first; s_C := s_C first |}.
Proof.
  intros first.
  destruct (first_partial_iter (Z.to_nat srcW) ltac:(lia))
    as (Hl & Hsp & Hsrc & HX & Htab & Hrow).
  fold first in Hl, Hsp, Hsrc, HX, Htab, Hrow.
  unfold row_start; cbn [s_sum s_sp s_src].
  repeat split.
  - exact Hl.
  - rewrite Hsp. unfold sumW. lia.
  - rewrite Hsrc. unfold rb. lia.
  - intros i j Hj Hi.
    destruct j as [|j].
    + apply Htab; [lia | assumption].
    + assert (j = 0%nat) by lia. subst j.
      replace (Z.of_nat 1 * sumW + Z.of_nat i) with (sumW + Z.of_nat i) by lia.
      apply Hrow. unfold sumW in *. lia.
Qed.

(** *** Every further row *)

Lemma row_partial_0 (m : nat) st :
  Z.of_nat m < srcH ->
  row_start len src sumW rb m st ->
  row_partial len src sumW rb m 0
    (ZERO_COLUMN {| s_sum := s_sum st; s_sp := s_sp st; s_src := s_src st;
                    s_X := s_X st; s_L := 0; s_C := 0 |}).
Proof.
  intros Hm (Hl & Hsp & Hsrc & Htab).
  unfold row_partial, ZERO_COLUMN; cbn [s_sum s_sp s_src s_L s_C].
  repeat split.
  - rewrite length_store. exact Hl.
  - lia.
  - lia.
  - rewrite rect_sum_0_l. reflexivity.
  - rewrite rect_sum_0_l. reflexivity.
  - intros i j Hj Hi. rewrite load_store_ne; [apply Htab; assumption|].
    rewrite Hsp. unfold sumW in *. nia.
  - intros i Hi. assert (i = 0%nat) by lia. subst i.
    rewrite rect_sum_0_l, Z.add_0_r, <- Hsp.
    apply load_store_eq. rewrite Hl, Hsp. unfold len, sumW in *. nia.
Qed.

Lemma row_partial_step (m k : nat) st :
  Z.of_nat m < srcH -> Z.of_nat k < srcW ->
  row_partial len src sumW rb m k st ->
  row_partial len src sumW rb m (Datatypes.S k) (ITER st).
Proof.
  intros Hm Hk (Hl & Hsp & Hsrc & HL & HC & Htab & Hrow).
  assert (Hin : 0 <= s_sp st < Z.of_nat (length (s_sum st))).
  { rewrite Hl, Hsp. unfold len, sumW in *. nia. }
  assert (HT : load (s_sum st) (s_sp st - sumW)
               = to_u32 (rect_sum src rb (Datatypes.S k) m)).
  { replace (s_sp st - sumW)
      with (Z.of_nat m * sumW + Z.of_nat (Datatypes.S k)) by lia.
    apply Htab; [lia | unfold sumW; lia]. }
  assert (HX : to_u32 (load src (s_src st) + s_L st
                       + load (s_sum st) (s_sp st - sumW) - s_C st)
               = to_u32 (rect_sum src rb (Datatypes.S k) (Datatypes.S m))).
  { rewrite HT, HL, HC, to_u32_mix, Hsrc. f_equal.
    cbn [rect_sum sum_range]. unfold rb. lia. }
  unfold row_partial, SUM_ITER; cbn [s_sum s_sp s_src s_L s_C].
  repeat split.
  - rewrite length_store. exact Hl.
  - lia.
  - lia.
  - exact HX.
  - exact HT.
  - intros i j Hj Hi. rewrite load_store_ne; [apply Htab; assumption|].
    rewrite Hsp. unfold sumW in *. nia.
  - intros i Hi.
    destruct (Nat.eq_dec i (Datatypes.S k)) as [-> | Hne].
    + replace ((Z.of_nat m + 1) * sumW + Z.of_nat (Datatypes.S k))
        with (s_sp st) by lia.
      rewrite load_store_eq by exact Hin. exact HX.
    + rewrite load_store_ne by lia. apply Hrow. lia.
Qed.

Lemma row_partial_iter (m k : nat) st :
  Z.of_nat m < srcH -> Z.of_nat k <= srcW ->
  row_partial len src sumW rb m 0 st ->
  row_partial len src sumW rb m k (Nat.iter k ITER st).
Proof.
  intros Hm Hk H0. induction k as [|k IH]; [exact H0|].
  rewrite Nat.iter_succ. apply row_partial_step; [lia | lia |].
  apply IH. lia.
Qed.

Lemma sum_row_start (m : nat) st :
  (1 <= m)%nat -> Z.of_nat m < srcH ->
  row_start len src sumW rb m st ->
  row_start len src sumW rb (Datatypes.S m)
    (sum_row a src sumW srcW (srcRB - srcW) st).
Proof.
  intros Hm1 Hm Hst. rewrite sum_row_iter. cbv zeta.
  destruct (row_partial_iter m (Z.to_nat srcW) _ Hm ltac:(lia)
              (row_partial_0 m st Hm Hst))
    as (Hl & Hsp & Hsrc & HL & HC & Htab & Hrow).
  unfold row_start; cbn [s_sum s_sp s_src].
  repeat split.
  - exact Hl.
  - rewrite Hsp. unfold sumW. lia.
  - rewrite Hsrc. unfold rb. lia.
  - intros i j Hj Hi.
    destruct (Nat.eq_dec j (Datatypes.S m)) as [-> | Hne].
    + replace (Z.of_nat (Datatypes.S m) * sumW) with ((Z.of_nat m + 1) * sumW)
        by lia.
      apply Hrow. unfold sumW in *. lia.
    + apply Htab; [lia | assumption].
Qed.

Lemma sum_rows_start (n : nat) st :
  Z.of_nat n < srcH ->
  row_start len src sumW rb 1 st ->
  row_start len src sumW rb (Datatypes.S n)
    (Nat.iter n (sum_row a src sumW srcW (srcRB - srcW)) st).
Proof.
  intros Hn H1. induction n as [|n IH]; [exact H1|].
  rewrite Nat.iter_succ. apply sum_row_start; [lia | lia |].
  apply IH. lia.
Qed.

(** The table [build_sum_buffer] leaves behind. *)
Lemma build_sum_buffer_table :
  let out := build_sum_buffer a sum srcW srcH src srcRB in
  length out = length sum
  /\ table_rows out src (srcW + 1) srcRB (Z.to_nat srcH).
Proof.
  rewrite build_sum_buffer_iter. cbv zeta.
  destruct (sum_rows_start (Z.to_nat (srcH - 1)) _ ltac:(lia) first_row_start)
    as (Hl & _ & _ & Htab).
  split; [exact Hl|].
  replace (Z.to_nat srcH) with (Datatypes.S (Z.to_nat (srcH - 1))) by lia.
  exact Htab.
Qed.
End SumBuffer.

(** ** [apply_kernel] against the single clamped loop *)

Lemma for_lt_ext {S : Type} (b b' : Z -> S -> S) n step x s :
  (forall x s, b x s = b' x s) ->
  for_lt n step b x s = for_lt n step b' x s.
Proof.
  intros Hb. unfold for_lt.
  generalize (Z.to_nat (n - x)) as fuel. intros fuel. revert x s.
  induction fuel as [|k IH]; intros x s; [reflexivity|].
  cbn [loop]. destruct (x <? n); [|reflexivity].
  rewrite Hb. apply IH.
Qed.

Section KernelRow.
Variables (sum : list Z) (scale sw py ny : Z).

Local Abbreviation CLAMPED := (CLAMPED_ITER sum scale sw py ny).
Local Abbreviation KLEFT := (KERNEL_LEFT_ITER sum scale py ny).
Local Abbreviation KCENTER := (KERNEL_CENTER_ITER sum scale).
Local Abbreviation KRIGHT := (KERNEL_RIGHT_ITER sum scale sw py ny).

Lemma KERNEL_CENTER_ITER4_iter st :
  KERNEL_CENTER_ITER4 sum scale st = Nat.iter 4 KCENTER st.
Proof.
  destruct st. unfold KERNEL_CENTER_ITER4, KERNEL_CENTER_ITER, x4,
    CENTER_SAMPLE, advance_x. cbn. f_equal; lia.
Qed.

Lemma same_px_refl st : same_px st st.
Proof. repeat split. Qed.

Lemma same_px_set_indices st st' :
  same_px st st' -> same_px (set_indices py ny st) st'.
Proof. intros H. exact H. Qed.

Lemma synced_set_indices st : synced py ny (set_indices py ny st).
Proof. repeat split. Qed.

Lemma left_step st st' :
  same_px st st' -> k_prev_x st <= 0 -> k_next_x st <= sw ->
  same_px (KLEFT st) (CLAMPED st').
Proof.
  intros (Hd & Hp & Hpx & Hnx) Hprev Hnext.
  unfold same_px, KERNEL_LEFT_ITER, CLAMPED_ITER, emit_px;
    cbn [k_dst k_dp k_prev_x k_next_x].
  rewrite <- Hd, <- Hp, <- Hpx, <- Hnx.
  replace (SkClampPos (k_prev_x st)) with 0
    by (unfold SkClampPos; destruct (Z.ltb_spec (k_prev_x st) 0); lia).
  replace (SkFastMin32 (k_next_x st) sw) with (k_next_x st)
    by (unfold SkFastMin32; destruct (Z.ltb_spec sw (k_next_x st)); lia).
  repeat split.
Qed.

Lemma center_step st st' :
  same_px st st' -> synced py ny st ->
  0 <= k_prev_x st -> k_next_x st <= sw ->
  same_px (KCENTER st) (CLAMPED st') /\ synced py ny (KCENTER st).
Proof.
  intros (Hd & Hp & Hpx & Hnx) (H0 & H1 & H2 & H3) Hprev Hnext.
  unfold same_px, synced, KERNEL_CENTER_ITER, CENTER_SAMPLE, advance_x,
    CLAMPED_ITER, emit_px;
    cbn [k_dst k_dp k_prev_x k_next_x k_i0 k_i1 k_i2 k_i3].
  rewrite <- Hd, <- Hp, <- Hpx, <- Hnx, H0, H1, H2, H3.
  replace (SkClampPos (k_prev_x st)) with (k_prev_x st)
    by (unfold SkClampPos; destruct (Z.ltb_spec (k_prev_x st) 0); lia).
  replace (SkFastMin32 (k_next_x st) sw) with (k_next_x st)
    by (unfold SkFastMin32; destruct (Z.ltb_spec sw (k_next_x st)); lia).
  repeat split; lia.
Qed.

Lemma right_step st st' :
  same_px st st' -> 0 <= k_prev_x st -> sw <= k_next_x st ->
  same_px (KRIGHT st) (CLAMPED st').
Proof.
  intros (Hd & Hp & Hpx & Hnx) Hprev Hnext.
  unfold same_px, KERNEL_RIGHT_ITER, CLAMPED_ITER, emit_px;
    cbn [k_dst k_dp k_prev_x k_next_x].
  rewrite <- Hd, <- Hp, <- Hpx, <- Hnx.
  replace (SkClampPos (k_prev_x st)) with (k_prev_x st)
    by (unfold SkClampPos; destruct (Z.ltb_spec (k_prev_x st) 0); lia).
  replace (SkFastMin32 (k_next_x st) sw) with sw
    by (unfold SkFastMin32; destruct (Z.ltb_spec sw (k_next_x st)); lia).
  repeat split.
Qed.

Lemma iter_CLAMPED_x n st :
  k_prev_x (Nat.iter n CLAMPED st) = k_prev_x st + Z.of_nat n
  /\ k_next_x (Nat.iter n CLAMPED st) = k_next_x st + Z.of_nat n.
Proof.
  induction n as [|n [IH1 IH2]]; [cbn; lia|].
  rewrite Nat.iter_succ. unfold CLAMPED_ITER at 1 3, emit_px.
  cbn [k_prev_x k_next_x]. lia.
Qed.

Lemma left_iter (n : nat) st st' :
  same_px st st' ->
  k_prev_x st + Z.of_nat n <= 0 -> k_next_x st + Z.of_nat n <= sw + 1 ->
  same_px (Nat.iter n KLEFT st) (Nat.iter n CLAMPED st').
Proof.
  intros H. induction n as [|n IH]; intros Hp Hn; [exact H|].
  rewrite !Nat.iter_succ.
  specialize (IH ltac:(lia) ltac:(lia)).
  destruct (iter_CLAMPED_x n st') as [E1 E2].
  destruct IH as (Hd & Hdp & Hpx & Hnx).
  destruct H as (_ & _ & Hpx0 & Hnx0).
  apply left_step; [repeat split; assumption | lia | lia].
Qed.

Lemma center_iter (n : nat) st st' :
  same_px st st' -> synced py ny st ->
  0 <= k_prev_x st -> k_next_x st + Z.of_nat n <= sw + 1 ->
  same_px (Nat.iter n KCENTER st) (Nat.iter n CLAMPED st')
  /\ synced py ny (Nat.iter n KCENTER st).
Proof.
  intros H Hs Hp. induction n as [|n IH]; intros Hn; [split; assumption|].
  rewrite !Nat.iter_succ.
  destruct (IH ltac:(lia)) as [IHs IHy].
  destruct (iter_CLAMPED_x n st') as [E1 E2].
  pose proof IHs as (Hd & Hdp & Hpx & Hnx).
  destruct H as (_ & _ & Hpx0 & Hnx0).
  apply center_step; [assumption | assumption | lia | lia].
Qed.

Lemma right_iter (n : nat) st st' :
  same_px st st' ->
  0 <= k_prev_x st -> sw <= k_next_x st ->
  same_px (Nat.iter n KRIGHT st) (Nat.iter n CLAMPED st').
Proof.
  intros H Hp Hn. induction n as [|n IH]; [exact H|].
  rewrite !Nat.iter_succ.
  destruct (iter_CLAMPED_x n st') as [E1 E2].
  pose proof IH as (Hd & Hdp & Hpx & Hnx).
  destruct H as (_ & _ & Hpx0 & Hnx0).
  apply right_step; [assumption | lia | lia].
Qed.

(** The three sections of a row of [apply_kernel], with or without the
    unrolled center, do what [dw] rounds of the clamped body do. *)
Lemma segmented_row (unroll : bool) rx st :
  0 <= rx -> 2 * rx <= sw ->
  k_prev_x st = - 2 * rx -> k_next_x st = 1 ->
  same_px (apply_kernel_row sum scale sw py ny unroll (sw + 2 * rx) rx st)
          (Nat.iter (Z.to_nat (sw + 2 * rx)) CLAMPED st).
Proof.
  intros Hrx Hsw Hprev Hnext. set (dw := sw + 2 * rx).
  unfold apply_kernel_row.
  rewrite for_lt_iter. rewrite Z.sub_0_r.
  replace (Z.max 0 (2 * rx)) with (2 * rx) by lia.
  set (n1 := Z.to_nat (2 * rx)).
  set (s1 := Nat.iter n1 KLEFT st).
  assert (H1 : same_px s1 (Nat.iter n1 CLAMPED st)).
  { apply left_iter; [apply same_px_refl | unfold n1; lia | unfold n1; lia]. }
  set (n2 := Z.to_nat (sw - 2 * rx)).
  set (s2 := Nat.iter n2 KCENTER (set_indices py ny s1)).
  set (n3 := Z.to_nat (2 * rx)).
  assert (Hgoal : same_px (Nat.iter n3 KRIGHT s2)
                    (Nat.iter (Z.to_nat dw) CLAMPED st)).
  { destruct (iter_CLAMPED_x n1 st) as [P1 N1].
    destruct H1 as (D1 & DP1 & PX1 & NX1).
    assert (H2 : same_px s2 (Nat.iter n2 CLAMPED (Nat.iter n1 CLAMPED st))).
    { apply center_iter.
      - repeat split; assumption.
      - apply synced_set_indices.
      - cbn [set_indices k_prev_x]. rewrite PX1, P1. unfold n1. lia.
      - cbn [set_indices k_next_x]. rewrite NX1, N1. unfold n1, n2. lia. }
    destruct (iter_CLAMPED_x n2 (Nat.iter n1 CLAMPED st)) as [P2 N2].
    pose proof H2 as (D2 & DP2 & PX2 & NX2).
    replace (Z.to_nat dw) with (n3 + (n2 + n1))%nat
      by (unfold n1, n2, n3, dw; lia).
    rewrite !iter_plus.
    apply right_iter; [exact H2 | |].
    - rewrite PX2, P2, P1. unfold n1, n2. lia.
    - rewrite NX2, N2, N1. unfold n1, n2. lia. }
  destruct unroll.
  - destruct (for_lt_unrolled 4 (KERNEL_CENTER_ITER4 sum scale) KCENTER
                (dw - 2 * rx) (2 * rx) (set_indices py ny s1))
      as (m & x' & Heq & Hx & Hm); [lia | apply KERNEL_CENTER_ITER4_iter |].
    change (Z.of_nat 4) with 4 in Heq. rewrite Heq.
    rewrite for_lt_iter, <- iter_plus.
    replace (Z.to_nat (dw - 2 * rx - x') + m)%nat with n2
      by (unfold n2, dw; lia).
    rewrite for_lt_iter.
    replace (Z.to_nat (dw - Z.max x' (dw - 2 * rx))) with n3
      by (unfold n3, dw; lia).
    exact Hgoal.
  - rewrite for_lt_iter.
    replace (Z.to_nat (dw - 2 * rx - 2 * rx)) with n2 by (unfold n2, dw; lia).
    rewrite for_lt_iter.
    replace (Z.to_nat (dw - Z.max (2 * rx) (dw - 2 * rx))) with n3
      by (unfold n3, dw; lia).
    exact Hgoal.
Qed.
End KernelRow.

(** [apply_kernel] and the single clamped loop leave the same buffer. *)
Lemma apply_kernel_rows_clamped sum scale unroll dst rx ry sw sh :
  0 <= rx -> 2 * rx <= sw ->
  apply_kernel_rows sum scale unroll dst rx ry sw sh
  = kernel_clamped_rows sum scale dst rx ry sw sh.
Proof.
  intros Hrx Hsw. unfold apply_kernel_rows, kernel_clamped_rows.
  f_equal. apply for_lt_ext. intros _ st.
  rewrite for_lt_iter. rewrite Z.sub_0_r.
  destruct (segmented_row sum scale sw
              (SkClampPos (kr_prev_y st) * (sw + 1))
              (SkFastMin32 (kr_next_y st) sh * (sw + 1))
              unroll rx (enter_row st (- 2 * rx) 1) Hrx Hsw
              ltac:(reflexivity) ltac:(reflexivity))
    as (Hd & Hp & _ & _).
  unfold leave_row. rewrite Hd, Hp. reflexivity.
Qed.

Lemma apply_kernel_clamped unroll dst rx ry sum sw sh :
  0 <= rx ->
  apply_kernel unroll dst rx ry sum sw sh = kernel_clamped dst rx ry sum sw sh.
Proof.
  intros Hrx. unfold apply_kernel.
  destruct (Z.ltb_spec sw (2 * rx)); [reflexivity|].
  unfold kernel_clamped. rewrite apply_kernel_rows_clamped by lia. reflexivity.
Qed.

(** ** The pixels of the clamped loop *)

Lemma SkClampPos_max v : SkClampPos v = Z.max 0 v.
Proof. unfold SkClampPos. destruct (Z.ltb_spec v 0); lia. Qed.

Lemma SkFastMin32_min v m : SkFastMin32 v m = Z.min v m.
Proof. unfold SkFastMin32. destruct (Z.ltb_spec m v); lia. Qed.

Lemma kernel_scale_div rx ry :
  0 <= rx -> 0 <= ry ->
  kernel_scale rx ry = Z.shiftl 1 24 / ((2 * rx + 1) * (2 * ry + 1)).
Proof.
  intros Hrx Hry. unfold kernel_scale.
  change (Z.shiftl 1 24) with (2 ^ 24).
  assert (Ha : 1 <= (2 * rx + 1) * (2 * ry + 1)) by nia.
  rewrite Z.quot_div_nonneg by lia.
  destruct (scale_range _ Ha) as [[H0 H1] _].
  apply to_u32_small. lia.
Qed.

Lemma CLAMPED_value_reference sum rx ry sw sh x y st :
  0 <= rx -> 0 <= ry ->
  k_prev_x st = x - 2 * rx -> k_next_x st = x + 1 ->
  CLAMPED_value sum (kernel_scale rx ry) sw
    (SkClampPos (y - 2 * ry) * (sw + 1)) (SkFastMin32 (y + 1) sh * (sw + 1)) st
  = kernel_reference_px sum rx ry sw sh x y.
Proof.
  intros Hrx Hry Hp Hn.
  unfold CLAMPED_value, kernel_reference_px, kernel_px, four_corners.
  rewrite Hp, Hn, !SkClampPos_max, !SkFastMin32_min, kernel_scale_div by lia.
  cbv zeta.
  replace (Z.max 0 (x - 2 * rx) + Z.max 0 (y - 2 * ry) * (sw + 1))
    with (Z.max 0 (y - 2 * ry) * (sw + 1) + Z.max 0 (x - 2 * rx)) by lia.
  replace (Z.min (x + 1) sw + Z.min (y + 1) sh * (sw + 1))
    with (Z.min (y + 1) sh * (sw + 1) + Z.min (x + 1) sw) by lia.
  replace (Z.min (x + 1) sw + Z.max 0 (y - 2 * ry) * (sw + 1))
    with (Z.max 0 (y - 2 * ry) * (sw + 1) + Z.min (x + 1) sw) by lia.
  replace (Z.max 0 (x - 2 * rx) + Z.min (y + 1) sh * (sw + 1))
    with (Z.min (y + 1) sh * (sw + 1) + Z.max 0 (x - 2 * rx)) by lia.
  reflexivity.
Qed.

Section ClampedRows.
Variables (sum : list Z) (dst : list Z) (rx ry sw sh : Z).
Hypotheses (Hrx : 0 <= rx) (Hry : 0 <= ry) (Hsw : 0 <= sw) (Hsh : 0 <= sh).
Hypothesis Hlen : (sw + 2 * rx) * (sh + 2 * ry) <= Z.of_nat (length dst).

Let dw := sw + 2 * rx.
Let dh := sh + 2 * ry.
Let scale := kernel_scale rx ry.

(** The body of the loop over the rows. *)
Let row_body (st : kernel_rows) : kernel_rows :=
  leave_row st
    (Nat.iter (Z.to_nat dw)
       (CLAMPED_ITER sum scale sw
          (SkClampPos (kr_prev_y st) * (sw + 1))
          (SkFastMin32 (kr_next_y st) sh * (sw + 1)))
       (enter_row st (- 2 * rx) 1)).

Lemma kernel_clamped_rows_iter :
  kernel_clamped_rows sum scale dst rx ry sw sh
  = Nat.iter (Z.to_nat dh) row_body
      {| kr_dst := dst; kr_dp := 0; kr_prev_y := - 2 * ry; kr_next_y := 1 |}.
Proof.
  unfold kernel_clamped_rows.
  rewrite (for_lt_ext _ (fun _ => row_body)).
  - rewrite for_lt_iter. cbn [snd]. rewrite Z.sub_0_r. reflexivity.
  - intros x st. rewrite for_lt_iter. rewrite Z.sub_0_r. reflexivity.
Qed.

Lemma row_body_spec (m : Z) st :
  0 <= m < dh ->
  rows_at (length dst) dw ry m st ->
  rows_at (length dst) dw ry (m + 1) (row_body st)
  /\ (forall x, 0 <= x < dw ->
        load (kr_dst (row_body st)) (m * dw + x)
        = kernel_reference_px sum rx ry sw sh x m)
  /\ (forall p, p < m * dw ->
        load (kr_dst (row_body st)) p = load (kr_dst st) p).
Proof.
  intros Hm (Hl & Hdp & Hpy & Hny).
  unfold row_body.
  set (py := SkClampPos (kr_prev_y st) * (sw + 1)).
  set (ny := SkFastMin32 (kr_next_y st) sh * (sw + 1)).
  set (row0 := enter_row st (- 2 * rx) 1).
  set (B := CLAMPED_ITER sum scale sw py ny).
  set (V := CLAMPED_value sum scale sw py ny).
  assert (Hptr : forall s, k_dp (B s) = k_dp s + 1) by reflexivity.
  assert (Hbuf : forall s, k_dst (B s) = store (k_dst s) (k_dp s) (V s))
    by reflexivity.
  pose proof (iter_dptr k_dp 1 B Hptr (Z.to_nat dw) row0) as Hp.
  pose proof (iter_emitted k_dp k_dst 1 B V Hptr Hbuf (Z.to_nat dw) row0) as Hd.
  change (k_dp row0) with (kr_dp st) in Hp, Hd.
  change (k_dst row0) with (kr_dst st) in Hd.
  unfold leave_row; cbn [kr_dst kr_dp kr_prev_y kr_next_y].
  rewrite Hd, Hp. split; [|split].
  - unfold rows_at; cbn [kr_dst kr_dp kr_prev_y kr_next_y].
    rewrite length_write_strided. repeat split; lia.
  - intros x Hx. rewrite Hdp.
    replace (m * dw + x) with (m * dw + 1 * Z.of_nat (Z.to_nat x)) by lia.
    rewrite load_write_strided_hit;
      [ | lia | nia | rewrite emitted_length; lia
        | rewrite Hl; unfold dw, dh in *; nia ].
    rewrite emitted_nth by lia. unfold V, py, ny, scale.
    rewrite Hpy, Hny.
    replace (- 2 * ry + m) with (m - 2 * ry) by lia.
    replace (1 + m) with (m + 1) by lia.
    destruct (iter_CLAMPED_x sum (kernel_scale rx ry) sw
                (SkClampPos (m - 2 * ry) * (sw + 1))
                (SkFastMin32 (m + 1) sh * (sw + 1)) (Z.to_nat x) row0)
      as [P N].
    apply CLAMPED_value_reference; try assumption.
    + unfold B, py, ny, scale in *. rewrite Hpy, Hny in *.
      replace (- 2 * ry + m) with (m - 2 * ry) in * by lia.
      replace (1 + m) with (m + 1) in * by lia.
      rewrite P. cbn [row0 enter_row k_prev_x]. lia.
    + unfold B, py, ny, scale in *. rewrite Hpy, Hny in *.
      replace (- 2 * ry + m) with (m - 2 * ry) in * by lia.
      replace (1 + m) with (m + 1) in * by lia.
      rewrite N. cbn [row0 enter_row k_next_x]. lia.
  - intros p Hpp. apply load_write_strided_frame.
    intros i Hi. lia.
Qed.

Lemma rows_spec (m : nat) :
  Z.of_nat m <= dh ->
  let st := Nat.iter m row_body
              {| kr_dst := dst; kr_dp := 0;
                 kr_prev_y := - 2 * ry; kr_next_y := 1 |} in
  rows_at (length dst) dw ry (Z.of_nat m) st
  /\ forall x y, 0 <= x < dw -> 0 <= y < Z.of_nat m ->
       load (kr_dst st) (y * dw + x) = kernel_reference_px sum rx ry sw sh x y.
Proof.
  induction m as [|m IH]; intros Hm.
  - split; [|intros; lia].
    unfold rows_at; cbn [Nat.iter nat_rect kr_dst kr_dp kr_prev_y kr_next_y].
    change (Z.of_nat 0) with 0. repeat split; lia.
  - cbv zeta. rewrite Nat.iter_succ.
    destruct (IH ltac:(lia)) as [Hat Hpx].
    destruct (row_body_spec (Z.of_nat m) _ ltac:(lia) Hat)
      as (Hat' & Hrow & Hframe).
    split.
    + replace (Z.of_nat (Datatypes.S m)) with (Z.of_nat m + 1) by lia.
      exact Hat'.
    + intros x y Hx Hy.
      destruct (Z.eq_dec y (Z.of_nat m)) as [-> | Hne].
      * apply Hrow, Hx.
      * rewrite Hframe by (unfold dw in *; nia).
        apply Hpx; lia.
Qed.

(** The clamped loop writes the reference value at every output pixel. *)
Lemma kernel_clamped_reference :
  let out := kernel_clamped dst rx ry sum sw sh in
  length out = length dst
  /\ forall x y, 0 <= x < sw + 2 * rx -> 0 <= y < sh + 2 * ry ->
       load out (y * (sw + 2 * rx) + x)
       = kernel_reference_px sum rx ry sw sh x y.
Proof.
  unfold kernel_clamped. fold scale. rewrite kernel_clamped_rows_iter.
  destruct (rows_spec (Z.to_nat dh) ltac:(unfold dh; lia)) as [(Hl & _) Hpx].
  split; [exact Hl|].
  intros x y Hx Hy. apply Hpx; unfold dw, dh in *; lia.
Qed.
End ClampedRows.

(** ** The per-pixel laws of the styles *)

Lemma all_bytes2_spec (P : Z -> Z -> bool) :
  all_bytes2 P = true ->
  forall a b, 0 <= a <= 255 -> 0 <= b <= 255 -> P a b = true.
Proof.
  intros H a b Ha Hb. unfold all_bytes2 in H.
  rewrite forallb_forall in H.
  assert (Hina : In (Z.to_nat a) (seq 0 256)) by (apply in_seq; lia).
  assert (Hinb : In (Z.to_nat b) (seq 0 256)) by (apply in_seq; lia).
  specialize (H (Z.to_nat a) Hina).
  rewrite forallb_forall in H.
  specialize (H (Z.to_nat b) Hinb).
  rewrite !Z2Nat.id in H by lia. exact H.
Qed.

Lemma SkMulDiv255Round_round a b :
  0 <= a <= 255 -> 0 <= b <= 255 ->
  SkMulDiv255Round a b = round_div255 a b.
Proof.
  intros Ha Hb. apply Z.eqb_eq.
  apply (all_bytes2_spec (fun a b => SkMulDiv255Round a b =? round_div255 a b));
    [vm_compute; reflexivity | assumption | assumption].
Qed.

(** The solid style never darkens the blur and stays a byte. *)
Lemma solid_px_law s d :
  0 <= s <= 255 -> 0 <= d <= 255 ->
  solid_px s d = s + d - round_div255 s d
  /\ d <= solid_px s d <= 255 /\ s <= solid_px s d.
Proof.
  intros Hs Hd.
  assert (H : ((solid_px s d =? s + d - round_div255 s d)
               && (d <=? solid_px s d) && (solid_px s d <=? 255)
               && (s <=? solid_px s d)) = true).
  { apply (all_bytes2_spec
             (fun s d => (solid_px s d =? s + d - round_div255 s d)
                         && (d <=? solid_px s d) && (solid_px s d <=? 255)
                         && (s <=? solid_px s d)));
      [vm_compute; reflexivity | assumption | assumption]. }
  rewrite !andb_true_iff in H. destruct H as [[[H1 H2] H3] H4].
  apply Z.eqb_eq in H1. apply Z.leb_le in H2, H3, H4. lia.
Qed.

(** The outer style leaves nothing where the source is opaque, and never
    brightens the blur. *)
Lemma outer_px_law s d :
  0 <= s <= 255 -> 0 <= d <= 255 ->
  (s = 255 -> outer_px s d = 0) /\ 0 <= outer_px s d <= d.
Proof.
  intros Hs Hd.
  assert (H : (((negb (s =? 255)) || (outer_px s d =? 0))
               && (0 <=? outer_px s d) && (outer_px s d <=? d)) = true).
  { apply (all_bytes2_spec
             (fun s d => ((negb (s =? 255)) || (outer_px s d =? 0))
                         && (0 <=? outer_px s d) && (outer_px s d <=? d)));
      [vm_compute; reflexivity | assumption | assumption]. }
  rewrite !andb_true_iff in H. destruct H as [[H1 H2] H3].
  apply Z.leb_le in H2, H3. split; [|lia].
  intros ->. cbn in H1. apply Z.eqb_eq in H1. exact H1.
Qed.

(** The inner style stays under the source (and under the blur). *)
Lemma inner_px_law s b :
  0 <= s <= 255 -> 0 <= b <= 255 ->
  0 <= inner_px s b <= s /\ inner_px s b <= b.
Proof.
  intros Hs Hb.
  assert (H : ((0 <=? inner_px s b) && (inner_px s b <=? s)
               && (inner_px s b <=? b)) = true).
  { apply (all_bytes2_spec
             (fun s b => (0 <=? inner_px s b) && (inner_px s b <=? s)
                         && (inner_px s b <=? b)));
      [vm_compute; reflexivity | assumption | assumption]. }
  rewrite !andb_true_iff in H. destruct H as [[H1 H2] H3].
  apply Z.leb_le in H1, H2, H3. lia.
Qed.

(** ** The style passes, pixel by pixel *)

Section StylePass.
Variables (src blur : list Z) (db : Z).
Variable b : style_state -> style_state.
Variable f : Z -> Z -> Z -> Z.
Hypothesis Hmoved : forall st, style_moved db 1 st (b st).
Hypothesis Hhit : forall st,
  0 <= y_dp st < Z.of_nat (length (y_dst st)) ->
  load (y_dst (b st)) (y_dp st)
  = f (load src (y_sp st)) (load (y_dst st) (y_dp st)) (load blur (y_bp st)).
Hypothesis Hframe : forall st q,
  q <> y_dp st -> load (y_dst (b st)) q = load (y_dst st) q.

Lemma iter_style_moved (n : nat) st : style_moved db n st (Nat.iter n b st).
Proof.
  unfold style_moved. induction n as [|n IH]; [cbn; lia|].
  rewrite Nat.iter_succ.
  destruct (Hmoved (Nat.iter n b st)) as (H1 & H2 & H3 & H4).
  destruct IH as (I1 & I2 & I3 & I4).
  rewrite H1, H2, H3, H4, I1, I2, I3, I4. lia.
Qed.

(** One row of [n] pixels. *)
Lemma row_pass (n : nat) st :
  (forall q, q < y_dp st \/ y_dp st + Z.of_nat n <= q ->
     load (y_dst (Nat.iter n b st)) q = load (y_dst st) q)
  /\ (0 <= y_dp st ->
      y_dp st + Z.of_nat n <= Z.of_nat (length (y_dst st)) ->
      forall x : nat, (x < n)%nat ->
        load (y_dst (Nat.iter n b st)) (y_dp st + Z.of_nat x)
        = f (load src (y_sp st + Z.of_nat x))
            (load (y_dst st) (y_dp st + Z.of_nat x))
            (load blur (y_bp st + db * Z.of_nat x))).
Proof.
  induction n as [|n [IHf IHh]].
  - split; [reflexivity | intros; lia].
  - destruct (iter_style_moved n st) as (M1 & M2 & M3 & M4).
    rewrite Nat.iter_succ. split.
    + intros q Hq. rewrite Hframe by lia. apply IHf. lia.
    + intros H0 Hlen x Hx.
      destruct (Nat.eq_dec x n) as [-> | Hne].
      * rewrite <- M2, Hhit by lia.
        rewrite M2, M3, M4. f_equal. apply IHf. lia.
      * rewrite Hframe by lia. apply IHh; lia.
Qed.

(** The rows: [sh] rows of [sw] pixels, the pointers moving by
    [dstRB], [srcRB] and [blurRB] from one row to the next. *)
Variables (sw dstRB srcRB blurRB : Z).
Hypothesis Hsw : 0 <= sw <= dstRB.

Let row_body (st : style_state) : style_state :=
  skip_row (dstRB - sw) (srcRB - sw) (blurRB - db * sw)
    (Nat.iter (Z.to_nat sw) b st).

Lemma rows_pass (m : nat) st0 :
  0 <= y_dp st0 ->
  (0 < m)%nat ->
  y_dp st0 + (Z.of_nat m - 1) * dstRB + sw <= Z.of_nat (length (y_dst st0)) ->
  let st := Nat.iter m row_body st0 in
  length (y_dst st) = length (y_dst st0)
  /\ y_dp st = y_dp st0 + Z.of_nat m * dstRB
  /\ y_sp st = y_sp st0 + Z.of_nat m * srcRB
  /\ y_bp st = y_bp st0 + Z.of_nat m * blurRB
  /\ (forall q, y_dp st0 + Z.of_nat m * dstRB <= q ->
        load (y_dst st) q = load (y_dst st0) q)
  /\ (forall x y, 0 <= x < sw -> 0 <= y < Z.of_nat m ->
        load (y_dst st) (y_dp st0 + y * dstRB + x)
        = f (load src (y_sp st0 + y * srcRB + x))
            (load (y_dst st0) (y_dp st0 + y * dstRB + x))
            (load blur (y_bp st0 + y * blurRB + db * x))).
Proof.
  intros H0. induction m as [|m IH]; intros Hm Hlen; [lia|].
  cbv zeta. rewrite Nat.iter_succ.
  set (st := Nat.iter m row_body st0) in *.
  assert (Hst :
    length (y_dst st) = length (y_dst st0)
    /\ y_dp st = y_dp st0 + Z.of_nat m * dstRB
    /\ y_sp st = y_sp st0 + Z.of_nat m * srcRB
    /\ y_bp st = y_bp st0 + Z.of_nat m * blurRB
    /\ (forall q, y_dp st0 + Z.of_nat m * dstRB <= q ->
          load (y_dst st) q = load (y_dst st0) q)
    /\ (forall x y, 0 <= x < sw -> 0 <= y < Z.of_nat m ->
          load (y_dst st) (y_dp st0 + y * dstRB + x)
          = f (load src (y_sp st0 + y * srcRB + x))
              (load (y_dst st0) (y_dp st0 + y * dstRB + x))
              (load blur (y_bp st0 + y * blurRB + db * x)))).
  { destruct m as [|m'].
    - subst st. cbn [Nat.iter nat_rect]. change (Z.of_nat 0) with 0.
      repeat split; try lia.
    - apply IH; [lia | nia]. }
  destruct Hst as (L & DP & SP & BP & Fr & Px).
  destruct (iter_style_moved (Z.to_nat sw) st) as (M1 & M2 & M3 & M4).
  destruct (row_pass (Z.to_nat sw) st) as [Rf Rh].
  clearbody st. unfold row_body, skip_row; cbn [y_dst y_dp y_sp y_bp].
  rewrite Z2Nat.id in M2, M3, M4, Rf, Rh by lia.
  rewrite M1, M2, M3, M4, L, DP, SP, BP.
  split; [reflexivity|]. split; [lia|]. split; [lia|]. split; [lia|].
  split.
  - intros q Hq. rewrite Rf by nia. apply Fr. nia.
  - intros x y Hx Hy.
    destruct (Z.eq_dec y (Z.of_nat m)) as [-> | Hne].
    + replace (y_dp st0 + Z.of_nat m * dstRB + x)
        with (y_dp st + Z.of_nat (Z.to_nat x)) by lia.
      rewrite Rh by nia.
      rewrite SP, BP, DP, Fr by nia.
      rewrite !Z2Nat.id by lia.
      f_equal; f_equal; lia.
    + rewrite Rf by nia. apply Px; lia.
Qed.
End StylePass.

Lemma iter_ext {S : Type} (b b' : S -> S) (n : nat) s :
  (forall s, b s = b' s) -> Nat.iter n b s = Nat.iter n b' s.
Proof.
  intros H. induction n as [|n IH]; [reflexivity|].
  rewrite !Nat.iter_succ, IH. apply H.
Qed.

Section StyleBodies.
Variables (src blur : list Z).

Lemma MERGE_moved st : style_moved 1 1 st (MERGE_ITER src blur st).
Proof.
  unfold style_moved, MERGE_ITER; cbn [y_dst y_dp y_sp y_bp].
  rewrite length_store. lia.
Qed.

Lemma SOLID_moved st : style_moved 0 1 st (SOLID_ITER src st).
Proof.
  unfold style_moved, SOLID_ITER; cbn [y_dst y_dp y_sp y_bp].
  rewrite length_store. lia.
Qed.

Lemma OUTER_moved st : style_moved 0 1 st (OUTER_ITER src st).
Proof.
  unfold style_moved, OUTER_ITER; cbn [y_dst y_dp y_sp y_bp].
  destruct (load src (y_sp st) =? 0); rewrite ?length_store; lia.
Qed.

Lemma OUTER_hit st :
  0 <= y_dp st < Z.of_nat (length (y_dst st)) ->
  load (y_dst (OUTER_ITER src st)) (y_dp st)
  = outer_px (load src (y_sp st)) (load (y_dst st) (y_dp st)).
Proof.
  intros H. unfold OUTER_ITER, outer_px; cbn [y_dst].
  destruct (load src (y_sp st) =? 0) eqn:E; [reflexivity|].
  rewrite load_store_eq by exact H. reflexivity.
Qed.

Lemma OUTER_frame st q :
  q <> y_dp st -> load (y_dst (OUTER_ITER src st)) q = load (y_dst st) q.
Proof.
  intros H. unfold OUTER_ITER; cbn [y_dst].
  destruct (load src (y_sp st) =? 0); [reflexivity|].
  apply load_store_ne. lia.
Qed.
End StyleBodies.

(** [merge_src_with_blur] fills the [sw] x [sh] window of [dst] with
    [blur] modulated by [src]. *)
Lemma merge_src_with_blur_spec src blur dst dst_off dstRB src_off srcRB
      blur_off blurRB sw sh :
  0 <= sw <= dstRB -> 0 <= sh -> 0 <= dst_off ->
  dst_off + (sh - 1) * dstRB + sw <= Z.of_nat (length dst) ->
  let out := merge_src_with_blur src blur dst dst_off dstRB src_off srcRB
               blur_off blurRB sw sh in
  length out = length dst
  /\ forall x y, 0 <= x < sw -> 0 <= y < sh ->
       load out (dst_off + y * dstRB + x)
       = inner_px (load src (src_off + y * srcRB + x))
                  (load blur (blur_off + y * blurRB + x)).
Proof.
  intros Hsw Hsh Hoff Hlen. unfold merge_src_with_blur.
  rewrite for_ge_iter. cbv zeta.
  replace (Z.to_nat (sh - 1 - 0 + 1)) with (Z.to_nat sh) by lia.
  set (st0 := {| y_dst := dst; y_dp := dst_off; y_sp := src_off;
                 y_bp := blur_off |}).
  rewrite (iter_ext _
             (fun st => skip_row (dstRB - sw) (srcRB - sw) (blurRB - 1 * sw)
                          (Nat.iter (Z.to_nat sw) (MERGE_ITER src blur) st))).
  2:{ intros st. rewrite for_ge_iter.
      replace (Z.to_nat (sw - 1 - 0 + 1)) with (Z.to_nat sw) by lia.
      replace (blurRB - 1 * sw) with (blurRB - sw) by lia. reflexivity. }
  destruct (Z.eq_dec sh 0) as [-> | Hne].
  { cbn [Z.to_nat Nat.iter nat_rect y_dst st0]. split; [reflexivity|].
    intros; lia. }
  destruct (rows_pass src blur 1 (MERGE_ITER src blur)
              (fun s _ b => inner_px s b)
              (MERGE_moved src blur)
              ltac:(intros st H; apply load_store_eq; exact H)
              ltac:(intros st q H; apply load_store_ne; lia)
              sw dstRB srcRB blurRB Hsw (Z.to_nat sh) st0)
    as (L & _ & _ & _ & _ & Px); cbn [st0 y_dp y_dst]; try lia.
  split; [exact L|].
  intros x y Hx Hy. rewrite Px by lia.
  cbn [st0 y_sp y_bp]. do 2 f_equal. lia.
Qed.

(** [clamp_with_orig], solid style: every pixel of the window becomes
    [solid_px] of the source pixel and of the blurred pixel it held. *)
Lemma clamp_with_orig_solid_spec src dst dst_off dstRB src_off srcRB sw sh :
  0 <= sw <= dstRB -> 0 <= sh -> 0 <= dst_off ->
  dst_off + (sh - 1) * dstRB + sw <= Z.of_nat (length dst) ->
  let out := clamp_with_orig src dst dst_off dstRB src_off srcRB sw sh
               kSolid_Style in
  length out = length dst
  /\ forall x y, 0 <= x < sw -> 0 <= y < sh ->
       load out (dst_off + y * dstRB + x)
       = solid_px (load src (src_off + y * srcRB + x))
                  (load dst (dst_off + y * dstRB + x)).
Proof.
  intros Hsw Hsh Hoff Hlen. unfold clamp_with_orig.
  rewrite for_ge_iter. cbv zeta.
  replace (Z.to_nat (sh - 1 - 0 + 1)) with (Z.to_nat sh) by lia.
  set (st0 := {| y_dst := dst; y_dp := dst_off; y_sp := src_off; y_bp := 0 |}).
  rewrite (iter_ext _
             (fun st => skip_row (dstRB - sw) (srcRB - sw) (0 - 0 * sw)
                          (Nat.iter (Z.to_nat sw) (SOLID_ITER src) st))).
  2:{ intros st. rewrite for_ge_iter. cbn [snd].
      replace (Z.to_nat (sw - 1 - 0 + 1)) with (Z.to_nat sw) by lia.
      reflexivity. }
  destruct (Z.eq_dec sh 0) as [-> | Hne].
  { cbn [Z.to_nat Nat.iter nat_rect y_dst st0]. split; [reflexivity|].
    intros; lia. }
  destruct (rows_pass src [] 0 (SOLID_ITER src)
              (fun s d _ => solid_px s d)
              (SOLID_moved src)
              ltac:(intros st H; apply load_store_eq; exact H)
              ltac:(intros st q H; apply load_store_ne; lia)
              sw dstRB srcRB 0 Hsw (Z.to_nat sh) st0)
    as (L & _ & _ & _ & _ & Px); cbn [st0 y_dp y_dst]; try lia.
  split; [exact L|].
  intros x y Hx Hy. rewrite Px by lia. reflexivity.
Qed.

(** [clamp_with_orig], outer style. *)
Lemma clamp_with_orig_outer_spec src dst dst_off dstRB src_off srcRB sw sh :
  0 <= sw <= dstRB -> 0 <= sh -> 0 <= dst_off ->
  dst_off + (sh - 1) * dstRB + sw <= Z.of_nat (length dst) ->
  let out := clamp_with_orig src dst dst_off dstRB src_off srcRB sw sh
               kOuter_Style in
  length out = length dst
  /\ forall x y, 0 <= x < sw -> 0 <= y < sh ->
       load out (dst_off + y * dstRB + x)
       = outer_px (load src (src_off + y * srcRB + x))
                  (load dst (dst_off + y * dstRB + x)).
Proof.
  intros Hsw Hsh Hoff Hlen. unfold clamp_with_orig.
  rewrite for_ge_iter. cbv zeta.
  replace (Z.to_nat (sh - 1 - 0 + 1)) with (Z.to_nat sh) by lia.
  set (st0 := {| y_dst := dst; y_dp := dst_off; y_sp := src_off; y_bp := 0 |}).
  rewrite (iter_ext _
             (fun st => skip_row (dstRB - sw) (srcRB - sw) (0 - 0 * sw)
                          (Nat.iter (Z.to_nat sw) (OUTER_ITER src) st))).
  2:{ intros st. rewrite for_ge_iter. cbn [snd].
      replace (Z.to_nat (sw - 1 - 0 + 1)) with (Z.to_nat sw) by lia.
      reflexivity. }
  destruct (Z.eq_dec sh 0) as [-> | Hne].
  { cbn [Z.to_nat Nat.iter nat_rect y_dst st0]. split; [reflexivity|].
    intros; lia. }
  destruct (rows_pass src [] 0 (OUTER_ITER src)
              (fun s d _ => outer_px s d)
              (OUTER_moved src) (OUTER_hit src) (OUTER_frame src)
              sw dstRB srcRB 0 Hsw (Z.to_nat sh) st0)
    as (L & _ & _ & _ & _ & Px); cbn [st0 y_dp y_dst]; try lia.
  split; [exact L|].
  intros x y Hx Hy. rewrite Px by lia. reflexivity.
Qed.

(** ** The control flow of [Blur] *)

Section BlurFacts.
Variables (rounding unroll : bool).
Variable addr_of : heap_block -> Z.
Variable junk : heap_block -> nat -> Z.
Variable src_addr : Z.

Local Abbreviation Blur' := (Blur rounding unroll addr_of junk src_addr).

Lemma Blur_sat_heap sp rb dp dstSize sw sh quality passCount rx ry ow :
  snd (fst (Blur_sat unroll addr_of junk src_addr sp rb dp dstSize sw sh
              quality passCount rx ry ow))
  = match quality with
    | kHigh_Quality =>
        [ev_alloc blk_storage
           ((sw + 2 * (passCount - 1) * rx + 1)
            * (sh + 2 * (passCount - 1) * ry + 1));
         ev_alloc blk_tmpBuffer dstSize;
         ev_free blk_tmpBuffer; ev_free blk_storage]
    | kLow_Quality =>
        [ev_alloc blk_storage
           ((sw + 2 * (passCount - 1) * rx + 1)
            * (sh + 2 * (passCount - 1) * ry + 1));
         ev_free blk_storage]
    end.
Proof.
  unfold Blur_sat, sat_pass.
  destruct (ow =? 255), quality; reflexivity.
Qed.

Lemma Blur_sat_calls sp rb dp dstSize sw sh quality passCount rx ry ow :
  length (filter is_kernel_call
            (snd (Blur_sat unroll addr_of junk src_addr sp rb dp dstSize
                    sw sh quality passCount rx ry ow)))
  = Z.to_nat (passCount_of quality)
  /\ length (filter is_box_call
               (snd (Blur_sat unroll addr_of junk src_addr sp rb dp dstSize
                       sw sh quality passCount rx ry ow))) = 0%nat.
Proof.
  unfold Blur_sat, sat_pass.
  destruct (ow =? 255), quality; split; reflexivity.
Qed.

Lemma Blur_separable_calls sp rb tp dp sw sh quality passRadius rx ry ow :
  length (filter is_box_call
            (snd (Blur_separable rounding sp rb tp dp sw sh quality
                    passRadius rx ry ow)))
  = Z.to_nat (2 * passCount_of quality)
  /\ length (filter is_kernel_call
               (snd (Blur_separable rounding sp rb tp dp sw sh quality
                       passRadius rx ry ow))) = 0%nat.
Proof.
  unfold Blur_separable.
  destruct (ow =? 255), (get_adjusted_radii passRadius), quality;
    split; reflexivity.
Qed.

Lemma stage_heap_live separable quality dstSize storage :
  live (stage_heap separable quality dstSize storage) = [blk_dp]
  /\ live (stage_heap separable quality dstSize storage ++ [ev_free blk_dp])
     = []
  /\ live (stage_heap separable quality dstSize storage
           ++ [ev_alloc blk_inner 0; ev_free blk_dp]) = [blk_inner].
Proof. destruct separable, quality; repeat split; reflexivity. Qed.

(** Which calls succeed. *)
Lemma Blur_ret_eq dst src radius style quality margin separable :
  br_ret (Blur' dst src radius style quality margin separable)
  = Format_is_A8 (fFormat src)
    && negb (Blur_rx radius quality <=? 0)
    && Blur_sizes_ok src radius style quality.
Proof.
  unfold Blur, Blur_sizes_ok, Blur_header, Blur_margin, Blur_rx,
    Blur_passRadius, Blur_passCount, outset.
  destruct (Format_is_A8 (fFormat src)); [|reflexivity].
  cbn [negb andb].
  destruct (SkScalarCeil _ <=? 0); [reflexivity|].
  cbn [negb andb].
  destruct (fImage src) as [sp|]; [|reflexivity].
  destruct (computeImageSize _ =? 0); [reflexivity|].
  cbn [negb andb].
  destruct separable.
  - destruct (Blur_separable _ _ _ _ _ _ _ _ _ _ _ _) as [dp calls].
    destruct style; try reflexivity.
    cbn [is_inner andb]. destruct (computeImageSize src =? 0); reflexivity.
  - destruct (Blur_sat _ _ _ _ _ _ _ _ _ _ _ _ _ _ _) as [[dp heap] calls].
    destruct style; try reflexivity.
    cbn [is_inner andb]. destruct (computeImageSize src =? 0); reflexivity.
Qed.

(** The two rejections that come first leave everything untouched. *)
Lemma Blur_rejects dst src radius style quality margin separable :
  Format_is_A8 (fFormat src) = false \/ Blur_rx radius quality <= 0 ->
  Blur' dst src radius style quality margin separable
  = {| br_ret := false; br_dst := dst; br_margin := margin;
       br_heap := []; br_calls := [] |}.
Proof.
  intros H. unfold Blur, Blur_rx, Blur_passRadius in *.
  destruct (Format_is_A8 (fFormat src)); [|reflexivity].
  cbn [negb]. destruct H as [H|H]; [discriminate|].
  destruct (Z.leb_spec (SkScalarCeil
              (passRadius_of radius (Blur_quality radius quality))) 0);
    [reflexivity | lia].
Qed.

(** A source without pixels: only the bounds are computed. *)
Lemma Blur_null_image dst src radius style quality margin separable :
  Format_is_A8 (fFormat src) = true -> 0 < Blur_rx radius quality ->
  fImage src = None ->
  Blur' dst src radius style quality margin separable
  = {| br_ret := true;
       br_dst :=
         if is_inner style
         then {| fImage := None; fBounds := fBounds src;
                 fRowBytes := fRowBytes src; fFormat := kA8_Format |}
         else Blur_header src radius quality;
       br_margin := set_margin margin (Blur_margin radius quality)
                      (Blur_margin radius quality);
       br_heap := []; br_calls := [] |}.
Proof.
  intros HA Hrx Himg.
  unfold Blur, Blur_header, Blur_margin, Blur_rx, Blur_passRadius,
    Blur_passCount, outset in *.
  rewrite HA, Himg. cbn [negb].
  destruct (Z.leb_spec (SkScalarCeil
              (passRadius_of radius (Blur_quality radius quality))) 0);
    [lia|].
  destruct style; reflexivity.
Qed.

(** An output too big to allocate: rejected before any allocation. *)
Lemma Blur_dst_too_big dst src radius style quality margin separable sp :
  Format_is_A8 (fFormat src) = true -> 0 < Blur_rx radius quality ->
  fImage src = Some sp ->
  computeImageSize (Blur_header src radius quality) = 0 ->
  Blur' dst src radius style quality margin separable
  = {| br_ret := false;
       br_dst := Blur_header src radius quality;
       br_margin := set_margin margin (Blur_margin radius quality)
                      (Blur_margin radius quality);
       br_heap := []; br_calls := [] |}.
Proof.
  intros HA Hrx Himg Hsize.
  unfold Blur, Blur_header, Blur_margin, Blur_rx, Blur_passRadius,
    Blur_passCount, outset in *.
  rewrite HA, Himg. cbn [negb].
  destruct (Z.leb_spec (SkScalarCeil
              (passRadius_of radius (Blur_quality radius quality))) 0);
    [lia|].
  rewrite Hsize. reflexivity.
Qed.

(** A call that reaches the blur stage. *)
Lemma Blur_stage dst src radius style quality margin separable sp :
  Format_is_A8 (fFormat src) = true -> 0 < Blur_rx radius quality ->
  fImage src = Some sp ->
  computeImageSize (Blur_header src radius quality) <> 0 ->
  let r := Blur' dst src radius style quality margin separable in
  let q := Blur_quality radius quality in
  let m := Blur_margin radius quality in
  br_margin r = set_margin margin m m
  /\ (exists storage,
        br_heap r
        = stage_heap separable q
            (computeImageSize (Blur_header src radius quality)) storage
          ++ (if is_inner style
              then if computeImageSize src =? 0 then [ev_free blk_dp]
                   else [ev_alloc blk_inner (computeImageSize src);
                         ev_free blk_dp]
              else []))
  /\ length (filter is_box_call (br_calls r))
     = (if separable then Z.to_nat (2 * passCount_of q) else 0%nat)
  /\ length (filter is_kernel_call (br_calls r))
     = (if separable then 0%nat else Z.to_nat (passCount_of q))
  /\ (br_ret r = true ->
      fBounds (br_dst r)
      = (if is_inner style then fBounds src
         else outset (fBounds src) m m)
      /\ fRowBytes (br_dst r)
        = (if is_inner style then fRowBytes src
           else fRowBytes (Blur_header src radius quality))
      /\ fImage (br_dst r) <> None /\ fFormat (br_dst r) = kA8_Format)
  /\ (br_ret r = false ->
      fBounds (br_dst r) = outset (fBounds src) m m).
Proof.
  intros HA Hrx Himg Hsize.
  unfold Blur, Blur_header, Blur_margin, Blur_rx, Blur_passRadius,
    Blur_passCount, outset in *.
  rewrite HA, Himg. cbn [negb].
  destruct (Z.leb_spec (SkScalarCeil
              (passRadius_of radius (Blur_quality radius quality))) 0);
    [lia|].
  apply Z.eqb_neq in Hsize. rewrite Hsize.
  cbv zeta.
  destruct separable.
  - match goal with
    | |- context [Blur_separable ?a ?b ?c ?d ?e ?f ?g ?h ?i ?j ?k ?l] =>
        pose proof (Blur_separable_calls b c d e f g h i j k l) as [Hc1 Hc2];
        destruct (Blur_separable a b c d e f g h i j k l) as [dp calls]
    end.
    cbn [snd] in Hc1, Hc2. unfold stage_heap.
    destruct style; cbn [is_inner];
      try destruct (computeImageSize src =? 0);
      cbn [br_margin br_heap br_calls br_ret br_dst fBounds fRowBytes
           fImage fFormat];
      (split; [reflexivity|]);
      (split; [exists 0; rewrite ?app_nil_r; reflexivity|]);
      (split; [exact Hc1|]); (split; [exact Hc2|]);
      (split; [intros Hret; try discriminate;
               repeat split; congruence
              | intros Hret; try discriminate; reflexivity]).
  - match goal with
    | |- context [Blur_sat ?a ?b ?c ?d ?e ?f ?g ?h ?i ?j ?k ?l ?m ?n ?o] =>
        pose proof (Blur_sat_calls e f g h i j k l m n o) as [Hc1 Hc2];
        pose proof (Blur_sat_heap e f g h i j k l m n o) as Hh;
        destruct (Blur_sat a b c d e f g h i j k l m n o) as [[dp heap] calls]
    end.
    cbn [snd fst] in Hc1, Hc2, Hh. subst heap. unfold stage_heap.
    destruct (Blur_quality radius quality);
    destruct style; cbn [is_inner];
      try destruct (computeImageSize src =? 0);
      cbn [br_margin br_heap br_calls br_ret br_dst fBounds fRowBytes
           fImage fFormat];
      (split; [reflexivity|]);
      (split; [eexists; rewrite ?app_nil_r; cbn [app]; reflexivity|]);
      (split; [exact Hc2|]); (split; [exact Hc1|]);
      (split; [intros Hret; try discriminate;
               repeat split; congruence
              | intros Hret; try discriminate; reflexivity]).
Qed.
End BlurFacts.

(** ** [Blur] does not depend on where its buffers live *)

Lemma sat_pass_addr unroll sumBuffer src a a' sw sh rb dst rx ry ow :
  sat_pass unroll sumBuffer src a sw sh rb dst rx ry ow
  = sat_pass unroll sumBuffer src a' sw sh rb dst rx ry ow.
Proof.
  unfold sat_pass. rewrite (build_sum_buffer_addr a a'). reflexivity.
Qed.

Lemma Blur_sat_addr unroll addr_of addr_of' junk sa sa' sp rb dp dstSize sw sh
      quality passCount rx ry ow :
  Blur_sat unroll addr_of junk sa sp rb dp dstSize sw sh quality passCount
    rx ry ow
  = Blur_sat unroll addr_of' junk sa' sp rb dp dstSize sw sh quality passCount
      rx ry ow.
Proof.
  unfold Blur_sat.
  rewrite (sat_pass_addr unroll _ sp sa sa').
  destruct (sat_pass _ _ _ sa' _ _ _ _ _ _ _) as [[sb1 dp1] c1].
  destruct quality; [reflexivity|].
  rewrite (sat_pass_addr unroll _ dp1 (addr_of blk_dp) (addr_of' blk_dp)).
  destruct (sat_pass _ _ _ (addr_of' blk_dp) _ _ _ _ _ _ _) as [[sb2 tmp2] c2].
  rewrite (sat_pass_addr unroll _ tmp2 (addr_of blk_tmpBuffer)
             (addr_of' blk_tmpBuffer)).
  reflexivity.
Qed.

Lemma Blur_addr rounding unroll addr_of addr_of' junk sa sa'
      dst src radius style quality margin separable :
  Blur rounding unroll addr_of junk sa dst src radius style quality margin
    separable
  = Blur rounding unroll addr_of' junk sa' dst src radius style quality margin
      separable.
Proof.
  unfold Blur.
  destruct (negb (Format_is_A8 (fFormat src))); [reflexivity|].
  destruct (SkScalarCeil _ <=? 0); [reflexivity|].
  destruct (fImage src) as [sp|]; [|reflexivity].
  destruct (computeImageSize _ =? 0); [reflexivity|].
  destruct separable; [reflexivity|].
  rewrite (Blur_sat_addr unroll addr_of addr_of' junk sa sa').
  reflexivity.
Qed.

(** ** [BlurRect] asked for the bounds only *)

Lemma BlurRect_just_bounds junk dst src provided_radius style margin :
  BlurRect junk dst src provided_radius style margin
    kJustComputeBounds_CreateMode
  = {| br_ret := true;
       br_dst :=
         if is_inner style
         then {| fImage := None; fBounds := round_rect src;
                 fRowBytes := to_u32 (SkScalarFloorToInt (rect_width src));
                 fFormat := kA8_Format |}
         else {| fImage := None;
                 fBounds := outset_round_rect src (BlurRect_pad provided_radius);
                 fRowBytes :=
                   to_u32 (irect_width
                             (outset_round_rect src
                                (BlurRect_pad provided_radius)));
                 fFormat := kA8_Format |};
       br_margin := set_margin margin (BlurRect_pad provided_radius)
                      (BlurRect_pad provided_radius);
       br_heap := []; br_calls := [] |}.
Proof.
  unfold BlurRect. destruct style; reflexivity.
Qed.

(** ** Region sums by inclusion-exclusion *)

Lemma to_u32_mix4 a b c d :
  to_u32 (to_u32 a + to_u32 b - to_u32 c - to_u32 d) = to_u32 (a + b - c - d).
Proof.
  unfold to_u32.
  rewrite (Z.mod_eq a), (Z.mod_eq b), (Z.mod_eq c), (Z.mod_eq d) by lia.
  replace (a - 2 ^ 32 * (a / 2 ^ 32) + (b - 2 ^ 32 * (b / 2 ^ 32))
           - (c - 2 ^ 32 * (c / 2 ^ 32)) - (d - 2 ^ 32 * (d / 2 ^ 32)))
    with (a + b - c - d
          + (- (a / 2 ^ 32) - b / 2 ^ 32 + c / 2 ^ 32 + d / 2 ^ 32) * 2 ^ 32)
    by ring.
  apply Z_mod_plus_full.
Qed.

Lemma rect_sum_bound src rb (w h : nat) :
  bytes src -> 0 <= rect_sum src rb w h <= 255 * Z.of_nat w * Z.of_nat h.
Proof.
  intros Hb. induction h as [|h IH]; cbn [rect_sum]; [lia|].
  pose proof (sum_range_bound src (Z.of_nat h * rb) w Hb). nia.
Qed.

Lemma region_sum_bound src rb (x0 w y0 h : nat) :
  bytes src -> 0 <= region_sum src rb x0 w y0 h <= 255 * Z.of_nat w * Z.of_nat h.
Proof.
  intros Hb. induction h as [|h IH]; cbn [region_sum]; [lia|].
  pose proof (sum_range_bound src (Z.of_nat (y0 + h) * rb + Z.of_nat x0) w Hb).
  nia.
Qed.

Lemma rect_sum_corners src rb (x0 w y0 h : nat) :
  rect_sum src rb (x0 + w) (y0 + h) + rect_sum src rb x0 y0
  - rect_sum src rb (x0 + w) y0 - rect_sum src rb x0 (y0 + h)
  = region_sum src rb x0 w y0 h.
Proof.
  induction h as [|h IH].
  - rewrite Nat.add_0_r. cbn [region_sum]. lia.
  - replace (y0 + Datatypes.S h)%nat with (Datatypes.S (y0 + h)) by lia.
    cbn [rect_sum region_sum]. rewrite <- IH, sum_range_app. lia.
Qed.

(** Four lookups in the table give the sum of a region, modulo 2^32. *)
Lemma table_region buf src sumW rb (rows : nat) (x0 w y0 h : nat) :
  table_rows buf src sumW rb rows ->
  (y0 + h <= rows)%nat -> Z.of_nat (x0 + w) < sumW ->
  four_corners buf
    (Z.of_nat y0 * sumW + Z.of_nat x0)
    (Z.of_nat (y0 + h) * sumW + Z.of_nat (x0 + w))
    (Z.of_nat y0 * sumW + Z.of_nat (x0 + w))
    (Z.of_nat (y0 + h) * sumW + Z.of_nat x0)
  = to_u32 (region_sum src rb x0 w y0 h).
Proof.
  intros Htab Hy Hx. unfold four_corners.
  rewrite !Htab by lia.
  rewrite to_u32_mix4. f_equal.
  rewrite <- rect_sum_corners. lia.
Qed.

(** ** A table wide enough to wrap around *)

Lemma bytes_repeat v (m : nat) : 0 <= v <= 255 -> bytes (repeat v m).
Proof.
  intros Hv. unfold bytes. induction m as [|m IH]; cbn [repeat]; constructor;
    assumption.
Qed.

Lemma load_repeat v (m : nat) p :
  0 <= p < Z.of_nat m -> load (repeat v m) p = v.
Proof.
  intros Hp. unfold load. destruct (Z.ltb_spec p 0); [lia|].
  rewrite <- nth_lookup. apply nth_repeat_lt. lia.
Qed.

Lemma sum_range_repeat v (m k : nat) :
  (k <= m)%nat -> sum_range (repeat v m) 0 k = v * Z.of_nat k.
Proof.
  induction k as [|k IH]; intros Hk; cbn [sum_range]; [lia|].
  rewrite IH by lia. rewrite load_repeat by lia. lia.
Qed.

(** The last entry of the table of a one-row image of [n] opaque pixels. *)
Lemma wide_row_entry a (n : Z) :
  0 <= n ->
  let src := repeat 255 (Z.to_nat n) in
  let sum := repeat 0 (Z.to_nat ((n + 1) * 2)) in
  load (build_sum_buffer a sum n 1 src n) (1 * (n + 1) + n) = to_u32 (255 * n)
  /\ rect_sum src n (Z.to_nat n) 1 = 255 * n.
Proof.
  intros Hn src sum.
  assert (Hlen : (n + 1) * (1 + 1) <= Z.of_nat (length sum)).
  { unfold sum. rewrite repeat_length. lia. }
  destruct (build_sum_buffer_table a src n 1 n sum Hn ltac:(lia) Hlen)
    as [_ Htab].
  assert (Hrect : rect_sum src n (Z.to_nat n) 1 = 255 * n).
  { cbn [rect_sum]. change (Z.of_nat 0) with 0. rewrite Z.mul_0_l, Z.add_0_l.
    unfold src. rewrite sum_range_repeat by lia. lia. }
  split; [|exact Hrect].
  change (Z.to_nat 1) with 1%nat in Htab.
  specialize (Htab (Z.to_nat n) 1%nat ltac:(lia) ltac:(lia)).
  change (Z.of_nat 1) with 1 in Htab.
  rewrite Z2Nat.id in Htab by lia.
  rewrite Htab, Hrect. reflexivity.
Qed.

(** ** Consequences for the callers of [Blur] *)

Lemma Format_is_A8_iff f : Format_is_A8 f = true <-> f = kA8_Format.
Proof. destruct f; cbn; split; congruence. Qed.

Lemma Format_is_A8_false f : Format_is_A8 f = false <-> f <> kA8_Format.
Proof. destruct f; cbn; split; congruence. Qed.

Section BlurCallers.
Variables (rounding unroll : bool).
Variable addr_of : heap_block -> Z.
Variable junk : heap_block -> nat -> Z.
Variable src_addr : Z.

Local Abbreviation Blur' := (Blur rounding unroll addr_of junk src_addr).

(** Every call that passes the two first checks reports the margin. *)
Lemma Blur_reports_margin dst src radius style quality margin separable :
  Format_is_A8 (fFormat src) = true -> 0 < Blur_rx radius quality ->
  br_margin (Blur' dst src radius style quality margin separable)
  = set_margin margin (Blur_margin radius quality) (Blur_margin radius quality).
Proof.
  intros HA Hrx.
  destruct (fImage src) as [sp|] eqn:Himg.
  - destruct (Z.eq_dec (computeImageSize (Blur_header src radius quality)) 0)
      as [Hz|Hnz].
    + rewrite (Blur_dst_too_big _ _ _ _ _ _ _ _ _ _ _ _ sp HA Hrx Himg Hz).
      reflexivity.
    + apply (Blur_stage rounding unroll addr_of junk src_addr dst src radius
               style quality margin separable sp HA Hrx Himg Hnz).
  - rewrite Blur_null_image by assumption. reflexivity.
Qed.

(** A call that fails leaves no block allocated. *)
Lemma Blur_failure_frees dst src radius style quality margin separable :
  br_ret (Blur' dst src radius style quality margin separable) = false ->
  live (br_heap (Blur' dst src radius style quality margin separable)) = [].
Proof.
  intros Hret.
  destruct (Format_is_A8 (fFormat src)) eqn:HA;
    [|rewrite Blur_rejects by (left; exact HA); reflexivity].
  destruct (Z.le_gt_cases (Blur_rx radius quality) 0) as [Hrx|Hrx];
    [rewrite Blur_rejects by (right; exact Hrx); reflexivity|].
  destruct (fImage src) as [sp|] eqn:Himg;
    [|rewrite Blur_null_image in Hret by (assumption || lia); discriminate].
  destruct (Z.eq_dec (computeImageSize (Blur_header src radius quality)) 0)
    as [Hz|Hnz].
  { rewrite (Blur_dst_too_big _ _ _ _ _ _ _ _ _ _ _ _ sp HA Hrx Himg Hz).
    reflexivity. }
  destruct (Blur_stage rounding unroll addr_of junk src_addr dst src radius
              style quality margin separable sp HA Hrx Himg Hnz)
    as (_ & (storage & Hheap) & _).
  rewrite Hheap.
  rewrite Blur_ret_eq, HA in Hret. unfold Blur_sizes_ok in Hret.
  rewrite Himg in Hret.
  destruct (Z.leb_spec (Blur_rx radius quality) 0); [lia|].
  apply Z.eqb_neq in Hnz. rewrite Hnz in Hret. cbn [negb andb] in Hret.
  destruct style; cbn [is_inner andb negb] in Hret; try discriminate.
  destruct (computeImageSize src =? 0); [|discriminate].
  cbn [is_inner].
  apply stage_heap_live.
Qed.

(** A successful inner blur comes back with the bounds and the stride of
    the source. *)
Lemma Blur_inner_geometry dst src radius quality margin separable :
  br_ret (Blur' dst src radius kInner_Style quality margin separable) = true ->
  fBounds (br_dst (Blur' dst src radius kInner_Style quality margin separable))
  = fBounds src
  /\ fRowBytes (br_dst (Blur' dst src radius kInner_Style quality margin
                         separable))
     = fRowBytes src.
Proof.
  intros Hret. pose proof Hret as Hret'.
  rewrite Blur_ret_eq in Hret'.
  apply andb_true_iff in Hret'. destruct Hret' as [Hret' Hsz].
  apply andb_true_iff in Hret'. destruct Hret' as [HA Hrx].
  apply negb_true_iff, Z.leb_gt in Hrx.
  destruct (fImage src) as [sp|] eqn:Himg.
  - unfold Blur_sizes_ok in Hsz. rewrite Himg in Hsz.
    apply andb_true_iff in Hsz. destruct Hsz as [Hsz _].
    apply negb_true_iff, Z.eqb_neq in Hsz.
    destruct (Blur_stage rounding unroll addr_of junk src_addr dst src radius
                kInner_Style quality margin separable sp HA Hrx Himg Hsz)
      as (_ & _ & _ & _ & Hok & _).
    destruct (Hok Hret) as (Hb & Hr & _). cbn [is_inner] in Hb, Hr.
    split; assumption.
  - rewrite Blur_null_image by assumption. cbn. split; reflexivity.
Qed.
End BlurCallers.

(** ** What every loop keeps *)

Section LoopKeeps.
Context {S : Type}.
Variable P : S -> Prop.
Variable body : Z -> S -> S.
Hypothesis Hbody : forall x s, P s -> P (body x s).

Lemma loop_keeps fuel cond step x s :
  P s -> P (snd (loop fuel cond step body x s)).
Proof.
  revert x s. induction fuel as [|k IH]; intros x s Hs; cbn [loop].
  - exact Hs.
  - destruct (cond x s); [apply IH, Hbody, Hs | exact Hs].
Qed.

Lemma for_lt_keeps n step x s : P s -> P (snd (for_lt n step body x s)).
Proof. apply loop_keeps. Qed.

Lemma for_ge_keeps lo step x s : P s -> P (snd (for_ge lo step body x s)).
Proof. apply loop_keeps. Qed.
End LoopKeeps.

(** ** The kernels never resize the buffer they write *)

Lemma boxBlur_row_length flag src scale stride l r w so doff dst :
  length (r_dst (boxBlur_row flag src scale stride l r w so doff dst))
  = length dst.
Proof.
  rewrite boxBlur_row_iter.
  repeat (apply (iter_inv (fun st => length (r_dst st) = length dst));
          [intros st Hst; cbn [r_dst ZERO_ITER LEFT_BORDER_ITER TRIVIAL_ITER
                                 CENTER_ITER RIGHT_BORDER_ITER];
           rewrite length_store; exact Hst|]).
  reflexivity.
Qed.

Lemma boxBlur_length flag src src_y_stride dst l r width height transpose :
  length (out_dst (boxBlur flag src src_y_stride dst l r width height transpose))
  = length dst.
Proof.
  unfold boxBlur.
  match goal with
  | |- context [for_lt ?n 1 ?body ?x (dst, true)] =>
      pose proof (for_lt_keeps (fun s : list Z * bool =>
                                  length (fst s) = length dst)
                    body) as H; specialize (H ltac:(
                      intros y [d ok] Hd; cbn [fst] in *;
                      rewrite boxBlur_row_length; exact Hd) n 1 x (dst, true)
                      eq_refl);
      destruct (for_lt n 1 body x (dst, true)) as [x' [d ok]]
  end.
  exact H.
Qed.

Lemma boxBlurInterp_row_length flag src oscale iscale stride radius w so doff dst :
  length (i_dst (boxBlurInterp_row flag src oscale iscale stride radius w so
                   doff dst))
  = length dst.
Proof.
  rewrite boxBlurInterp_row_iter.
  repeat (apply (iter_inv (fun st => length (i_dst st) = length dst));
          [intros st Hst;
           cbn [i_dst INTERP_LEFT_BORDER_ITER INTERP_TRIVIAL_ITER
                  INTERP_CENTER_ITER INTERP_RIGHT_BORDER_ITER];
           rewrite length_store; exact Hst|]).
  reflexivity.
Qed.

Lemma boxBlurInterp_length flag src src_y_stride dst radius width height
      transpose outer_weight :
  length (out_dst (boxBlurInterp flag src src_y_stride dst radius width height
                     transpose outer_weight))
  = length dst.
Proof.
  unfold boxBlurInterp.
  match goal with
  | |- context [for_lt ?n 1 ?body ?x (dst, true)] =>
      pose proof (for_lt_keeps (fun s : list Z * bool =>
                                  length (fst s) = length dst)
                    body) as H; specialize (H ltac:(
                      intros y [d ok] Hd; cbn [fst] in *;
                      rewrite boxBlurInterp_row_length; exact Hd) n 1 x
                      (dst, true) eq_refl);
      destruct (for_lt n 1 body x (dst, true)) as [x' [d ok]]
  end.
  exact H.
Qed.

(** ** [boxBlur] writes the cells of its output rows and no other *)

Lemma boxBlur_index_range transpose nw h y k :
  0 <= y < h -> 0 <= k < nw ->
  0 <= boxBlur_index transpose nw h y k < nw * h.
Proof. intros Hy Hk. unfold boxBlur_index. destruct transpose; nia. Qed.

Lemma boxBlur_frame flag src src_y_stride dst l r width height transpose p :
  0 <= l -> 0 <= r -> 1 <= width -> 1 <= height ->
  bytes src ->
  (width + 2 * Z.max l r) * height <= Z.of_nat (length dst) ->
  (forall y k, 0 <= y < height -> 0 <= k < width + 2 * Z.max l r ->
     p <> boxBlur_index transpose (width + 2 * Z.max l r) height y k) ->
  load (out_dst (boxBlur flag src src_y_stride dst l r width height transpose)) p
  = load dst p.
Proof.
  intros Hl Hr Hw Hh Hsrc Hlen Hp.
  set (nw := width + 2 * Z.max l r) in *.
  unfold boxBlur.
  rewrite SkMax32_max. replace (width + Z.max l r * 2) with nw by (unfold nw; lia).
  match goal with
  | |- context [for_lt ?n 1 ?body ?x (dst, true)] => set (B := body)
  end.
  rewrite for_lt_iter_from. rewrite Z.sub_0_r.
  assert (Hrows : forall m : nat,
    (m <= Z.to_nat height)%nat ->
    let D := fst (iter_from B m 0 (dst, true)) in
    length D = length dst /\ load D p = load dst p).
  { induction m as [|m IH]; intros Hm.
    - cbn. split; reflexivity.
    - specialize (IH ltac:(lia)). cbv zeta in IH |- *.
      rewrite iter_from_snoc.
      destruct (iter_from B m 0 (dst, true)) as [D ok]. cbn [fst] in IH.
      destruct IH as [IHlen IHp].
      unfold B at 1. cbn [fst]. rewrite Z.add_0_l.
      set (stride := if transpose then height else 1).
      set (doff := Z.of_nat m * (if transpose then 1 else nw)).
      destruct (boxBlur_row_spec flag src stride l r width
                  (Z.of_nat m * src_y_stride) doff D)
        as (Rlen & _ & Rframe); try assumption; try lia.
      { unfold stride. destruct transpose; lia. }
      { unfold doff. destruct transpose; nia. }
      { fold nw. rewrite IHlen. unfold doff, stride. destruct transpose; nia. }
      fold nw in Rframe.
      split; [congruence|].
      rewrite Rframe; [exact IHp|].
      intros k Hk E.
      apply (Hp (Z.of_nat m) k); [lia | lia |].
      rewrite E. unfold boxBlur_index, doff, stride. destruct transpose; lia. }
  specialize (Hrows (Z.to_nat height) ltac:(lia)). cbv zeta in Hrows.
  destruct (iter_from B (Z.to_nat height) 0 (dst, true)) as [D ok].
  cbn [fst] in Hrows. cbn [out_dst]. apply Hrows.
Qed.

(** ** The fixed-point average *)

Lemma box_average_div flag ks S :
  box_average flag ks S = (S * (2 ^ 24 / ks) + blur_half flag) / 2 ^ 24.
Proof.
  unfold box_average. rewrite Z.shiftr_div_pow2 by lia.
  change (Z.shiftl 1 24) with (2 ^ 24). reflexivity.
Qed.

Lemma blur_half_cases flag :
  blur_half flag = if flag then 0 else 2 ^ 23.
Proof. destruct flag; reflexivity. Qed.

(** The rounding term adds at most one level. *)
Lemma box_average_rounding ks S :
  box_average true ks S <= box_average false ks S <= box_average true ks S + 1.
Proof.
  rewrite !box_average_div, !blur_half_cases.
  set (a := S * (2 ^ 24 / ks)). rewrite Z.add_0_r.
  split.
  - apply Z.div_le_mono; lia.
  - replace (a / 2 ^ 24 + 1) with ((a + 1 * 2 ^ 24) / 2 ^ 24)
      by (rewrite Z.div_add by lia; reflexivity).
    apply Z.div_le_mono; lia.
Qed.

Lemma box_average_range flag ks S :
  1 <= ks -> 0 <= S <= 255 * ks -> 0 <= box_average flag ks S <= 255.
Proof.
  intros Hks HS. rewrite box_average_div.
  destruct (scale_range ks Hks) as [[Hs0 Hs1] Hs2].
  pose proof (blur_half_range flag) as Hh.
  assert (0 <= S * (2 ^ 24 / ks) <= 255 * 2 ^ 24) by nia.
  split.
  - apply Z.div_pos; lia.
  - assert ((S * (2 ^ 24 / ks) + blur_half flag) / 2 ^ 24 < 256); [|lia].
    apply Z.div_lt_upper_bound; lia.
Qed.

(** A window of [ks] pixels that all hold [c] averages to [c] when the
    rounding term is there, and to [c] or [c - 1] without it. *)
Lemma box_average_flat ks c :
  1 <= ks <= 32897 -> 0 <= c <= 255 ->
  box_average false ks (c * ks) = c.
Proof.
  intros Hks Hc. rewrite box_average_div, blur_half_cases.
  assert (Hq : 2 ^ 24 - ks < ks * (2 ^ 24 / ks) <= 2 ^ 24).
  { pose proof (Z.mul_div_le (2 ^ 24) ks ltac:(lia)).
    pose proof (Z.mul_succ_div_gt (2 ^ 24) ks ltac:(lia)). lia. }
  symmetry. apply Z.div_unique with
    (r := c * ks * (2 ^ 24 / ks) + 2 ^ 23 - 2 ^ 24 * c); [|lia].
  left. nia.
Qed.

Lemma box_average_flat_truncated ks c :
  1 <= ks <= 65793 -> 0 <= c <= 255 ->
  c - 1 <= box_average true ks (c * ks) <= c.
Proof.
  intros Hks Hc. rewrite box_average_div, blur_half_cases, Z.add_0_r.
  assert (Hq : 2 ^ 24 - ks < ks * (2 ^ 24 / ks) <= 2 ^ 24).
  { pose proof (Z.mul_div_le (2 ^ 24) ks ltac:(lia)).
    pose proof (Z.mul_succ_div_gt (2 ^ 24) ks ltac:(lia)). lia. }
  split.
  - apply Z.div_le_lower_bound; [lia|]. nia.
  - apply Z.div_le_upper_bound; [lia|]. nia.
Qed.

Lemma sum_range_flat m p (n : nat) c :
  (forall i, p <= i < p + Z.of_nat n -> load m i = c) ->
  sum_range m p n = c * Z.of_nat n.
Proof.
  induction n as [|n IH]; intros H; cbn [sum_range].
  - lia.
  - rewrite IH by (intros; apply H; lia).
    rewrite (H (p + Z.of_nat n)) by lia. lia.
Qed.

(** A window that lies inside the row. *)
Lemma window_sum_inside src row width diameter j :
  0 <= diameter <= j -> j < width ->
  window_sum src row width diameter j
  = sum_range src (row + (j - diameter)) (Z.to_nat (diameter + 1)).
Proof.
  intros Hd Hj. unfold window_sum.
  rewrite Z.max_r, Z.min_l by lia. f_equal. lia.
Qed.

(** ** The two weights of the interpolating blur *)

Lemma interp_weights_range ow :
  0 <= ow <= 255 ->
  0 <= interp_outer_weight ow <= 255
  /\ 0 <= interp_inner_weight ow <= 256
  /\ interp_outer_weight ow + interp_inner_weight ow <= 256.
Proof.
  intros How. unfold interp_outer_weight, interp_inner_weight, to_u8.
  rewrite !Z.shiftr_div_pow2 by lia.
  change (2 ^ 7) with 128. change (2 ^ 8) with 256.
  destruct (Z.eq_dec ow 255) as [-> | Hne]; [vm_compute; intuition discriminate|].
  destruct (Z.lt_ge_cases ow 128) as [Hlo | Hhi].
  - rewrite (Z.div_small ow 128) by lia.
    assert ((255 - ow) / 128 = 1) as ->
      by (symmetry; apply Z.div_unique with (r := 255 - ow - 128); lia).
    rewrite Z.mod_small by lia. lia.
  - assert (ow / 128 = 1) as ->
      by (symmetry; apply Z.div_unique with (r := ow - 128); lia).
    rewrite (Z.div_small (255 - ow) 128) by lia.
    rewrite Z.mod_small by lia. lia.
Qed.

(** Below 255 the two weights add up to 256; at 255 the [uint8_t] outer
    weight wraps around to 0. *)
Lemma interp_weights_sum ow :
  0 <= ow <= 254 -> interp_outer_weight ow + interp_inner_weight ow = 256.
Proof.
  intros How. unfold interp_outer_weight, interp_inner_weight, to_u8.
  rewrite !Z.shiftr_div_pow2 by lia.
  change (2 ^ 7) with 128. change (2 ^ 8) with 256.
  destruct (Z.lt_ge_cases ow 128) as [Hlo | Hhi].
  - rewrite (Z.div_small ow 128) by lia.
    assert ((255 - ow) / 128 = 1) as ->
      by (symmetry; apply Z.div_unique with (r := 255 - ow - 128); lia).
    rewrite Z.mod_small by lia. lia.
  - assert (ow / 128 = 1) as ->
      by (symmetry; apply Z.div_unique with (r := ow - 128); lia).
    rewrite (Z.div_small (255 - ow) 128) by lia.
    rewrite Z.mod_small by lia. lia.
Qed.

(** A sum of at most [255 * ks] bytes times the scale of the weight [wt]
    stays below [255 * wt * 2^16], in [uint32_t] arithmetic as well. *)
Lemma weighted_sum_range wt ks S :
  1 <= ks -> 0 <= wt <= 256 -> 0 <= S <= 255 * ks ->
  let sc := Z.shiftl wt 16 / ks in
  to_u32 (Z.quot (Z.shiftl wt 16) ks) = sc
  /\ to_u32 S * sc = S * sc
  /\ 0 <= S * sc <= 255 * wt * 2 ^ 16.
Proof.
  intros Hks Hwt HS sc.
  assert (Hsh : Z.shiftl wt 16 = wt * 2 ^ 16) by (rewrite Z.shiftl_mul_pow2; lia).
  rewrite Z.quot_div_nonneg by lia.
  assert (Hsc : 0 <= sc <= wt * 2 ^ 16 /\ ks * sc <= wt * 2 ^ 16).
  { unfold sc. rewrite Hsh. split.
    - split; [apply Z.div_pos; lia|]. apply Z.div_le_upper_bound; nia.
    - apply Z.mul_div_le. lia. }
  destruct Hsc as [Hsc Hmul]. fold sc.
  split; [apply to_u32_small; lia|].
  destruct (Z.eq_dec sc 0) as [E | Hnz].
  - rewrite E, !Z.mul_0_r. lia.
  - assert (ks <= wt * 2 ^ 16).
    { destruct (Z.le_gt_cases ks (wt * 2 ^ 16)) as [|Hgt]; [assumption|].
      exfalso. apply Hnz. unfold sc. rewrite Hsh. apply Z.div_small. lia. }
    rewrite to_u32_small by nia. split; [reflexivity|]. nia.
Qed.

Lemma interp_px_exact flag radius ow O I :
  1 <= radius -> 0 <= ow <= 255 ->
  0 <= O <= 255 * (2 * radius + 1) -> 0 <= I <= 255 * (2 * radius - 1) ->
  interp_px flag
    (to_u32 (Z.quot (Z.shiftl (interp_outer_weight ow) 16) (radius * 2 + 1)))
    (to_u32 (Z.quot (Z.shiftl (interp_inner_weight ow) 16)
               (radius * 2 + 1 - 2)))
    (to_u32 O) (to_u32 I)
  = interp_average flag radius ow O I.
Proof.
  intros Hr How HO HI. unfold interp_px, interp_average.
  destruct (interp_weights_range ow How) as (Hwo & Hwi & Hsum).
  replace (radius * 2 + 1 - 2) with (2 * radius - 1) by lia.
  replace (radius * 2 + 1) with (2 * radius + 1) by lia.
  destruct (weighted_sum_range (interp_outer_weight ow) (2 * radius + 1) O)
    as (-> & -> & HOs); try lia.
  destruct (weighted_sum_range (interp_inner_weight ow) (2 * radius - 1) I)
    as (-> & -> & HIs); try lia.
  pose proof (blur_half_range flag) as Hh.
  rewrite to_u32_small by lia.
  rewrite Z.shiftr_div_pow2 by lia.
  unfold to_u8. apply Z.mod_small.
  split; [apply Z.div_pos; lia|].
  apply Z.div_lt_upper_bound; lia.
Qed.

(** ** One row of [boxBlurInterp], column by column *)

Lemma sum_range_head m p (n : nat) :
  sum_range m p (Datatypes.S n) = load m p + sum_range m (p + 1) n.
Proof.
  induction n as [|n IH].
  - cbn [sum_range]. replace (p + Z.of_nat 0) with p by lia. lia.
  - cbn [sum_range] in *. rewrite IH.
    replace (p + 1 + Z.of_nat n) with (p + Z.of_nat (Datatypes.S n)) by lia.
    lia.
Qed.

Section InterpRowValues.
Variables (flag : bool) (src : list Z) (stride : Z).
Variables (radius w so doff ow : Z) (dst : list Z).
Hypotheses (Hr : 1 <= radius) (Hw : 0 <= w) (Hsrc : bytes src).
Hypothesis How : 0 <= ow <= 255.

Let d := radius * 2.
Let oscale :=
  to_u32 (Z.quot (Z.shiftl (interp_outer_weight ow) 16) (d + 1)).
Let iscale :=
  to_u32 (Z.quot (Z.shiftl (interp_inner_weight ow) 16) (d + 1 - 2)).

Local Abbreviation ILEFT := (INTERP_LEFT_BORDER_ITER flag src oscale iscale stride).
Local Abbreviation ITRIVIAL := (INTERP_TRIVIAL_ITER flag oscale iscale stride).
Local Abbreviation ICENTER := (INTERP_CENTER_ITER flag src oscale iscale stride).
Local Abbreviation IRIGHT := (INTERP_RIGHT_BORDER_ITER flag src oscale iscale stride).
Local Abbreviation vILEFT := (INTERP_LEFT_value flag src oscale iscale).
Local Abbreviation vITRIVIAL := (INTERP_TRIVIAL_value flag oscale iscale).
Local Abbreviation vICENTER := (INTERP_CENTER_value flag src oscale iscale).
Local Abbreviation vIRIGHT := (INTERP_RIGHT_value flag src oscale iscale).
Local Abbreviation iat := (interp_at src so).
Local Abbreviation avg := (interp_average flag radius ow).

Let c1 := Z.to_nat (SkMin32 w d).
Let c2 := Z.to_nat (d - w).
Let c3 := Z.to_nat (w - d).

Let s1 := {| i_outer_sum := 0; i_inner_sum := 0; i_dptr := doff;
             i_right := so; i_left := so; i_dst := dst |}.
Let s2 := Nat.iter c1 ILEFT s1.
Let s3 := Nat.iter c2 ITRIVIAL s2.
Let s4 := Nat.iter c3 ICENTER s3.
Let s5 := Nat.iter c1 IRIGHT s4.

Lemma boxBlurInterp_row_s5 :
  boxBlurInterp_row flag src oscale iscale stride radius w so doff dst = s5.
Proof. apply boxBlurInterp_row_iter. Qed.

(** *** Where the outer window stands *)

Lemma iat_iter_ILEFT n st L R :
  iat st L R -> iat (Nat.iter n ILEFT st) L (R + Z.of_nat n).
Proof.
  intros (I & HL & HR).
  pose proof (iter_ILEFT_moved flag src oscale iscale stride st n) as (R1 & L1 & _).
  split; [apply iter_inv; [apply interp_inv_LEFT | exact I] | lia].
Qed.

Lemma iat_iter_ITRIVIAL n st L R :
  iat st L R -> iat (Nat.iter n ITRIVIAL st) L R.
Proof.
  intros (I & HL & HR).
  pose proof (iter_ITRIVIAL_moved flag oscale iscale stride st n) as (R1 & L1 & _).
  split; [apply iter_inv; [apply interp_inv_TRIVIAL | exact I] | lia].
Qed.

Lemma iat_iter_ICENTER n st L R :
  iat st L R -> iat (Nat.iter n ICENTER st) (L + Z.of_nat n) (R + Z.of_nat n).
Proof.
  intros (I & HL & HR).
  pose proof (iter_ICENTER_moved flag src oscale iscale stride st n) as (R1 & L1 & _).
  split; [apply iter_inv; [apply interp_inv_CENTER | exact I] | lia].
Qed.

Lemma iat_iter_IRIGHT n st L R :
  iat st L R -> iat (Nat.iter n IRIGHT st) (L + Z.of_nat n) R.
Proof.
  intros (I & HL & HR).
  pose proof (iter_IRIGHT_moved flag src oscale iscale stride st n) as (R1 & L1 & _).
  split; [apply iter_inv; [apply interp_inv_RIGHT | exact I] | lia].
Qed.

Lemma iat_sum st L R :
  iat st L R -> so <= L <= R ->
  i_outer_sum st = to_u32 (sum_range src L (Z.to_nat (R - L))).
Proof.
  intros ((_ & _ & Hs) & HL & HR) H. subst L R.
  rewrite Hs, prefix_sum_diff by lia. reflexivity.
Qed.

Lemma iat_s1 : iat s1 so so.
Proof.
  unfold interp_at, interp_inv, s1; cbn [i_outer_sum i_left i_right].
  rewrite Z.sub_diag. repeat split; lia.
Qed.

Lemma iat_s2 : iat s2 so (so + Z.of_nat c1).
Proof. apply iat_iter_ILEFT, iat_s1. Qed.

Lemma iat_s3 : iat s3 so (so + Z.of_nat c1).
Proof. apply iat_iter_ITRIVIAL, iat_s2. Qed.

Lemma iat_s4 : iat s4 (so + Z.of_nat c3) (so + Z.of_nat c1 + Z.of_nat c3).
Proof. apply iat_iter_ICENTER, iat_s3. Qed.

Lemma ic1_le_d : Z.of_nat c1 <= d /\ Z.of_nat c1 <= w.
Proof.
  unfold c1, SkMin32, d in *. destruct (Z.ltb_spec (radius * 2) w); lia.
Qed.

Lemma icounts :
  Z.of_nat c1 = Z.min w d /\
  Z.of_nat c2 = Z.max 0 (d - w) /\ Z.of_nat c3 = Z.max 0 (w - d).
Proof.
  unfold c1, c2, c3, SkMin32.
  destruct (Z.ltb_spec d w); lia.
Qed.

(** *** The sums the bodies combine *)

Lemma outer_step st L R :
  iat st L R -> so <= L <= R ->
  to_u32 (i_outer_sum st + load src (i_right st))
  = to_u32 (sum_range src L (Z.to_nat (R - L) + 1)).
Proof.
  intros Hat H. rewrite (iat_sum st L R Hat H), to_u32_add_l.
  destruct Hat as (_ & _ & HR). rewrite HR.
  rewrite sum_range_app. cbn [sum_range].
  do 2 f_equal. replace (L + Z.of_nat (Z.to_nat (R - L)) + Z.of_nat 0) with R by lia.
  lia.
Qed.

Lemma inner_step st L R :
  iat st L R -> so <= L < R ->
  to_u32 (i_outer_sum st - load src (i_left st))
  = to_u32 (sum_range src (L + 1) (Z.to_nat (R - L) - 1)).
Proof.
  intros Hat H. rewrite (iat_sum st L R Hat) by lia. rewrite to_u32_sub_l.
  destruct Hat as (_ & HL & _). rewrite HL.
  replace (Z.to_nat (R - L)) with (Datatypes.S (Z.to_nat (R - L) - 1)) at 1 by lia.
  rewrite sum_range_head. f_equal. lia.
Qed.

(** [inner_sum] after the left border is the outer sum of one round
    earlier. *)
Lemma inner_after_ILEFT :
  i_inner_sum s2 = to_u32 (sum_range src so (c1 - 1)).
Proof.
  unfold s2. destruct c1 as [|n] eqn:E.
  - reflexivity.
  - rewrite Nat.iter_succ. cbn [INTERP_LEFT_BORDER_ITER i_inner_sum].
    rewrite (iat_sum _ so (so + Z.of_nat n)) by (try apply iat_iter_ILEFT, iat_s1; lia).
    do 2 f_equal. lia.
Qed.

(** *** The values of the four loops *)

Lemma value_ILEFT (i : nat) :
  (i < c1)%nat ->
  vILEFT (Nat.iter i ILEFT s1)
  = avg (sum_range src so (i + 1)) (sum_range src so i).
Proof.
  intros Hi. unfold INTERP_LEFT_value.
  pose proof ic1_le_d.
  rewrite (outer_step _ so (so + Z.of_nat i)) by (try apply iat_iter_ILEFT, iat_s1; lia).
  rewrite (iat_sum _ so (so + Z.of_nat i)) by (try apply iat_iter_ILEFT, iat_s1; lia).
  replace (Z.to_nat (so + Z.of_nat i - so) + 1)%nat with (i + 1)%nat by lia.
  replace (Z.to_nat (so + Z.of_nat i - so)) with i by lia.
  pose proof (sum_range_bound src so (i + 1) Hsrc).
  pose proof (sum_range_bound src so i Hsrc).
  apply interp_px_exact; unfold d in *; lia.
Qed.

Lemma value_ITRIVIAL (i : nat) :
  (0 < c2)%nat ->
  vITRIVIAL (Nat.iter i ITRIVIAL s2)
  = avg (sum_range src so c1) (sum_range src so (c1 - 1)).
Proof.
  intros Hc2. unfold INTERP_TRIVIAL_value.
  pose proof ic1_le_d. pose proof icounts as (E1 & E2 & E3).
  rewrite iter_ITRIVIAL_inner, inner_after_ILEFT.
  rewrite (iat_sum _ so (so + Z.of_nat c1)) by (try apply iat_iter_ITRIVIAL, iat_s2; lia).
  replace (Z.to_nat (so + Z.of_nat c1 - so)) with c1 by lia.
  pose proof (sum_range_bound src so c1 Hsrc).
  pose proof (sum_range_bound src so (c1 - 1) Hsrc).
  apply interp_px_exact; unfold d in *; lia.
Qed.

Lemma value_ICENTER (i : nat) :
  (0 < c3)%nat ->
  vICENTER (Nat.iter i ICENTER s3)
  = avg (sum_range src (so + Z.of_nat i) (c1 + 1))
        (sum_range src (so + Z.of_nat i + 1) (c1 - 1)).
Proof.
  intros Hc3. unfold INTERP_CENTER_value.
  pose proof ic1_le_d. pose proof icounts as (E1 & E2 & E3).
  rewrite (outer_step _ (so + Z.of_nat i) (so + Z.of_nat c1 + Z.of_nat i))
    by (try apply iat_iter_ICENTER, iat_s3; lia).
  rewrite (inner_step _ (so + Z.of_nat i) (so + Z.of_nat c1 + Z.of_nat i))
    by (try apply iat_iter_ICENTER, iat_s3; unfold d in *; lia).
  replace (Z.to_nat (so + Z.of_nat c1 + Z.of_nat i - (so + Z.of_nat i)) + 1)%nat
    with (c1 + 1)%nat by lia.
  replace (Z.to_nat (so + Z.of_nat c1 + Z.of_nat i - (so + Z.of_nat i)) - 1)%nat
    with (c1 - 1)%nat by lia.
  pose proof (sum_range_bound src (so + Z.of_nat i) (c1 + 1) Hsrc).
  pose proof (sum_range_bound src (so + Z.of_nat i + 1) (c1 - 1) Hsrc).
  apply interp_px_exact; unfold d in *; lia.
Qed.

Lemma value_IRIGHT (i : nat) :
  (i < c1)%nat ->
  vIRIGHT (Nat.iter i IRIGHT s4)
  = avg (sum_range src (so + Z.of_nat c3 + Z.of_nat i) (c1 - i))
        (sum_range src (so + Z.of_nat c3 + Z.of_nat i + 1) (c1 - i - 1)).
Proof.
  intros Hi. unfold INTERP_RIGHT_value.
  pose proof ic1_le_d.
  rewrite (inner_step _ (so + Z.of_nat c3 + Z.of_nat i)
             (so + Z.of_nat c1 + Z.of_nat c3))
    by (try apply iat_iter_IRIGHT, iat_s4; lia).
  rewrite (iat_sum _ (so + Z.of_nat c3 + Z.of_nat i)
             (so + Z.of_nat c1 + Z.of_nat c3))
    by (try apply iat_iter_IRIGHT, iat_s4; lia).
  replace (Z.to_nat (so + Z.of_nat c1 + Z.of_nat c3
                     - (so + Z.of_nat c3 + Z.of_nat i)))
    with (c1 - i)%nat by lia.
  pose proof (sum_range_bound src (so + Z.of_nat c3 + Z.of_nat i) (c1 - i) Hsrc).
  pose proof (sum_range_bound src (so + Z.of_nat c3 + Z.of_nat i + 1)
                (c1 - i - 1) Hsrc).
  apply interp_px_exact; unfold d in *; lia.
Qed.

(** *** The row as the list of values it stores *)

Let ivals : list Z :=
  ((emitted ILEFT vILEFT c1 s1
    ++ emitted ITRIVIAL vITRIVIAL c2 s2)
   ++ emitted ICENTER vICENTER c3 s3)
  ++ emitted IRIGHT vIRIGHT c1 s4.

Lemma interp_row_dst :
  i_dst s5 = write_strided dst doff stride ivals.
Proof.
  assert (H1 : i_dst s2 = write_strided dst doff stride
                 (emitted ILEFT vILEFT c1 s1)
               /\ i_dptr s2 = doff + stride * Z.of_nat
                 (length (emitted ILEFT vILEFT c1 s1))).
  { split.
    - apply (iter_emitted i_dptr i_dst stride ILEFT vILEFT); reflexivity.
    - rewrite emitted_length.
      apply (iter_dptr i_dptr stride ILEFT); reflexivity. }
  destruct H1 as [D2 P2].
  destruct (iter_emit_after i_dptr i_dst stride ITRIVIAL vITRIVIAL
              ltac:(reflexivity) ltac:(reflexivity) dst doff c2 s2 _ D2 P2)
    as [D3 P3].
  destruct (iter_emit_after i_dptr i_dst stride ICENTER vICENTER
              ltac:(reflexivity) ltac:(reflexivity) dst doff c3 s3 _ D3 P3)
    as [D4 P4].
  destruct (iter_emit_after i_dptr i_dst stride IRIGHT vIRIGHT
              ltac:(reflexivity) ltac:(reflexivity) dst doff c1 s4 _ D4 P4)
    as [D5 P5].
  exact D5.
Qed.

Lemma ivals_length : Z.of_nat (length ivals) = w + 2 * radius.
Proof.
  unfold ivals. rewrite !length_app, !emitted_length.
  pose proof icounts. unfold d in *. lia.
Qed.

Ltac ilocate :=
  unfold ivals;
  repeat rewrite app_nth1 by (rewrite ?length_app, ?emitted_length; lia);
  try rewrite app_nth2 by (rewrite ?length_app, ?emitted_length; lia);
  rewrite ?length_app, ?emitted_length;
  rewrite emitted_nth by lia.

Lemma ivals_nth (k : nat) :
  (k < length ivals)%nat ->
  nth k ivals 0 = boxBlurInterp_column flag src so radius w ow (Z.of_nat k).
Proof.
  intros Hk.
  pose proof ivals_length as Hlen.
  pose proof icounts as (E1 & E2 & E3).
  unfold boxBlurInterp_column, window_sum, inner_window_sum.
  replace (2 * radius) with d by (unfold d; lia).
  set (j := Z.of_nat k).
  destruct (Nat.lt_ge_cases k c1) as [K1|K1].
  { ilocate. rewrite value_ILEFT by lia.
    destruct (Z.leb_spec w j); [unfold j in *; lia|]. cbn [andb].
    replace (Z.max 0 (j - d)) with 0 by (unfold j in *; lia).
    replace (Z.min j (w - 1)) with j by (unfold j in *; lia).
    replace (Z.max 0 (j - d + 1)) with 0 by (unfold j in *; lia).
    replace (Z.min (j - 1) (w - 1)) with (j - 1) by (unfold j in *; lia).
    rewrite !Z.add_0_r. f_equal; f_equal; unfold j; lia. }
  destruct (Nat.lt_ge_cases k (c1 + c2)) as [K2|K2].
  { ilocate. rewrite value_ITRIVIAL by lia.
    destruct (Z.leb_spec w j); [|unfold j in *; lia].
    destruct (Z.ltb_spec j d); [|unfold j in *; lia]. cbn [andb].
    replace (Z.max 0 (j - d)) with 0 by (unfold j in *; lia).
    replace (Z.min j (w - 1)) with (w - 1) by (unfold j in *; lia).
    rewrite !Z.add_0_r. f_equal; f_equal; lia. }
  destruct (Nat.lt_ge_cases k (c1 + c2 + c3)) as [K3|K3].
  { ilocate. rewrite value_ICENTER by lia.
    destruct (Z.leb_spec w j); [unfold j in *; lia|]. cbn [andb].
    replace (Z.max 0 (j - d)) with (j - d) by (unfold j in *; lia).
    replace (Z.min j (w - 1)) with j by (unfold j in *; lia).
    replace (Z.max 0 (j - d + 1)) with (j - d + 1) by (unfold j in *; lia).
    replace (Z.min (j - 1) (w - 1)) with (j - 1) by (unfold j in *; lia).
    f_equal; f_equal; unfold j; lia. }
  ilocate. rewrite value_IRIGHT by lia.
  destruct (Z.ltb_spec j d); [unfold j in *; lia|].
  rewrite andb_false_r.
  replace (Z.max 0 (j - d)) with (j - d) by (unfold j in *; lia).
  replace (Z.min j (w - 1)) with (w - 1) by (unfold j in *; lia).
  replace (Z.max 0 (j - d + 1)) with (j - d + 1) by (unfold j in *; lia).
  replace (Z.min (j - 1) (w - 1)) with (w - 1) by (unfold j in *; lia).
  f_equal; f_equal; unfold j; lia.
Qed.

(** The row, as the caller sees it. *)
Lemma boxBlurInterp_row_spec :
  1 <= stride -> 0 <= doff ->
  doff + stride * (w + 2 * radius - 1) < Z.of_nat (length dst) ->
  let st := boxBlurInterp_row flag src oscale iscale stride radius w so doff dst in
  length (i_dst st) = length dst
  /\ (forall k, 0 <= k < w + 2 * radius ->
      load (i_dst st) (doff + stride * k)
      = boxBlurInterp_column flag src so radius w ow k)
  /\ (forall p, (forall k, 0 <= k < w + 2 * radius -> p <> doff + stride * k) ->
      load (i_dst st) p = load dst p).
Proof.
  intros Hs Hd Hlen st. unfold st. rewrite boxBlurInterp_row_s5, interp_row_dst.
  pose proof ivals_length as Hv.
  split; [apply length_write_strided|]. split.
  - intros k Hk.
    replace k with (Z.of_nat (Z.to_nat k)) by lia.
    rewrite load_write_strided_hit; try lia.
    + apply ivals_nth. lia.
    + nia.
  - intros p Hp. apply load_write_strided_frame.
    intros i Hi. apply Hp. lia.
Qed.
End InterpRowValues.

(** ** All the rows of [boxBlurInterp] *)

Lemma boxBlurInterp_spec flag src src_y_stride dst radius width height
      transpose ow :
  1 <= radius -> 1 <= width -> 1 <= height -> 0 <= ow <= 255 ->
  bytes src ->
  (width + 2 * radius) * height <= Z.of_nat (length dst) ->
  let out := boxBlurInterp flag src src_y_stride dst radius width height
               transpose ow in
  out_width out = width + 2 * radius
  /\ length (out_dst out) = length dst
  /\ (forall y k,
        0 <= y < height -> 0 <= k < width + 2 * radius ->
        load (out_dst out)
             (boxBlur_index transpose (width + 2 * radius) height y k)
        = boxBlurInterp_column flag src (y * src_y_stride) radius width ow k)
  /\ (forall p,
        (forall y k, 0 <= y < height -> 0 <= k < width + 2 * radius ->
           p <> boxBlur_index transpose (width + 2 * radius) height y k) ->
        load (out_dst out) p = load dst p).
Proof.
  intros Hr Hw Hh How Hsrc Hlen.
  set (nw := width + 2 * radius) in *.
  unfold boxBlurInterp.
  replace (width + radius * 2) with nw by (unfold nw; lia).
  change (to_u8 (ow + Z.shiftr ow 7)) with (interp_outer_weight ow).
  change (255 - ow + Z.shiftr (255 - ow) 7) with (interp_inner_weight ow).
  match goal with
  | |- context [for_lt ?n 1 ?body ?x (dst, true)] => set (B := body)
  end.
  rewrite for_lt_iter_from. rewrite Z.sub_0_r.
  assert (Hrows : forall m : nat,
    (m <= Z.to_nat height)%nat ->
    let D := fst (iter_from B m 0 (dst, true)) in
    length D = length dst
    /\ (forall y k, 0 <= y < Z.of_nat m -> 0 <= k < nw ->
         load D (boxBlur_index transpose nw height y k)
         = boxBlurInterp_column flag src (y * src_y_stride) radius width ow k)
    /\ (forall p,
         (forall y k, 0 <= y < Z.of_nat m -> 0 <= k < nw ->
            p <> boxBlur_index transpose nw height y k) ->
         load D p = load dst p)).
  { induction m as [|m IH]; intros Hm.
    - cbn. split; [reflexivity|]. split; [intros; lia | reflexivity].
    - specialize (IH ltac:(lia)). cbv zeta in IH |- *.
      rewrite iter_from_snoc.
      destruct (iter_from B m 0 (dst, true)) as [D ok]. cbn [fst] in IH.
      destruct IH as (IHlen & IHpx & IHfr).
      unfold B at 1. cbn [fst]. rewrite Z.add_0_l.
      set (stride := if transpose then height else 1).
      set (doff := Z.of_nat m * (if transpose then 1 else nw)).
      destruct (boxBlurInterp_row_spec flag src stride radius width
                  (Z.of_nat m * src_y_stride) doff ow D)
        as (Rlen & Rhit & Rframe); try assumption; try lia.
      { unfold stride. destruct transpose; lia. }
      { unfold doff. destruct transpose; nia. }
      { fold nw. rewrite IHlen. unfold doff, stride. destruct transpose; nia. }
      fold nw in Rhit, Rframe.
      split; [congruence|]. split.
      + intros y k Hy Hk.
        destruct (Z.eq_dec y (Z.of_nat m)) as [-> | Hne].
        * rewrite <- Rhit by lia. f_equal.
          unfold boxBlur_index, doff, stride. destruct transpose; lia.
        * rewrite Rframe; [apply IHpx; lia|].
          intros k' Hk' E. apply Hne.
          apply (boxBlur_index_row transpose nw height y k (Z.of_nat m) k');
            try lia.
          rewrite E. unfold boxBlur_index, doff, stride. destruct transpose; lia.
      + intros p Hp. rewrite Rframe.
        * apply IHfr. intros y k Hy Hk. apply Hp; lia.
        * intros k Hk E. apply (Hp (Z.of_nat m) k); [lia | lia |].
          rewrite E. unfold boxBlur_index, doff, stride. destruct transpose; lia. }
  specialize (Hrows (Z.to_nat height) ltac:(lia)). cbv zeta in Hrows.
  destruct (iter_from B (Z.to_nat height) 0 (dst, true)) as [D ok].
  cbn [fst] in Hrows. cbn [out_width out_dst].
  destruct Hrows as (HDlen & HDpx & HDfr).
  split; [reflexivity|]. split; [exact HDlen|]. split.
  - intros y k Hy Hk. apply HDpx; lia.
  - intros p Hp. apply HDfr. intros y k Hy Hk. apply Hp; lia.
Qed.

(** ** [apply_kernel_interp] against the single clamped loop *)

Lemma SkClampMax_clamp v m : 0 <= m -> SkClampMax v m = Z.max 0 (Z.min v m).
Proof.
  intros Hm. unfold SkClampMax.
  destruct (Z.ltb_spec v 0); [lia|]. destruct (Z.ltb_spec m v); lia.
Qed.

Section KernelInterpRow.
Variables (sum : list Z) (oscale iscale sw py ny ipy iny : Z).
Hypothesis Hsw : 0 <= sw.

Local Abbreviation ICLAMPED :=
  (INTERP_CLAMPED_ITER sum oscale iscale sw py ny ipy iny).
Local Abbreviation KILEFT :=
  (INTERP_KERNEL_LEFT_ITER sum oscale iscale py ny ipy iny).
Local Abbreviation KICENTER := (INTERP_KERNEL_CENTER_ITER sum oscale iscale).
Local Abbreviation KIRIGHT :=
  (INTERP_KERNEL_RIGHT_ITER sum oscale iscale sw py ny ipy iny).

Lemma INTERP_KERNEL_CENTER_ITER4_iter st :
  INTERP_KERNEL_CENTER_ITER4 sum oscale iscale st = Nat.iter 4 KICENTER st.
Proof.
  destruct st. unfold INTERP_KERNEL_CENTER_ITER4, INTERP_KERNEL_CENTER_ITER, x4,
    INTERP_CENTER_SAMPLE, advance_x. cbn. f_equal; lia.
Qed.

Lemma synced_set_indices_interp st :
  synced_interp py ny ipy iny (set_indices_interp py ny ipy iny st).
Proof. repeat split. Qed.

Lemma interp_left_step st st' :
  same_px st st' -> k_prev_x st < 0 -> 1 <= k_next_x st <= sw ->
  same_px (KILEFT st) (ICLAMPED st').
Proof.
  intros (Hd & Hp & Hpx & Hnx) Hprev Hnext.
  unfold same_px, INTERP_KERNEL_LEFT_ITER, INTERP_CLAMPED_ITER, emit_px;
    cbn [k_dst k_dp k_prev_x k_next_x].
  rewrite <- Hd, <- Hp, <- Hpx, <- Hnx.
  rewrite !SkClampPos_max, SkFastMin32_min, SkClampMax_clamp by lia.
  replace (Z.max 0 (k_prev_x st)) with 0 by lia.
  replace (Z.min (k_next_x st) sw) with (k_next_x st) by lia.
  replace (Z.max 0 (k_prev_x st + 1)) with 0 by lia.
  replace (Z.max 0 (Z.min (k_next_x st - 1) sw)) with (k_next_x st - 1) by lia.
  repeat split.
Qed.

Lemma interp_center_step st st' :
  same_px st st' -> synced_interp py ny ipy iny st ->
  0 <= k_prev_x st -> 1 <= k_next_x st <= sw ->
  same_px (KICENTER st) (ICLAMPED st')
  /\ synced_interp py ny ipy iny (KICENTER st).
Proof.
  intros (Hd & Hp & Hpx & Hnx) ((H0 & H1 & H2 & H3) & H4 & H5 & H6 & H7)
         Hprev Hnext.
  unfold same_px, synced_interp, synced, INTERP_KERNEL_CENTER_ITER,
    INTERP_CENTER_SAMPLE, advance_x, INTERP_CLAMPED_ITER, emit_px;
    cbn [k_dst k_dp k_prev_x k_next_x k_i0 k_i1 k_i2 k_i3 k_i4 k_i5 k_i6 k_i7].
  rewrite <- Hd, <- Hp, <- Hpx, <- Hnx, H0, H1, H2, H3, H4, H5, H6, H7.
  rewrite !SkClampPos_max, SkFastMin32_min, SkClampMax_clamp by lia.
  replace (Z.max 0 (k_prev_x st)) with (k_prev_x st) by lia.
  replace (Z.min (k_next_x st) sw) with (k_next_x st) by lia.
  replace (Z.max 0 (k_prev_x st + 1)) with (k_prev_x st + 1) by lia.
  replace (Z.max 0 (Z.min (k_next_x st - 1) sw)) with (k_next_x st - 1) by lia.
  repeat split; lia.
Qed.

Lemma interp_right_step st st' :
  same_px st st' -> 0 <= k_prev_x st -> sw < k_next_x st ->
  same_px (KIRIGHT st) (ICLAMPED st').
Proof.
  intros (Hd & Hp & Hpx & Hnx) Hprev Hnext.
  unfold same_px, INTERP_KERNEL_RIGHT_ITER, INTERP_CLAMPED_ITER, emit_px;
    cbn [k_dst k_dp k_prev_x k_next_x].
  rewrite <- Hd, <- Hp, <- Hpx, <- Hnx.
  rewrite !SkClampPos_max, SkFastMin32_min, SkClampMax_clamp by lia.
  replace (Z.max 0 (k_prev_x st)) with (k_prev_x st) by lia.
  replace (Z.min (k_next_x st) sw) with sw by lia.
  replace (Z.max 0 (k_prev_x st + 1)) with (k_prev_x st + 1) by lia.
  replace (Z.max 0 (Z.min (k_next_x st - 1) sw)) with sw by lia.
  repeat split.
Qed.

Lemma iter_ICLAMPED_x n st :
  k_prev_x (Nat.iter n ICLAMPED st) = k_prev_x st + Z.of_nat n
  /\ k_next_x (Nat.iter n ICLAMPED st) = k_next_x st + Z.of_nat n.
Proof.
  induction n as [|n [IH1 IH2]]; [cbn; lia|].
  rewrite Nat.iter_succ. unfold INTERP_CLAMPED_ITER at 1 3, emit_px.
  cbn [k_prev_x k_next_x]. lia.
Qed.

Lemma interp_left_iter (n : nat) st st' :
  same_px st st' ->
  k_prev_x st + Z.of_nat n <= 0 -> 1 <= k_next_x st ->
  k_next_x st + Z.of_nat n <= sw + 1 ->
  same_px (Nat.iter n KILEFT st) (Nat.iter n ICLAMPED st').
Proof.
  intros H. induction n as [|n IH]; intros Hp Hn0 Hn; [exact H|].
  rewrite !Nat.iter_succ.
  specialize (IH ltac:(lia) ltac:(lia) ltac:(lia)).
  destruct (iter_ICLAMPED_x n st') as [E1 E2].
  destruct IH as (Hd & Hdp & Hpx & Hnx).
  destruct H as (_ & _ & Hpx0 & Hnx0).
  apply interp_left_step; [repeat split; assumption | lia | lia].
Qed.

Lemma interp_center_iter (n : nat) st st' :
  same_px st st' -> synced_interp py ny ipy iny st ->
  0 <= k_prev_x st -> 1 <= k_next_x st ->
  k_next_x st + Z.of_nat n <= sw + 1 ->
  same_px (Nat.iter n KICENTER st) (Nat.iter n ICLAMPED st')
  /\ synced_interp py ny ipy iny (Nat.iter n KICENTER st).
Proof.
  intros H Hs Hp Hn0. induction n as [|n IH]; intros Hn; [split; assumption|].
  rewrite !Nat.iter_succ.
  destruct (IH ltac:(lia)) as [IHs IHy].
  destruct (iter_ICLAMPED_x n st') as [E1 E2].
  pose proof IHs as (Hd & Hdp & Hpx & Hnx).
  destruct H as (_ & _ & Hpx0 & Hnx0).
  apply interp_center_step; [assumption | assumption | lia | lia].
Qed.

Lemma interp_right_iter (n : nat) st st' :
  same_px st st' ->
  0 <= k_prev_x st -> sw < k_next_x st ->
  same_px (Nat.iter n KIRIGHT st) (Nat.iter n ICLAMPED st').
Proof.
  intros H Hp Hn. induction n as [|n IH]; [exact H|].
  rewrite !Nat.iter_succ.
  destruct (iter_ICLAMPED_x n st') as [E1 E2].
  pose proof IH as (Hd & Hdp & Hpx & Hnx).
  destruct H as (_ & _ & Hpx0 & Hnx0).
  apply interp_right_step; [assumption | lia | lia].
Qed.

(** The three sections of a row do what [dw] rounds of the clamped body
    do. *)
Lemma interp_segments (n1 n2 n3 : nat) rx st :
  0 <= rx -> 2 * rx <= sw ->
  k_prev_x st = - 2 * rx -> k_next_x st = 1 ->
  n1 = Z.to_nat (2 * rx) -> n2 = Z.to_nat (sw - 2 * rx) ->
  n3 = Z.to_nat (2 * rx) ->
  same_px (Nat.iter n3 KIRIGHT
             (Nat.iter n2 KICENTER
                (set_indices_interp py ny ipy iny (Nat.iter n1 KILEFT st))))
          (Nat.iter (Z.to_nat (sw + 2 * rx)) ICLAMPED st).
Proof.
  intros Hrx Hsw2 Hprev Hnext E1 E2 E3.
  set (s1 := Nat.iter n1 KILEFT st).
  assert (H1 : same_px s1 (Nat.iter n1 ICLAMPED st)).
  { apply interp_left_iter; [apply same_px_refl | lia | lia | lia]. }
  destruct (iter_ICLAMPED_x n1 st) as [P1 N1].
  destruct H1 as (D1 & DP1 & PX1 & NX1).
  set (s2 := Nat.iter n2 KICENTER (set_indices_interp py ny ipy iny s1)).
  assert (H2 : same_px s2 (Nat.iter n2 ICLAMPED (Nat.iter n1 ICLAMPED st))).
  { apply interp_center_iter.
    - repeat split; assumption.
    - apply synced_set_indices_interp.
    - cbn [set_indices_interp k_prev_x]. rewrite PX1, P1. lia.
    - cbn [set_indices_interp k_next_x]. rewrite NX1, N1. lia.
    - cbn [set_indices_interp k_next_x]. rewrite NX1, N1. lia. }
  destruct (iter_ICLAMPED_x n2 (Nat.iter n1 ICLAMPED st)) as [P2 N2].
  pose proof H2 as (D2 & DP2 & PX2 & NX2).
  replace (Z.to_nat (sw + 2 * rx)) with (n3 + (n2 + n1))%nat by lia.
  rewrite !iter_plus.
  apply interp_right_iter; [exact H2 | |].
  - rewrite PX2, P2, P1. lia.
  - rewrite NX2, N2, N1. lia.
Qed.
End KernelInterpRow.

(** [apply_kernel_interp] and the single clamped loop leave the same
    buffer. *)
Lemma apply_kernel_interp_rows_clamped sum oscale iscale unroll dst rx ry sw sh :
  0 <= rx -> 2 * rx <= sw ->
  apply_kernel_interp_rows sum oscale iscale unroll dst rx ry sw sh
  = kernel_interp_clamped_rows sum oscale iscale dst rx ry sw sh.
Proof.
  intros Hrx Hsw. unfold apply_kernel_interp_rows, kernel_interp_clamped_rows.
  f_equal. apply for_lt_ext. intros _ st.
  set (py := SkClampPos (kr_prev_y st) * (sw + 1)).
  set (ny := SkFastMin32 (kr_next_y st) sh * (sw + 1)).
  set (ipy := SkClampPos (kr_prev_y st + 1) * (sw + 1)).
  set (iny := SkClampMax (kr_next_y st - 1) sh * (sw + 1)).
  set (row0 := enter_row st (- 2 * rx) 1).
  set (dw := sw + 2 * rx).
  rewrite !(for_lt_iter _ _ 0). rewrite !Z.sub_0_r.
  replace (Z.max 0 (2 * rx)) with (2 * rx) by lia.
  set (s1 := set_indices_interp py ny ipy iny
               (Nat.iter (Z.to_nat (2 * rx))
                  (INTERP_KERNEL_LEFT_ITER sum oscale iscale py ny ipy iny) row0)).
  assert (Hseg : forall n2 n3,
            n2 = Z.to_nat (sw - 2 * rx) -> n3 = Z.to_nat (2 * rx) ->
            leave_row st
              (Nat.iter n3
                 (INTERP_KERNEL_RIGHT_ITER sum oscale iscale sw py ny ipy iny)
                 (Nat.iter n2 (INTERP_KERNEL_CENTER_ITER sum oscale iscale) s1))
            = leave_row st
                (Nat.iter (Z.to_nat dw)
                   (INTERP_CLAMPED_ITER sum oscale iscale sw py ny ipy iny)
                   row0)).
  { intros n2 n3 E2 E3.
    destruct (interp_segments sum oscale iscale sw py ny ipy iny ltac:(lia)
                (Z.to_nat (2 * rx)) n2 n3 rx row0 Hrx Hsw
                ltac:(reflexivity) ltac:(reflexivity) eq_refl E2 E3)
      as (Hd & Hp & _ & _).
    unfold leave_row. fold s1 in Hd, Hp. unfold dw. rewrite Hd, Hp. reflexivity. }
  destruct unroll.
  - destruct (for_lt_unrolled 4 (INTERP_KERNEL_CENTER_ITER4 sum oscale iscale)
                (INTERP_KERNEL_CENTER_ITER sum oscale iscale)
                (dw - 2 * rx) (2 * rx) s1)
      as (m & x' & Heq & Hx & Hm);
      [lia | apply INTERP_KERNEL_CENTER_ITER4_iter |].
    change (Z.of_nat 4) with 4 in Heq. rewrite Heq.
    rewrite for_lt_iter, <- iter_plus.
    rewrite for_lt_iter.
    apply Hseg; unfold dw; lia.
  - rewrite for_lt_iter. rewrite for_lt_iter.
    apply Hseg; unfold dw; lia.
Qed.

Lemma apply_kernel_interp_clamped unroll dst rx ry sum sw sh ow :
  0 <= rx ->
  apply_kernel_interp unroll dst rx ry sum sw sh ow
  = kernel_interp_clamped dst rx ry sum sw sh ow.
Proof.
  intros Hrx. unfold apply_kernel_interp.
  destruct (Z.ltb_spec sw (2 * rx)); [reflexivity|].
  unfold kernel_interp_clamped.
  rewrite apply_kernel_interp_rows_clamped by lia. reflexivity.
Qed.

(** ** The pixels of the interpolating clamped loop *)

Lemma kernel_interp_scales_div rx ry ow :
  1 <= rx -> 1 <= ry -> 0 <= ow <= 255 ->
  kernel_outer_scale rx ry ow
  = Z.shiftl (ow + Z.shiftr ow 7) 16 / ((2 * rx + 1) * (2 * ry + 1))
  /\ kernel_inner_scale rx ry ow
     = Z.shiftl (255 - ow + Z.shiftr (255 - ow) 7) 16
       / ((2 * rx - 1) * (2 * ry - 1)).
Proof.
  intros Hrx Hry How. unfold kernel_outer_scale, kernel_inner_scale.
  assert (Ho : 0 <= ow + Z.shiftr ow 7 <= 256).
  { rewrite Z.shiftr_div_pow2 by lia. change (2 ^ 7) with 128.
    pose proof (Z.div_pos ow 128 ltac:(lia) ltac:(lia)).
    assert (ow / 128 < 2) by (apply Z.div_lt_upper_bound; lia). lia. }
  assert (Hi : 0 <= 255 - ow + Z.shiftr (255 - ow) 7 <= 256).
  { rewrite Z.shiftr_div_pow2 by lia. change (2 ^ 7) with 128.
    pose proof (Z.div_pos (255 - ow) 128 ltac:(lia) ltac:(lia)).
    assert ((255 - ow) / 128 < 2) by (apply Z.div_lt_upper_bound; lia). lia. }
  set (wo := ow + Z.shiftr ow 7) in *.
  set (wi := 255 - ow + Z.shiftr (255 - ow) 7) in *.
  rewrite (to_u32_small wo) by lia.
  rewrite !Z.shiftl_mul_pow2 by lia.
  rewrite (to_u32_small (wo * 2 ^ 16)) by lia.
  assert (Ha : 1 <= (2 * rx + 1) * (2 * ry + 1)) by nia.
  assert (Hb : 1 <= (2 * rx - 1) * (2 * ry - 1)) by nia.
  rewrite !Z.quot_div_nonneg by lia.
  split; apply to_u32_small.
  - split; [apply Z.div_pos; lia|].
    apply Z.div_lt_upper_bound; nia.
  - split; [apply Z.div_pos; lia|].
    apply Z.div_lt_upper_bound; nia.
Qed.

Lemma INTERP_CLAMPED_value_reference sum rx ry sw sh ow x y st :
  1 <= rx -> 1 <= ry -> 0 <= sw -> 0 <= sh -> 0 <= ow <= 255 ->
  0 <= x -> 0 <= y ->
  k_prev_x st = x - 2 * rx -> k_next_x st = x + 1 ->
  INTERP_CLAMPED_value sum (kernel_outer_scale rx ry ow)
    (kernel_inner_scale rx ry ow) sw
    (SkClampPos (y - 2 * ry) * (sw + 1)) (SkFastMin32 (y + 1) sh * (sw + 1))
    (SkClampPos (y - 2 * ry + 1) * (sw + 1)) (SkClampMax (y + 1 - 1) sh * (sw + 1))
    st
  = kernel_interp_reference_px sum rx ry sw sh ow x y.
Proof.
  intros Hrx Hry Hsw Hsh How Hx Hy Hp Hn.
  unfold INTERP_CLAMPED_value, kernel_interp_reference_px, kernel_interp_px,
    four_corners.
  destruct (kernel_interp_scales_div rx ry ow Hrx Hry How) as [-> ->].
  rewrite Hp, Hn, !SkClampPos_max, !SkFastMin32_min, !SkClampMax_clamp by lia.
  cbv zeta.
  replace (x + 1 - 1) with x by lia. replace (y + 1 - 1) with y by lia.
  replace (Z.max 0 (Z.min x sw)) with (Z.min x sw) by lia.
  replace (Z.max 0 (Z.min y sh)) with (Z.min y sh) by lia.
  replace (Z.max 0 (x - 2 * rx) + Z.max 0 (y - 2 * ry) * (sw + 1))
    with (Z.max 0 (y - 2 * ry) * (sw + 1) + Z.max 0 (x - 2 * rx)) by lia.
  replace (Z.min (x + 1) sw + Z.min (y + 1) sh * (sw + 1))
    with (Z.min (y + 1) sh * (sw + 1) + Z.min (x + 1) sw) by lia.
  replace (Z.min (x + 1) sw + Z.max 0 (y - 2 * ry) * (sw + 1))
    with (Z.max 0 (y - 2 * ry) * (sw + 1) + Z.min (x + 1) sw) by lia.
  replace (Z.max 0 (x - 2 * rx) + Z.min (y + 1) sh * (sw + 1))
    with (Z.min (y + 1) sh * (sw + 1) + Z.max 0 (x - 2 * rx)) by lia.
  replace (Z.max 0 (x - 2 * rx + 1) + Z.max 0 (y - 2 * ry + 1) * (sw + 1))
    with (Z.max 0 (y - 2 * ry + 1) * (sw + 1) + Z.max 0 (x - 2 * rx + 1)) by lia.
  replace (Z.min x sw + Z.min y sh * (sw + 1))
    with (Z.min y sh * (sw + 1) + Z.min x sw) by lia.
  replace (Z.min x sw + Z.max 0 (y - 2 * ry + 1) * (sw + 1))
    with (Z.max 0 (y - 2 * ry + 1) * (sw + 1) + Z.min x sw) by lia.
  replace (Z.max 0 (x - 2 * rx + 1) + Z.min y sh * (sw + 1))
    with (Z.min y sh * (sw + 1) + Z.max 0 (x - 2 * rx + 1)) by lia.
  reflexivity.
Qed.

Section InterpClampedRows.
Variables (sum : list Z) (dst : list Z) (rx ry sw sh ow : Z).
Hypotheses (Hrx : 1 <= rx) (Hry : 1 <= ry) (Hsw : 0 <= sw) (Hsh : 0 <= sh).
Hypothesis How : 0 <= ow <= 255.
Hypothesis Hlen : (sw + 2 * rx) * (sh + 2 * ry) <= Z.of_nat (length dst).

Let dw := sw + 2 * rx.
Let dh := sh + 2 * ry.
Let oscale := kernel_outer_scale rx ry ow.
Let iscale := kernel_inner_scale rx ry ow.

(** The body of the loop over the rows. *)
Let irow_body (st : kernel_rows) : kernel_rows :=
  leave_row st
    (Nat.iter (Z.to_nat dw)
       (INTERP_CLAMPED_ITER sum oscale iscale sw
          (SkClampPos (kr_prev_y st) * (sw + 1))
          (SkFastMin32 (kr_next_y st) sh * (sw + 1))
          (SkClampPos (kr_prev_y st + 1) * (sw + 1))
          (SkClampMax (kr_next_y st - 1) sh * (sw + 1)))
       (enter_row st (- 2 * rx) 1)).

Lemma kernel_interp_clamped_rows_iter :
  kernel_interp_clamped_rows sum oscale iscale dst rx ry sw sh
  = Nat.iter (Z.to_nat dh) irow_body
      {| kr_dst := dst; kr_dp := 0; kr_prev_y := - 2 * ry; kr_next_y := 1 |}.
Proof.
  unfold kernel_interp_clamped_rows.
  rewrite (for_lt_ext _ (fun _ => irow_body)).
  - rewrite for_lt_iter. cbn [snd]. rewrite Z.sub_0_r. reflexivity.
  - intros x st. rewrite for_lt_iter. rewrite Z.sub_0_r. reflexivity.
Qed.

Lemma irow_body_spec (m : Z) st :
  0 <= m < dh ->
  rows_at (length dst) dw ry m st ->
  rows_at (length dst) dw ry (m + 1) (irow_body st)
  /\ (forall x, 0 <= x < dw ->
        load (kr_dst (irow_body st)) (m * dw + x)
        = kernel_interp_reference_px sum rx ry sw sh ow x m)
  /\ (forall p, p < m * dw \/ (m + 1) * dw <= p ->
        load (kr_dst (irow_body st)) p = load (kr_dst st) p).
Proof.
  intros Hm (Hl & Hdp & Hpy & Hny).
  unfold irow_body.
  rewrite Hpy, Hny.
  replace (- 2 * ry + m) with (m - 2 * ry) by lia.
  replace (1 + m) with (m + 1) by lia.
  set (py := SkClampPos (m - 2 * ry) * (sw + 1)).
  set (ny := SkFastMin32 (m + 1) sh * (sw + 1)).
  set (ipy := SkClampPos (m - 2 * ry + 1) * (sw + 1)).
  set (iny := SkClampMax (m + 1 - 1) sh * (sw + 1)).
  set (row0 := enter_row st (- 2 * rx) 1).
  set (B := INTERP_CLAMPED_ITER sum oscale iscale sw py ny ipy iny).
  set (V := INTERP_CLAMPED_value sum oscale iscale sw py ny ipy iny).
  assert (Hptr : forall s, k_dp (B s) = k_dp s + 1) by reflexivity.
  assert (Hbuf : forall s, k_dst (B s) = store (k_dst s) (k_dp s) (V s))
    by reflexivity.
  pose proof (iter_dptr k_dp 1 B Hptr (Z.to_nat dw) row0) as Hp.
  pose proof (iter_emitted k_dp k_dst 1 B V Hptr Hbuf (Z.to_nat dw) row0) as Hd.
  change (k_dp row0) with (kr_dp st) in Hp, Hd.
  change (k_dst row0) with (kr_dst st) in Hd.
  unfold leave_row; cbn [kr_dst kr_dp kr_prev_y kr_next_y].
  rewrite Hd, Hp. split; [|split].
  - unfold rows_at; cbn [kr_dst kr_dp kr_prev_y kr_next_y].
    rewrite length_write_strided. repeat split; lia.
  - intros x Hx. rewrite Hdp.
    replace (m * dw + x) with (m * dw + 1 * Z.of_nat (Z.to_nat x)) by lia.
    rewrite load_write_strided_hit;
      [ | lia | nia | rewrite emitted_length; lia
        | rewrite Hl; unfold dw, dh in *; nia ].
    rewrite emitted_nth by lia. unfold V, py, ny, ipy, iny, oscale, iscale.
    destruct (iter_ICLAMPED_x sum oscale iscale sw py ny ipy iny
                (Z.to_nat x) row0) as [P N].
    apply INTERP_CLAMPED_value_reference; try assumption; try lia.
    + transitivity (k_prev_x row0 + Z.of_nat (Z.to_nat x)); [exact P|].
      cbn [row0 enter_row k_prev_x]. lia.
    + transitivity (k_next_x row0 + Z.of_nat (Z.to_nat x)); [exact N|].
      cbn [row0 enter_row k_next_x]. lia.
  - intros p Hpp. apply load_write_strided_frame.
    intros i Hi. rewrite emitted_length in Hi. lia.
Qed.

Lemma irows_spec (m : nat) :
  Z.of_nat m <= dh ->
  let st := Nat.iter m irow_body
              {| kr_dst := dst; kr_dp := 0;
                 kr_prev_y := - 2 * ry; kr_next_y := 1 |} in
  rows_at (length dst) dw ry (Z.of_nat m) st
  /\ (forall x y, 0 <= x < dw -> 0 <= y < Z.of_nat m ->
        load (kr_dst st) (y * dw + x)
        = kernel_interp_reference_px sum rx ry sw sh ow x y)
  /\ (forall p, Z.of_nat m * dw <= p -> load (kr_dst st) p = load dst p).
Proof.
  induction m as [|m IH]; intros Hm.
  - split; [|split; [intros; lia | reflexivity]].
    unfold rows_at; cbn [Nat.iter nat_rect kr_dst kr_dp kr_prev_y kr_next_y].
    change (Z.of_nat 0) with 0. repeat split; lia.
  - cbv zeta. rewrite Nat.iter_succ.
    destruct (IH ltac:(lia)) as (Hat & Hpx & Hfr).
    destruct (irow_body_spec (Z.of_nat m) _ ltac:(lia) Hat)
      as (Hat' & Hrow & Hframe).
    split; [|split].
    + replace (Z.of_nat (Datatypes.S m)) with (Z.of_nat m + 1) by lia.
      exact Hat'.
    + intros x y Hx Hy.
      destruct (Z.eq_dec y (Z.of_nat m)) as [-> | Hne].
      * apply Hrow, Hx.
      * rewrite Hframe by (left; unfold dw in *; nia).
        apply Hpx; lia.
    + intros p Hp. rewrite Hframe by (right; unfold dw in *; nia).
      apply Hfr. unfold dw in *. nia.
Qed.

(** The clamped loop writes the reference value at every output pixel and
    leaves the cells after the last row alone. *)
Lemma kernel_interp_clamped_reference :
  let out := kernel_interp_clamped dst rx ry sum sw sh ow in
  length out = length dst
  /\ (forall x y, 0 <= x < sw + 2 * rx -> 0 <= y < sh + 2 * ry ->
        load out (y * (sw + 2 * rx) + x)
        = kernel_interp_reference_px sum rx ry sw sh ow x y)
  /\ (forall p, (sw + 2 * rx) * (sh + 2 * ry) <= p -> load out p = load dst p).
Proof.
  unfold kernel_interp_clamped. fold oscale iscale.
  rewrite kernel_interp_clamped_rows_iter.
  destruct (irows_spec (Z.to_nat dh) ltac:(unfold dh; lia))
    as ((Hl & _) & Hpx & Hfr).
  split; [exact Hl|]. split.
  - intros x y Hx Hy. apply Hpx; unfold dw, dh in *; lia.
  - intros p Hp. apply Hfr. unfold dw, dh in *. lia.
Qed.
End InterpClampedRows.

(** ** The summed-area-table blur is the two-dimensional box filter *)

Lemma kernel_px_blur_px scale tmp :
  kernel_px scale tmp = blur_px true scale tmp.
Proof.
  unfold kernel_px, blur_px, SkToU8, blur_half. rewrite Z.add_0_r. reflexivity.
Qed.

Lemma table_window buf src rb rx ry sw sh x y :
  0 <= rx -> 0 <= ry -> 0 <= sw -> 1 <= sh ->
  0 <= x < sw + 2 * rx -> 0 <= y < sh + 2 * ry ->
  table_rows buf src (sw + 1) rb (Z.to_nat sh) ->
  bytes src ->
  kernel_reference_px buf rx ry sw sh x y
  = box_average true ((2 * rx + 1) * (2 * ry + 1))
      (window_sum_2d src rb rx ry sw sh x y).
Proof.
  intros Hrx Hry Hsw Hsh Hx Hy Htab Hsrc.
  unfold kernel_reference_px, window_sum_2d. cbv zeta.
  set (x0 := Z.max 0 (x - 2 * rx)). set (x1 := Z.min (x + 1) sw).
  set (y0 := Z.max 0 (y - 2 * ry)). set (y1 := Z.min (y + 1) sh).
  set (K := (2 * rx + 1) * (2 * ry + 1)).
  pose proof (table_region buf src (sw + 1) rb (Z.to_nat sh)
                (Z.to_nat x0) (Z.to_nat (x1 - x0))
                (Z.to_nat y0) (Z.to_nat (y1 - y0)) Htab
                ltac:(unfold y0, y1; lia) ltac:(unfold x0, x1; lia)) as Hreg.
  unfold four_corners in Hreg.
  rewrite !Nat2Z.inj_add in Hreg.
  rewrite !Z2Nat.id in Hreg by (unfold x0, x1, y0, y1; lia).
  replace (x0 + (x1 - x0)) with x1 in Hreg by lia.
  replace (y0 + (y1 - y0)) with y1 in Hreg by lia.
  rewrite Hreg.
  set (R := region_sum src rb (Z.to_nat x0) (Z.to_nat (x1 - x0))
              (Z.to_nat y0) (Z.to_nat (y1 - y0))).
  pose proof (region_sum_bound src rb (Z.to_nat x0) (Z.to_nat (x1 - x0))
                (Z.to_nat y0) (Z.to_nat (y1 - y0)) Hsrc) as HR. fold R in HR.
  assert (HRK : 0 <= R <= 255 * K).
  { split; [lia|]. unfold K.
    assert (0 <= Z.of_nat (Z.to_nat (x1 - x0)) <= 2 * rx + 1)
      by (unfold x0, x1; lia).
    assert (0 <= Z.of_nat (Z.to_nat (y1 - y0)) <= 2 * ry + 1)
      by (unfold y0, y1; lia).
    nia. }
  assert (HK : 1 <= K) by (unfold K; nia).
  rewrite <- (blur_px_exact true K R HK HRK).
  unfold blur_px, SkToU8, blur_half. rewrite Z.add_0_r.
  change (Z.shiftl 1 24) with (2 ^ 24).
  rewrite (Z.quot_div_nonneg (2 ^ 24) K) by lia.
  destruct (scale_range K HK) as [[H0 H1] _].
  rewrite (to_u32_small (2 ^ 24 / K)) by lia.
  reflexivity.
Qed.

(** [build_sum_buffer] followed by [apply_kernel]: every output pixel is the
    truncated average of the source pixels under its window. *)
Lemma sat_blur_spec unroll a storage dst src rb rx ry sw sh :
  0 <= rx -> 0 <= ry -> 0 <= sw -> 1 <= sh ->
  bytes src ->
  (sw + 1) * (sh + 1) <= Z.of_nat (length storage) ->
  (sw + 2 * rx) * (sh + 2 * ry) <= Z.of_nat (length dst) ->
  let out := apply_kernel unroll dst rx ry
               (build_sum_buffer a storage sw sh src rb) sw sh in
  length out = length dst
  /\ forall x y, 0 <= x < sw + 2 * rx -> 0 <= y < sh + 2 * ry ->
       load out (y * (sw + 2 * rx) + x)
       = box_average true ((2 * rx + 1) * (2 * ry + 1))
           (window_sum_2d src rb rx ry sw sh x y).
Proof.
  intros Hrx Hry Hsw Hsh Hsrc Hst Hdst out.
  destruct (build_sum_buffer_table a src sw sh rb storage Hsw Hsh Hst)
    as [_ Htab].
  unfold out. rewrite apply_kernel_clamped by lia.
  destruct (kernel_clamped_reference
              (build_sum_buffer a storage sw sh src rb) dst rx ry sw sh
              Hrx Hry Hsw ltac:(lia) Hdst) as [Hlen Hpx].
  split; [exact Hlen|].
  intros x y Hx Hy. rewrite Hpx by lia.
  apply table_window; try assumption; lia.
Qed.

Lemma region_sum_flat src rb (x0 w y0 h : nat) c :
  (forall i j, (x0 <= i < x0 + w)%nat -> (y0 <= j < y0 + h)%nat ->
     load src (Z.of_nat j * rb + Z.of_nat i) = c) ->
  region_sum src rb x0 w y0 h = c * Z.of_nat w * Z.of_nat h.
Proof.
  induction h as [|h IH]; intros H; cbn [region_sum].
  - lia.
  - rewrite IH by (intros; apply H; lia).
    rewrite (sum_range_flat _ _ _ c).
    + lia.
    + intros i Hi.
      replace i with (Z.of_nat (y0 + h) * rb
                      + Z.of_nat (Z.to_nat (i - Z.of_nat (y0 + h) * rb)))
        by lia.
      apply H; lia.
Qed.

(** ** The kernels write bytes *)

Lemma to_u8_range z : 0 <= to_u8 z <= 255.
Proof.
  unfold to_u8. pose proof (Z.mod_pos_bound z (2 ^ 8) ltac:(lia)). lia.
Qed.

Lemma bytes_store m p v : bytes m -> 0 <= v <= 255 -> bytes (store m p v).
Proof.
  intros Hm Hv. unfold store. destruct (p <? 0); [exact Hm|].
  unfold bytes in *. apply Forall_insert; assumption.
Qed.

Lemma bytes_fresh junk b cells :
  (forall b i, 0 <= junk b i <= 255) -> bytes (fresh junk b cells).
Proof.
  intros Hj. unfold bytes, fresh. apply Forall_map.
  apply Forall_forall. intros i _. apply Hj.
Qed.

Lemma length_fresh junk b cells :
  length (fresh junk b cells) = Z.to_nat cells.
Proof. unfold fresh. rewrite length_map, length_seq. reflexivity. Qed.

Lemma boxBlur_row_bytes flag src scale stride l r w so doff dst :
  bytes dst ->
  bytes (r_dst (boxBlur_row flag src scale stride l r w so doff dst)).
Proof.
  intros Hd. rewrite boxBlur_row_iter.
  repeat (apply (iter_inv (fun st => bytes (r_dst st)));
          [intros st Hst; cbn [r_dst ZERO_ITER LEFT_BORDER_ITER TRIVIAL_ITER
                                 CENTER_ITER RIGHT_BORDER_ITER];
           apply bytes_store; [exact Hst|];
           first [lia | apply to_u8_range]|]).
  exact Hd.
Qed.

Lemma boxBlur_bytes flag src src_y_stride dst l r width height transpose :
  bytes dst ->
  bytes (out_dst (boxBlur flag src src_y_stride dst l r width height transpose)).
Proof.
  intros Hd. unfold boxBlur.
  match goal with
  | |- context [for_lt ?n 1 ?body ?x (dst, true)] =>
      pose proof (for_lt_keeps (fun s : list Z * bool => bytes (fst s))
                    body) as H; specialize (H ltac:(
                      intros y [d ok] Hb; cbn [fst] in *;
                      apply boxBlur_row_bytes; exact Hb) n 1 x (dst, true)
                      Hd);
      destruct (for_lt n 1 body x (dst, true)) as [x' [d ok]]
  end.
  exact H.
Qed.

Lemma boxBlurInterp_row_bytes flag src oscale iscale stride radius w so doff dst :
  bytes dst ->
  bytes (i_dst (boxBlurInterp_row flag src oscale iscale stride radius w so
                  doff dst)).
Proof.
  intros Hd. rewrite boxBlurInterp_row_iter.
  repeat (apply (iter_inv (fun st => bytes (i_dst st)));
          [intros st Hst;
           cbn [i_dst INTERP_LEFT_BORDER_ITER INTERP_TRIVIAL_ITER
                  INTERP_CENTER_ITER INTERP_RIGHT_BORDER_ITER];
           apply bytes_store; [exact Hst | apply to_u8_range]|]).
  exact Hd.
Qed.

Lemma boxBlurInterp_bytes flag src src_y_stride dst radius width height
      transpose outer_weight :
  bytes dst ->
  bytes (out_dst (boxBlurInterp flag src src_y_stride dst radius width height
                    transpose outer_weight)).
Proof.
  intros Hd. unfold boxBlurInterp.
  match goal with
  | |- context [for_lt ?n 1 ?body ?x (dst, true)] =>
      pose proof (for_lt_keeps (fun s : list Z * bool => bytes (fst s))
                    body) as H; specialize (H ltac:(
                      intros y [d ok] Hb; cbn [fst] in *;
                      apply boxBlurInterp_row_bytes; exact Hb) n 1 x
                      (dst, true) Hd);
      destruct (for_lt n 1 body x (dst, true)) as [x' [d ok]]
  end.
  exact H.
Qed.

(** The same for the kernels that sample the table. *)
Lemma kernel_clamped_length dst rx ry sum sw sh :
  length (kernel_clamped dst rx ry sum sw sh) = length dst.
Proof.
  unfold kernel_clamped, kernel_clamped_rows.
  apply (for_lt_keeps (fun st => length (kr_dst st) = length dst));
    [|reflexivity].
  intros _ st Hst.
  match goal with
  | |- context [for_lt ?n 1 ?body 0 ?row] =>
      pose proof (for_lt_keeps (fun r => length (k_dst r) = length dst) body)
        as H;
      specialize (H ltac:(
        intros x0 r Hl; unfold CLAMPED_ITER, emit_px; cbn [k_dst];
        rewrite length_store; exact Hl) n 1 0 row Hst);
      destruct (for_lt n 1 body 0 row) as [x' row']
  end.
  exact H.
Qed.

Lemma kernel_clamped_bytes dst rx ry sum sw sh :
  bytes dst -> bytes (kernel_clamped dst rx ry sum sw sh).
Proof.
  intros Hd. unfold kernel_clamped, kernel_clamped_rows.
  apply (for_lt_keeps (fun st => bytes (kr_dst st))); [|exact Hd].
  intros _ st Hst.
  match goal with
  | |- context [for_lt ?n 1 ?body 0 ?row] =>
      pose proof (for_lt_keeps (fun r => bytes (k_dst r)) body) as H;
      specialize (H ltac:(
        intros x0 r Hb; unfold CLAMPED_ITER, emit_px; cbn [k_dst];
        apply bytes_store; [exact Hb | apply to_u8_range]) n 1 0 row Hst);
      destruct (for_lt n 1 body 0 row) as [x' row']
  end.
  exact H.
Qed.

Lemma kernel_interp_clamped_length dst rx ry sum sw sh ow :
  length (kernel_interp_clamped dst rx ry sum sw sh ow) = length dst.
Proof.
  unfold kernel_interp_clamped, kernel_interp_clamped_rows.
  apply (for_lt_keeps (fun st => length (kr_dst st) = length dst));
    [|reflexivity].
  intros _ st Hst.
  match goal with
  | |- context [for_lt ?n 1 ?body 0 ?row] =>
      pose proof (for_lt_keeps (fun r => length (k_dst r) = length dst) body)
        as H;
      specialize (H ltac:(
        intros x0 r Hl; unfold INTERP_CLAMPED_ITER, emit_px; cbn [k_dst];
        rewrite length_store; exact Hl) n 1 0 row Hst);
      destruct (for_lt n 1 body 0 row) as [x' row']
  end.
  exact H.
Qed.

Lemma kernel_interp_clamped_bytes dst rx ry sum sw sh ow :
  bytes dst -> bytes (kernel_interp_clamped dst rx ry sum sw sh ow).
Proof.
  intros Hd. unfold kernel_interp_clamped, kernel_interp_clamped_rows.
  apply (for_lt_keeps (fun st => bytes (kr_dst st))); [|exact Hd].
  intros _ st Hst.
  match goal with
  | |- context [for_lt ?n 1 ?body 0 ?row] =>
      pose proof (for_lt_keeps (fun r => bytes (k_dst r)) body) as H;
      specialize (H ltac:(
        intros x0 r Hb; unfold INTERP_CLAMPED_ITER, emit_px; cbn [k_dst];
        apply bytes_store; [exact Hb | apply to_u8_range]) n 1 0 row Hst);
      destruct (for_lt n 1 body 0 row) as [x' row']
  end.
  exact H.
Qed.

(** ** The image [Blur] hands back *)

Section BlurImage.
Variables (rounding unroll : bool).
Variable addr_of : heap_block -> Z.
Variable junk : heap_block -> nat -> Z.
Variable src_addr : Z.

Local Abbreviation Blur' := (Blur rounding unroll addr_of junk src_addr).
Local Abbreviation blurred :=
  (Blur_blurred rounding unroll addr_of junk src_addr).

(** The blur stage does not look at the style; the style is applied to its
    result. *)
Lemma Blur_image dst src radius style quality margin separable sp :
  Format_is_A8 (fFormat src) = true -> 0 < Blur_rx radius quality ->
  fImage src = Some sp ->
  computeImageSize (Blur_header src radius quality) <> 0 ->
  br_ret (Blur' dst src radius style quality margin separable) = true ->
  fImage (br_dst (Blur' dst src radius style quality margin separable))
  = Some (Blur_styled junk src sp
            (blurred src sp radius quality separable) radius quality style).
Proof.
  intros HA Hrx Himg Hsize.
  unfold Blur, Blur_styled, Blur_blurred, Blur_offset, Blur_header,
    Blur_margin, Blur_rx, Blur_outerWeight, Blur_passRadius, Blur_passCount,
    outset in *.
  rewrite HA, Himg. cbn [negb].
  destruct (Z.leb_spec (SkScalarCeil
              (passRadius_of radius (Blur_quality radius quality))) 0);
    [lia|].
  apply Z.eqb_neq in Hsize. rewrite Hsize.
  cbv zeta.
  destruct separable.
  - destruct (Blur_separable _ _ _ _ _ _ _ _ _ _ _ _) as [dp calls].
    destruct style; cbn [fst];
      try destruct (computeImageSize src =? 0);
      cbn [br_ret br_dst fImage fBounds fRowBytes]; intros Hret;
      try discriminate; reflexivity.
  - destruct (Blur_sat _ _ _ _ _ _ _ _ _ _ _ _ _ _ _) as [[dp heap] calls].
    destruct style; cbn [fst];
      try destruct (computeImageSize src =? 0);
      cbn [br_ret br_dst fImage fBounds fRowBytes]; intros Hret;
      try discriminate; reflexivity.
Qed.
End BlurImage.

(** ** The geometry of the output *)

Lemma Blur_header_geometry src radius quality :
  let m := Blur_margin radius quality in
  let W := irect_width (fBounds src) + 2 * m in
  let H := irect_height (fBounds src) + 2 * m in
  1 <= W -> 1 <= H -> W * H < 2 ^ 31 ->
  fRowBytes (Blur_header src radius quality) = W
  /\ computeImageSize (Blur_header src radius quality) = W * H.
Proof.
  intros m W H HW HH Hsz.
  unfold computeImageSize, Blur_header, outset, irect_width, irect_height in *.
  cbn [fBounds fRowBytes fLeft fRight fTop fBottom]. fold m.
  assert (EW : fRight (fBounds src) + m - (fLeft (fBounds src) - m) = W)
    by (unfold W; lia).
  assert (EH : fBottom (fBounds src) + m - (fTop (fBounds src) - m) = H)
    by (unfold H; lia).
  rewrite EW, EH.
  assert (W < 2 ^ 31) by nia.
  rewrite to_u32_small by lia.
  split; [reflexivity|].
  destruct (Z.ltb_spec 0 (H * W)); [|nia].
  destruct (Z.ltb_spec (H * W) (2 ^ 31)); [|nia].
  cbn [andb]. lia.
Qed.

Lemma Blur_low_margin radius quality :
  Blur_quality radius quality = kLow_Quality ->
  Blur_passCount radius quality = 1
  /\ Blur_margin radius quality = Blur_rx radius quality.
Proof.
  intros Hq. unfold Blur_margin, Blur_passCount. rewrite Hq.
  cbn [passCount_of]. lia.
Qed.

(** ** The table path at low quality *)

Lemma Blur_blurred_sat_low rounding unroll addr_of junk src_addr
      src sp radius quality :
  let rx := Blur_rx radius quality in
  let sw := irect_width (fBounds src) in
  let sh := irect_height (fBounds src) in
  Blur_quality radius quality = kLow_Quality ->
  Blur_outerWeight radius quality = 255 ->
  1 <= rx -> 0 <= sw -> 1 <= sh -> bytes sp ->
  (sw + 2 * rx) * (sh + 2 * rx) < 2 ^ 31 ->
  let B := Blur_blurred rounding unroll addr_of junk src_addr src sp radius
             quality false in
  Z.of_nat (length B) = (sw + 2 * rx) * (sh + 2 * rx)
  /\ forall x y, 0 <= x < sw + 2 * rx -> 0 <= y < sh + 2 * rx ->
       load B (y * (sw + 2 * rx) + x)
       = box_average true ((2 * rx + 1) * (2 * rx + 1))
           (window_sum_2d sp (fRowBytes src) rx rx sw sh x y).
Proof.
  intros rx sw sh Hq How Hrx Hsw Hsh Hsp Hsz B.
  destruct (Blur_low_margin radius quality Hq) as [Hpc Hm].
  destruct (Blur_header_geometry src radius quality) as [_ Hsize];
    rewrite ?Hm; fold rx sw sh; try lia.
  rewrite Hm in Hsize. fold rx sw sh in Hsize.
  unfold B, Blur_blurred. cbv zeta.
  rewrite Hq, How, Hpc, Hsize. fold rx sw sh.
  unfold Blur_sat, sat_pass.
  change (255 =? 255) with true. cbv beta iota zeta. cbn [fst snd].
  destruct (sat_blur_spec unroll src_addr
              (fresh junk blk_storage
                 ((sw + 2 * (1 - 1) * rx + 1) * (sh + 2 * (1 - 1) * rx + 1)))
              (fresh junk blk_dp ((sw + 2 * rx) * (sh + 2 * rx)))
              sp (fRowBytes src) rx rx sw sh)
    as [Hlen Hpx]; try lia; try assumption.
  { rewrite length_fresh. lia. }
  { rewrite length_fresh. nia. }
  split.
  - rewrite Hlen, length_fresh. nia.
  - exact Hpx.
Qed.

(** ** The separable path at low quality *)

Lemma sum_range_sum_of m p (n : nat) (f : Z -> Z) q :
  (forall i : nat, (i < n)%nat -> load m (p + q + Z.of_nat i) = f (q + Z.of_nat i)) ->
  sum_range m (p + q) n = sum_of f q n.
Proof.
  induction n as [|n IH]; intros H; cbn [sum_range sum_of]; [reflexivity|].
  rewrite IH by (intros; apply H; lia). rewrite H by lia. reflexivity.
Qed.

Lemma Blur_blurred_separable_low rounding unroll addr_of junk src_addr
      src sp radius quality :
  let rx := Blur_rx radius quality in
  let sw := irect_width (fBounds src) in
  let sh := irect_height (fBounds src) in
  Blur_quality radius quality = kLow_Quality ->
  Blur_outerWeight radius quality = 255 ->
  1 <= rx -> 1 <= sw -> 1 <= sh -> bytes sp ->
  (forall b i, 0 <= junk b i <= 255) ->
  (sw + 2 * rx) * (sh + 2 * rx) < 2 ^ 31 ->
  let B := Blur_blurred rounding unroll addr_of junk src_addr src sp radius
             quality true in
  Z.of_nat (length B) = (sw + 2 * rx) * (sh + 2 * rx)
  /\ forall x y, 0 <= x < sw + 2 * rx -> 0 <= y < sh + 2 * rx ->
       load B (y * (sw + 2 * rx) + x)
       = separable_blur_px rounding sp (fRowBytes src) rx rx sw sh x y.
Proof.
  intros rx sw sh Hq How Hrx Hsw Hsh Hsp Hjunk Hsz B.
  destruct (Blur_low_margin radius quality Hq) as [Hpc Hm].
  destruct (Blur_header_geometry src radius quality) as [_ Hsize];
    rewrite ?Hm; fold rx sw sh; try lia.
  rewrite Hm in Hsize. fold rx sw sh in Hsize.
  unfold B, Blur_blurred. cbv zeta.
  rewrite Hq, How, Hsize. fold rx sw sh.
  unfold Blur_separable.
  change (255 =? 255) with true. cbv beta iota zeta.
  destruct (get_adjusted_radii (Blur_passRadius radius quality)) as [lo hi].
  cbn [fst].
  set (N := (sw + 2 * rx) * (sh + 2 * rx)).
  set (tp := fresh junk blk_tmpBuffer N).
  set (dp := fresh junk blk_dp N).
  set (o1 := boxBlur rounding sp (fRowBytes src) tp rx rx sw sh true).
  destruct (boxBlur_spec rounding sp (fRowBytes src) tp rx rx sw sh true)
    as (W1 & L1 & P1); try lia; try assumption.
  { unfold tp. rewrite length_fresh. unfold N. nia. }
  fold o1 in W1, L1, P1.
  replace (sw + 2 * Z.max rx rx) with (sw + 2 * rx) in W1, P1 by lia.
  rewrite W1.
  assert (Hb1 : bytes (out_dst o1)).
  { apply boxBlur_bytes. apply bytes_fresh, Hjunk. }
  destruct (boxBlur_spec rounding (out_dst o1) sh dp rx rx sh (sw + 2 * rx) true)
    as (W2 & L2 & P2); try lia; try assumption.
  { unfold dp. rewrite length_fresh. unfold N. nia. }
  replace (sh + 2 * Z.max rx rx) with (sh + 2 * rx) in W2, P2 by lia.
  split.
  - rewrite L2. unfold dp. rewrite length_fresh. unfold N. nia.
  - intros x y Hx Hy.
    specialize (P2 x y Hx Hy). unfold boxBlur_index in P2.
    replace (y * (sw + 2 * rx) + x) with (x + y * (sw + 2 * rx)) by lia.
    rewrite P2.
    unfold boxBlur_column, separable_blur_px.
    replace (Z.max 0 (rx - rx)) with 0 by lia. rewrite Z.sub_0_r.
    destruct (Z.ltb_spec y 0); [lia|].
    destruct (Z.leb_spec (sh + (rx + rx)) y); [lia|].
    cbn [orb].
    replace (rx + rx) with (2 * rx) by lia.
    f_equal. unfold window_sum.
    apply sum_range_sum_of. intros i Hi.
    set (j := Z.max 0 (y - 2 * rx) + Z.of_nat i).
    assert (Hj : 0 <= j < sh) by (unfold j; lia).
    specialize (P1 j x Hj Hx). unfold boxBlur_index in P1.
    replace (x * sh + Z.max 0 (y - 2 * rx) + Z.of_nat i) with (j + x * sh)
      by (unfold j; lia).
    rewrite P1.
    destruct (Z.ltb_spec (x - 0) 0); [lia|].
    destruct (Z.leb_spec (sw + 2 * rx) (x - 0)); [lia|].
    reflexivity.
Qed.

(** ** The blurred buffer is a buffer of bytes of the advertised size *)

Ltac keeps_bytes :=
  repeat match goal with
         | |- bytes (out_dst (boxBlur _ _ _ _ _ _ _ _ _)) =>
             apply boxBlur_bytes
         | |- bytes (out_dst (boxBlurInterp _ _ _ _ _ _ _ _ _)) =>
             apply boxBlurInterp_bytes
         | |- bytes (kernel_clamped _ _ _ _ _ _) => apply kernel_clamped_bytes
         | |- bytes (kernel_interp_clamped _ _ _ _ _ _ _) =>
             apply kernel_interp_clamped_bytes
         end.

Lemma Blur_blurred_keeps rounding unroll addr_of junk src_addr
      src sp radius quality separable :
  (forall b i, 0 <= junk b i <= 255) ->
  0 < Blur_rx radius quality ->
  let B := Blur_blurred rounding unroll addr_of junk src_addr src sp radius
             quality separable in
  length B = Z.to_nat (computeImageSize (Blur_header src radius quality))
  /\ bytes B.
Proof.
  intros Hjunk Hrx B. unfold B, Blur_blurred. cbv zeta.
  set (N := computeImageSize (Blur_header src radius quality)).
  set (rx := Blur_rx radius quality) in *.
  pose proof (bytes_fresh junk blk_dp N Hjunk) as Hdp.
  pose proof (bytes_fresh junk blk_tmpBuffer N Hjunk) as Htp.
  pose proof (length_fresh junk blk_dp N) as Ldp.
  pose proof (length_fresh junk blk_tmpBuffer N) as Ltp.
  destruct separable.
  - unfold Blur_separable.
    destruct (Blur_outerWeight radius quality =? 255).
    + destruct (get_adjusted_radii _) as [lo hi].
      destruct (Blur_quality radius quality); cbv zeta; cbn [fst];
        rewrite !boxBlur_length; (split; [assumption|]);
        keeps_bytes; assumption.
    + destruct (Blur_quality radius quality); cbv zeta; cbn [fst];
        rewrite !boxBlurInterp_length; (split; [assumption|]);
        keeps_bytes; assumption.
  - unfold Blur_sat, sat_pass.
    destruct (Blur_outerWeight radius quality =? 255);
      destruct (Blur_quality radius quality);
      cbv beta iota zeta; cbn [fst];
      rewrite ?apply_kernel_clamped, ?apply_kernel_interp_clamped by lia;
      rewrite ?kernel_clamped_length, ?kernel_interp_clamped_length;
      (split; [assumption|]);
      keeps_bytes; assumption.
Qed.

(** ** The style passes touch the window and nothing else *)

Section StyleFrame.
Variable b : style_state -> style_state.
Hypothesis Hdp : forall st, y_dp (b st) = y_dp st + 1.
Hypothesis Hframe : forall st q,
  q <> y_dp st -> load (y_dst (b st)) q = load (y_dst st) q.

Lemma row_frame (n : nat) st :
  y_dp (Nat.iter n b st) = y_dp st + Z.of_nat n
  /\ forall q, q < y_dp st \/ y_dp st + Z.of_nat n <= q ->
       load (y_dst (Nat.iter n b st)) q = load (y_dst st) q.
Proof.
  induction n as [|n [IHp IHf]].
  - cbn. split; [lia | reflexivity].
  - rewrite Nat.iter_succ. split.
    + rewrite Hdp, IHp. lia.
    + intros q Hq. rewrite Hframe by lia. apply IHf. lia.
Qed.

Variables (sw dstRB dsp dbp : Z).
Hypothesis Hsw : 0 <= sw.

Lemma rows_frame (m : nat) st0 :
  let st := Nat.iter m (fun st => skip_row (dstRB - sw) dsp dbp
                                    (Nat.iter (Z.to_nat sw) b st)) st0 in
  y_dp st = y_dp st0 + Z.of_nat m * dstRB
  /\ forall q,
       (forall x y, 0 <= x < sw -> 0 <= y < Z.of_nat m ->
          q <> y_dp st0 + y * dstRB + x) ->
       load (y_dst st) q = load (y_dst st0) q.
Proof.
  induction m as [|m [IHp IHf]]; cbv zeta.
  - cbn. split; [lia | reflexivity].
  - rewrite Nat.iter_succ.
    set (st := Nat.iter m _ st0) in *.
    destruct (row_frame (Z.to_nat sw) st) as [Rp Rf].
    unfold skip_row; cbn [y_dp y_dst]. split.
    + rewrite Rp, IHp. lia.
    + intros q Hq.
      destruct (Z.lt_ge_cases q (y_dp st)) as [Hlt | Hge];
        [rewrite Rf by lia; apply IHf; intros; apply Hq; lia|].
      destruct (Z.lt_ge_cases q (y_dp st + sw)) as [Hin | Hout].
      * exfalso. apply (Hq (q - y_dp st) (Z.of_nat m)); lia.
      * rewrite Rf by lia. apply IHf. intros; apply Hq; lia.
Qed.
End StyleFrame.

Lemma SOLID_frame src st q :
  q <> y_dp st -> load (y_dst (SOLID_ITER src st)) q = load (y_dst st) q.
Proof. intros H. apply load_store_ne. lia. Qed.

Lemma MERGE_frame src blur st q :
  q <> y_dp st -> load (y_dst (MERGE_ITER src blur st)) q = load (y_dst st) q.
Proof. intros H. apply load_store_ne. lia. Qed.

(** [clamp_with_orig] changes nothing outside the [sw] x [sh] window, and
    nothing at all for a style that is neither solid nor outer. *)
Lemma clamp_with_orig_frame src dst dst_off dstRB src_off srcRB sw sh style q :
  0 <= sw ->
  (forall x y, 0 <= x < sw -> 0 <= y < sh -> q <> dst_off + y * dstRB + x) ->
  load (clamp_with_orig src dst dst_off dstRB src_off srcRB sw sh style) q
  = load dst q.
Proof.
  intros Hsw Hq. unfold clamp_with_orig.
  rewrite for_ge_iter. cbv zeta.
  replace (Z.to_nat (sh - 1 - 0 + 1)) with (Z.to_nat sh) by lia.
  set (st0 := {| y_dst := dst; y_dp := dst_off; y_sp := src_off; y_bp := 0 |}).
  destruct style.
  - rewrite (iter_ext _
               (fun st => skip_row (dstRB - sw) (srcRB - sw) 0
                            (Nat.iter 0 (fun s => s) st)))
      by reflexivity.
    assert (H : forall m : nat,
              y_dst (Nat.iter m (fun st => skip_row (dstRB - sw) (srcRB - sw) 0
                                             (Nat.iter 0 (fun s => s) st)) st0)
              = dst).
    { induction m as [|m IH]; [reflexivity|].
      rewrite Nat.iter_succ. exact IH. }
    rewrite H. reflexivity.
  - rewrite (iter_ext _
               (fun st => skip_row (dstRB - sw) (srcRB - sw) 0
                            (Nat.iter (Z.to_nat sw) (SOLID_ITER src) st))).
    2:{ intros st. rewrite for_ge_iter. cbn [snd].
        replace (Z.to_nat (sw - 1 - 0 + 1)) with (Z.to_nat sw) by lia.
        reflexivity. }
    destruct (rows_frame (SOLID_ITER src) ltac:(reflexivity)
                (SOLID_frame src) sw dstRB (srcRB - sw) 0 Hsw
                (Z.to_nat sh) st0) as [_ Hf].
    rewrite Hf; [reflexivity|]. cbn [st0 y_dp]. intros x y Hx Hy.
    apply Hq; lia.
  - rewrite (iter_ext _
               (fun st => skip_row (dstRB - sw) (srcRB - sw) 0
                            (Nat.iter (Z.to_nat sw) (OUTER_ITER src) st))).
    2:{ intros st. rewrite for_ge_iter. cbn [snd].
        replace (Z.to_nat (sw - 1 - 0 + 1)) with (Z.to_nat sw) by lia.
        reflexivity. }
    destruct (rows_frame (OUTER_ITER src) ltac:(reflexivity)
                (OUTER_frame src) sw dstRB (srcRB - sw) 0 Hsw
                (Z.to_nat sh) st0) as [_ Hf].
    rewrite Hf; [reflexivity|]. cbn [st0 y_dp]. intros x y Hx Hy.
    apply Hq; lia.
  - rewrite (iter_ext _
               (fun st => skip_row (dstRB - sw) (srcRB - sw) 0
                            (Nat.iter 0 (fun s => s) st)))
      by reflexivity.
    assert (H : forall m : nat,
              y_dst (Nat.iter m (fun st => skip_row (dstRB - sw) (srcRB - sw) 0
                                             (Nat.iter 0 (fun s => s) st)) st0)
              = dst).
    { induction m as [|m IH]; [reflexivity|].
      rewrite Nat.iter_succ. exact IH. }
    rewrite H. reflexivity.
Qed.

(** A style other than solid and outer leaves the whole buffer as it is. *)
Lemma clamp_with_orig_other src dst dst_off dstRB src_off srcRB sw sh style :
  style <> kSolid_Style -> style <> kOuter_Style ->
  clamp_with_orig src dst dst_off dstRB src_off srcRB sw sh style = dst.
Proof.
  intros H1 H2. unfold clamp_with_orig.
  rewrite for_ge_iter. cbv zeta.
  set (st0 := {| y_dst := dst; y_dp := dst_off; y_sp := src_off; y_bp := 0 |}).
  assert (H : forall m : nat,
            y_dst (Nat.iter m
                     (fun st => skip_row (dstRB - sw) (srcRB - sw) 0 st) st0)
            = dst).
  { induction m as [|m IH]; [reflexivity|].
    rewrite Nat.iter_succ. exact IH. }
  destruct style; try congruence; apply H.
Qed.

Lemma merge_src_with_blur_frame src blur dst dst_off dstRB src_off srcRB
      blur_off blurRB sw sh q :
  0 <= sw ->
  (forall x y, 0 <= x < sw -> 0 <= y < sh -> q <> dst_off + y * dstRB + x) ->
  load (merge_src_with_blur src blur dst dst_off dstRB src_off srcRB
          blur_off blurRB sw sh) q
  = load dst q.
Proof.
  intros Hsw Hq. unfold merge_src_with_blur.
  rewrite for_ge_iter. cbv zeta.
  replace (Z.to_nat (sh - 1 - 0 + 1)) with (Z.to_nat sh) by lia.
  set (st0 := {| y_dst := dst; y_dp := dst_off; y_sp := src_off;
                 y_bp := blur_off |}).
  rewrite (iter_ext _
             (fun st => skip_row (dstRB - sw) (srcRB - sw) (blurRB - sw)
                          (Nat.iter (Z.to_nat sw) (MERGE_ITER src blur) st))).
  2:{ intros st. rewrite for_ge_iter.
      replace (Z.to_nat (sw - 1 - 0 + 1)) with (Z.to_nat sw) by lia.
      reflexivity. }
  destruct (rows_frame (MERGE_ITER src blur) ltac:(reflexivity)
              (MERGE_frame src blur) sw dstRB (srcRB - sw) (blurRB - sw) Hsw
              (Z.to_nat sh) st0) as [_ Hf].
  rewrite Hf; [reflexivity|]. cbn [st0 y_dp]. intros x y Hx Hy.
  apply Hq; lia.
Qed.

(** ** The styles of [Blur], against the normal style *)

Section BlurStyles.
Variables (rounding unroll : bool).
Variable addr_of : heap_block -> Z.
Variable junk : heap_block -> nat -> Z.
Variable src_addr : Z.
Variables (dst src : SkMask) (sp : list Z) (radius : SkScalar).
Variables (quality : Quality) (margin : option SkIPoint) (separable : bool).

Local Abbreviation Blur' := (Blur rounding unroll addr_of junk src_addr).

Let m := Blur_margin radius quality.
Let sw := irect_width (fBounds src).
Let sh := irect_height (fBounds src).
Let W := sw + 2 * m.
Let H := sh + 2 * m.
Let off := Blur_offset src radius quality.
Let imgN :=
  Blur_blurred rounding unroll addr_of junk src_addr src sp radius quality
    separable.

Hypothesis HA : fFormat src = kA8_Format.
Hypothesis Hrx : 0 < Blur_rx radius quality.
Hypothesis Himg : fImage src = Some sp.
Hypothesis Hjunk : forall b i, 0 <= junk b i <= 255.
Hypotheses (Hsw : 0 <= sw) (Hsh : 0 <= sh).
Hypothesis Hsize : W * H < 2 ^ 31.

Lemma Blur_margin_pos : 1 <= m.
Proof.
  unfold m, Blur_margin, Blur_passCount.
  destruct (Blur_quality radius quality); cbn [passCount_of]; lia.
Qed.

Lemma Blur_geometry :
  fRowBytes (Blur_header src radius quality) = W
  /\ computeImageSize (Blur_header src radius quality) = W * H
  /\ off = m + m * W
  /\ 0 < W * H.
Proof.
  pose proof Blur_margin_pos as Hm.
  destruct (Blur_header_geometry src radius quality) as [HW HS];
    fold m sw sh W H; try (unfold W, H; lia); try lia.
  fold m sw sh W H in HW, HS.
  split; [exact HW|]. split; [exact HS|]. split.
  - unfold off, Blur_offset. rewrite HW.
    fold m. unfold m, Blur_margin. lia.
  - unfold W, H. nia.
Qed.

Lemma Blur_normal_result :
  br_ret (Blur' dst src radius kNormal_Style quality margin separable) = true
  /\ fImage (br_dst (Blur' dst src radius kNormal_Style quality margin
                       separable)) = Some imgN
  /\ Z.of_nat (length imgN) = W * H
  /\ bytes imgN.
Proof.
  destruct Blur_geometry as (HW & HS & Hoff & Hpos).
  apply Format_is_A8_iff in HA.
  assert (Hret : br_ret (Blur' dst src radius kNormal_Style quality margin
                           separable) = true).
  { rewrite Blur_ret_eq. unfold Blur_sizes_ok. rewrite HA, Himg, HS.
    destruct (Z.leb_spec (Blur_rx radius quality) 0); [lia|].
    destruct (Z.eqb_spec (W * H) 0); [lia|]. reflexivity. }
  split; [exact Hret|]. split.
  - rewrite (Blur_image rounding unroll addr_of junk src_addr dst src radius
               kNormal_Style quality margin separable sp HA Hrx Himg
               ltac:(rewrite HS; lia) Hret).
    reflexivity.
  - destruct (Blur_blurred_keeps rounding unroll addr_of junk src_addr src sp
                radius quality separable Hjunk Hrx) as [HL HB].
    fold imgN in HL, HB. split; [|exact HB].
    rewrite HL, HS. lia.
Qed.

(** Solid and outer: [clamp_with_orig] on the window of the source. *)
Lemma Blur_clamped_result style :
  style = kSolid_Style \/ style = kOuter_Style ->
  let r := Blur' dst src radius style quality margin separable in
  br_ret r = true
  /\ exists img,
       fImage (br_dst r) = Some img
       /\ length img = length imgN
       /\ (forall x y, 0 <= x < sw -> 0 <= y < sh ->
             load img (off + y * W + x)
             = (match style with
                | kSolid_Style => solid_px
                | _ => outer_px
                end) (load sp (y * fRowBytes src + x))
                     (load imgN (off + y * W + x)))
       /\ (forall q,
             (forall x y, 0 <= x < sw -> 0 <= y < sh ->
                q <> off + y * W + x) ->
             load img q = load imgN q).
Proof.
  intros Hstyle r.
  destruct Blur_geometry as (HW & HS & Hoff & Hpos).
  destruct Blur_normal_result as (_ & _ & HLN & HBN).
  pose proof Blur_margin_pos as Hm.
  apply Format_is_A8_iff in HA.
  assert (Hret : br_ret r = true).
  { unfold r. rewrite Blur_ret_eq. unfold Blur_sizes_ok. rewrite HA, Himg, HS.
    destruct (Z.leb_spec (Blur_rx radius quality) 0); [lia|].
    destruct (Z.eqb_spec (W * H) 0); [lia|].
    destruct Hstyle as [-> | ->]; reflexivity. }
  split; [exact Hret|].
  unfold r.
  rewrite (Blur_image rounding unroll addr_of junk src_addr dst src radius
             style quality margin separable sp HA Hrx Himg
             ltac:(rewrite HS; lia) Hret).
  fold imgN. unfold Blur_styled. fold off sw sh. rewrite HW.
  assert (Hfit : off + (sh - 1) * W + sw <= Z.of_nat (length imgN)).
  { rewrite HLN, Hoff. unfold W, H in *. nia. }
  assert (HswW : 0 <= sw <= W) by (unfold W; lia).
  assert (Hoff0 : 0 <= off) by (rewrite Hoff; unfold W; nia).
  eexists. split; [destruct Hstyle as [-> | ->]; reflexivity|].
  destruct Hstyle as [-> | ->].
  - destruct (clamp_with_orig_solid_spec sp imgN off W 0 (fRowBytes src) sw sh
                HswW Hsh Hoff0 Hfit) as [L P].
    split; [exact L|]. split.
    + intros x y Hx Hy. rewrite P by lia. rewrite Z.add_0_l. reflexivity.
    + intros q Hq. apply clamp_with_orig_frame; assumption.
  - destruct (clamp_with_orig_outer_spec sp imgN off W 0 (fRowBytes src) sw sh
                HswW Hsh Hoff0 Hfit) as [L P].
    split; [exact L|]. split.
    + intros x y Hx Hy. rewrite P by lia. rewrite Z.add_0_l. reflexivity.
    + intros q Hq. apply clamp_with_orig_frame; assumption.
Qed.

(** Inner: [merge_src_with_blur] into an image of the size of the source. *)
Lemma Blur_inner_result :
  sw <= fRowBytes src ->
  0 < sh * fRowBytes src < 2 ^ 31 ->
  let r := Blur' dst src radius kInner_Style quality margin separable in
  br_ret r = true
  /\ exists img,
       fImage (br_dst r) = Some img
       /\ Z.of_nat (length img) = sh * fRowBytes src
       /\ (forall x y, 0 <= x < sw -> 0 <= y < sh ->
             load img (y * fRowBytes src + x)
             = inner_px (load sp (y * fRowBytes src + x))
                        (load imgN (off + y * W + x))).
Proof.
  intros Hrb Hsrcsize r.
  destruct Blur_geometry as (HW & HS & Hoff & Hpos).
  pose proof Blur_margin_pos as Hm.
  apply Format_is_A8_iff in HA.
  assert (Hsrc : computeImageSize src = sh * fRowBytes src).
  { unfold computeImageSize. fold sh.
    destruct (Z.ltb_spec 0 (sh * fRowBytes src)); [|lia].
    destruct (Z.ltb_spec (sh * fRowBytes src) (2 ^ 31)); [|lia].
    reflexivity. }
  assert (Hret : br_ret r = true).
  { unfold r. rewrite Blur_ret_eq. unfold Blur_sizes_ok.
    rewrite HA, Himg, HS, Hsrc.
    destruct (Z.leb_spec (Blur_rx radius quality) 0); [lia|].
    destruct (Z.eqb_spec (W * H) 0); [lia|].
    destruct (Z.eqb_spec (sh * fRowBytes src) 0); [lia|]. reflexivity. }
  split; [exact Hret|].
  unfold r.
  rewrite (Blur_image rounding unroll addr_of junk src_addr dst src radius
             kInner_Style quality margin separable sp HA Hrx Himg
             ltac:(rewrite HS; lia) Hret).
  fold imgN. unfold Blur_styled. fold off sw sh. rewrite HW, Hsrc.
  eexists. split; [reflexivity|].
  destruct (merge_src_with_blur_spec sp imgN
              (fresh junk blk_inner (sh * fRowBytes src))
              0 (fRowBytes src) 0 (fRowBytes src) off W sw sh)
    as [L P]; try lia.
  { rewrite length_fresh. nia. }
  split.
  - rewrite L, length_fresh. lia.
  - intros x y Hx Hy.
    replace (y * fRowBytes src + x) with (0 + y * fRowBytes src + x) at 1 by lia.
    rewrite P by lia. rewrite Z.add_0_l. reflexivity.
Qed.
End BlurStyles.

(** ** The profile of [BlurRect] *)

Lemma SkAbs32_abs v : SkAbs32 v = Z.abs v.
Proof. unfold SkAbs32. destruct (Z.ltb_spec v 0); lia. Qed.

(** The lookup is the same at equal distances from the two ends. *)
Lemma profile_lookup_mirror profile loc blurred_width sharp_width :
  profile_lookup profile (blurred_width - 1 - loc) blurred_width sharp_width
  = profile_lookup profile loc blurred_width sharp_width.
Proof.
  unfold profile_lookup. rewrite !SkAbs32_abs, !Z.shiftl_mul_pow2 by lia.
  replace ((blurred_width - 1 - loc) * 2 ^ 1 + 1 - blurred_width)
    with (- (loc * 2 ^ 1 + 1 - blurred_width)) by lia.
  rewrite Z.abs_opp. reflexivity.
Qed.

(** Inside the sharp part the lookup reads [profile[0]]; it never reads at
    a negative index. *)
Lemma profile_lookup_index profile loc blurred_width sharp_width :
  exists ox,
    profile_lookup profile loc blurred_width sharp_width = load profile ox
    /\ 0 <= ox
    /\ 2 * ox <= Z.max 0 (Z.abs (2 * loc + 1 - blurred_width) - sharp_width)
    /\ (Z.abs (2 * loc + 1 - blurred_width) <= sharp_width + 1 -> ox = 0).
Proof.
  unfold profile_lookup. rewrite SkAbs32_abs, Z.shiftl_mul_pow2 by lia.
  replace (loc * 2 ^ 1) with (2 * loc) by lia.
  set (dx := Z.abs (2 * loc + 1 - blurred_width) - sharp_width).
  rewrite Z.shiftr_div_pow2 by lia. change (2 ^ 1) with 2.
  pose proof (Z.mul_div_le dx 2 ltac:(lia)) as Hle.
  pose proof (Z.mul_succ_div_gt dx 2 ltac:(lia)) as Hgt.
  destruct (Z.ltb_spec (dx / 2) 0).
  - exists 0. repeat split; lia.
  - exists (dx / 2). repeat split; lia.
Qed.

(** A loop that stores [f x] at index [x]. *)
Lemma fill_line (f : Z -> Z) (k : nat) x0 m :
  let out := iter_from (fun x m => store m x (f x)) k x0 m in
  length out = length m
  /\ (forall i, x0 <= i < x0 + Z.of_nat k -> 0 <= i < Z.of_nat (length m) ->
        load out i = f i)
  /\ (forall i, i < x0 \/ x0 + Z.of_nat k <= i -> load out i = load m i).
Proof.
  induction k as [|k IH]; cbv zeta.
  - cbn. split; [reflexivity|]. split; [intros; lia | reflexivity].
  - rewrite iter_from_snoc. cbv zeta in IH. destruct IH as (L & Hit & Fr).
    rewrite length_store. split; [exact L|]. split.
    + intros i Hi Hr.
      destruct (Z.eq_dec i (x0 + Z.of_nat k)) as [-> | Hne].
      * apply load_store_eq. rewrite L. lia.
      * rewrite load_store_ne by lia. apply Hit; lia.
    + intros i Hi. rewrite load_store_ne by lia. apply Fr. lia.
Qed.

Lemma f32_to_u8_range x : 0 <= f32_to_u8 x <= 255.
Proof. apply to_u8_range. Qed.

(** [compute_profile] fills the first [size] entries with values between
    0 and 255, the first of them 255, and leaves the size of the array. *)
Lemma compute_profile_range profile radius :
  let size := compute_profile_size radius in
  let out := compute_profile profile radius in
  length out = length profile
  /\ (1 <= size <= Z.of_nat (length profile) ->
      load out 0 = 255
      /\ forall x, 0 <= x < size -> 0 <= load out x <= 255).
Proof.
  cbv zeta. unfold compute_profile. cbv zeta.
  set (size := compute_profile_size radius).
  rewrite for_lt_iter_from. cbn [snd].
  match goal with
  | |- context [iter_from ?body ?k 1 ?m] =>
      pose proof (fill_line
                    (fun x => 255 - f32_to_u8
                       (f32_mul (f32_of_Z 255)
                          (gaussianIntegral
                             (f32_mul
                                (f32_sub (f32_of_Z (Z.shiftr size 1 - x))
                                   f32_0_5)
                                (f32_div (f32_of_Z 1) radius)))))
                    k 1 m) as H
  end.
  cbv zeta in H. destruct H as (L & Hit & Fr).
  rewrite length_store in L, Hit.
  split; [exact L|].
  intros Hsz. split.
  - rewrite Fr by lia. apply load_store_eq. lia.
  - intros x Hx.
    destruct (Z.eq_dec x 0) as [-> | Hne].
    + rewrite Fr by lia. rewrite load_store_eq by lia. lia.
    + rewrite Hit by lia.
      match goal with
      | |- context [f32_to_u8 ?v] => pose proof (f32_to_u8_range v)
      end. lia.
Qed.

(** ** What [BlurRect] allocates and what it returns *)

Lemma BlurRect_live junk dst src provided_radius style margin createMode :
  let r := BlurRect junk dst src provided_radius style margin createMode in
  live (br_heap r)
  = match fImage (br_dst r) with
    | None => []
    | Some _ => [if is_inner style && br_ret r then blk_inner else blk_dp]
    end.
Proof.
  cbv zeta. unfold BlurRect.
  destruct createMode; [destruct style; reflexivity | |];
    (destruct (computeImageSize _ =? 0); [reflexivity|]);
    match goal with
    | |- context [let '(dp, _) := ?X in _] => destruct X as [dp p]
    end;
    destruct style; cbn [is_inner andb];
      try (destruct (f32_trunc _ =? 0)); reflexivity.
Qed.

(** The bounds, row stride and margin of a successful call do not depend on
    the create mode. *)
Lemma BlurRect_geometry junk dst src provided_radius style margin createMode :
  let r := BlurRect junk dst src provided_radius style margin createMode in
  let r0 := BlurRect junk dst src provided_radius style margin
              kJustComputeBounds_CreateMode in
  br_margin r = br_margin r0
  /\ (br_ret r = true ->
      fBounds (br_dst r) = fBounds (br_dst r0)
      /\ fRowBytes (br_dst r) = fRowBytes (br_dst r0)
      /\ fFormat (br_dst r) = kA8_Format).
Proof.
  cbv zeta. unfold BlurRect.
  destruct createMode; [destruct style; repeat split | |];
    (destruct (computeImageSize _ =? 0);
     [split; [reflexivity | intros Hret; discriminate]|]);
    match goal with
    | |- context [let '(dp, _) := ?X in _] => destruct X as [dp p]
    end;
    destruct style; try (destruct (f32_trunc _ =? 0));
      (split; [reflexivity | intros Hret; try discriminate; repeat split]).
Qed.

(** ** Loops that fill a raster *)

Section Raster.
Variables (W : Z) (g : Z -> Z -> Z).
Hypothesis HW : 0 <= W.

Let cell (y x : Z) (s : list Z * Z) : list Z * Z :=
  (store (fst s) (snd s) (g x y), snd s + 1).

Lemma raster_cells y (k : nat) dp p :
  0 <= p -> p + Z.of_nat k <= Z.of_nat (length dp) ->
  let s := iter_from (cell y) k 0 (dp, p) in
  snd s = p + Z.of_nat k
  /\ length (fst s) = length dp
  /\ (forall x, 0 <= x < Z.of_nat k -> load (fst s) (p + x) = g x y)
  /\ (forall q, q < p \/ p + Z.of_nat k <= q -> load (fst s) q = load dp q).
Proof.
  intros Hp. induction k as [|k IH]; intros Hk; cbv zeta.
  - cbn. split; [lia|]. split; [reflexivity|].
    split; [intros; lia | reflexivity].
  - rewrite iter_from_snoc.
    destruct (IH ltac:(lia)) as (Ep & L & Hit & Fr).
    set (S := iter_from (cell y) k 0 (dp, p)) in *.
    unfold cell. cbn [fst snd]. rewrite Ep, length_store, Z.add_0_l.
    split; [lia|]. split; [exact L|]. split.
    + intros x Hx.
      destruct (Z.eq_dec x (Z.of_nat k)) as [-> | Hne].
      * apply load_store_eq. rewrite L. lia.
      * rewrite load_store_ne by lia. apply Hit; lia.
    + intros q Hq. rewrite load_store_ne by lia. apply Fr. lia.
Qed.

Lemma raster_rows (h : nat) dp :
  W * Z.of_nat h <= Z.of_nat (length dp) ->
  let s := iter_from (fun y s => iter_from (cell y) (Z.to_nat W) 0 s) h 0
             (dp, 0) in
  snd s = W * Z.of_nat h
  /\ length (fst s) = length dp
  /\ (forall x y, 0 <= x < W -> 0 <= y < Z.of_nat h ->
        load (fst s) (y * W + x) = g x y)
  /\ (forall q, W * Z.of_nat h <= q -> load (fst s) q = load dp q).
Proof.
  induction h as [|h IH]; intros Hh; cbv zeta.
  - cbn. split; [lia|]. split; [reflexivity|].
    split; [intros; lia | reflexivity].
  - rewrite iter_from_snoc.
    destruct (IH ltac:(nia)) as (Ep & L & Hit & Fr).
    set (s := iter_from _ h 0 (dp, 0)) in *.
    destruct s as [d p]. cbn [fst snd] in *. subst p.
    destruct (raster_cells (0 + Z.of_nat h) (Z.to_nat W) d (W * Z.of_nat h))
      as (Ep' & L' & Hit' & Fr'); try nia.
    rewrite Z.add_0_l in *. rewrite Z2Nat.id in * by lia.
    split; [nia|]. split; [congruence|]. split.
    + intros x y Hx Hy.
      destruct (Z.eq_dec y (Z.of_nat h)) as [-> | Hne].
      * replace (Z.of_nat h * W + x) with (W * Z.of_nat h + x) by lia.
        apply Hit'. lia.
      * rewrite Fr' by nia. apply Hit; lia.
    + intros q Hq. rewrite Fr' by nia. apply Fr. nia.
Qed.
End Raster.

Lemma iter_from_ext {S : Type} (b b' : Z -> S -> S) (k : nat) x s :
  (forall x s, b x s = b' x s) -> iter_from b k x s = iter_from b' k x s.
Proof.
  intros Hb. revert x s. induction k as [|k IH]; intros x s; [reflexivity|].
  cbn [iter_from]. rewrite Hb. apply IH.
Qed.

(** ** The pixels of [BlurRect] *)

Section BlurRectPixels.
Variable junk : heap_block -> nat -> Z.
Variables (dst : SkMask) (src : SkRect) (provided_radius : SkScalar).
Variables (margin : option SkIPoint) (createMode : CreateMode).

Let Wd := irect_width (BlurRect_bounds src provided_radius).
Let Hd := irect_height (BlurRect_bounds src provided_radius).
Let pad := BlurRect_pad provided_radius.
Let sw := BlurRect_sw src.

Hypothesis Hmode : createMode <> kJustComputeBounds_CreateMode.
Hypotheses (HWd : 1 <= Wd) (HHd : 1 <= Hd) (Hsize : Wd * Hd < 2 ^ 31).

(** The raster before the style is applied. *)
Lemma BlurRect_raster style :
  exists imgN,
    Z.of_nat (length imgN) = Wd * Hd
    /\ (forall x y, 0 <= x < Wd -> 0 <= y < Hd ->
          load imgN (y * Wd + x) = BlurRect_px junk src provided_radius x y)
    /\ let r := BlurRect junk dst src provided_radius style margin createMode in
       match style with
       | kNormal_Style | kSolid_Style =>
           br_ret r = true /\ fImage (br_dst r) = Some imgN
       | kOuter_Style =>
           br_ret r = true
           /\ fImage (br_dst r)
              = Some (snd (for_lt (Hd - pad) 1
                             (fun y dp => memset dp (y * Wd + pad) 0 (Z.to_nat sw))
                             pad imgN))
       | kInner_Style => True
       end.
Proof.
  assert (Hto : to_u32 Wd = Wd) by (apply to_u32_small; nia).
  assert (Hcis : forall any,
            computeImageSize
              {| fImage := any;
                 fBounds := BlurRect_bounds src provided_radius;
                 fRowBytes := to_u32 Wd; fFormat := kA8_Format |}
            = Wd * Hd).
  { intros any. unfold computeImageSize. cbn [fBounds fRowBytes].
    fold Hd. rewrite Hto.
    destruct (Z.ltb_spec 0 (Hd * Wd)); [|nia].
    destruct (Z.ltb_spec (Hd * Wd) (2 ^ 31)); [|nia]. cbn [andb]. lia. }
  set (hs := snd (for_lt Wd 1
                    (fun x hs =>
                       store hs x (BlurRect_weight_x junk src provided_radius x))
                    0 (map (junk blk_scanline) (seq 0 (Z.to_nat Wd))))).
  set (g := fun x y : Z =>
              to_u8 (SkMulDiv255Round (load hs x)
                       (BlurRect_weight_y junk src provided_radius y))).
  set (dp0 := map (junk blk_dp) (seq 0 (Z.to_nat (Wd * Hd)))).
  set (S := iter_from
              (fun y s => iter_from
                            (fun x s => (store (fst s) (snd s) (g x y), snd s + 1))
                            (Z.to_nat Wd) 0 s)
              (Z.to_nat Hd) 0 (dp0, 0)).
  destruct (raster_rows Wd g ltac:(lia) (Z.to_nat Hd) dp0) as (_ & L & Hit & _).
  { unfold dp0. rewrite length_map, length_seq. nia. }
  fold S in L, Hit.
  assert (Hhs : forall x, 0 <= x < Wd ->
                  load hs x = BlurRect_weight_x junk src provided_radius x).
  { intros x Hx. unfold hs. rewrite for_lt_iter_from. cbn [snd].
    destruct (fill_line (BlurRect_weight_x junk src provided_radius)
                (Z.to_nat (Wd - 0)) 0
                (map (junk blk_scanline) (seq 0 (Z.to_nat Wd))))
      as (_ & Hl & _).
    apply Hl; [lia|]. rewrite length_map, length_seq. lia. }
  exists (fst S). split; [|split].
  - rewrite L. unfold dp0. rewrite length_map, length_seq. nia.
  - intros x y Hx Hy. rewrite Hit by lia. unfold g, BlurRect_px.
    rewrite Hhs by lia. reflexivity.
  - cbv zeta. unfold BlurRect.
    destruct createMode; [congruence | |];
      cbv zeta;
      match goal with
      | |- context [computeImageSize ?hdr] =>
          replace (computeImageSize hdr) with (Wd * Hd)
            by (symmetry; exact (Hcis None))
      end;
      (destruct (Z.eqb_spec (Wd * Hd) 0); [nia|]);
      match goal with
      | |- context [snd (for_lt ?h 1 ?body 0 (?d, 0))] =>
          replace (snd (for_lt h 1 body 0 (d, 0))) with S
      end;
      try (destruct S as [dS pS]; cbn [fst];
           destruct style; try exact I; cbn [br_ret br_dst fImage];
           (split; reflexivity));
      (rewrite for_lt_iter_from; cbn [snd]; rewrite Z.sub_0_r; unfold S;
       apply iter_from_ext; intros y [d o]; cbv zeta;
       rewrite for_lt_iter_from; cbn [snd]; rewrite Z.sub_0_r;
       apply iter_from_ext; intros x [d' o']; reflexivity).
Qed.
End BlurRectPixels.

(** ** The outer style of [BlurRect] clears the rectangle *)



(** ** The blurred rectangle is symmetric where it is read off the profile *)

Lemma BlurRect_weight_x_mirror junk src provided_radius x :
  BlurRect_profile_size provided_radius <= BlurRect_sw src ->
  BlurRect_weight_x junk src provided_radius
    (irect_width (BlurRect_bounds src provided_radius) - 1 - x)
  = BlurRect_weight_x junk src provided_radius x.
Proof.
  intros H. unfold BlurRect_weight_x, edge_sample.
  destruct (Z.leb_spec (BlurRect_profile_size provided_radius) (BlurRect_sw src));
    [|lia].
  rewrite profile_lookup_mirror. reflexivity.
Qed.

Lemma BlurRect_weight_y_mirror junk src provided_radius y :
  BlurRect_profile_size provided_radius <= BlurRect_sh src ->
  BlurRect_weight_y junk src provided_radius
    (irect_height (BlurRect_bounds src provided_radius) - 1 - y)
  = BlurRect_weight_y junk src provided_radius y.
Proof.
  intros H. unfold BlurRect_weight_y, edge_sample.
  destruct (Z.leb_spec (BlurRect_profile_size provided_radius) (BlurRect_sh src));
    [|lia].
  rewrite profile_lookup_mirror. reflexivity.
Qed.


(** ** The passes [Blur] runs *)

Lemma Blur_quality_cases radius quality :
  let high := match quality with
              | kHigh_Quality => negb (f32_ltb radius (SkIntToScalar 3))
              | kLow_Quality => false
              end in
  Blur_quality radius quality = (if high then kHigh_Quality else kLow_Quality)
  /\ Blur_passCount radius quality = (if high then 3 else 1)
  /\ Blur_passRadius radius quality
     = (if high then SkScalarMul radius kBlurRadiusFudgeFactor else radius).
Proof.
  unfold Blur_passCount, Blur_passRadius, Blur_quality.
  destruct quality, (f32_ltb radius (SkIntToScalar 3)); cbn; repeat split.
Qed.

Lemma Blur_separable_passes flag sp rb tp dp sw sh q passRadius rx ow :
  snd (Blur_separable flag sp rb tp dp sw sh q passRadius rx rx ow)
  = separable_passes (passCount_of q) passRadius rx ow
  /\ fst (Blur_separable flag sp rb tp dp sw sh q passRadius rx rx ow)
     = ps_src (fold_left (run_box_call flag)
                 (separable_passes (passCount_of q) passRadius rx ow)
                 {| ps_src := sp; ps_stride := rb; ps_w := sw; ps_h := sh;
                    ps_tp := tp; ps_dp := dp; ps_into_tp := true |}).
Proof.
  unfold Blur_separable, separable_passes, axis_passes.
  destruct (ow =? 255), (get_adjusted_radii passRadius) as [lo hi], q;
    split; reflexivity.
Qed.

Lemma table_passes_1 rx ow sw sh :
  table_passes 1 rx ow sw sh
  = [call_build_sum_buffer sw sh;
     if ow =? 255 then call_apply_kernel rx rx
     else call_apply_kernel_interp rx rx ow].
Proof.
  unfold table_passes.
  change (Z.to_nat 1) with 1%nat. cbn [seq flat_map app].
  change (Z.of_nat 0) with 0.
  replace (sw + 2 * 0 * rx) with sw by lia.
  replace (sh + 2 * 0 * rx) with sh by lia.
  reflexivity.
Qed.

Lemma table_passes_3 rx ow sw sh :
  table_passes 3 rx ow sw sh
  = [call_build_sum_buffer sw sh;
     if ow =? 255 then call_apply_kernel rx rx
     else call_apply_kernel_interp rx rx ow;
     call_build_sum_buffer (sw + 2 * rx) (sh + 2 * rx);
     if ow =? 255 then call_apply_kernel rx rx
     else call_apply_kernel_interp rx rx ow;
     call_build_sum_buffer (sw + 2 * rx + 2 * rx) (sh + 2 * rx + 2 * rx);
     if ow =? 255 then call_apply_kernel rx rx
     else call_apply_kernel_interp rx rx ow].
Proof.
  unfold table_passes.
  change (Z.to_nat 3) with 3%nat. cbn [seq flat_map app].
  change (Z.of_nat 0) with 0. change (Z.of_nat 1) with 1.
  change (Z.of_nat 2) with 2.
  replace (sw + 2 * 0 * rx) with sw by lia.
  replace (sh + 2 * 0 * rx) with sh by lia.
  replace (sw + 2 * 1 * rx) with (sw + 2 * rx) by lia.
  replace (sh + 2 * 1 * rx) with (sh + 2 * rx) by lia.
  replace (sw + 2 * 2 * rx) with (sw + 2 * rx + 2 * rx) by lia.
  replace (sh + 2 * 2 * rx) with (sh + 2 * rx + 2 * rx) by lia.
  reflexivity.
Qed.

Lemma Blur_sat_passes unroll addr_of junk src_addr sp rb dp dstSize sw sh q
      rx ow :
  let passCount := passCount_of q in
  let storage := (sw + 2 * (passCount - 1) * rx + 1)
                 * (sh + 2 * (passCount - 1) * rx + 1) in
  snd (Blur_sat unroll addr_of junk src_addr sp rb dp dstSize sw sh q
         passCount rx rx ow)
  = table_passes passCount rx ow sw sh
  /\ fst (fst (Blur_sat unroll addr_of junk src_addr sp rb dp dstSize sw sh q
                 passCount rx rx ow))
     = ts_src (fold_left (run_table_call unroll addr_of)
                 (table_passes passCount rx ow sw sh)
                 {| ts_src := sp; ts_addr := src_addr; ts_rb := rb;
                    ts_sw := sw; ts_sh := sh;
                    ts_sum := fresh junk blk_storage storage;
                    ts_dp := dp;
                    ts_tmp := fresh junk blk_tmpBuffer dstSize;
                    ts_into_dp := true |}).
Proof.
  intros passCount storage. unfold passCount, storage.
  destruct q; cbn [passCount_of].
  - rewrite table_passes_1. unfold Blur_sat, sat_pass.
    destruct (ow =? 255); split; reflexivity.
  - rewrite table_passes_3. unfold Blur_sat, sat_pass.
    destruct (ow =? 255); split; reflexivity.
Qed.

Section BlurPasses.
Variables (rounding unroll : bool).
Variable addr_of : heap_block -> Z.
Variable junk : heap_block -> nat -> Z.
Variable src_addr : Z.

Local Abbreviation Blur' := (Blur rounding unroll addr_of junk src_addr).

(** The calls of a call that reaches the blur stage. *)
Lemma Blur_calls dst src radius style quality margin separable sp :
  Format_is_A8 (fFormat src) = true -> 0 < Blur_rx radius quality ->
  fImage src = Some sp ->
  computeImageSize (Blur_header src radius quality) <> 0 ->
  let q := Blur_quality radius quality in
  let rx := Blur_rx radius quality in
  let ow := Blur_outerWeight radius quality in
  let dstSize := computeImageSize (Blur_header src radius quality) in
  let sw := irect_width (fBounds src) in
  let sh := irect_height (fBounds src) in
  br_calls (Blur' dst src radius style quality margin separable)
  = if separable
    then snd (Blur_separable rounding sp (fRowBytes src)
                (fresh junk blk_tmpBuffer dstSize) (fresh junk blk_dp dstSize)
                sw sh q (Blur_passRadius radius quality) rx rx ow)
    else snd (Blur_sat unroll addr_of junk src_addr sp (fRowBytes src)
                (fresh junk blk_dp dstSize) dstSize sw sh q
                (Blur_passCount radius quality) rx rx ow).
Proof.
  intros HA Hrx Himg Hsize.
  unfold Blur, Blur_header, Blur_margin, Blur_rx, Blur_outerWeight,
    Blur_passRadius, Blur_passCount, outset in *.
  rewrite HA, Himg. cbn [negb].
  destruct (Z.leb_spec (SkScalarCeil
              (passRadius_of radius (Blur_quality radius quality))) 0);
    [lia|].
  apply Z.eqb_neq in Hsize. rewrite Hsize.
  cbv zeta.
  destruct separable.
  - destruct (Blur_separable _ _ _ _ _ _ _ _ _ _ _ _) as [dp calls].
    destruct style; cbn [snd];
      try destruct (computeImageSize src =? 0); reflexivity.
  - destruct (Blur_sat _ _ _ _ _ _ _ _ _ _ _ _ _ _ _) as [[dp heap] calls].
    destruct style; cbn [snd];
      try destruct (computeImageSize src =? 0); reflexivity.
Qed.

(** The calls are the passes, and the blurred image is what they leave. *)
Lemma Blur_runs_passes dst src radius style quality margin (separable : bool)
      sp :
  Format_is_A8 (fFormat src) = true -> 0 < Blur_rx radius quality ->
  fImage src = Some sp ->
  computeImageSize (Blur_header src radius quality) <> 0 ->
  let passCount := Blur_passCount radius quality in
  let rx := Blur_rx radius quality in
  let ow := Blur_outerWeight radius quality in
  let dstSize := computeImageSize (Blur_header src radius quality) in
  let sw := irect_width (fBounds src) in
  let sh := irect_height (fBounds src) in
  let calls := if separable
               then separable_passes passCount
                      (Blur_passRadius radius quality) rx ow
               else table_passes passCount rx ow sw sh in
  br_calls (Blur' dst src radius style quality margin separable) = calls
  /\ Blur_blurred rounding unroll addr_of junk src_addr src sp radius quality
       separable
     = run_passes rounding unroll addr_of junk src_addr separable sp
         (fRowBytes src) sw sh dstSize
         ((sw + 2 * (passCount - 1) * rx + 1)
          * (sh + 2 * (passCount - 1) * rx + 1))
         calls.
Proof.
  intros HA Hrx Himg Hsize passCount rx ow dstSize sw sh calls.
  unfold calls. split.
  - rewrite (Blur_calls dst src radius style quality margin separable sp
               HA Hrx Himg Hsize).
    fold rx ow dstSize sw sh. destruct separable.
    + apply Blur_separable_passes.
    + apply Blur_sat_passes.
  - unfold Blur_blurred, run_passes.
    fold rx ow dstSize sw sh. destruct separable.
    + apply Blur_separable_passes.
    + apply Blur_sat_passes.
Qed.

(** Every [boxBlurInterp] call of [Blur] has a radius of at least 1, and
    every call it makes has a positive integer radius behind it. *)
Lemma Blur_calls_nil_or_positive dst src radius style quality margin separable :
  br_calls (Blur' dst src radius style quality margin separable) = []
  \/ (0 < Blur_rx radius quality
      /\ exists sp,
           fImage src = Some sp
           /\ Format_is_A8 (fFormat src) = true
           /\ computeImageSize (Blur_header src radius quality) <> 0).
Proof.
  destruct (Format_is_A8 (fFormat src)) eqn:HA.
  - destruct (Z.leb_spec (Blur_rx radius quality) 0) as [Hrx|Hrx].
    + left. rewrite Blur_rejects; [reflexivity | right; exact Hrx].
    + destruct (fImage src) as [sp|] eqn:Himg.
      * destruct (Z.eq_dec (computeImageSize (Blur_header src radius quality))
                    0) as [Hz|Hnz].
        -- left.
           rewrite (Blur_dst_too_big rounding unroll addr_of junk src_addr
                      dst src radius style quality margin separable sp
                      HA Hrx Himg Hz).
           reflexivity.
        -- right. split; [exact Hrx|]. exists sp. repeat split; assumption.
      * left. rewrite Blur_null_image by assumption. reflexivity.
  - left. rewrite Blur_rejects; [reflexivity | left; exact HA].
Qed.

Lemma Blur_interp_calls_radius dst src radius style quality margin separable :
  forall rad transpose ow,
    In (call_boxBlurInterp rad transpose ow)
       (br_calls (Blur' dst src radius style quality margin separable)) ->
    1 <= rad.
Proof.
  intros rad transpose ow Hin.
  destruct (Blur_calls_nil_or_positive dst src radius style quality margin
              separable) as [E | (Hrx & sp & Himg & HA & Hsize)].
  - rewrite E in Hin. destruct Hin.
  - destruct (Blur_runs_passes dst src radius style quality margin separable
                sp HA Hrx Himg Hsize) as [E _].
    rewrite E in Hin. clear E.
    assert (Hax : forall c,
              In c (axis_passes (Blur_passCount radius quality)
                      (Blur_passRadius radius quality)
                      (Blur_rx radius quality)
                      (Blur_outerWeight radius quality)) ->
              c = call_boxBlurInterp rad transpose ow ->
              1 <= rad).
    { intros c Hc ->. unfold axis_passes in Hc.
      destruct (Blur_outerWeight radius quality =? 255).
      - destruct (Blur_passCount radius quality =? 1); cbn in Hc;
          repeat (destruct Hc as [Hc | Hc]; [discriminate|]); destruct Hc.
      - apply in_app_or in Hc. destruct Hc as [Hc | Hc].
        + apply repeat_spec in Hc. injection Hc as Hr _ _; lia.
        + destruct Hc as [Hc | []]. injection Hc as Hr _ _; lia. }
    destruct separable.
    + unfold separable_passes in Hin. apply in_app_or in Hin.
      destruct Hin as [Hin | Hin]; eapply Hax; eauto.
    + unfold table_passes in Hin. apply in_flat_map in Hin.
      destruct Hin as (k & _ & Hin). cbn in Hin.
      destruct Hin as [Hin | [Hin | []]]; [discriminate|].
      destruct (Blur_outerWeight radius quality =? 255); discriminate.
Qed.
End BlurPasses.

(** * The properties of the specification, C1 to C10 *)

(** C1.  Every row of [boxBlur] ends with its running sum at exactly 0, for
    every source buffer, radii, width and height, so the
    [SkASSERT(sum == 0)] that ends the row holds.  Every row of
    [boxBlurInterp] ends with [outer_sum] at 0, and with [inner_sum] at 0
    for every radius of at least 1, so that its end-of-row assertion holds
    as well.  These are the radii [boxBlurInterp] is called with: every
    call [Blur], its only caller, makes to it has a radius of at least 1,
    since [Blur] returns false before it reaches a kernel when the integer
    radius is not positive. *)
Theorem zero_sum_invariant :
  (forall flag src scale stride l r w so doff dst,
     r_sum (boxBlur_row flag src scale stride l r w so doff dst) = 0)
  /\ (forall flag src src_y_stride dst l r width height transpose,
        out_asserts (boxBlur flag src src_y_stride dst l r width height
                       transpose) = true)
  /\ (forall flag src oscale iscale stride radius w so doff dst,
        i_outer_sum
          (boxBlurInterp_row flag src oscale iscale stride radius w so doff dst)
        = 0)
  /\ (forall flag src oscale iscale stride radius w so doff dst,
        1 <= radius ->
        i_inner_sum
          (boxBlurInterp_row flag src oscale iscale stride radius w so doff dst)
        = 0)
  /\ (forall flag src src_y_stride dst radius width height transpose
             outer_weight,
        1 <= radius ->
        out_asserts (boxBlurInterp flag src src_y_stride dst radius width
                       height transpose outer_weight) = true)
  /\ (forall rounding unroll addr_of junk src_addr
             dst src radius style quality margin separable
             pass_radius transpose outer_weight,
        In (call_boxBlurInterp pass_radius transpose outer_weight)
           (br_calls (Blur rounding unroll addr_of junk src_addr
                        dst src radius style quality margin separable)) ->
        1 <= pass_radius).
Proof.
  split; [intros; apply boxBlur_row_sum_zero|].
  split; [intros; apply boxBlur_asserts_hold|].
  split; [intros; apply boxBlurInterp_row_outer_zero|].
  split; [intros; apply boxBlurInterp_row_inner_zero; assumption|].
  split; [intros; apply boxBlurInterp_asserts_hold; assumption|].
  intros rounding unroll addr_of junk src_addr
         dst src radius style quality margin separable
         pass_radius transpose outer_weight Hin.
  exact (Blur_interp_calls_radius rounding unroll addr_of junk src_addr
           dst src radius style quality margin separable
           pass_radius transpose outer_weight Hin).
Qed.

Lemma zero_sum_invariant_witness :
  1 <= 1
  /\ out_asserts (boxBlurInterp false [255; 255; 255; 255] 4 (repeat 0 6)
                    1 4 1 false 128) = true.
Proof.
  split; [lia|].
  apply (proj1 (proj2 (proj2 (proj2 (proj2 zero_sum_invariant))))). lia.
Defined.

(** The bound on the radius is needed.  With radius 0, which [Blur] never
    passes, the center loop of [boxBlurInterp] leaves [inner_sum = 0 - 5]
    (mod 2^32) on the one-pixel row [5] and no right-border round follows
    to clear it. *)
Lemma boxBlurInterp_radius_0_inner_sum :
  i_inner_sum (boxBlurInterp_row false [5] 0 0 1 0 1 0 0 [0]) = 4294967291
  /\ out_asserts (boxBlurInterp false [5] 1 [0] 0 1 1 false 128) = false.
Proof. split; vm_compute; reflexivity. Qed.

(** C2 (amended).  For every [srcW]-by-[srcH] byte image with [srcW >= 0],
    [srcH >= 1] and row stride [srcRB >= srcW], [build_sum_buffer] fills a
    [(srcW+1)]-by-[(srcH+1)] buffer whose first row and first column are
    zero and whose entry at [j+1][i+1] equals, modulo 2^32, the sum of
    [src[y][x]] over [0 <= x <= i], [0 <= y <= j]; four-corner
    inclusion-exclusion on the buffer gives the total of any rectangular
    region modulo 2^32; and both are exact when the image is small enough
    for its total to stay below 2^32. *)
Theorem build_sum_buffer_prefix_sums :
  forall a sum srcW srcH src srcRB,
    0 <= srcW -> 1 <= srcH -> srcW <= srcRB ->
    (srcW + 1) * (srcH + 1) <= Z.of_nat (length sum) ->
    let out := build_sum_buffer a sum srcW srcH src srcRB in
    let sumW := srcW + 1 in
    length out = length sum
    /\ (forall i, 0 <= i <= srcW -> load out i = 0)
    /\ (forall j, 0 <= j <= srcH -> load out (j * sumW) = 0)
    /\ (forall i j, 0 <= i < srcW -> 0 <= j < srcH ->
          load out ((j + 1) * sumW + (i + 1))
          = to_u32 (rect_sum src srcRB (Z.to_nat (i + 1)) (Z.to_nat (j + 1))))
    /\ (forall x0 x1 y0 y1,
          0 <= x0 <= x1 -> x1 <= srcW -> 0 <= y0 <= y1 -> y1 <= srcH ->
          four_corners out (y0 * sumW + x0) (y1 * sumW + x1)
                           (y0 * sumW + x1) (y1 * sumW + x0)
          = to_u32 (region_sum src srcRB (Z.to_nat x0) (Z.to_nat (x1 - x0))
                      (Z.to_nat y0) (Z.to_nat (y1 - y0))))
    /\ (bytes src -> 255 * srcW * srcH < 2 ^ 32 ->
        (forall i j, 0 <= i < srcW -> 0 <= j < srcH ->
           load out ((j + 1) * sumW + (i + 1))
           = rect_sum src srcRB (Z.to_nat (i + 1)) (Z.to_nat (j + 1)))
        /\ (forall x0 x1 y0 y1,
              0 <= x0 <= x1 -> x1 <= srcW -> 0 <= y0 <= y1 -> y1 <= srcH ->
              four_corners out (y0 * sumW + x0) (y1 * sumW + x1)
                               (y0 * sumW + x1) (y1 * sumW + x0)
              = region_sum src srcRB (Z.to_nat x0) (Z.to_nat (x1 - x0))
                  (Z.to_nat y0) (Z.to_nat (y1 - y0)))).
Proof.
  intros a sum srcW srcH src srcRB HW HH HRB Hlen out sumW.
  destruct (build_sum_buffer_table a src srcW srcH srcRB sum HW HH Hlen)
    as [Hl Htab].
  fold out in Hl, Htab. fold sumW in Htab.
  assert (Hentry : forall i j, 0 <= i <= srcW -> 0 <= j <= srcH ->
            load out (j * sumW + i)
            = to_u32 (rect_sum src srcRB (Z.to_nat i) (Z.to_nat j))).
  { intros i j Hi Hj.
    specialize (Htab (Z.to_nat i) (Z.to_nat j) ltac:(lia)
                  ltac:(unfold sumW; lia)).
    rewrite !Z2Nat.id in Htab by lia. exact Htab. }
  assert (Hregion : forall x0 x1 y0 y1,
            0 <= x0 <= x1 -> x1 <= srcW -> 0 <= y0 <= y1 -> y1 <= srcH ->
            four_corners out (y0 * sumW + x0) (y1 * sumW + x1)
                             (y0 * sumW + x1) (y1 * sumW + x0)
            = to_u32 (region_sum src srcRB (Z.to_nat x0) (Z.to_nat (x1 - x0))
                        (Z.to_nat y0) (Z.to_nat (y1 - y0)))).
  { intros x0 x1 y0 y1 Hx0 Hx1 Hy0 Hy1.
    pose proof (table_region out src sumW srcRB (Z.to_nat srcH)
                  (Z.to_nat x0) (Z.to_nat (x1 - x0))
                  (Z.to_nat y0) (Z.to_nat (y1 - y0)) Htab
                  ltac:(lia) ltac:(unfold sumW; lia)) as H.
    replace (Z.of_nat (Z.to_nat y0 + Z.to_nat (y1 - y0))) with y1 in H by lia.
    replace (Z.of_nat (Z.to_nat x0 + Z.to_nat (x1 - x0))) with x1 in H by lia.
    rewrite !Z2Nat.id in H by lia. exact H. }
  split; [exact Hl|]. split; [|split; [|split; [|split]]].
  - intros i Hi. specialize (Hentry i 0 Hi ltac:(lia)).
    rewrite Z.mul_0_l, Z.add_0_l in Hentry. rewrite Hentry. reflexivity.
  - intros j Hj. specialize (Hentry 0 j ltac:(lia) Hj).
    rewrite Z.add_0_r in Hentry. rewrite Hentry.
    change (Z.to_nat 0) with 0%nat. rewrite rect_sum_0_l. reflexivity.
  - intros i j Hi Hj. apply Hentry; lia.
  - exact Hregion.
  - intros Hb Hsmall. split.
    + intros i j Hi Hj. rewrite Hentry by lia.
      apply to_u32_small.
      pose proof (rect_sum_bound src srcRB (Z.to_nat (i + 1))
                    (Z.to_nat (j + 1)) Hb). nia.
    + intros x0 x1 y0 y1 Hx0 Hx1 Hy0 Hy1.
      rewrite Hregion by lia.
      apply to_u32_small.
      pose proof (region_sum_bound src srcRB (Z.to_nat x0) (Z.to_nat (x1 - x0))
                    (Z.to_nat y0) (Z.to_nat (y1 - y0)) Hb). nia.
Qed.

Lemma build_sum_buffer_prefix_sums_witness :
  load (build_sum_buffer 1 (repeat 9 20) 3 4 image_3x4 4)
       ((1 + 1) * (3 + 1) + (2 + 1))
  = to_u32 (rect_sum image_3x4 4 (Z.to_nat (2 + 1)) (Z.to_nat (1 + 1))).
Proof.
  destruct (build_sum_buffer_prefix_sums 1 (repeat 9 20) 3 4 image_3x4 4
              ltac:(lia) ltac:(lia) ltac:(lia) ltac:(simpl; lia))
    as (_ & _ & _ & H & _).
  apply H; lia.
Defined.

(** C2 as stated fails once the sums pass 2^32: for the one-row image of
    16843010 opaque pixels the last entry of the table is 254, while the sum
    of the pixels is 4294967550. *)
Lemma build_sum_buffer_wraps :
  let n := 16843010 in
  let src := repeat 255 (Z.to_nat n) in
  let sum := repeat 0 (Z.to_nat ((n + 1) * 2)) in
  bytes src
  /\ (n + 1) * (1 + 1) <= Z.of_nat (length sum)
  /\ load (build_sum_buffer 0 sum n 1 src n) (1 * (n + 1) + n) = 254
  /\ rect_sum src n (Z.to_nat n) 1 = 4294967550.
Proof.
  intros n src sum.
  split; [apply bytes_repeat; lia|].
  split; [unfold sum; rewrite repeat_length; lia|].
  destruct (wide_row_entry 0 n ltac:(unfold n; lia)) as [E1 E2].
  fold src sum in E1, E2. rewrite E1, E2.
  unfold n. split; vm_compute; reflexivity.
Qed.

(** C3.  For every prefix-sum buffer of an [sw]-by-[sh] image and radii
    [rx, ry >= 1], [apply_kernel] leaves exactly the buffer that the single
    clamped loop of [kernel_clamped] leaves, with or without the unrolled
    center section, and every pixel of the [(sw+2rx)]-by-[(sh+2ry)] output
    holds [SkToU8(tmp * scale >> 24)] for the clamped four-corner sample
    [tmp] and [scale = (1 << 24) / ((2rx+1)(2ry+1))]. *)
Theorem apply_kernel_matches_reference :
  forall unroll dst rx ry sum sw sh,
    1 <= rx -> 1 <= ry -> 0 <= sw -> 0 <= sh ->
    (sw + 2 * rx) * (sh + 2 * ry) <= Z.of_nat (length dst) ->
    let out := apply_kernel unroll dst rx ry sum sw sh in
    out = kernel_clamped dst rx ry sum sw sh
    /\ length out = length dst
    /\ forall x y, 0 <= x < sw + 2 * rx -> 0 <= y < sh + 2 * ry ->
         load out (y * (sw + 2 * rx) + x)
         = kernel_reference_px sum rx ry sw sh x y.
Proof.
  intros unroll dst rx ry sum sw sh Hrx Hry Hsw Hsh Hlen out.
  assert (E : out = kernel_clamped dst rx ry sum sw sh)
    by (apply apply_kernel_clamped; lia).
  split; [exact E|]. rewrite E.
  apply kernel_clamped_reference; lia.
Qed.

Lemma apply_kernel_matches_reference_witness :
  load (apply_kernel true (repeat 0 36) 1 1
          (build_sum_buffer 0 (repeat 0 25) 4 4 (repeat 255 16) 4) 4 4)
       (2 * (4 + 2 * 1) + 3)
  = kernel_reference_px
      (build_sum_buffer 0 (repeat 0 25) 4 4 (repeat 255 16) 4) 1 1 4 4 3 2.
Proof.
  destruct (apply_kernel_matches_reference true (repeat 0 36) 1 1
              (build_sum_buffer 0 (repeat 0 25) 4 4 (repeat 255 16) 4) 4 4
              ltac:(lia) ltac:(lia) ltac:(lia) ltac:(lia) ltac:(simpl; lia))
    as (_ & _ & H).
  apply H; lia.
Defined.



(** C5 (amended).  [Blur] forces the quality to low when the radius is
    below 3.  For every valid call (A8 source, positive integer per-pass
    radius [rx], no [int] overflowing): with quality = high and a radius
    that is not below 3 the engine performs 3 passes per axis with the
    per-pass radius [radius * kBlurRadiusFudgeFactor], where the constant is
    the [float] nearest to 0.57735; with quality = low, or with a radius
    below 3, it performs 1 pass per axis with the unscaled radius; the
    reported margin is [passCount * rx] in each axis.  The passes are the
    calls [Blur] makes when the source has pixels (at least one, for an
    output of less than 2^31 bytes), and the blurred image is what these
    calls leave: on the separable path, per axis, [passCount] calls of
    [boxBlur] or [boxBlurInterp] with the integer radius
    [rx = ceil(passRadius)] (for three [boxBlur] passes, the pair of
    [get_adjusted_radii(passRadius)]); on the table path, [passCount]
    samplings of the summed-area table with the radii [(rx, rx)]. *)
Theorem Blur_quality_passes :
  forall rounding unroll addr_of junk src_addr
         dst src radius style quality margin (separable : bool),
    let high := match quality with
                | kHigh_Quality => negb (f32_ltb radius (SkIntToScalar 3))
                | kLow_Quality => false
                end in
    let passCount := if high then 3 else 1 in
    let passRadius :=
      if high then SkScalarMul radius kBlurRadiusFudgeFactor else radius in
    let rx := SkScalarCeil passRadius in
    let outerWeight :=
      255 - SkScalarRound (f32_mul (f32_sub (SkIntToScalar rx) passRadius)
                                   (f32_of_Z 255)) in
    let sw := irect_width (fBounds src) in
    let sh := irect_height (fBounds src) in
    let W := sw + 2 * (passCount * rx) in
    let H := sh + 2 * (passCount * rx) in
    let calls :=
      if separable
      then separable_passes passCount passRadius rx outerWeight
      else table_passes passCount rx outerWeight sw sh in
    fFormat src = kA8_Format -> 0 < rx ->
    ints_fit (fBounds src) rx (passCount * rx) ->
    let r := Blur rounding unroll addr_of junk src_addr
               dst src radius style quality margin separable in
    (forall old, margin = Some old ->
       br_margin r = Some (mkPoint (passCount * rx) (passCount * rx)))
    /\ (margin = None -> br_margin r = None)
    /\ (forall sp,
          fImage src = Some sp -> 1 <= sw -> 1 <= sh -> W * H < 2 ^ 31 ->
          br_calls r = calls
          /\ (style = kNormal_Style ->
              br_ret r = true
              /\ fImage (br_dst r)
                 = Some (run_passes rounding unroll addr_of junk src_addr
                           separable sp (fRowBytes src) sw sh (W * H)
                           ((sw + 2 * (passCount - 1) * rx + 1)
                            * (sh + 2 * (passCount - 1) * rx + 1))
                           calls)))
    /\ kBlurRadiusFudgeFactor = S754_finite false 9686326 (-24)
    /\ 2 * Z.abs (9686326 * 100000 - 57735 * 2 ^ 24) <= 100000.
Proof.
  intros rounding unroll addr_of junk src_addr
         dst src radius style quality margin separable
         high passCount passRadius rx outerWeight sw sh W H calls
         HA Hrx Hfit r.
  apply Format_is_A8_iff in HA.
  destruct (Blur_quality_cases radius quality) as (_ & Hpc & Hpr).
  fold high in Hpc, Hpr. fold passCount in Hpc. fold passRadius in Hpr.
  assert (Erx : Blur_rx radius quality = rx)
    by (unfold Blur_rx; rewrite Hpr; reflexivity).
  assert (Eow : Blur_outerWeight radius quality = outerWeight)
    by (unfold Blur_outerWeight, outerWeight_of; rewrite Erx, Hpr;
        reflexivity).
  assert (Em : Blur_margin radius quality = passCount * rx)
    by (unfold Blur_margin; rewrite Hpc, Erx; reflexivity).
  assert (Hrx' : 0 < Blur_rx radius quality) by (rewrite Erx; exact Hrx).
  assert (Hpc1 : 1 <= passCount) by (unfold passCount; destruct high; lia).
  assert (Hmargin : br_margin r
                    = set_margin margin (passCount * rx) (passCount * rx)).
  { unfold r. rewrite Blur_reports_margin by assumption.
    rewrite Em. reflexivity. }
  split; [intros old ->; rewrite Hmargin; reflexivity|].
  split; [intros ->; rewrite Hmargin; reflexivity|].
  split; [|split; [vm_compute; reflexivity | vm_compute; discriminate]].
  intros sp Himg Hsw Hsh Hsize.
  assert (HW : 1 <= W) by (unfold W; nia).
  assert (HH : 1 <= H) by (unfold H; nia).
  destruct (Blur_header_geometry src radius quality) as [_ HS];
    try (rewrite Em; fold sw sh W H; assumption).
  rewrite Em in HS. fold sw sh W H in HS.
  assert (Hnz : computeImageSize (Blur_header src radius quality) <> 0)
    by (rewrite HS; nia).
  destruct (Blur_runs_passes rounding unroll addr_of junk src_addr
              dst src radius style quality margin separable sp
              HA Hrx' Himg Hnz) as [Hcalls Hblur].
  cbv zeta in Hcalls, Hblur.
  rewrite ?Hpc, ?Hpr, ?Erx, ?Eow in Hcalls, Hblur.
  rewrite HS in Hblur.
  fold sw sh calls in Hcalls, Hblur.
  split; [exact Hcalls|].
  intros ->.
  assert (Hret : br_ret r = true).
  { unfold r. rewrite Blur_ret_eq. unfold Blur_sizes_ok.
    rewrite HA, Himg.
    destruct (Z.leb_spec (Blur_rx radius quality) 0); [lia|].
    destruct (Z.eqb_spec (computeImageSize
                            (Blur_header src radius quality)) 0);
      [contradiction|].
    reflexivity. }
  split; [exact Hret|].
  unfold r.
  rewrite (Blur_image rounding unroll addr_of junk src_addr dst src radius
             kNormal_Style quality margin separable sp HA Hrx' Himg Hnz
             Hret).
  cbn [Blur_styled]. rewrite Hblur. reflexivity.
Qed.

Lemma Blur_quality_passes_witness :
  br_margin (Blur false false (fun _ => 0) (fun _ _ => 0) 0
               mask_blank mask_4x4_opaque (SkIntToScalar 4) kNormal_Style
               kHigh_Quality (Some (mkPoint 0 0)) true)
  = Some (mkPoint (3 * 3) (3 * 3))
  /\ br_calls (Blur false false (fun _ => 0) (fun _ _ => 0) 0
                 mask_blank mask_4x4_opaque (SkIntToScalar 4) kNormal_Style
                 kHigh_Quality (Some (mkPoint 0 0)) true)
     = [call_boxBlurInterp 3 false 79; call_boxBlurInterp 3 false 79;
        call_boxBlurInterp 3 true 79; call_boxBlurInterp 3 false 79;
        call_boxBlurInterp 3 false 79; call_boxBlurInterp 3 true 79].
Proof.
  destruct (Blur_quality_passes false false (fun _ => 0) (fun _ _ => 0) 0
              mask_blank mask_4x4_opaque (SkIntToScalar 4) kNormal_Style
              kHigh_Quality (Some (mkPoint 0 0)) true
              ltac:(reflexivity) ltac:(vm_compute; reflexivity)
              ltac:(vm_compute; repeat split; discriminate))
    as (H1 & _ & H3 & _).
  split; [exact (H1 (mkPoint 0 0) eq_refl)|].
  destruct (H3 (repeat 255 16) ltac:(reflexivity)
              ltac:(vm_compute; discriminate) ltac:(vm_compute; discriminate)
              ltac:(vm_compute; reflexivity)) as [Hc _].
  rewrite Hc. vm_compute. reflexivity.
Defined.

(** C5 as stated fails for a small radius: with radius 2 and quality = high
    the separable path makes one [boxBlur] call per axis, with the unscaled
    radius 2, and reports the margin (2, 2). *)
Lemma Blur_high_quality_radius_2 :
  let r := Blur false false (fun _ => 0) (fun _ _ => 0) 0
             mask_blank mask_4x4_opaque (SkIntToScalar 2) kNormal_Style
             kHigh_Quality (Some (mkPoint 0 0)) true in
  br_ret r = true
  /\ br_calls r = [call_boxBlur 2 2 true; call_boxBlur 2 2 true]
  /\ br_margin r = Some (mkPoint 2 2)
  /\ Blur_passCount (SkIntToScalar 2) kHigh_Quality = 1.
Proof. repeat split; vm_compute; reflexivity. Qed.

(** C6.  The solid style replaces a blurred pixel [d] by
    [s + d - round(s*d/255)], which is at least [d]; the outer style leaves
    0 wherever [s = 255]; the inner style leaves a value that is at most
    [s]; [clamp_with_orig] and [merge_src_with_blur] apply these to every
    pixel of the window they are given; and a successful inner blur returns
    a mask whose bounds and rowBytes are those of the source mask. *)
Theorem style_laws :
  (forall s d, 0 <= s <= 255 -> 0 <= d <= 255 ->
     SkMulDiv255Round s d = round_div255 s d
     /\ solid_px s d = s + d - round_div255 s d
     /\ d <= solid_px s d)
  /\ (forall d, 0 <= d <= 255 -> outer_px 255 d = 0)
  /\ (forall s b, 0 <= s <= 255 -> 0 <= b <= 255 -> inner_px s b <= s)
  /\ (forall src dst dst_off dstRB src_off srcRB sw sh x y,
        0 <= sw <= dstRB -> 0 <= sh -> 0 <= dst_off ->
        dst_off + (sh - 1) * dstRB + sw <= Z.of_nat (length dst) ->
        0 <= x < sw -> 0 <= y < sh ->
        load (clamp_with_orig src dst dst_off dstRB src_off srcRB sw sh
                kSolid_Style) (dst_off + y * dstRB + x)
        = solid_px (load src (src_off + y * srcRB + x))
                   (load dst (dst_off + y * dstRB + x))
        /\ load (clamp_with_orig src dst dst_off dstRB src_off srcRB sw sh
                   kOuter_Style) (dst_off + y * dstRB + x)
           = outer_px (load src (src_off + y * srcRB + x))
                      (load dst (dst_off + y * dstRB + x)))
  /\ (forall src blur dst dst_off dstRB src_off srcRB blur_off blurRB sw sh x y,
        0 <= sw <= dstRB -> 0 <= sh -> 0 <= dst_off ->
        dst_off + (sh - 1) * dstRB + sw <= Z.of_nat (length dst) ->
        0 <= x < sw -> 0 <= y < sh ->
        load (merge_src_with_blur src blur dst dst_off dstRB src_off srcRB
                blur_off blurRB sw sh) (dst_off + y * dstRB + x)
        = inner_px (load src (src_off + y * srcRB + x))
                   (load blur (blur_off + y * blurRB + x)))
  /\ (forall rounding unroll addr_of junk src_addr
             dst src radius quality margin separable,
        let r := Blur rounding unroll addr_of junk src_addr
                   dst src radius kInner_Style quality margin separable in
        br_ret r = true ->
        fBounds (br_dst r) = fBounds src
        /\ fRowBytes (br_dst r) = fRowBytes src).
Proof.
  split; [|split; [|split; [|split; [|split]]]].
  - intros s d Hs Hd.
    destruct (solid_px_law s d Hs Hd) as (H1 & H2 & _).
    split; [apply SkMulDiv255Round_round; assumption|].
    split; [exact H1 | lia].
  - intros d Hd.
    destruct (outer_px_law 255 d ltac:(lia) Hd) as [H _]. apply H. reflexivity.
  - intros s b Hs Hb. destruct (inner_px_law s b Hs Hb) as [H _]. lia.
  - intros src dst dst_off dstRB src_off srcRB sw sh x y
           Hsw Hsh Hoff Hlen Hx Hy.
    split.
    + apply (clamp_with_orig_solid_spec src dst dst_off dstRB src_off srcRB
               sw sh Hsw Hsh Hoff Hlen); assumption.
    + apply (clamp_with_orig_outer_spec src dst dst_off dstRB src_off srcRB
               sw sh Hsw Hsh Hoff Hlen); assumption.
  - intros src blur dst dst_off dstRB src_off srcRB blur_off blurRB sw sh x y
           Hsw Hsh Hoff Hlen Hx Hy.
    apply (merge_src_with_blur_spec src blur dst dst_off dstRB src_off srcRB
             blur_off blurRB sw sh Hsw Hsh Hoff Hlen); assumption.
  - intros rounding unroll addr_of junk src_addr
           dst src radius quality margin separable r Hret.
    apply Blur_inner_geometry. exact Hret.
Qed.

Lemma style_laws_witness :
  (0 <= 200 <= 255 /\ 0 <= 100 <= 255)
  /\ SkMulDiv255Round 200 100 = round_div255 200 100
  /\ solid_px 200 100 = 200 + 100 - round_div255 200 100
  /\ 100 <= solid_px 200 100.
Proof.
  split; [lia|].
  apply (proj1 style_laws 200 100); lia.
Defined.

(** C7 (amended).  Calling [Blur] on a 4x4 all-255 A8 mask with
    [rowBytes = 4], radius 1, quality = low, style = normal returns true
    with margin (1,1) and a 6x6 output mask, whose bounds run from (-1,-1)
    to (5,5).  On the summed-area-table path that the six-argument [Blur]
    takes, every pixel of the interior 2x2 block (the pixels at distance at
    least 2 from the output border) is 254, because the fixed-point product
    is truncated by [>> 24]; on the separable path of [BlurSeparable] it is
    255.  On both paths the pixel (0,0) of the output mask, the corner of
    the source, is 113, that is 255 * 4/9 rounded: its 3x3 window overlaps
    the source in a 2x2 block. *)
Theorem Blur_4x4_scenario :
  forall rounding unroll addr_of junk src_addr dst,
    let r := Blur6 rounding unroll addr_of junk src_addr dst mask_4x4_opaque
               (SkIntToScalar 1) kNormal_Style kLow_Quality
               (Some (mkPoint 0 0)) in
    let r' := BlurSeparable false unroll addr_of junk src_addr dst
                mask_4x4_opaque (SkIntToScalar 1) kNormal_Style kLow_Quality
                (Some (mkPoint 0 0)) in
    br_ret r = true
    /\ br_margin r = Some (mkPoint 1 1)
    /\ fBounds (br_dst r) = mkRect (-1) (-1) 5 5
    /\ irect_width (fBounds (br_dst r)) = 6
    /\ irect_height (fBounds (br_dst r)) = 6
    /\ fRowBytes (br_dst r) = 6
    /\ fImage (br_dst r) = Some blurred_4x4_sat
    /\ (forall x y, 2 <= x <= 3 -> 2 <= y <= 3 ->
          load blurred_4x4_sat (y * 6 + x) = 254)
    /\ mask_pixel (br_dst r) 0 0 = Some 113
    /\ (255 * 4 + 4) / 9 = 113
    /\ br_ret r' = true
    /\ fBounds (br_dst r') = mkRect (-1) (-1) 5 5
    /\ fImage (br_dst r') = Some blurred_4x4_separable
    /\ (forall x y, 2 <= x <= 3 -> 2 <= y <= 3 ->
          load blurred_4x4_separable (y * 6 + x) = 255)
    /\ mask_pixel (br_dst r') 0 0 = Some 113.
Proof.
  intros rounding unroll addr_of junk src_addr dst r r'.
  assert (Hr : r = {| br_ret := true;
                      br_dst := {| fImage := Some blurred_4x4_sat;
                                   fBounds := mkRect (-1) (-1) 5 5;
                                   fRowBytes := 6; fFormat := kA8_Format |};
                      br_margin := Some (mkPoint 1 1);
                      br_heap := [ev_alloc blk_dp 36; ev_alloc blk_storage 25;
                                  ev_free blk_storage];
                      br_calls := [call_build_sum_buffer 4 4;
                                   call_apply_kernel 1 1] |}).
  { unfold r, Blur6.
    rewrite (Blur_addr rounding unroll addr_of (fun _ => 0) junk src_addr 0).
    destruct unroll; vm_compute; reflexivity. }
  assert (Hr' : br_dst r' = {| fImage := Some blurred_4x4_separable;
                               fBounds := mkRect (-1) (-1) 5 5;
                               fRowBytes := 6; fFormat := kA8_Format |}
                /\ br_ret r' = true).
  { unfold r', BlurSeparable. vm_compute. split; reflexivity. }
  assert (Hin : forall (img : list Z) (v : Z),
            load img 14 = v -> load img 15 = v ->
            load img 20 = v -> load img 21 = v ->
            forall x y, 2 <= x <= 3 -> 2 <= y <= 3 -> load img (y * 6 + x) = v).
  { intros img v H14 H15 H20 H21 x y Hx Hy.
    assert (Hc : (x = 2 \/ x = 3) /\ (y = 2 \/ y = 3)) by lia.
    destruct Hc as [[-> | ->] [-> | ->]]; assumption. }
  rewrite Hr. destruct Hr' as [Hr1 Hr2]. rewrite Hr1.
  repeat split; try reflexivity; try assumption.
  - apply Hin; reflexivity.
  - apply Hin; reflexivity.
Qed.

Lemma Blur_4x4_scenario_witness :
  (2 <= 3 <= 3 /\ 2 <= 2 <= 3)
  /\ br_ret (Blur6 false false (fun _ => 0) (fun _ _ => 0) 0 mask_blank
               mask_4x4_opaque (SkIntToScalar 1) kNormal_Style kLow_Quality
               (Some (mkPoint 0 0))) = true
  /\ load blurred_4x4_sat (2 * 6 + 3) = 254.
Proof.
  split; [lia|].
  destruct (Blur_4x4_scenario false false (fun _ => 0) (fun _ _ => 0) 0
              mask_blank) as (H1 & _ & _ & _ & _ & _ & _ & H & _).
  split; [exact H1 | apply H; lia].
Defined.

(** C7 as stated fails in the interior: on the path the six-argument
    [Blur] takes, the interior pixel of the output at row 2, column 2 of
    the 6x6 image is 254, not 255. *)
Lemma Blur_4x4_interior_truncated :
  let r := Blur6 false false (fun _ => 0) (fun _ _ => 0) 0 mask_blank
             mask_4x4_opaque (SkIntToScalar 1) kNormal_Style kLow_Quality
             (Some (mkPoint 0 0)) in
  exists img,
    fImage (br_dst r) = Some img
    /\ load img (2 * 6 + 2) = 254 /\ load img (2 * 6 + 2) <> 255
    /\ mask_pixel (br_dst r) 1 1 = Some 254.
Proof.
  exists blurred_4x4_sat.
  split; [vm_compute; reflexivity|].
  repeat split; try (vm_compute; reflexivity); vm_compute; discriminate.
Qed.

(** C8.  For every call in which no [int] overflows, [Blur] returns false
    exactly when the source format is not A8, or the integer per-pass
    radius is not positive, or a size it computes is zero (the size of the
    output, computed only for a source that has pixels, or the size of the
    source for the inner style); it returns true otherwise.  The first two
    checks come before any allocation and leave the output and the margin
    untouched; the size checks come after the output bounds and the margin
    are set; and no failing path leaves a block allocated. *)
Theorem Blur_failure_cases :
  forall rounding unroll addr_of junk src_addr
         dst src radius style quality margin separable,
    let r := Blur rounding unroll addr_of junk src_addr
               dst src radius style quality margin separable in
    let rx := Blur_rx radius quality in
    let m := Blur_margin radius quality in
    (fFormat src <> kA8_Format \/ rx <= 0 ->
     br_ret r = false /\ br_heap r = [] /\ br_calls r = []
     /\ br_dst r = dst /\ br_margin r = margin)
    /\ (Blur_ints_fit src radius quality ->
        (br_ret r = false <->
           fFormat src <> kA8_Format
           \/ rx <= 0
           \/ (exists sp, fImage src = Some sp
               /\ (computeImageSize (Blur_header src radius quality) = 0
                   \/ (style = kInner_Style /\ computeImageSize src = 0))))
        /\ (fFormat src = kA8_Format -> 0 < rx -> br_ret r = false ->
            fBounds (br_dst r) = outset (fBounds src) m m
            /\ (forall old, margin = Some old ->
                  br_margin r = Some (mkPoint m m))
            /\ (margin = None -> br_margin r = None))
        /\ (forall sp, fFormat src = kA8_Format -> 0 < rx ->
            fImage src = Some sp ->
            computeImageSize (Blur_header src radius quality) = 0 ->
            br_heap r = [])
        /\ (br_ret r = false -> live (br_heap r) = [])).
Proof.
  intros rounding unroll addr_of junk src_addr
         dst src radius style quality margin separable r rx m.
  assert (Hiff : br_ret r = false <->
       fFormat src <> kA8_Format
       \/ rx <= 0
       \/ (exists sp, fImage src = Some sp
           /\ (computeImageSize (Blur_header src radius quality) = 0
               \/ (style = kInner_Style /\ computeImageSize src = 0)))).
  { unfold r, rx. rewrite Blur_ret_eq. unfold Blur_sizes_ok.
    rewrite !andb_false_iff, negb_false_iff, Z.leb_le, Format_is_A8_false.
    split.
    - intros [[H | H] | H]; [left; exact H | right; left; exact H |].
      right; right.
      destruct (fImage src) as [sp|]; [|discriminate].
      exists sp. split; [reflexivity|].
      apply andb_false_iff in H. destruct H as [H | H].
      + left. apply negb_false_iff, Z.eqb_eq in H. exact H.
      + right. apply negb_false_iff, andb_true_iff in H.
        destruct H as [Hs Hz]. apply Z.eqb_eq in Hz.
        destruct style; try discriminate. split; [reflexivity | exact Hz].
    - intros [H | [H | (sp & Himg & H)]];
        [left; left; exact H | left; right; exact H |].
      right. rewrite Himg. apply andb_false_iff.
      destruct H as [H | [-> H]].
      + left. apply negb_false_iff, Z.eqb_eq. exact H.
      + right. apply negb_false_iff, andb_true_iff.
        split; [reflexivity | apply Z.eqb_eq; exact H]. }
  split.
  - intros H. unfold r. rewrite Blur_rejects.
    + repeat split.
    + destruct H as [H | H]; [left; apply Format_is_A8_false; exact H
                             | right; exact H].
  - intros _. split; [exact Hiff|]. split; [|split].
    + intros HA Hrx Hret. apply Format_is_A8_iff in HA.
      assert (Hmargin : br_margin r = set_margin margin m m)
        by (apply Blur_reports_margin; assumption).
      split; [|split; [intros old -> | intros ->];
               rewrite Hmargin; reflexivity].
      destruct (fImage src) as [sp|] eqn:Himg.
      * destruct (Z.eq_dec (computeImageSize
                              (Blur_header src radius quality)) 0)
          as [Hz|Hnz].
        -- unfold r.
           rewrite (Blur_dst_too_big rounding unroll addr_of junk src_addr
                      dst src radius style quality margin separable sp
                      HA Hrx Himg Hz).
           reflexivity.
        -- destruct (Blur_stage rounding unroll addr_of junk src_addr dst src
                       radius style quality margin separable sp HA Hrx Himg
                       Hnz) as (_ & _ & _ & _ & _ & Hfail).
           apply Hfail. exact Hret.
      * unfold r in Hret. rewrite Blur_null_image in Hret by assumption.
        discriminate.
    + intros sp HA Hrx Himg Hz. apply Format_is_A8_iff in HA. unfold r.
      rewrite (Blur_dst_too_big rounding unroll addr_of junk src_addr
                 dst src radius style quality margin separable sp
                 HA Hrx Himg Hz).
      reflexivity.
    + apply Blur_failure_frees.
Qed.

Lemma Blur_failure_cases_witness :
  br_ret (Blur false false (fun _ => 0) (fun _ _ => 0) 0
            mask_blank mask_4x4_opaque (SkIntToScalar 0) kNormal_Style
            kLow_Quality None true) = false.
Proof.
  destruct (Blur_failure_cases false false (fun _ => 0) (fun _ _ => 0) 0
              mask_blank mask_4x4_opaque (SkIntToScalar 0) kNormal_Style
              kLow_Quality None true) as [_ H].
  destruct (H ltac:(vm_compute; repeat split; discriminate)) as [Hiff _].
  apply Hiff. right. left. vm_compute. discriminate.
Defined.

(** C9.  For every rectangle, radius and style for which the conversions
    of [float]s to [int]s are defined, [BlurRect] called with
    [createMode = kJustComputeBounds] returns true, sets the margin to
    (pad, pad) with pad half the computed profile size, sets the output
    bounds to the rectangle outset by pad and rounded (the rounded rectangle
    itself for the inner style), allocates nothing and leaves the output
    mask's [fImage] NULL. *)
Theorem BlurRect_bounds_only :
  forall junk dst src provided_radius style margin,
    BlurRect_ints_fit src provided_radius ->
    let r := BlurRect junk dst src provided_radius style margin
               kJustComputeBounds_CreateMode in
    let pad :=
      Z.quot (compute_profile_size (BlurRect_radius provided_radius)) 2 in
    br_ret r = true
    /\ (forall old, margin = Some old -> br_margin r = Some (mkPoint pad pad))
    /\ (margin = None -> br_margin r = None)
    /\ fBounds (br_dst r)
       = (if is_inner style then round_rect src
          else outset_round_rect src pad)
    /\ fImage (br_dst r) = None
    /\ br_heap r = []
    /\ br_calls r = [].
Proof.
  intros junk dst src provided_radius style margin _ r pad.
  unfold r. rewrite BlurRect_just_bounds.
  split; [reflexivity|]. split; [intros old ->; reflexivity|].
  split; [intros ->; reflexivity|].
  destruct style; repeat split.
Qed.

Lemma BlurRect_bounds_only_witness :
  br_margin (BlurRect (fun _ _ => 0) mask_blank
               (mkRect (SkIntToScalar 0) (SkIntToScalar 0)
                       (SkIntToScalar 4) (SkIntToScalar 4))
               (SkIntToScalar 1) kNormal_Style (Some (mkPoint 0 0))
               kJustComputeBounds_CreateMode)
  = Some (mkPoint 3 3).
Proof.
  destruct (BlurRect_bounds_only (fun _ _ => 0) mask_blank
              (mkRect (SkIntToScalar 0) (SkIntToScalar 0)
                      (SkIntToScalar 4) (SkIntToScalar 4))
              (SkIntToScalar 1) kNormal_Style (Some (mkPoint 0 0))
              ltac:(vm_compute; repeat split; discriminate))
    as (_ & H & _).
  exact (H (mkPoint 0 0) eq_refl).
Defined.

(** C10.  If the source mask has A8 format and a positive integer per-pass
    radius but its [fImage] is NULL, and no [int] of the call overflows,
    [Blur] returns true, reports the margin [(passCount * rx,
    passCount * rx)], sets the output bounds to the source bounds outset by
    the margin (the source bounds themselves for the inner style), leaves
    the output mask's [fImage] NULL and allocates nothing. *)
Theorem Blur_null_image_bounds_query :
  forall rounding unroll addr_of junk src_addr
         dst src radius style quality margin separable,
    fFormat src = kA8_Format -> 0 < Blur_rx radius quality ->
    fImage src = None ->
    Blur_ints_fit src radius quality ->
    let r := Blur rounding unroll addr_of junk src_addr
               dst src radius style quality margin separable in
    let m := Blur_passCount radius quality * Blur_rx radius quality in
    br_ret r = true
    /\ (forall old, margin = Some old -> br_margin r = Some (mkPoint m m))
    /\ (margin = None -> br_margin r = None)
    /\ fBounds (br_dst r)
       = (if is_inner style then fBounds src else outset (fBounds src) m m)
    /\ fImage (br_dst r) = None
    /\ br_heap r = []
    /\ br_calls r = [].
Proof.
  intros rounding unroll addr_of junk src_addr
         dst src radius style quality margin separable HA Hrx Himg _ r m.
  apply Format_is_A8_iff in HA.
  unfold r. rewrite Blur_null_image by assumption.
  split; [reflexivity|]. split; [intros old ->; reflexivity|].
  split; [intros ->; reflexivity|].
  destruct style; repeat split.
Qed.

Lemma Blur_null_image_bounds_query_witness :
  br_ret (Blur false false (fun _ => 0) (fun _ _ => 0) 0
            mask_blank mask_4x4_null (SkIntToScalar 1) kInner_Style
            kLow_Quality (Some (mkPoint 0 0)) false) = true
  /\ br_margin (Blur false false (fun _ => 0) (fun _ _ => 0) 0
                  mask_blank mask_4x4_null (SkIntToScalar 1) kInner_Style
                  kLow_Quality (Some (mkPoint 0 0)) false)
     = Some (mkPoint (1 * 1) (1 * 1))
  /\ fBounds (br_dst (Blur false false (fun _ => 0) (fun _ _ => 0) 0
                        mask_blank mask_4x4_null (SkIntToScalar 1)
                        kInner_Style kLow_Quality (Some (mkPoint 0 0)) false))
     = fBounds mask_4x4_null.
Proof.
  destruct (Blur_null_image_bounds_query false false (fun _ => 0)
              (fun _ _ => 0) 0 mask_blank mask_4x4_null (SkIntToScalar 1)
              kInner_Style kLow_Quality (Some (mkPoint 0 0)) false
              ltac:(reflexivity) ltac:(vm_compute; reflexivity)
              ltac:(reflexivity)
              ltac:(vm_compute; repeat split; discriminate))
    as (H1 & H2 & _ & H3 & _).
  split; [exact H1|]. split; [exact (H2 (mkPoint 0 0) eq_refl) | exact H3].
Defined.

(** * Further properties of the code *)

(** ** The separable kernels *)

(** X1.  [boxBlur] writes the [(width + 2 * max(leftRadius, rightRadius)) *
    height] cells of its output rows, all of them inside that prefix of the
    destination, and leaves every other cell of the destination as it was;
    the destination keeps its size. *)
Theorem boxBlur_writes_confined :
  forall flag src src_y_stride dst l r width height transpose,
    0 <= l -> 0 <= r -> 1 <= width -> 1 <= height ->
    bytes src ->
    (width + 2 * Z.max l r) * height <= Z.of_nat (length dst) ->
    let nw := width + 2 * Z.max l r in
    let out := boxBlur flag src src_y_stride dst l r width height transpose in
    length (out_dst out) = length dst
    /\ (forall y k, 0 <= y < height -> 0 <= k < nw ->
          0 <= boxBlur_index transpose nw height y k < nw * height)
    /\ (forall p, p < 0 \/ nw * height <= p ->
          load (out_dst out) p = load dst p).
Proof.
  intros flag src src_y_stride dst l r width height transpose
         Hl Hr Hw Hh Hsrc Hlen nw out.
  split; [apply boxBlur_length|]. split.
  - intros y k Hy Hk. apply boxBlur_index_range; assumption.
  - intros p Hp. apply boxBlur_frame; try assumption.
    intros y k Hy Hk E.
    pose proof (boxBlur_index_range transpose nw height y k Hy Hk).
    fold nw in E. lia.
Qed.

Lemma boxBlur_writes_confined_witness :
  load (out_dst (boxBlur false [10; 20] 2 [1; 2; 3; 4; 5; 6; 7] 1 2 2 1 false)) 6
  = 7.
Proof.
  destruct (boxBlur_writes_confined false [10; 20] 2 [1; 2; 3; 4; 5; 6; 7]
              1 2 2 1 false
              ltac:(lia) ltac:(lia) ltac:(lia) ltac:(lia)
              ltac:(repeat constructor; lia) ltac:(simpl; lia))
    as (_ & _ & H).
  apply H. right. simpl. lia.
Defined.

Lemma boxBlur_column_rounding src row l r width k :
  boxBlur_column true src row l r width k
  <= boxBlur_column false src row l r width k
  <= boxBlur_column true src row l r width k + 1.
Proof.
  unfold boxBlur_column.
  destruct ((k - Z.max 0 (r - l) <? 0) || (width + (l + r) <=? k - Z.max 0 (r - l)));
    [lia | apply box_average_rounding].
Qed.

(** X2.  Building with [SK_DISABLE_BLUR_ROUNDING] changes a pixel of
    [boxBlur] by at most one level: every output pixel computed with the
    rounding term is the pixel computed without it, or one more. *)
Theorem boxBlur_rounding_one_level :
  forall src src_y_stride dst l r width height transpose y k,
    0 <= l -> 0 <= r -> 1 <= width -> 1 <= height ->
    bytes src ->
    (width + 2 * Z.max l r) * height <= Z.of_nat (length dst) ->
    0 <= y < height -> 0 <= k < width + 2 * Z.max l r ->
    let i := boxBlur_index transpose (width + 2 * Z.max l r) height y k in
    let truncated :=
      load (out_dst (boxBlur true src src_y_stride dst l r width height
                       transpose)) i in
    let rounded :=
      load (out_dst (boxBlur false src src_y_stride dst l r width height
                       transpose)) i in
    truncated <= rounded <= truncated + 1.
Proof.
  intros src src_y_stride dst l r width height transpose y k
         Hl Hr Hw Hh Hsrc Hlen Hy Hk i truncated rounded.
  destruct (boxBlur_spec true src src_y_stride dst l r width height transpose
              Hl Hr Hw Hh Hsrc Hlen) as (_ & _ & Pt).
  destruct (boxBlur_spec false src src_y_stride dst l r width height transpose
              Hl Hr Hw Hh Hsrc Hlen) as (_ & _ & Pr).
  unfold truncated, rounded, i. rewrite Pt, Pr by assumption.
  apply boxBlur_column_rounding.
Qed.

Lemma boxBlur_rounding_one_level_witness :
  load (out_dst (boxBlur true [255] 1 (repeat 0 3) 1 1 1 1 false)) 1
  <= load (out_dst (boxBlur false [255] 1 (repeat 0 3) 1 1 1 1 false)) 1
  <= load (out_dst (boxBlur true [255] 1 (repeat 0 3) 1 1 1 1 false)) 1 + 1.
Proof.
  apply (boxBlur_rounding_one_level [255] 1 (repeat 0 3) 1 1 1 1 false 0 1
           ltac:(lia) ltac:(lia) ltac:(lia) ltac:(lia)
           ltac:(repeat constructor; lia) ltac:(simpl; lia)
           ltac:(lia) ltac:(lia)).
Defined.

(** X3.  Where the whole window of an output pixel of [boxBlur] lies on
    source pixels of one value [c], the pixel is [c] itself when the
    rounding term is compiled in (for kernels of at most 32897 pixels), and
    [c] or [c - 1] when it is compiled out. *)
Theorem boxBlur_flat_region :
  forall flag src src_y_stride dst l r width height transpose y j c,
    0 <= l -> 0 <= r -> 1 <= width -> 1 <= height ->
    bytes src ->
    (width + 2 * Z.max l r) * height <= Z.of_nat (length dst) ->
    l + r + 1 <= 32897 -> 0 <= c <= 255 ->
    0 <= y < height -> l + r <= j < width ->
    (forall i, j - (l + r) <= i <= j -> load src (y * src_y_stride + i) = c) ->
    let px :=
      load (out_dst (boxBlur flag src src_y_stride dst l r width height
                       transpose))
           (boxBlur_index transpose (width + 2 * Z.max l r) height y
              (j + Z.max 0 (r - l))) in
    (flag = false -> px = c) /\ c - 1 <= px <= c.
Proof.
  intros flag src src_y_stride dst l r width height transpose y j c
         Hl Hr Hw Hh Hsrc Hlen Hks Hc Hy Hj Hflat px.
  destruct (boxBlur_spec flag src src_y_stride dst l r width height transpose
              Hl Hr Hw Hh Hsrc Hlen) as (_ & _ & P).
  assert (E : px = box_average flag (l + r + 1) (c * (l + r + 1))).
  { unfold px. rewrite P by lia. unfold boxBlur_column.
    replace (j + Z.max 0 (r - l) - Z.max 0 (r - l)) with j by lia.
    destruct (Z.ltb_spec j 0); [lia|].
    destruct (Z.leb_spec (width + (l + r)) j); [lia|].
    cbn [orb]. f_equal.
    rewrite window_sum_inside by lia.
    rewrite (sum_range_flat _ _ _ c).
    - rewrite Z2Nat.id by lia. reflexivity.
    - intros i Hi. rewrite Z2Nat.id in Hi by lia.
      replace i with (y * src_y_stride + (i - y * src_y_stride)) by lia.
      apply Hflat. lia. }
  rewrite E. split.
  - intros ->. apply box_average_flat; lia.
  - destruct flag.
    + apply box_average_flat_truncated; lia.
    + rewrite box_average_flat by lia. lia.
Qed.

Lemma boxBlur_flat_region_witness :
  load (out_dst (boxBlur false (repeat 200 5) 5 (repeat 0 7) 1 1 5 1 false))
       (boxBlur_index false 7 1 0 (3 + Z.max 0 (1 - 1)))
  = 200.
Proof.
  assert (Hflat : forall i, 3 - (1 + 1) <= i <= 3 ->
                    load (repeat 200 5) (0 * 5 + i) = 200).
  { intros i Hi.
    assert (Hcases : i = 1 \/ i = 2 \/ i = 3) by lia.
    destruct Hcases as [-> | [-> | ->]]; reflexivity. }
  destruct (boxBlur_flat_region false (repeat 200 5) 5 (repeat 0 7) 1 1 5 1
              false 0 3 200
              ltac:(lia) ltac:(lia) ltac:(lia) ltac:(lia)
              ltac:(repeat constructor; lia) ltac:(simpl; lia)
              ltac:(lia) ltac:(lia) ltac:(lia) ltac:(lia) Hflat)
    as [H _].
  apply H. reflexivity.
Defined.

(** X4.  [boxBlurInterp] returns the width [width + 2 * radius] and writes,
    at every output column of every row, the weighted average
    [(outer_sum * outer_scale + inner_sum * inner_scale + half) >> 24] of
    two windows of the zero-padded row: the outer one, [2 * radius + 1]
    pixels wide, and the inner one, two pixels narrower.  (In a row narrower
    than [2 * radius], the columns [width <= k < 2 * radius] use the inner
    sum of column [width - 1].)  It writes no other cell. *)
Theorem boxBlurInterp_columns :
  forall flag src src_y_stride dst radius width height transpose outer_weight,
    1 <= radius -> 1 <= width -> 1 <= height -> 0 <= outer_weight <= 255 ->
    bytes src ->
    (width + 2 * radius) * height <= Z.of_nat (length dst) ->
    let out := boxBlurInterp flag src src_y_stride dst radius width height
                 transpose outer_weight in
    out_width out = width + 2 * radius
    /\ length (out_dst out) = length dst
    /\ (forall y k,
          0 <= y < height -> 0 <= k < width + 2 * radius ->
          load (out_dst out)
               (boxBlur_index transpose (width + 2 * radius) height y k)
          = boxBlurInterp_column flag src (y * src_y_stride) radius width
              outer_weight k)
    /\ (forall p,
          (forall y k, 0 <= y < height -> 0 <= k < width + 2 * radius ->
             p <> boxBlur_index transpose (width + 2 * radius) height y k) ->
          load (out_dst out) p = load dst p).
Proof.
  intros flag src src_y_stride dst radius width height transpose outer_weight
         Hr Hw Hh How Hsrc Hlen.
  apply boxBlurInterp_spec; assumption.
Qed.

Lemma boxBlurInterp_columns_witness :
  out_width (boxBlurInterp false [100; 200] 2 (repeat 0 4) 1 2 1 false 128) = 4
  /\ load (out_dst (boxBlurInterp false [100; 200] 2 (repeat 0 4) 1 2 1 false
                      128)) 1
     = boxBlurInterp_column false [100; 200] (0 * 2) 1 2 128 1.
Proof.
  destruct (boxBlurInterp_columns false [100; 200] 2 (repeat 0 4) 1 2 1 false
              128 ltac:(lia) ltac:(lia) ltac:(lia) ltac:(lia)
              ltac:(repeat constructor; lia) ltac:(simpl; lia))
    as (H1 & _ & H3 & _).
  split; [exact H1|].
  apply (H3 0 1); lia.
Defined.

Lemma interp_average_255 flag radius O I :
  interp_average flag radius 255 O I = 0.
Proof.
  unfold interp_average.
  change (interp_outer_weight 255) with 0.
  change (interp_inner_weight 255) with 0.
  change (Z.shiftl 0 16) with 0.
  rewrite !Zdiv_0_l, !Z.mul_0_r.
  destruct flag; reflexivity.
Qed.

(** X5.  The two weights of [boxBlurInterp] add up to 256 for every
    [outer_weight] up to 254.  At [outer_weight = 255] the [uint8_t] outer
    weight wraps around to 0 while the inner weight is 0 as well, and
    [boxBlurInterp] writes 0 at every output pixel, whatever the source. *)
Theorem boxBlurInterp_weights :
  (forall outer_weight, 0 <= outer_weight <= 254 ->
     interp_outer_weight outer_weight + interp_inner_weight outer_weight = 256)
  /\ (forall flag src src_y_stride dst radius width height transpose y k,
        1 <= radius -> 1 <= width -> 1 <= height ->
        bytes src ->
        (width + 2 * radius) * height <= Z.of_nat (length dst) ->
        0 <= y < height -> 0 <= k < width + 2 * radius ->
        load (out_dst (boxBlurInterp flag src src_y_stride dst radius width
                         height transpose 255))
             (boxBlur_index transpose (width + 2 * radius) height y k)
        = 0).
Proof.
  split; [apply interp_weights_sum|].
  intros flag src src_y_stride dst radius width height transpose y k
         Hr Hw Hh Hsrc Hlen Hy Hk.
  destruct (boxBlurInterp_spec flag src src_y_stride dst radius width height
              transpose 255 Hr Hw Hh ltac:(lia) Hsrc Hlen) as (_ & _ & P & _).
  rewrite P by assumption.
  apply interp_average_255.
Qed.

Lemma boxBlurInterp_weights_witness :
  interp_outer_weight 200 + interp_inner_weight 200 = 256
  /\ load (out_dst (boxBlurInterp false [255; 255] 2 (repeat 9 4) 1 2 1 false
                      255)) 1 = 0.
Proof.
  split.
  - apply (proj1 boxBlurInterp_weights 200). lia.
  - apply (proj2 boxBlurInterp_weights false [255; 255] 2 (repeat 9 4) 1 2 1
             false 0 1); try lia.
    + repeat constructor; lia.
    + simpl. lia.
Defined.

(** X6.  [get_adjusted_radii] returns [hiRadius = SkScalarCeil(passRadius)]
    and a [loRadius] that is [hiRadius] or [hiRadius - 1]; so [boxBlur]
    called with the pair in either order, or with [hiRadius] twice, widens
    the row by the same [2 * hiRadius]. *)
Theorem get_adjusted_radii_widths :
  forall passRadius,
    let lo := fst (get_adjusted_radii passRadius) in
    let hi := snd (get_adjusted_radii passRadius) in
    hi = SkScalarCeil passRadius
    /\ (lo = hi \/ lo = hi - 1)
    /\ forall flag src src_y_stride dst width height transpose,
         out_width (boxBlur flag src src_y_stride dst lo hi width height
                      transpose) = width + 2 * hi
         /\ out_width (boxBlur flag src src_y_stride dst hi lo width height
                         transpose) = width + 2 * hi
         /\ out_width (boxBlur flag src src_y_stride dst hi hi width height
                         transpose) = width + 2 * hi.
Proof.
  intros passRadius lo hi.
  assert (H : hi = SkScalarCeil passRadius /\ (lo = hi \/ lo = hi - 1)).
  { unfold lo, hi, get_adjusted_radii.
    destruct (f32_ltb _ _); cbn [fst snd]; split; auto. }
  destruct H as [Hhi Hlo].
  split; [exact Hhi|]. split; [exact Hlo|].
  intros flag src src_y_stride dst width height transpose.
  assert (Hw : forall a b, out_width (boxBlur flag src src_y_stride dst a b
                                        width height transpose)
                           = width + 2 * Z.max a b).
  { intros a b. unfold boxBlur.
    match goal with
    | |- context [for_lt ?n 1 ?body ?x (dst, true)] =>
        destruct (for_lt n 1 body x (dst, true)) as [x' [d ok]]
    end.
    cbn [out_width]. rewrite SkMax32_max. lia. }
  rewrite !Hw. lia.
Qed.

(** X26.  With unequal radii [boxBlur] widens the row by twice the larger
    one: it returns [width + 2 * max(leftRadius, rightRadius)], and every
    output row holds [rightRadius - leftRadius] zeros when that is positive,
    then the [width + leftRadius + rightRadius] box averages of the
    zero-padded source row, then [leftRadius - rightRadius] zeros when that
    is positive. *)
Theorem boxBlur_unequal_radii_padding :
  forall flag src src_y_stride dst l r width height transpose,
    0 <= l -> 0 <= r -> 1 <= width -> 1 <= height ->
    bytes src ->
    (width + 2 * Z.max l r) * height <= Z.of_nat (length dst) ->
    let out := boxBlur flag src src_y_stride dst l r width height transpose in
    let lead := Z.max 0 (r - l) in
    out_width out = width + 2 * Z.max l r
    /\ length (out_dst out) = length dst
    /\ forall y k,
         0 <= y < height -> 0 <= k < width + 2 * Z.max l r ->
         load (out_dst out)
              (boxBlur_index transpose (width + 2 * Z.max l r) height y k)
         = if (k <? lead) || (lead + width + l + r <=? k) then 0
           else box_average flag (l + r + 1)
                  (window_sum src (y * src_y_stride) width (l + r) (k - lead)).
Proof.
  intros flag src src_y_stride dst l r width height transpose
         Hl Hr Hw Hh Hb Hlen out lead.
  destruct (boxBlur_spec flag src src_y_stride dst l r width height transpose
              Hl Hr Hw Hh Hb Hlen) as (H1 & H2 & H3).
  fold out in H1, H2, H3.
  split; [exact H1|]. split; [exact H2|].
  intros y k Hy Hk. rewrite (H3 y k Hy Hk).
  unfold boxBlur_column. fold lead.
  destruct (Z.ltb_spec (k - lead) 0), (Z.ltb_spec k lead); try lia;
    cbn [orb]; [reflexivity|].
  destruct (Z.leb_spec (width + (l + r)) (k - lead)),
           (Z.leb_spec (lead + width + l + r) k); try lia; reflexivity.
Qed.

Lemma boxBlur_unequal_radii_padding_witness :
  load (out_dst (boxBlur false [255] 1 (repeat 7 3) 0 1 1 1 false))
       (boxBlur_index false (1 + 2 * Z.max 0 1) 1 0 0)
  = 0.
Proof.
  destruct (boxBlur_unequal_radii_padding false [255] 1 (repeat 7 3)
              0 1 1 1 false ltac:(lia) ltac:(lia) ltac:(lia) ltac:(lia)
              ltac:(repeat constructor; lia) ltac:(simpl; lia))
    as (_ & _ & H).
  apply (H 0 0); lia.
Defined.

(** ** The summed-area table path *)

(** X7.  The table [build_sum_buffer] builds does not depend on the address
    of the source pixels: the loop that runs until [src] is 4-byte aligned
    and the unrolled loop that follows it do, between them, what the plain
    pixel-by-pixel loop does. *)
Theorem build_sum_buffer_any_alignment :
  forall src_addr src_addr' sum srcW srcH src srcRB,
    build_sum_buffer src_addr sum srcW srcH src srcRB
    = build_sum_buffer src_addr' sum srcW srcH src srcRB.
Proof. intros. apply build_sum_buffer_addr. Qed.

(** X8.  For radii [rx, ry >= 1] and an outer weight up to 255,
    [apply_kernel_interp] leaves exactly the buffer that the single clamped
    loop of [kernel_interp_clamped] leaves, with or without the unrolled
    center section; every pixel of the [(sw+2rx) x (sh+2ry)] output holds
    [SkToU8((outerSum * outerScale + innerSum * innerScale) >> 24)] for the
    clamped four-corner samples of the outer window and of the inner
    window; the cells after the output are not written. *)
Theorem apply_kernel_interp_matches_reference :
  forall unroll dst rx ry sum sw sh outerWeight,
    1 <= rx -> 1 <= ry -> 0 <= sw -> 0 <= sh -> 0 <= outerWeight <= 255 ->
    (sw + 2 * rx) * (sh + 2 * ry) <= Z.of_nat (length dst) ->
    let out := apply_kernel_interp unroll dst rx ry sum sw sh outerWeight in
    out = kernel_interp_clamped dst rx ry sum sw sh outerWeight
    /\ length out = length dst
    /\ (forall x y, 0 <= x < sw + 2 * rx -> 0 <= y < sh + 2 * ry ->
          load out (y * (sw + 2 * rx) + x)
          = kernel_interp_reference_px sum rx ry sw sh outerWeight x y)
    /\ (forall p, (sw + 2 * rx) * (sh + 2 * ry) <= p ->
          load out p = load dst p).
Proof.
  intros unroll dst rx ry sum sw sh ow Hrx Hry Hsw Hsh How Hlen out.
  assert (E : out = kernel_interp_clamped dst rx ry sum sw sh ow)
    by (apply apply_kernel_interp_clamped; lia).
  split; [exact E|]. rewrite E.
  apply kernel_interp_clamped_reference; assumption.
Qed.

Lemma apply_kernel_interp_matches_reference_witness :
  load (apply_kernel_interp true (repeat 0 36) 1 1
          (build_sum_buffer 0 (repeat 0 25) 4 4 (repeat 255 16) 4) 4 4 200)
       (2 * (4 + 2 * 1) + 3)
  = kernel_interp_reference_px
      (build_sum_buffer 0 (repeat 0 25) 4 4 (repeat 255 16) 4) 1 1 4 4 200 3 2.
Proof.
  destruct (apply_kernel_interp_matches_reference true (repeat 0 36) 1 1
              (build_sum_buffer 0 (repeat 0 25) 4 4 (repeat 255 16) 4) 4 4 200
              ltac:(lia) ltac:(lia) ltac:(lia) ltac:(lia) ltac:(lia)
              ltac:(simpl; lia))
    as (_ & _ & H & _).
  apply (H 3 2); lia.
Defined.

(** X9.  [build_sum_buffer] followed by [apply_kernel] is the
    two-dimensional box filter: every pixel of the [(sw+2rx) x (sh+2ry)]
    output is [(sum * scale) >> 24], with [scale = (1 << 24) /
    ((2rx+1)(2ry+1))] and [sum] the exact sum of the source pixels under
    the window of the pixel.  This holds for images of any size: the table
    entries may wrap around modulo 2^32, the sum of a window does not. *)
Theorem table_blur_is_box_filter :
  forall unroll src_addr storage dst src srcRB rx ry sw sh,
    0 <= rx -> 0 <= ry -> 0 <= sw -> 1 <= sh ->
    bytes src ->
    (sw + 1) * (sh + 1) <= Z.of_nat (length storage) ->
    (sw + 2 * rx) * (sh + 2 * ry) <= Z.of_nat (length dst) ->
    let out := apply_kernel unroll dst rx ry
                 (build_sum_buffer src_addr storage sw sh src srcRB) sw sh in
    length out = length dst
    /\ forall x y, 0 <= x < sw + 2 * rx -> 0 <= y < sh + 2 * ry ->
         load out (y * (sw + 2 * rx) + x)
         = box_average true ((2 * rx + 1) * (2 * ry + 1))
             (window_sum_2d src srcRB rx ry sw sh x y).
Proof.
  intros unroll src_addr storage dst src srcRB rx ry sw sh
         Hrx Hry Hsw Hsh Hsrc Hst Hdst.
  apply sat_blur_spec; assumption.
Qed.

Lemma table_blur_is_box_filter_witness :
  load (apply_kernel false (repeat 0 36) 1 1
          (build_sum_buffer 0 (repeat 0 25) 4 4 (repeat 255 16) 4) 4 4)
       (2 * (4 + 2 * 1) + 2)
  = box_average true ((2 * 1 + 1) * (2 * 1 + 1))
      (window_sum_2d (repeat 255 16) 4 1 1 4 4 2 2).
Proof.
  destruct (table_blur_is_box_filter false 0 (repeat 0 25) (repeat 0 36)
              (repeat 255 16) 4 1 1 4 4
              ltac:(lia) ltac:(lia) ltac:(lia) ltac:(lia)
              ltac:(repeat constructor; lia)
              ltac:(simpl; lia) ltac:(simpl; lia))
    as [_ H].
  apply (H 2 2); lia.
Defined.

(** X10.  On the table path a pixel whose whole window lies on source
    pixels of one value [c] comes out as [c] or [c - 1]: [apply_kernel]
    truncates the fixed-point product (kernels of at most 65793 pixels). *)
Theorem table_blur_flat_region :
  forall unroll src_addr storage dst src srcRB rx ry sw sh x y c,
    0 <= rx -> 0 <= ry -> 0 <= sw -> 1 <= sh ->
    bytes src ->
    (sw + 1) * (sh + 1) <= Z.of_nat (length storage) ->
    (sw + 2 * rx) * (sh + 2 * ry) <= Z.of_nat (length dst) ->
    (2 * rx + 1) * (2 * ry + 1) <= 65793 -> 0 <= c <= 255 ->
    2 * rx <= x < sw -> 2 * ry <= y < sh ->
    (forall i j, x - 2 * rx <= i <= x -> y - 2 * ry <= j <= y ->
       load src (j * srcRB + i) = c) ->
    let px :=
      load (apply_kernel unroll dst rx ry
              (build_sum_buffer src_addr storage sw sh src srcRB) sw sh)
           (y * (sw + 2 * rx) + x) in
    c - 1 <= px <= c.
Proof.
  intros unroll src_addr storage dst src srcRB rx ry sw sh x y c
         Hrx Hry Hsw Hsh Hsrc Hst Hdst HK Hc Hx Hy Hflat px.
  destruct (sat_blur_spec unroll src_addr storage dst src srcRB rx ry sw sh
              Hrx Hry Hsw Hsh Hsrc Hst Hdst) as [_ P].
  unfold px. rewrite P by lia.
  assert (E : window_sum_2d src srcRB rx ry sw sh x y
              = c * ((2 * rx + 1) * (2 * ry + 1))).
  { unfold window_sum_2d. cbv zeta.
    rewrite !Z.max_r, !Z.min_l by lia.
    rewrite (region_sum_flat _ _ _ _ _ _ c).
    - rewrite !Z2Nat.id by lia. lia.
    - intros i j Hi Hj. apply Hflat; lia. }
  rewrite E. apply box_average_flat_truncated; [nia | lia].
Qed.

Lemma table_blur_flat_region_witness :
  let px :=
    load (apply_kernel false (repeat 0 36) 1 1
            (build_sum_buffer 0 (repeat 0 25) 4 4 (repeat 255 16) 4) 4 4)
         (2 * (4 + 2 * 1) + 2) in
  255 - 1 <= px <= 255.
Proof.
  apply (table_blur_flat_region false 0 (repeat 0 25) (repeat 0 36)
           (repeat 255 16) 4 1 1 4 4 2 2 255
           ltac:(lia) ltac:(lia) ltac:(lia) ltac:(lia)
           ltac:(repeat constructor; lia)
           ltac:(simpl; lia) ltac:(simpl; lia) ltac:(lia) ltac:(lia)
           ltac:(lia) ltac:(lia)).
  intros i j Hi Hj.
  assert (Hi' : i = 0 \/ i = 1 \/ i = 2) by lia.
  assert (Hj' : j = 0 \/ j = 1 \/ j = 2) by lia.
  destruct Hi' as [-> | [-> | ->]]; destruct Hj' as [-> | [-> | ->]];
    reflexivity.
Defined.

(** ** The style passes *)

(** X11.  [clamp_with_orig] and [merge_src_with_blur] change no cell of the
    destination outside the [sw x sh] window they are given: the padding
    between the rows and everything before and after the window stay as
    they were.  For a style that is neither solid nor outer,
    [clamp_with_orig] leaves the whole destination unchanged. *)
Theorem style_passes_keep_the_frame :
  (forall src dst dst_off dstRB src_off srcRB sw sh style q,
     0 <= sw ->
     (forall x y, 0 <= x < sw -> 0 <= y < sh -> q <> dst_off + y * dstRB + x) ->
     load (clamp_with_orig src dst dst_off dstRB src_off srcRB sw sh style) q
     = load dst q)
  /\ (forall src dst dst_off dstRB src_off srcRB sw sh style,
        style <> kSolid_Style -> style <> kOuter_Style ->
        clamp_with_orig src dst dst_off dstRB src_off srcRB sw sh style = dst)
  /\ (forall src blur dst dst_off dstRB src_off srcRB blur_off blurRB sw sh q,
        0 <= sw ->
        (forall x y, 0 <= x < sw -> 0 <= y < sh ->
           q <> dst_off + y * dstRB + x) ->
        load (merge_src_with_blur src blur dst dst_off dstRB src_off srcRB
                blur_off blurRB sw sh) q
        = load dst q).
Proof.
  split; [|split].
  - intros. apply clamp_with_orig_frame; assumption.
  - intros. apply clamp_with_orig_other; assumption.
  - intros. apply merge_src_with_blur_frame; assumption.
Qed.

Lemma style_passes_keep_the_frame_witness :
  load (clamp_with_orig [255; 255] [10; 20; 30; 40; 50; 60] 1 3 0 2 2 1
          kSolid_Style) 0 = 10
  /\ clamp_with_orig [255; 255] [10; 20; 30] 0 3 0 2 2 1 kInner_Style
     = [10; 20; 30].
Proof.
  split.
  - apply (proj1 style_passes_keep_the_frame [255; 255]
             [10; 20; 30; 40; 50; 60] 1 3 0 2 2 1 kSolid_Style 0); lia.
  - apply (proj1 (proj2 style_passes_keep_the_frame) [255; 255] [10; 20; 30]
             0 3 0 2 2 1 kInner_Style); discriminate.
Defined.

(** ** [Blur] as a whole *)

(** X12.  The result of [Blur] (flag, output mask, margin, heap events and
    kernel calls) does not depend on the addresses the allocator returns
    nor on the address, hence the alignment, of the source pixels. *)
Theorem Blur_any_addresses :
  forall rounding unroll addr_of addr_of' junk src_addr src_addr'
         dst src radius style quality margin separable,
    Blur rounding unroll addr_of junk src_addr
      dst src radius style quality margin separable
    = Blur rounding unroll addr_of' junk src_addr'
        dst src radius style quality margin separable.
Proof. intros. apply Blur_addr. Qed.

(** X13.  When [Blur] returns true, the only block it leaves allocated is
    the image it hands back in [dst->fImage]: the buffer [dp], or the
    source-sized image for the inner style; nothing for a source without
    pixels.  The temporary buffer and the table are always released. *)
Theorem Blur_success_keeps_only_the_image :
  forall rounding unroll addr_of junk src_addr
         dst src radius style quality margin separable,
    let r := Blur rounding unroll addr_of junk src_addr
               dst src radius style quality margin separable in
    br_ret r = true ->
    live (br_heap r)
    = match fImage src with
      | None => []
      | Some _ => [if is_inner style then blk_inner else blk_dp]
      end
    /\ (fImage (br_dst r) = None <-> fImage src = None).
Proof.
  intros rounding unroll addr_of junk src_addr
         dst src radius style quality margin separable r Hret.
  pose proof Hret as Hret'. unfold r in Hret'.
  rewrite Blur_ret_eq in Hret'.
  apply andb_true_iff in Hret'. destruct Hret' as [Hret' Hsizes].
  apply andb_true_iff in Hret'. destruct Hret' as [HA Hrx].
  apply negb_true_iff, Z.leb_gt in Hrx.
  destruct (fImage src) as [sp|] eqn:Himg.
  - unfold Blur_sizes_ok in Hsizes. rewrite Himg in Hsizes.
    apply andb_true_iff in Hsizes. destruct Hsizes as [Hd Hs].
    apply negb_true_iff, Z.eqb_neq in Hd.
    destruct (Blur_stage rounding unroll addr_of junk src_addr dst src radius
                style quality margin separable sp HA Hrx Himg Hd)
      as (_ & (storage & Hheap) & _ & _ & Hok & _).
    fold r in Hheap, Hok. destruct (Hok Hret) as (_ & _ & Hnn & _).
    split; [|split; [intros E; congruence | discriminate]].
    rewrite Hheap.
    destruct style; cbn [is_inner andb] in *;
      try (rewrite app_nil_r;
           destruct separable, (Blur_quality radius quality); reflexivity).
    apply negb_true_iff in Hs. rewrite Hs.
    destruct separable, (Blur_quality radius quality); reflexivity.
  - unfold r. rewrite Blur_null_image by assumption.
    split; [reflexivity|].
    destruct style; cbn [is_inner br_dst fImage Blur_header]; tauto.
Qed.

Lemma Blur_success_keeps_only_the_image_witness :
  live (br_heap (Blur false false (fun _ => 0) (fun _ _ => 0) 0 mask_blank
                   mask_4x4_opaque (SkIntToScalar 1) kInner_Style kLow_Quality
                   None true))
  = [blk_inner].
Proof.
  apply (Blur_success_keeps_only_the_image false false (fun _ => 0)
           (fun _ _ => 0) 0 mask_blank mask_4x4_opaque (SkIntToScalar 1)
           kInner_Style kLow_Quality None true).
  vm_compute. reflexivity.
Defined.

(** X14.  A bounds-only query predicts the real call: when [Blur] returns
    true on a mask, the call on the same mask with its [fImage] set to NULL
    returns true as well, allocates nothing, and reports the same margin,
    the same output bounds and the same output row stride. *)
Theorem Blur_bounds_query_agrees :
  forall rounding unroll addr_of junk src_addr
         dst src radius style quality margin separable,
    let query := {| fImage := None; fBounds := fBounds src;
                    fRowBytes := fRowBytes src; fFormat := fFormat src |} in
    let r := Blur rounding unroll addr_of junk src_addr
               dst src radius style quality margin separable in
    let r0 := Blur rounding unroll addr_of junk src_addr
                dst query radius style quality margin separable in
    br_ret r = true ->
    br_ret r0 = true
    /\ br_heap r0 = [] /\ br_calls r0 = []
    /\ br_margin r = br_margin r0
    /\ fBounds (br_dst r) = fBounds (br_dst r0)
    /\ fRowBytes (br_dst r) = fRowBytes (br_dst r0).
Proof.
  intros rounding unroll addr_of junk src_addr
         dst src radius style quality margin separable query r r0 Hret.
  pose proof Hret as Hret'. unfold r in Hret'.
  rewrite Blur_ret_eq in Hret'.
  apply andb_true_iff in Hret'. destruct Hret' as [Hret' Hsizes].
  apply andb_true_iff in Hret'. destruct Hret' as [HA Hrx].
  apply negb_true_iff, Z.leb_gt in Hrx.
  assert (E0 : r0 = _)
    by (apply (Blur_null_image rounding unroll addr_of junk src_addr dst query
                 radius style quality margin separable HA Hrx eq_refl)).
  rewrite E0. cbn [br_ret br_heap br_calls br_margin br_dst].
  split; [reflexivity|]. split; [reflexivity|]. split; [reflexivity|].
  destruct (fImage src) as [sp|] eqn:Himg.
  - unfold Blur_sizes_ok in Hsizes. rewrite Himg in Hsizes.
    apply andb_true_iff in Hsizes. destruct Hsizes as [Hd Hs].
    apply negb_true_iff, Z.eqb_neq in Hd.
    destruct (Blur_stage rounding unroll addr_of junk src_addr dst src radius
                style quality margin separable sp HA Hrx Himg Hd)
      as (Hm & _ & _ & _ & Hok & _).
    fold r in Hm, Hok. destruct (Hok Hret) as (Hb & Hrb & _ & _).
    split; [exact Hm|].
    rewrite Hb, Hrb. destruct style; split; reflexivity.
  - unfold r. rewrite Blur_null_image by assumption.
    cbn [br_margin br_dst].
    split; [reflexivity|].
    destruct style; split; reflexivity.
Qed.

Lemma Blur_bounds_query_agrees_witness :
  fBounds (br_dst (Blur false false (fun _ => 0) (fun _ _ => 0) 0 mask_blank
                     mask_4x4_opaque (SkIntToScalar 1) kNormal_Style
                     kLow_Quality None false))
  = fBounds (br_dst (Blur false false (fun _ => 0) (fun _ _ => 0) 0 mask_blank
                       {| fImage := None;
                          fBounds := fBounds mask_4x4_opaque;
                          fRowBytes := fRowBytes mask_4x4_opaque;
                          fFormat := fFormat mask_4x4_opaque |}
                       (SkIntToScalar 1) kNormal_Style kLow_Quality None false)).
Proof.
  destruct (Blur_bounds_query_agrees false false (fun _ => 0) (fun _ _ => 0) 0
              mask_blank mask_4x4_opaque (SkIntToScalar 1) kNormal_Style
              kLow_Quality None false ltac:(vm_compute; reflexivity))
    as (_ & _ & _ & _ & H & _).
  exact H.
Defined.

(** ** The pixels of [Blur] *)

(** X15.  The six-argument [Blur] at low quality with an integral per-pass
    radius (outer weight 255), normal style: for an A8 source of [sw x sh]
    bytes it returns true with an image of [(sw + 2rx) x (sh + 2rx)]
    pixels, and pixel [(x, y)] of that image is the truncated average
    [(sum * ((1 << 24) / (2rx+1)^2)) >> 24] of the source pixels under the
    [(2rx+1) x (2rx+1)] window centred [rx] pixels up and left of it. *)
Theorem Blur_low_quality_box_filter :
  forall rounding unroll addr_of junk src_addr dst src radius quality margin sp,
    let rx := Blur_rx radius quality in
    let sw := irect_width (fBounds src) in
    let sh := irect_height (fBounds src) in
    fFormat src = kA8_Format -> fImage src = Some sp -> bytes sp ->
    (forall b i, 0 <= junk b i <= 255) ->
    Blur_quality radius quality = kLow_Quality ->
    Blur_outerWeight radius quality = 255 ->
    1 <= rx -> 1 <= sw -> 1 <= sh ->
    (sw + 2 * rx) * (sh + 2 * rx) < 2 ^ 31 ->
    let r := Blur6 rounding unroll addr_of junk src_addr dst src radius
               kNormal_Style quality margin in
    br_ret r = true
    /\ exists img,
         fImage (br_dst r) = Some img
         /\ Z.of_nat (length img) = (sw + 2 * rx) * (sh + 2 * rx)
         /\ forall x y, 0 <= x < sw + 2 * rx -> 0 <= y < sh + 2 * rx ->
              load img (y * (sw + 2 * rx) + x)
              = box_average true ((2 * rx + 1) * (2 * rx + 1))
                  (window_sum_2d sp (fRowBytes src) rx rx sw sh x y).
Proof.
  intros rounding unroll addr_of junk src_addr dst src radius quality margin sp
         rx sw sh HA Himg Hsp Hjunk Hq How Hrx Hsw Hsh Hsize r.
  destruct (Blur_low_margin radius quality Hq) as [_ Hm].
  destruct (Blur_normal_result rounding unroll addr_of junk src_addr dst src
              sp radius quality margin false HA ltac:(fold rx; lia) Himg Hjunk)
    as (Hret & Hi & _ & _);
    rewrite ?Hm; fold rx sw sh; try lia.
  split; [exact Hret|].
  eexists. split; [exact Hi|].
  apply Blur_blurred_sat_low; fold rx sw sh; try assumption; lia.
Qed.

Lemma Blur_low_quality_box_filter_witness :
  br_ret (Blur6 false false (fun _ => 0) (fun _ _ => 0) 0 mask_blank
            mask_4x4_opaque (SkIntToScalar 1) kNormal_Style kLow_Quality None)
  = true.
Proof.
  destruct (Blur_low_quality_box_filter false false (fun _ => 0)
              (fun _ _ => 0) 0 mask_blank mask_4x4_opaque (SkIntToScalar 1)
              kLow_Quality None (repeat 255 16)
              ltac:(reflexivity) ltac:(reflexivity)
              ltac:(repeat constructor; lia) ltac:(intros; simpl; lia)
              ltac:(reflexivity) ltac:(vm_compute; reflexivity)
              ltac:(vm_compute; discriminate) ltac:(vm_compute; discriminate)
              ltac:(vm_compute; discriminate) ltac:(vm_compute; reflexivity))
    as [H _].
  exact H.
Defined.

(** X16.  [BlurSeparable] at low quality with an integral per-pass radius,
    normal style: the two transposing [boxBlur] passes leave the image in
    row-major order, [(sw + 2rx) x (sh + 2rx)] pixels, and pixel [(x, y)] is
    the box average, over the vertical window of [y], of the box averages
    of the source rows at column [x]: the rows are filtered first, each
    result rounded to a byte, then the columns. *)
Theorem BlurSeparable_low_quality_two_passes :
  forall rounding unroll addr_of junk src_addr dst src radius quality margin sp,
    let rx := Blur_rx radius quality in
    let sw := irect_width (fBounds src) in
    let sh := irect_height (fBounds src) in
    fFormat src = kA8_Format -> fImage src = Some sp -> bytes sp ->
    (forall b i, 0 <= junk b i <= 255) ->
    Blur_quality radius quality = kLow_Quality ->
    Blur_outerWeight radius quality = 255 ->
    1 <= rx -> 1 <= sw -> 1 <= sh ->
    (sw + 2 * rx) * (sh + 2 * rx) < 2 ^ 31 ->
    let r := BlurSeparable rounding unroll addr_of junk src_addr dst src radius
               kNormal_Style quality margin in
    br_ret r = true
    /\ exists img,
         fImage (br_dst r) = Some img
         /\ Z.of_nat (length img) = (sw + 2 * rx) * (sh + 2 * rx)
         /\ forall x y, 0 <= x < sw + 2 * rx -> 0 <= y < sh + 2 * rx ->
              load img (y * (sw + 2 * rx) + x)
              = separable_blur_px rounding sp (fRowBytes src) rx rx sw sh x y.
Proof.
  intros rounding unroll addr_of junk src_addr dst src radius quality margin sp
         rx sw sh HA Himg Hsp Hjunk Hq How Hrx Hsw Hsh Hsize r.
  destruct (Blur_low_margin radius quality Hq) as [_ Hm].
  destruct (Blur_normal_result rounding unroll addr_of junk src_addr dst src
              sp radius quality margin true HA ltac:(fold rx; lia) Himg Hjunk)
    as (Hret & Hi & _ & _);
    rewrite ?Hm; fold rx sw sh; try lia.
  split; [exact Hret|].
  eexists. split; [exact Hi|].
  apply Blur_blurred_separable_low; fold rx sw sh; try assumption; lia.
Qed.

Lemma BlurSeparable_low_quality_two_passes_witness :
  br_ret (BlurSeparable false false (fun _ => 0) (fun _ _ => 0) 0 mask_blank
            mask_4x4_opaque (SkIntToScalar 1) kNormal_Style kLow_Quality None)
  = true.
Proof.
  destruct (BlurSeparable_low_quality_two_passes false false (fun _ => 0)
              (fun _ _ => 0) 0 mask_blank mask_4x4_opaque (SkIntToScalar 1)
              kLow_Quality None (repeat 255 16)
              ltac:(reflexivity) ltac:(reflexivity)
              ltac:(repeat constructor; lia) ltac:(intros; simpl; lia)
              ltac:(reflexivity) ltac:(vm_compute; reflexivity)
              ltac:(vm_compute; discriminate) ltac:(vm_compute; discriminate)
              ltac:(vm_compute; discriminate) ltac:(vm_compute; reflexivity))
    as [H _].
  exact H.
Defined.

(** X17.  The solid and outer styles of [Blur], against the normal style on
    the same input.  All three calls leave an image, and the three images
    have the same size.  Outside the window of the source the images are equal.  Inside
    it, the solid pixel is [s + d - round(s*d/255)] of the source pixel [s]
    and the normal pixel [d], never below either of them and never above
    255; the outer pixel is never above the normal pixel and is 0 where the
    source is 255. *)
Theorem Blur_solid_and_outer_against_normal :
  forall rounding unroll addr_of junk src_addr dst src radius quality margin
         separable sp,
    let m := Blur_margin radius quality in
    let sw := irect_width (fBounds src) in
    let sh := irect_height (fBounds src) in
    let W := sw + 2 * m in
    let off := Blur_offset src radius quality in
    fFormat src = kA8_Format -> 0 < Blur_rx radius quality ->
    fImage src = Some sp -> bytes sp ->
    (forall b i, 0 <= junk b i <= 255) ->
    0 <= sw -> 0 <= sh -> W * (sh + 2 * m) < 2 ^ 31 ->
    let image style :=
      fImage (br_dst (Blur rounding unroll addr_of junk src_addr dst src radius
                        style quality margin separable)) in
    exists imgN imgS imgO,
      image kNormal_Style = Some imgN
      /\ image kSolid_Style = Some imgS
      /\ image kOuter_Style = Some imgO
      /\ length imgS = length imgN /\ length imgO = length imgN
      /\ off = m + m * W
      /\ (forall x y, 0 <= x < sw -> 0 <= y < sh ->
            let s := load sp (y * fRowBytes src + x) in
            let d := load imgN (off + y * W + x) in
            load imgS (off + y * W + x) = s + d - round_div255 s d
            /\ d <= load imgS (off + y * W + x) <= 255
            /\ s <= load imgS (off + y * W + x)
            /\ 0 <= load imgO (off + y * W + x) <= d
            /\ (s = 255 -> load imgO (off + y * W + x) = 0))
      /\ (forall q,
            (forall x y, 0 <= x < sw -> 0 <= y < sh -> q <> off + y * W + x) ->
            load imgS q = load imgN q /\ load imgO q = load imgN q).
Proof.
  intros rounding unroll addr_of junk src_addr dst src radius quality margin
         separable sp m sw sh W off HA Hrx Himg Hsp Hjunk Hsw Hsh Hsize image.
  destruct (Blur_normal_result rounding unroll addr_of junk src_addr dst src
              sp radius quality margin separable HA Hrx Himg Hjunk Hsw Hsh
              Hsize) as (_ & HN & _ & HbN).
  destruct (Blur_clamped_result rounding unroll addr_of junk src_addr dst src
              sp radius quality margin separable HA Hrx Himg Hjunk Hsw Hsh
              Hsize kSolid_Style ltac:(left; reflexivity))
    as (_ & imgS & HS & LS & PS & FS).
  destruct (Blur_clamped_result rounding unroll addr_of junk src_addr dst src
              sp radius quality margin separable HA Hrx Himg Hjunk Hsw Hsh
              Hsize kOuter_Style ltac:(right; reflexivity))
    as (_ & imgO & HO & LO & PO & FO).
  destruct (Blur_geometry src radius quality Hrx Hsw Hsh Hsize)
    as (_ & _ & Hoff & _).
  eexists. exists imgS, imgO.
  split; [exact HN|]. split; [exact HS|]. split; [exact HO|].
  split; [exact LS|]. split; [exact LO|]. split; [exact Hoff|].
  split.
  - intros x y Hx Hy s d.
    fold sw sh m W off in PS, PO.
    rewrite (PS x y Hx Hy), (PO x y Hx Hy). fold s d.
    assert (Hs : 0 <= s <= 255) by (apply load_byte; exact Hsp).
    assert (Hd : 0 <= d <= 255) by (apply load_byte; exact HbN).
    destruct (solid_px_law s d Hs Hd) as (E & B1 & B2).
    destruct (outer_px_law s d Hs Hd) as (Z0 & B3).
    repeat split; try lia; assumption.
  - intros q Hq. split; [apply FS | apply FO]; exact Hq.
Qed.

Lemma Blur_solid_and_outer_against_normal_witness :
  exists imgN imgS,
    fImage (br_dst (Blur false false (fun _ => 0) (fun _ _ => 0) 0 mask_blank
                      mask_4x4_opaque (SkIntToScalar 1) kNormal_Style
                      kLow_Quality None true)) = Some imgN
    /\ fImage (br_dst (Blur false false (fun _ => 0) (fun _ _ => 0) 0
                         mask_blank mask_4x4_opaque (SkIntToScalar 1)
                         kSolid_Style kLow_Quality None true)) = Some imgS
    /\ length imgS = length imgN.
Proof.
  destruct (Blur_solid_and_outer_against_normal false false (fun _ => 0)
              (fun _ _ => 0) 0 mask_blank mask_4x4_opaque (SkIntToScalar 1)
              kLow_Quality None true (repeat 255 16)
              ltac:(reflexivity) ltac:(vm_compute; reflexivity)
              ltac:(reflexivity) ltac:(repeat constructor; lia)
              ltac:(intros; simpl; lia)
              ltac:(vm_compute; discriminate) ltac:(vm_compute; discriminate)
              ltac:(vm_compute; reflexivity))
    as (imgN & imgS & imgO & HN & HS & _ & L & _).
  exists imgN, imgS. split; [exact HN|]. split; [exact HS | exact L].
Defined.

(** X18.  The inner style of [Blur], against the normal style on the same
    input: the call leaves an image of the size of the source,
    [sh] rows of [src.fRowBytes] bytes, and its pixel [(x, y)] is the normal
    pixel under it scaled by the source pixel, [(d * (s + 1)) >> 8], never
    above the source pixel nor above the normal pixel. *)
Theorem Blur_inner_against_normal :
  forall rounding unroll addr_of junk src_addr dst src radius quality margin
         separable sp,
    let m := Blur_margin radius quality in
    let sw := irect_width (fBounds src) in
    let sh := irect_height (fBounds src) in
    let W := sw + 2 * m in
    let off := Blur_offset src radius quality in
    fFormat src = kA8_Format -> 0 < Blur_rx radius quality ->
    fImage src = Some sp -> bytes sp ->
    (forall b i, 0 <= junk b i <= 255) ->
    0 <= sw -> 0 <= sh -> W * (sh + 2 * m) < 2 ^ 31 ->
    sw <= fRowBytes src -> 0 < sh * fRowBytes src < 2 ^ 31 ->
    let image style :=
      fImage (br_dst (Blur rounding unroll addr_of junk src_addr dst src radius
                        style quality margin separable)) in
    exists imgN imgI,
      image kNormal_Style = Some imgN
      /\ image kInner_Style = Some imgI
      /\ Z.of_nat (length imgI) = sh * fRowBytes src
      /\ forall x y, 0 <= x < sw -> 0 <= y < sh ->
           let s := load sp (y * fRowBytes src + x) in
           let d := load imgN (off + y * W + x) in
           load imgI (y * fRowBytes src + x) = Z.shiftr (d * (s + 1)) 8
           /\ 0 <= load imgI (y * fRowBytes src + x) <= s
           /\ load imgI (y * fRowBytes src + x) <= d.
Proof.
  intros rounding unroll addr_of junk src_addr dst src radius quality margin
         separable sp m sw sh W off HA Hrx Himg Hsp Hjunk Hsw Hsh Hsize
         Hrb Hsrcsize image.
  destruct (Blur_normal_result rounding unroll addr_of junk src_addr dst src
              sp radius quality margin separable HA Hrx Himg Hjunk Hsw Hsh
              Hsize) as (_ & HN & _ & HbN).
  destruct (Blur_inner_result rounding unroll addr_of junk src_addr dst src
              sp radius quality margin separable HA Hrx Himg Hsw Hsh
              Hsize Hrb Hsrcsize)
    as (_ & imgI & HI & LI & PI).
  eexists. exists imgI.
  split; [exact HN|]. split; [exact HI|]. split; [exact LI|].
  intros x y Hx Hy s d.
  fold sw sh m W off in PI. rewrite (PI x y Hx Hy). fold s d.
  assert (Hs : 0 <= s <= 255) by (apply load_byte; exact Hsp).
  assert (Hd : 0 <= d <= 255) by (apply load_byte; exact HbN).
  destruct (inner_px_law s d Hs Hd) as (B1 & B2).
  split; [|split; lia].
  unfold inner_px, SkAlphaMul, SkAlpha255To256, SkToU8, to_u8 in *.
  apply Z.mod_small.
  rewrite Z.shiftr_div_pow2 by lia.
  split; [apply Z.div_pos; nia|].
  apply Z.div_lt_upper_bound; [lia|]. nia.
Qed.

Lemma Blur_inner_against_normal_witness :
  exists imgI,
    fImage (br_dst (Blur false false (fun _ => 0) (fun _ _ => 0) 0 mask_blank
                      mask_4x4_opaque (SkIntToScalar 1) kInner_Style
                      kLow_Quality None true)) = Some imgI
    /\ Z.of_nat (length imgI) = 4 * 4.
Proof.
  destruct (Blur_inner_against_normal false false (fun _ => 0)
              (fun _ _ => 0) 0 mask_blank mask_4x4_opaque (SkIntToScalar 1)
              kLow_Quality None true (repeat 255 16)
              ltac:(reflexivity) ltac:(vm_compute; reflexivity)
              ltac:(reflexivity) ltac:(repeat constructor; lia)
              ltac:(intros; simpl; lia)
              ltac:(vm_compute; discriminate) ltac:(vm_compute; discriminate)
              ltac:(vm_compute; reflexivity)
              ltac:(vm_compute; discriminate)
              ltac:(vm_compute; split; reflexivity))
    as (imgN & imgI & _ & HI & L & _).
  exists imgI. split; [exact HI | exact L].
Defined.

(** ** [BlurRect] *)

(** X19.  [profile_lookup] reads the same entry at equal distances from the
    two ends of the blurred side, never reads at a negative index, and reads
    [profile[0]] wherever the distance from the center leaves the sharp
    width (plus one) uncovered. *)
Theorem profile_lookup_is_symmetric :
  forall profile loc blurred_width sharp_width,
    profile_lookup profile (blurred_width - 1 - loc) blurred_width sharp_width
    = profile_lookup profile loc blurred_width sharp_width
    /\ exists ox,
         profile_lookup profile loc blurred_width sharp_width = load profile ox
         /\ 0 <= ox
         /\ 2 * ox
            <= Z.max 0 (Z.abs (2 * loc + 1 - blurred_width) - sharp_width)
         /\ (Z.abs (2 * loc + 1 - blurred_width) <= sharp_width + 1 -> ox = 0).
Proof.
  intros. split; [apply profile_lookup_mirror | apply profile_lookup_index].
Qed.

(** X20.  [compute_profile] keeps the size of the array it fills; when the
    profile size is at least 1 and fits the array, entry 0 is 255 and every
    entry below the profile size is between 0 and 255. *)
Theorem compute_profile_entries :
  forall profile radius,
    let size := compute_profile_size radius in
    let out := compute_profile profile radius in
    length out = length profile
    /\ (1 <= size <= Z.of_nat (length profile) ->
        load out 0 = 255
        /\ forall x, 0 <= x < size -> 0 <= load out x <= 255).
Proof. intros. apply compute_profile_range. Qed.

Lemma compute_profile_entries_witness :
  load (compute_profile (repeat 7 6) (SkIntToScalar 2)) 0 = 255.
Proof.
  destruct (compute_profile_entries (repeat 7 6) (SkIntToScalar 2)) as [_ H].
  apply H. vm_compute. split; discriminate.
Defined.

(** X21.  Whatever [BlurRect] returns, the profile and the scanline buffer
    have been released; what is still allocated is exactly the image left
    in [dst->fImage]: nothing when that is NULL, the source-sized image
    after a successful inner blur, the buffer [dp] otherwise. *)
Theorem BlurRect_releases_its_temporaries :
  forall junk dst src provided_radius style margin createMode,
    let r := BlurRect junk dst src provided_radius style margin createMode in
    live (br_heap r)
    = match fImage (br_dst r) with
      | None => []
      | Some _ => [if is_inner style && br_ret r then blk_inner else blk_dp]
      end.
Proof. intros. apply BlurRect_live. Qed.

(** X22.  The margin [BlurRect] reports does not depend on the create
    mode, and when it returns true neither do the bounds and the row stride
    of the output mask: they are the ones of the [kJustComputeBounds]
    call. *)
Theorem BlurRect_same_geometry_in_every_mode :
  forall junk dst src provided_radius style margin createMode,
    let r := BlurRect junk dst src provided_radius style margin createMode in
    let r0 := BlurRect junk dst src provided_radius style margin
                kJustComputeBounds_CreateMode in
    br_margin r = br_margin r0
    /\ (br_ret r = true ->
        fBounds (br_dst r) = fBounds (br_dst r0)
        /\ fRowBytes (br_dst r) = fRowBytes (br_dst r0)
        /\ fFormat (br_dst r) = kA8_Format).
Proof. intros. apply BlurRect_geometry. Qed.

Lemma BlurRect_same_geometry_in_every_mode_witness :
  fBounds (br_dst (BlurRect (fun _ _ => 0) mask_blank
                     (mkRect (SkIntToScalar 0) (SkIntToScalar 0)
                             (SkIntToScalar 4) (SkIntToScalar 4))
                     (SkIntToScalar 1) kNormal_Style None
                     kComputeBoundsAndRenderImage_CreateMode))
  = fBounds (br_dst (BlurRect (fun _ _ => 0) mask_blank
                       (mkRect (SkIntToScalar 0) (SkIntToScalar 0)
                               (SkIntToScalar 4) (SkIntToScalar 4))
                       (SkIntToScalar 1) kNormal_Style None
                       kJustComputeBounds_CreateMode)).
Proof.
  destruct (BlurRect_same_geometry_in_every_mode (fun _ _ => 0) mask_blank
              (mkRect (SkIntToScalar 0) (SkIntToScalar 0)
                      (SkIntToScalar 4) (SkIntToScalar 4))
              (SkIntToScalar 1) kNormal_Style None
              kComputeBoundsAndRenderImage_CreateMode) as [_ H].
  apply H. vm_compute. reflexivity.
Defined.





(** X25.  Where the profile fits the integer width of the source, the
    image [BlurRect] renders (normal or solid style) is the same read from
    the left and from the right; where it fits the integer height, the same
    read from the top and from the bottom. *)
Theorem BlurRect_image_is_symmetric :
  forall junk dst src provided_radius style margin createMode,
    let Wd := irect_width (BlurRect_bounds src provided_radius) in
    let Hd := irect_height (BlurRect_bounds src provided_radius) in
    createMode <> kJustComputeBounds_CreateMode ->
    style = kNormal_Style \/ style = kSolid_Style ->
    1 <= Wd -> 1 <= Hd -> Wd * Hd < 2 ^ 31 ->
    exists img,
      fImage (br_dst (BlurRect junk dst src provided_radius style margin
                        createMode)) = Some img
      /\ (BlurRect_profile_size provided_radius <= BlurRect_sw src ->
          forall x y, 0 <= x < Wd -> 0 <= y < Hd ->
            load img (y * Wd + (Wd - 1 - x)) = load img (y * Wd + x))
      /\ (BlurRect_profile_size provided_radius <= BlurRect_sh src ->
          forall x y, 0 <= x < Wd -> 0 <= y < Hd ->
            load img ((Hd - 1 - y) * Wd + x) = load img (y * Wd + x)).
Proof.
  intros junk dst src pr style margin createMode Wd Hd Hmode Hst HWd HHd Hsize.
  destruct (BlurRect_raster junk dst src pr margin createMode
              Hmode HWd HHd Hsize style) as (imgN & L & Px & Hr).
  cbv zeta in Hr.
  assert (Himg : fImage (br_dst (BlurRect junk dst src pr style margin
                                   createMode)) = Some imgN)
    by (destruct Hst; subst style; apply Hr).
  fold Wd Hd in Px.
  exists imgN. split; [exact Himg|]. split.
  - intros Hfit x y Hx Hy.
    rewrite (Px (Wd - 1 - x) y) by lia. rewrite (Px x y) by lia.
    unfold BlurRect_px. unfold Wd.
    rewrite BlurRect_weight_x_mirror by exact Hfit. reflexivity.
  - intros Hfit x y Hx Hy.
    rewrite (Px x (Hd - 1 - y)) by lia. rewrite (Px x y) by lia.
    unfold BlurRect_px. unfold Hd.
    rewrite BlurRect_weight_y_mirror by exact Hfit. reflexivity.
Qed.

Lemma BlurRect_image_is_symmetric_witness :
  exists img,
    fImage (br_dst (BlurRect (fun _ _ => 0) mask_blank
                      (mkRect (SkIntToScalar 0) (SkIntToScalar 0)
                              (SkIntToScalar 8) (SkIntToScalar 8))
                      (SkIntToScalar 1) kNormal_Style None
                      kComputeBoundsAndRenderImage_CreateMode)) = Some img
    /\ load img (0 * 14 + (14 - 1 - 2)) = load img (0 * 14 + 2).
Proof.
  destruct (BlurRect_image_is_symmetric (fun _ _ => 0) mask_blank
              (mkRect (SkIntToScalar 0) (SkIntToScalar 0)
                      (SkIntToScalar 8) (SkIntToScalar 8))
              (SkIntToScalar 1) kNormal_Style None
              kComputeBoundsAndRenderImage_CreateMode) as (img & Hi & Hx & _).
  - discriminate.
  - left. reflexivity.
  - vm_compute. discriminate.
  - vm_compute. discriminate.
  - vm_compute. reflexivity.
  - exists img. split; [exact Hi|].
    apply (Hx ltac:(vm_compute; discriminate) 2 0);
      vm_compute; split; congruence.
Defined.

